(** * The localisation pipeline: extractor, translation cache, replacer

    A shallow embedding of the three scripts of the pipeline
    ([extract-text.js] with its Vue SFC sibling, [translate-text.js],
    [replace-text.js]) and the properties their specification states.

    Conventions of the embedding.
    - A JavaScript string is the list of its UTF-16 code units.
    - A [Map] is the list of its bindings in insertion order, one
      binding per key.  A plain object used as a dictionary is the list
      of its own enumerable properties in insertion order (the special
      place of array-index keys in the enumeration order is not
      represented); assignment to the key [__proto__] follows the
      accessor inherited from [Object.prototype].
    - [new Date()] and the translation provider are inputs: every
      function that reads the clock or calls the provider receives the
      environment and counts its reads in the state.
    - An exception is a value of the result type. *)

From Stdlib Require Import NArith ZArith List String Ascii Bool Lia.
From Stdlib Require Import Sorting.Sorted Sorting.Permutation.
From stdpp Require Import base decidable numbers list.
Import ListNotations.

Set Warnings "-register-all".
Local Open Scope list_scope.

(* ================================================================== *)
(** * JavaScript strings *)
(* ================================================================== *)

Module Js.

(** A code unit and a string. *)
Definition char := N.
Definition jsstring := list char.

(** An ASCII literal as a JavaScript string. *)
Definition js (s : string) : jsstring :=
  List.map N_of_ascii (list_ascii_of_string s).

(** Truthiness of a string: only the empty string is falsy. *)
Definition truthy (s : jsstring) : bool :=
  match s with [] => false | _ :: _ => true end.

(** [WhiteSpace] and [LineTerminator] of ECMAScript: what [trim] removes
    and what [\s] matches. *)
Definition is_line_terminator (c : char) : bool :=
  (N.eqb c 10 || N.eqb c 13 || N.eqb c 8232 || N.eqb c 8233)%N.

Definition is_whitespace (c : char) : bool :=
  (N.eqb c 9 || N.eqb c 11 || N.eqb c 12 || N.eqb c 32 || N.eqb c 160
   || N.eqb c 5760 || (N.leb 8192 c && N.leb c 8202)
   || N.eqb c 8239 || N.eqb c 8287 || N.eqb c 12288 || N.eqb c 65279
   || is_line_terminator c)%N.

(** [\d]. *)
Definition is_digit (c : char) : bool := (N.leb 48 c && N.leb c 57)%N.

(** [.] without the [s] flag. *)
Definition is_dot (c : char) : bool := negb (is_line_terminator c).

(** The double and the single quote. *)
Definition is_quote (c : char) : bool := (N.eqb c 34 || N.eqb c 39)%N.

Fixpoint dropWhile (p : char -> bool) (s : jsstring) : jsstring :=
  match s with
  | [] => []
  | c :: s' => if p c then dropWhile p s' else s
  end.

(** [String.prototype.trim]. *)
Definition trimStart (s : jsstring) : jsstring := dropWhile is_whitespace s.
Definition trimEnd (s : jsstring) : jsstring :=
  rev (dropWhile is_whitespace (rev s)).
Definition trim (s : jsstring) : jsstring := trimEnd (trimStart s).

(** [s.split(sep)] for a separator of one code unit: never empty. *)
Fixpoint split (sep : char) (s : jsstring) : list jsstring :=
  match s with
  | [] => [[]]
  | c :: s' =>
      if N.eqb c sep then [] :: split sep s'
      else match split sep s' with
           | [] => [[c]]
           | l :: ls => (c :: l) :: ls
           end
  end.

(** [s.startsWith(k)]. *)
Fixpoint startsWith (k s : jsstring) : bool :=
  match k, s with
  | [], _ => true
  | _ :: _, [] => false
  | a :: k', b :: s' => N.eqb a b && startsWith k' s'
  end.

(** [s.includes(k)]. *)
Fixpoint includes (k s : jsstring) : bool :=
  startsWith k s ||
  match s with
  | [] => false
  | _ :: s' => includes k s'
  end.

End Js.

Import Js.

(* ================================================================== *)
(** * Maps and objects used as dictionaries *)
(* ================================================================== *)

Module JsMap.

Section Bindings.
Context {V : Type}.

Definition t := list (jsstring * V).

(** [m.get(k)], [o[k]] on own properties. *)
Fixpoint get (m : list (jsstring * V)) (k : jsstring) : option V :=
  match m with
  | [] => None
  | (k', v) :: m' => if decide (k = k') then Some v else get m' k
  end.

(** [m.has(k)]. *)
Definition has (m : list (jsstring * V)) (k : jsstring) : bool :=
  match get m k with Some _ => true | None => false end.

(** [m.set(k, v)]: a present key keeps its place, a new key goes last. *)
Fixpoint set (m : list (jsstring * V)) (k : jsstring) (v : V)
  : list (jsstring * V) :=
  match m with
  | [] => [(k, v)]
  | (k', v') :: m' =>
      if decide (k = k') then (k, v) :: m' else (k', v') :: set m' k v
  end.

(** The key on which a plain object defers to its prototype. *)
Definition proto_key : jsstring := js "__proto__".

(** [o[k] = v] on an object created by [{}] or by [JSON.parse]: an own
    property is overwritten in place; a new key becomes the last own
    property, except [__proto__], which reaches the inherited setter
    and leaves the own properties as they are. *)
Definition assign (o : list (jsstring * V)) (k : jsstring) (v : V)
  : list (jsstring * V) :=
  if has o k then set o k v
  else if decide (k = proto_key) then o
  else set o k v.

Definition keys (m : list (jsstring * V)) : list jsstring := List.map fst m.
Definition values (m : list (jsstring * V)) : list V := List.map snd m.

End Bindings.

Arguments t V : clear implicits.

End JsMap.

(* ================================================================== *)
(** * Regular expressions of the scripts *)
(* ================================================================== *)

Module RegExp.

(** The patterns the translator matches lines with are sequences of
    quantified character classes between [^] and [$]; parentheses mark
    the classes whose match is captured.  Quantifiers are greedy and
    give characters back on failure, as the backtracking matcher of
    ECMAScript does. *)
Inductive quantifier := One | Star | Plus.

Record atom := Atom {
  class : char -> bool;
  quant : quantifier;
  captured : bool
}.

Section Matcher.
Context {R : Type}.

(** Longest run of [p] first, then shorter ones. *)
Fixpoint greedy (p : char -> bool) (s acc : jsstring)
    (k : jsstring -> jsstring -> option R) : option R :=
  match s with
  | c :: s' =>
      if p c then
        match greedy p s' (acc ++ [c]) k with
        | Some r => Some r
        | None => k acc s
        end
      else k acc s
  | [] => k acc []
  end.

End Matcher.

(** [/^atoms$/.exec(s)]: the captures, in order, when [s] matches. *)
Fixpoint exec (atoms : list atom) (s : jsstring) (caps : list jsstring)
  : option (list jsstring) :=
  match atoms with
  | [] => match s with [] => Some caps | _ :: _ => None end
  | a :: rest =>
      let k := fun consumed s' =>
        exec rest s' (if captured a then caps ++ [consumed] else caps) in
      match quant a with
      | One =>
          match s with
          | c :: s' => if class a c then k [c] s' else None
          | [] => None
          end
      | Star => greedy (class a) s [] k
      | Plus =>
          match s with
          | c :: s' => if class a c then greedy (class a) s' [c] k else None
          | [] => None
          end
      end
  end.

(** The characters [escapeRegExp] protects: [. * + ? ^ $ { } ( ) | [ ] \]. *)
Definition is_syntax_character (c : char) : bool :=
  (N.eqb c 46 || N.eqb c 42 || N.eqb c 43 || N.eqb c 63 || N.eqb c 94
   || N.eqb c 36 || N.eqb c 123 || N.eqb c 125 || N.eqb c 40 || N.eqb c 41
   || N.eqb c 124 || N.eqb c 91 || N.eqb c 93 || N.eqb c 92)%N.

(** [new RegExp(source)] for a source made of ordinary characters and of
    escaped syntax characters: the literal text it matches.  A source
    with a bare syntax character is outside this fragment. *)
Fixpoint literal (source : jsstring) : option jsstring :=
  match source with
  | [] => Some []
  | c :: rest =>
      if N.eqb c 92 then
        match rest with
        | d :: rest' =>
            if is_syntax_character d then
              option_map (cons d) (literal rest')
            else None
        | [] => None
        end
      else if is_syntax_character c then None
      else option_map (cons c) (literal rest)
  end.

End RegExp.

(* ================================================================== *)
(** * The patterns of the filters *)
(* ================================================================== *)

Module Pattern.

(** The filters of the extractors only ask whether a pattern matches
    ([test] without the flags [g] and [y]), so a pattern is taken for the
    set of strings it matches: classes by their ranges of code units,
    sequence, alternative and repetition; [^] and [$] are kept beside
    each alternative of the pattern. *)
Inductive class :=
  | OneOf (ranges : list (N * N))
  | NoneOf (ranges : list (N * N)).

Definition in_ranges (ranges : list (N * N)) (c : char) : bool :=
  existsb (fun r => (N.leb (fst r) c && N.leb c (snd r))%N) ranges.

Definition member (k : class) (c : char) : bool :=
  match k with
  | OneOf ranges => in_ranges ranges c
  | NoneOf ranges => negb (in_ranges ranges c)
  end.

Inductive t :=
  | Never
  | Eps
  | Chr (k : class)
  | Seq (a b : t)
  | Alt (a b : t)
  | Star (a : t).

Fixpoint nullable (r : t) : bool :=
  match r with
  | Never => false
  | Eps => true
  | Chr _ => false
  | Seq a b => nullable a && nullable b
  | Alt a b => nullable a || nullable b
  | Star _ => true
  end.

(** What is left of the pattern after the code unit [c]. *)
Fixpoint deriv (c : char) (r : t) : t :=
  match r with
  | Never => Never
  | Eps => Never
  | Chr k => if member k c then Eps else Never
  | Seq a b =>
      if nullable a then Alt (Seq (deriv c a) b) (deriv c b)
      else Seq (deriv c a) b
  | Alt a b => Alt (deriv c a) (deriv c b)
  | Star a => Seq (deriv c a) (Star a)
  end.

(** The whole string is matched. *)
Definition matches (r : t) (s : jsstring) : bool :=
  nullable (fold_left (fun r c => deriv c r) s r).

(** [a+], [a?], [a{n}], [a{0,n}], [a{n,m}] and [a{n,}]. *)
Definition Plus (a : t) : t := Seq a (Star a).
Definition Opt (a : t) : t := Alt a Eps.

Fixpoint Times (n : nat) (a : t) : t :=
  match n with
  | O => Eps
  | S n' => Seq a (Times n' a)
  end.

Fixpoint UpTo (n : nat) (a : t) : t :=
  match n with
  | O => Eps
  | S n' => Opt (Seq a (UpTo n' a))
  end.

Definition Between (n m : nat) (a : t) : t := Seq (Times n a) (UpTo (m - n) a).
Definition AtLeast (n : nat) (a : t) : t := Seq (Times n a) (Star a).

(** The ranges [a-z], [A-Z], [0-9] and that of one code unit. *)
Definition a_z : N * N := (97, 122)%N.
Definition A_Z : N * N := (65, 90)%N.
Definition d0_9 : N * N := (48, 57)%N.
Definition one (c : N) : N * N := (c, c).

(** [[a-z]], [[A-Z]], [[a-zA-Z]], [\d], [\w] and [.]. *)
Definition small : t := Chr (OneOf [a_z]).
Definition capital : t := Chr (OneOf [A_Z]).
Definition letter : t := Chr (OneOf [a_z; A_Z]).
Definition digit : t := Chr (OneOf [d0_9]).
Definition word : t := Chr (OneOf [a_z; A_Z; d0_9; one 95]).
Definition dot : t := Chr (NoneOf [one 10; one 13; (8232, 8233)%N]).

(** The characters of a text, one after the other. *)
Fixpoint Lit (s : jsstring) : t :=
  match s with
  | [] => Eps
  | c :: s' => Seq (Chr (OneOf [one c])) (Lit s')
  end.

(** The same under the flag [i]: a letter of the ASCII alphabet stands
    for its two cases, and no other code unit is folded onto it. *)
Definition both_cases (c : char) : list (N * N) :=
  if (N.leb 97 c && N.leb c 122)%N then [one c; one (c - 32)%N]
  else if (N.leb 65 c && N.leb c 90)%N then [one c; one (c + 32)%N]
  else [one c].

Fixpoint LitI (s : jsstring) : t :=
  match s with
  | [] => Eps
  | c :: s' => Seq (Chr (OneOf (both_cases c))) (LitI s')
  end.

(** An alternative of a pattern: whether it begins with [^], what it
    matches, whether it ends with [$]. *)
Record alternative := Alternative {
  fromStart : bool;
  body : t;
  toEnd : bool
}.

(** [^r$], [^r] and [r]. *)
Definition whole (r : t) : alternative := Alternative true r true.
Definition opening (r : t) : alternative := Alternative true r false.
Definition inside (r : t) : alternative := Alternative false r false.

(** Any string, line terminators included. *)
Definition anything : t := Star (Chr (NoneOf [])).

(** The strings in which the alternative matches somewhere. *)
Definition frame (a : alternative) : t :=
  Seq (if fromStart a then Eps else anything)
      (Seq (body a) (if toEnd a then Eps else anything)).

(** A pattern as the source writes it, and its alternatives. *)
Record regex := RegEx {
  source : string;
  alternatives : list alternative
}.

(** The pattern of one letter of the ASCII alphabet. *)
Definition a_letter : regex := RegEx "/[a-zA-Z]/" [inside letter].

(** [pattern.test(s)]. *)
Definition test (pattern : regex) (s : jsstring) : bool :=
  existsb (fun a => matches (frame a) s) (alternatives pattern).

End Pattern.

(* ================================================================== *)
(** * Files and the outside world *)
(* ================================================================== *)

(** What [fs.existsSync] and [JSON.parse(fs.readFileSync(..))] find. *)
Inductive file (A : Type) :=
  | Missing
  | Unparsable
  | Parsed (a : A).
Arguments Missing {A}.
Arguments Unparsable {A}.
Arguments Parsed {A} a.

(* ================================================================== *)
(** * translate-text.js: class AITranslator *)
(* ================================================================== *)

Module Entry.
(** A cache entry, as [setCachedTranslation] builds it. *)
Record t := Build {
  original : jsstring;
  translated : jsstring;
  context : jsstring;
  model : jsstring;
  targetLanguage : jsstring;
  createdAt : jsstring
}.
End Entry.

Module Item.
(** An element of [extractedData.texts]. *)
Record t := Build {
  text : jsstring;
  context : jsstring;
  file : option jsstring;
  files : option (list jsstring)
}.
End Item.

Module Result.
(** A value of [this.translations]. *)
Record t := Build {
  original : jsstring;
  translated : jsstring;
  context : jsstring;
  files : list (option jsstring);
  error : bool;
  fromCache : bool
}.
End Result.

Module AITranslator.

(** The JSON document of [translation-cache.json]; a field that is
    absent is [None]. *)
Record CacheData := {
  version : option jsstring;
  lastUpdated : option jsstring;
  cache_field : option (JsMap.t Entry.t)
}.

(** The JSON document of [extracted-text.json]. *)
Record Metadata := {
  sourceDir : jsstring;
  extractedAt : jsstring;
  filesProcessed : nat;
  textsFound : nat
}.

Record ExtractedData := {
  metadata : option Metadata;
  texts : option (list Item.t)
}.

(** A prompt, up to its fixed wording: the target language and the
    texts it carries (numbered from one in a batch prompt). *)
Inductive prompt :=
  | BatchPrompt (language : jsstring) (numbered : list (nat * jsstring))
  | SinglePrompt (language : jsstring) (text : jsstring).

(** What [callOpenAI] comes back with: the content of the first choice,
    or an exception (a status that is not ok, no choice). *)
Inductive reply :=
  | Throws
  | Content (response : jsstring).

(** The provider and the clock, by the number of earlier uses. *)
Record World := {
  provider : nat -> prompt -> reply;
  toISOString : nat -> jsstring
}.

(** [process.env]. *)
Record ProcessEnv := {
  OPENAI_API_KEY : option jsstring;
  OPENAI_MODEL : option jsstring;
  API_ENDPOINT : option jsstring;
  TARGET_LANGUAGE : option jsstring
}.

(** The fields of [this], the prompts sent to the provider so far and
    the number of times the clock was read. *)
Record t := {
  apiKey : jsstring;
  model : jsstring;
  apiEndpoint : jsstring;
  targetLanguage : jsstring;
  translations : JsMap.t Result.t;
  processedCount : nat;
  totalCount : nat;
  cacheHits : nat;
  apiCalls : nat;
  cache : JsMap.t Entry.t;
  sent : list prompt;
  clockReads : nat
}.

Definition with_translations (this : t) (x : JsMap.t Result.t) : t :=
  {| apiKey := apiKey this; model := model this;
     apiEndpoint := apiEndpoint this; targetLanguage := targetLanguage this;
     translations := x; processedCount := processedCount this;
     totalCount := totalCount this; cacheHits := cacheHits this;
     apiCalls := apiCalls this; cache := cache this;
     sent := sent this; clockReads := clockReads this |}.

Definition with_processedCount (this : t) (x : nat) : t :=
  {| apiKey := apiKey this; model := model this;
     apiEndpoint := apiEndpoint this; targetLanguage := targetLanguage this;
     translations := translations this; processedCount := x;
     totalCount := totalCount this; cacheHits := cacheHits this;
     apiCalls := apiCalls this; cache := cache this;
     sent := sent this; clockReads := clockReads this |}.

Definition with_totalCount (this : t) (x : nat) : t :=
  {| apiKey := apiKey this; model := model this;
     apiEndpoint := apiEndpoint this; targetLanguage := targetLanguage this;
     translations := translations this; processedCount := processedCount this;
     totalCount := x; cacheHits := cacheHits this;
     apiCalls := apiCalls this; cache := cache this;
     sent := sent this; clockReads := clockReads this |}.

Definition with_cacheHits (this : t) (x : nat) : t :=
  {| apiKey := apiKey this; model := model this;
     apiEndpoint := apiEndpoint this; targetLanguage := targetLanguage this;
     translations := translations this; processedCount := processedCount this;
     totalCount := totalCount this; cacheHits := x;
     apiCalls := apiCalls this; cache := cache this;
     sent := sent this; clockReads := clockReads this |}.

Definition with_apiCalls (this : t) (x : nat) : t :=
  {| apiKey := apiKey this; model := model this;
     apiEndpoint := apiEndpoint this; targetLanguage := targetLanguage this;
     translations := translations this; processedCount := processedCount this;
     totalCount := totalCount this; cacheHits := cacheHits this;
     apiCalls := x; cache := cache this;
     sent := sent this; clockReads := clockReads this |}.

Definition with_cache (this : t) (x : JsMap.t Entry.t) : t :=
  {| apiKey := apiKey this; model := model this;
     apiEndpoint := apiEndpoint this; targetLanguage := targetLanguage this;
     translations := translations this; processedCount := processedCount this;
     totalCount := totalCount this; cacheHits := cacheHits this;
     apiCalls := apiCalls this; cache := x;
     sent := sent this; clockReads := clockReads this |}.

Definition with_sent (this : t) (x : list prompt) : t :=
  {| apiKey := apiKey this; model := model this;
     apiEndpoint := apiEndpoint this; targetLanguage := targetLanguage this;
     translations := translations this; processedCount := processedCount this;
     totalCount := totalCount this; cacheHits := cacheHits this;
     apiCalls := apiCalls this; cache := cache this;
     sent := x; clockReads := clockReads this |}.

Definition with_clockReads (this : t) (x : nat) : t :=
  {| apiKey := apiKey this; model := model this;
     apiEndpoint := apiEndpoint this; targetLanguage := targetLanguage this;
     translations := translations this; processedCount := processedCount this;
     totalCount := totalCount this; cacheHits := cacheHits this;
     apiCalls := apiCalls this; cache := cache this;
     sent := sent this; clockReads := x |}.

(** [new Date().toISOString()]. *)
Definition now (w : World) (this : t) : jsstring * t :=
  (toISOString w (clockReads this),
   with_clockReads this (S (clockReads this))).

(** [a || b] on strings that may be undefined. *)
Definition or_default (a : option jsstring) (b : jsstring) : jsstring :=
  match a with
  | Some s => if truthy s then s else b
  | None => b
  end.

(** [loadCache]: the entries of the file whose model and target language
    are those of this run are set into [this.cache]; a file that does
    not parse clears it. *)
Definition loadCache (this : t) (disk : file CacheData) : t :=
  match disk with
  | Missing => this
  | Unparsable => with_cache this []
  | Parsed cacheData =>
      match version cacheData, cache_field cacheData with
      | Some v, Some entries =>
          if truthy v then
            with_cache this
              (fold_left
                 (fun (m : JsMap.t Entry.t) (kv : jsstring * Entry.t) =>
                    let (key, entry) := kv in
                    if decide (Entry.model entry = model this) then
                      if decide (Entry.targetLanguage entry
                                 = targetLanguage this)
                      then JsMap.set m key entry
                      else m
                    else m)
                 entries (cache this))
          else this
      | _, _ => this
      end
  end.

(** [constructor]: the exception of a missing key is [None]. *)
Definition constructor (env : ProcessEnv) (disk : file CacheData)
  : option t :=
  let key := or_default (OPENAI_API_KEY env) [] in
  if truthy key then
    Some (loadCache
            {| apiKey := key;
               model := or_default (OPENAI_MODEL env) (js "gpt-4o-mini");
               apiEndpoint :=
                 or_default (API_ENDPOINT env) (js "https://api.openai.com/v1");
               targetLanguage :=
                 or_default (TARGET_LANGUAGE env)
                   [31616; 20307; 20013; 25991]%N;
               translations := []; processedCount := 0; totalCount := 0;
               cacheHits := 0; apiCalls := 0; cache := [];
               sent := []; clockReads := 0 |}
            disk)
  else None.

(** [saveCache]: the entries found on disk now, with the entries of
    [this.cache] assigned over them, under a fresh [lastUpdated]. *)
Definition saveCache (w : World) (this : t) (disk : file CacheData)
  : file CacheData * t :=
  let existingCache :=
    match disk with
    | Parsed cacheData =>
        match cache_field cacheData with
        | Some entries => entries
        | None => []
        end
    | _ => []
    end in
  let existingCache :=
    fold_left
      (fun (o : JsMap.t Entry.t) (kv : jsstring * Entry.t) =>
         JsMap.assign o (fst kv) (snd kv))
      (cache this) existingCache in
  let (date, this) := now w this in
  (Parsed {| version := Some (js "1.0");
             lastUpdated := Some date;
             cache_field := Some existingCache |},
   this).

(** [getCacheKey]. *)
Definition getCacheKey (this : t) (text context : jsstring) : jsstring :=
  text ++ js "|" ++ model this ++ js "|" ++ targetLanguage this
       ++ js "|" ++ context.

(** [getCachedTranslation]: [None] is the [null] of a miss. *)
Definition getCachedTranslation (this : t) (text context : jsstring)
  : option jsstring * t :=
  let key := getCacheKey this text context in
  match JsMap.get (cache this) key with
  | Some cached =>
      if truthy (Entry.translated cached) then
        (Some (Entry.translated cached),
         with_cacheHits this (S (cacheHits this)))
      else (None, this)
  | None => (None, this)
  end.

(** [setCachedTranslation]. *)
Definition setCachedTranslation (w : World) (this : t)
    (text translated context : jsstring) : t :=
  let key := getCacheKey this text context in
  let (date, this) := now w this in
  with_cache this
    (JsMap.set (cache this) key
       {| Entry.original := text;
          Entry.translated := translated;
          Entry.context := context;
          Entry.model := model this;
          Entry.targetLanguage := targetLanguage this;
          Entry.createdAt := date |}).

(** [separateCachedTexts]. *)
Definition separateCachedTexts (this : t) (texts : list Item.t)
  : list Item.t * list Item.t * t :=
  fold_left
    (fun (acc : list Item.t * list Item.t * t) (text : Item.t) =>
       let '(cachedTexts, uncachedTexts, this) := acc in
       let (cached, this) :=
         getCachedTranslation this (Item.text text) (Item.context text) in
       match cached with
       | Some _ => (cachedTexts ++ [text], uncachedTexts, this)
       | None => (cachedTexts, uncachedTexts ++ [text], this)
       end)
    texts ([], [], this).

(** [createBatches]: the loop over [i], by what is left after [i]. *)
Fixpoint createBatches_from (fuel : nat) (texts : list Item.t)
    (batchSize : nat) : list (list Item.t) :=
  match fuel with
  | O => []
  | S fuel' =>
      match texts with
      | [] => []
      | _ :: _ =>
          firstn batchSize texts
          :: createBatches_from fuel' (skipn batchSize texts) batchSize
      end
  end.

Definition createBatches (texts : list Item.t) (batchSize : nat)
  : list (list Item.t) :=
  createBatches_from (length texts) texts batchSize.

(** [createBatchPrompt] and the prompt of [translateSingle]. *)
Definition createBatchPrompt (this : t) (batch : list Item.t) : prompt :=
  BatchPrompt (targetLanguage this)
    (combine (seq 1 (length batch)) (List.map Item.text batch)).

(** [callOpenAI]. *)
Definition callOpenAI (w : World) (this : t) (p : prompt) : reply * t :=
  (provider w (length (sent this)) p, with_sent this (sent this ++ [p])).

(** [s.replace(/^[QUOTE]|[QUOTE]$/g, '')]: a quote at index 0 goes, and
    so does a quote at the last index when the first alternative has
    not consumed it. *)
Definition stripQuotes (s : jsstring) : jsstring :=
  match s with
  | [] => []
  | c :: r =>
      let s1 := if is_quote c then r else s in
      match rev s1 with
      | [] => []
      | q :: r' => if is_quote q then rev r' else s1
      end
  end.

(** [translateSingle]. *)
Definition translateSingle (w : World) (this : t) (text : jsstring)
  : option jsstring * t :=
  let (r, this) := callOpenAI w this (SinglePrompt (targetLanguage this) text) in
  match r with
  | Throws => (None, this)
  | Content response => (Some (stripQuotes (trim response)), this)
  end.

(** [/^\d+\.\s*(.+)$/]. *)
Definition numbered_line : list RegExp.atom :=
  [ RegExp.Atom is_digit RegExp.Plus false;
    RegExp.Atom (N.eqb 46) RegExp.One false;
    RegExp.Atom is_whitespace RegExp.Star false;
    RegExp.Atom is_dot RegExp.Plus true ].

(** The [while] loop of [parseBatchResponse]. *)
Fixpoint pad (fuel : nat) (translations : list jsstring)
    (originalBatch : list Item.t) : list jsstring :=
  match fuel with
  | O => translations
  | S fuel' =>
      if length translations <? length originalBatch then
        let missingIndex := length translations in
        match nth_error originalBatch missingIndex with
        | Some item => pad fuel' (translations ++ [Item.text item]) originalBatch
        | None => translations
        end
      else translations
  end.

(** The [for] loop of [parseBatchResponse]. *)
Definition labelled_lines (lines : list jsstring) : list jsstring :=
  fold_left
    (fun (translations : list jsstring) (line : jsstring) =>
       match RegExp.exec numbered_line line [] with
       | Some [group1] => translations ++ [stripQuotes (trim group1)]
       | _ => translations
       end)
    lines [].

(** [parseBatchResponse]. *)
Definition parseBatchResponse (response : jsstring)
    (originalBatch : list Item.t) : list jsstring :=
  let lines :=
    List.filter (fun line => truthy (trim line)) (split 10%N response) in
  let translations := labelled_lines lines in
  pad (length originalBatch) translations originalBatch.

(** [text.files || [text.file]]. *)
Definition files_of (text : Item.t) : list (option jsstring) :=
  match Item.files text with
  | Some fs => List.map Some fs
  | None => [Item.file text]
  end.

(** [this.translations.set(..); this.processedCount++]. *)
Definition record_result (this : t) (r : Result.t) : t :=
  let this :=
    with_translations this
      (JsMap.set (translations this) (Result.original r) r) in
  with_processedCount this (S (processedCount this)).

(** [translateBatchIndividually]. *)
Fixpoint translateBatchIndividually (w : World) (this : t)
    (batch : list Item.t) : t :=
  match batch with
  | [] => this
  | text :: rest =>
      let (cached, this) :=
        getCachedTranslation this (Item.text text) (Item.context text) in
      let this :=
        match cached with
        | Some translated =>
            record_result this
              {| Result.original := Item.text text;
                 Result.translated := translated;
                 Result.context := Item.context text;
                 Result.files := files_of text;
                 Result.error := false;
                 Result.fromCache := true |}
        | None =>
            let (answer, this) := translateSingle w this (Item.text text) in
            match answer with
            | Some translated =>
                let this := with_apiCalls this (S (apiCalls this)) in
                let this :=
                  setCachedTranslation w this (Item.text text) translated
                    (Item.context text) in
                record_result this
                  {| Result.original := Item.text text;
                     Result.translated := translated;
                     Result.context := Item.context text;
                     Result.files := files_of text;
                     Result.error := false;
                     Result.fromCache := false |}
            | None =>
                record_result this
                  {| Result.original := Item.text text;
                     Result.translated := Item.text text;
                     Result.context := Item.context text;
                     Result.files := files_of text;
                     Result.error := true;
                     Result.fromCache := false |}
            end
        end in
      translateBatchIndividually w this rest
  end.

(** The [for] loop of [translateBatch], from index [i] on. *)
Fixpoint storeBatch (w : World) (this : t) (translations : list jsstring)
    (i : nat) (batch : list Item.t) : t :=
  match batch with
  | [] => this
  | originalText :: rest =>
      let translatedText :=
        match nth_error translations i with
        | Some s => if truthy s then s else Item.text originalText
        | None => Item.text originalText
        end in
      let this :=
        setCachedTranslation w this (Item.text originalText) translatedText
          (Item.context originalText) in
      let this :=
        record_result this
          {| Result.original := Item.text originalText;
             Result.translated := translatedText;
             Result.context := Item.context originalText;
             Result.files := files_of originalText;
             Result.error := false;
             Result.fromCache := false |} in
      storeBatch w this translations (S i) rest
  end.

(** [translateBatch]. *)
Definition translateBatch (w : World) (this : t) (batch : list Item.t) : t :=
  let p := createBatchPrompt this batch in
  let (r, this) := callOpenAI w this p in
  match r with
  | Content response =>
      let this := with_apiCalls this (S (apiCalls this)) in
      let translations := parseBatchResponse response batch in
      storeBatch w this translations 0 batch
  | Throws => translateBatchIndividually w this batch
  end.

(** The documents [saveTranslations] writes. *)
Record TranslationMetadata := {
  base : option Metadata;
  translatedAt : jsstring;
  md_model : jsstring;
  md_targetLanguage : jsstring;
  md_apiEndpoint : jsstring;
  totalTexts : nat;
  successfulTranslations : nat;
  failedTranslations : Z
}.

Record TranslationData := {
  td_metadata : TranslationMetadata;
  td_translations : list Result.t
}.

(** The [forEach] of [saveTranslations] that fills [mappingData]. *)
Definition mappingData_of (translations : JsMap.t Result.t)
  : JsMap.t jsstring :=
  fold_left
    (fun (mappingData : JsMap.t jsstring) (kv : jsstring * Result.t) =>
       let (key, value) := kv in
       if decide (Result.translated value = Result.original value)
       then mappingData
       else JsMap.assign mappingData key (Result.translated value))
    translations [].

(** [saveTranslations]: [translations.json] and
    [translation-mapping.json]. *)
Definition saveTranslations (w : World) (this : t)
    (originalData : ExtractedData)
  : TranslationData * JsMap.t jsstring * t :=
  let (date, this) := now w this in
  ({| td_metadata :=
        {| base := metadata originalData;
           translatedAt := date;
           md_model := model this;
           md_targetLanguage := targetLanguage this;
           md_apiEndpoint := apiEndpoint this;
           totalTexts := totalCount this;
           successfulTranslations := processedCount this;
           failedTranslations :=
             (Z.of_nat (totalCount this) - Z.of_nat (processedCount this))%Z |};
      td_translations := JsMap.values (translations this) |},
   mappingData_of (translations this),
   this).

(** The [forEach] of [translateTexts] over the cached texts. *)
Definition processCached (this : t) (cachedTexts : list Item.t) : t :=
  fold_left
    (fun (this : t) (text : Item.t) =>
       let (cached, this) :=
         getCachedTranslation this (Item.text text) (Item.context text) in
       record_result this
         {| Result.original := Item.text text;
            Result.translated :=
              match cached with Some s => s | None => [] end;
            Result.context := Item.context text;
            Result.files := files_of text;
            Result.error := false;
            Result.fromCache := true |})
    cachedTexts this.

(** What a run leaves behind. *)
Record Outcome := {
  final : t;
  cacheFile : file CacheData;
  translationsFile : option TranslationData;
  mappingFile : option (JsMap.t jsstring)
}.

(** [translateTexts]; [None] is the exception of a missing or
    unparsable [extracted-text.json]. *)
Definition translateTexts (w : World) (this : t)
    (extracted : file ExtractedData) (disk : file CacheData)
  : option Outcome :=
  match extracted with
  | Missing | Unparsable => None
  | Parsed extractedData =>
      let texts :=
        match texts extractedData with Some l => l | None => [] end in
      match texts with
      | [] =>
          Some {| final := this; cacheFile := disk;
                  translationsFile := None; mappingFile := None |}
      | _ :: _ =>
          let this := with_totalCount this (length texts) in
          let '(cachedTexts, uncachedTexts, this) :=
            separateCachedTexts this texts in
          let this := processCached this cachedTexts in
          let this :=
            fold_left (translateBatch w) (createBatches uncachedTexts 10) this in
          let (disk, this) := saveCache w this disk in
          let '(translationData, mappingData, this) :=
            saveTranslations w this extractedData in
          Some {| final := this; cacheFile := disk;
                  translationsFile := Some translationData;
                  mappingFile := Some mappingData |}
      end
  end.

End AITranslator.

(* ================================================================== *)
(** * Paths, directory trees, arrays *)
(* ================================================================== *)

Module Path.

(** [String.prototype.toLowerCase], exact wherever the result is
    compared with an ASCII name: the ASCII capitals and the Kelvin sign
    are the only code units that turn into ASCII letters. *)
Definition lower (c : char) : char :=
  if (N.leb 65 c && N.leb c 90)%N then (c + 32)%N
  else if N.eqb c 8490 then 107%N
  else c.

Definition toLowerCase (s : jsstring) : jsstring := List.map lower s.

(** The scan of [path.extname] (posix) from the end of the path: the
    extension with its dot, and what precedes the dot, reversed. *)
Fixpoint ext_scan (r acc : jsstring) : option (jsstring * jsstring) :=
  match r with
  | [] => None
  | c :: r' =>
      if N.eqb c 47 then None
      else if N.eqb c 46 then Some (c :: acc, r')
      else ext_scan r' (c :: acc)
  end.

Fixpoint stem (before : jsstring) : jsstring :=
  match before with
  | [] => []
  | c :: r => if N.eqb c 47 then [] else c :: stem r
  end.

(** [path.extname] on a path that does not end in a slash. *)
Definition extname (path : jsstring) : jsstring :=
  match ext_scan (rev path) [] with
  | None => []
  | Some (ext, before) =>
      match stem before with
      | [] => []
      | st =>
          if decide (ext = js "." /\ st = js ".") then [] else ext
      end
  end.

(** [path.relative(sourceDir, path.join(dir, name))], with [dir] already
    relative to the source directory (empty for the source directory
    itself). *)
Definition join (dir name : jsstring) : jsstring :=
  match dir with
  | [] => name
  | _ :: _ => dir ++ js "/" ++ name
  end.

End Path.

(** What [fs.readdirSync(dir, { withFileTypes: true })] lists.  A file
    that cannot be read has no content; an entry that is neither a
    directory nor a regular file is [Other]. *)
Inductive dirent :=
  | File (name : jsstring) (content : option jsstring)
  | Directory (name : jsstring) (entries : list dirent)
  | Other (name : jsstring).

(** [for (const entry of entries) { .. }] in a method whose body may
    return: the body gives the new state and whether it returned. *)
Section ForOf.
Context {S : Type}.
Variable body : S -> dirent -> S * bool.

Fixpoint forEntries (this : S) (entries : list dirent) : S :=
  match entries with
  | [] => this
  | entry :: rest =>
      let (this, returned) := body this entry in
      if returned then this else forEntries this rest
  end.

End ForOf.

Module JsArray.

Section Sort.
Context {A : Type}.
Variable compareFn : A -> A -> Z.

Fixpoint insert (x : A) (l : list A) : list A :=
  match l with
  | [] => [x]
  | y :: l' =>
      if (compareFn x y <=? 0)%Z then x :: l else y :: insert x l'
  end.

(** [Array.prototype.sort(compareFn)]: the sort is stable, and under a
    consistent comparator its result is the one of any stable sort. *)
Definition sort (l : list A) : list A := fold_right insert [] l.

End Sort.

(** [a.includes(x)]. *)
Definition includes {A : Type} `{EqDecision A} (a : list A) (x : A) : bool :=
  existsb (fun y => bool_decide (x = y)) a.

End JsArray.

(* ================================================================== *)
(** * extract-text.js: class TextExtractor *)
(* ================================================================== *)

Module Text.
(** An element of [this.extractedTexts]; [removeDuplicates] trades the
    field [file] for [files]. *)
Record t := Build {
  text : jsstring;
  file : option jsstring;
  context : jsstring;
  line : nat;
  files : option (list (option jsstring))
}.
End Text.

(** The names both extractors compare directory entries with. *)
Definition excludedDirectories : list jsstring :=
  [js "node_modules"; js ".git"; js "dist"; js "build"; js ".nuxt";
   js ".next"].

Definition skipFiles : list jsstring :=
  [js "nuxt.config.ts"; js "nuxt.config.js";
   js "vite.config.ts"; js "vite.config.js";
   js "webpack.config.js"; js "webpack.config.ts";
   js "rollup.config.js"; js "rollup.config.ts";
   js "tailwind.config.js"; js "tailwind.config.ts";
   js "tsconfig.json"; js "package.json";
   js "eslint.config.js"; js "eslint.config.ts"].

Definition scriptExtensions : list jsstring :=
  [js ".js"; js ".ts"; js ".jsx"; js ".tsx"].

Definition sourceExtensions : list jsstring := js ".vue" :: scriptExtensions.

(** The document of [extracted-text.json]. *)
Record ExtractionMetadata := {
  em_sourceDir : jsstring;
  em_extractedAt : jsstring;
  em_filesProcessed : nat;
  em_textsFound : nat
}.

Record ExtractionFile := {
  ef_metadata : ExtractionMetadata;
  ef_texts : list Text.t
}.

Module TextExtractor.

Record t := {
  extractedTexts : list Text.t;
  processedFiles : nat;
  (** the paths [processFile] was called with, in order *)
  visited : list jsstring
}.

(** [getLineNumber]. *)
Definition getLineNumber (text filePath : jsstring) : nat := 1.

(** [addText]. *)
Definition addText (this : t) (text filePath context : jsstring) : t :=
  if truthy text then
    let trimmedText := trim text in
    if truthy trimmedText then
      {| extractedTexts :=
           extractedTexts this
           ++ [ {| Text.text := trimmedText;
                   Text.file := Some filePath;
                   Text.context := context;
                   Text.line := getLineNumber text filePath;
                   Text.files := None |} ];
         processedFiles := processedFiles this;
         visited := visited this |}
    else this
  else this
.

Section Walk.

(** The calls [addText(text, filePath, context)] that [extractFromVue]
    and [extractFromScript] make for a file of the given extension and
    content, in order: the regular-expression harvest and the
    [isTranslatable] filter stay outside the embedding. *)
Variable harvest : jsstring -> jsstring -> list (jsstring * jsstring).

(** [processFile]. *)
Definition processFile (this : t) (filePath : jsstring)
    (content : option jsstring) : t :=
  let this :=
    {| extractedTexts := extractedTexts this;
       processedFiles := processedFiles this;
       visited := visited this ++ [filePath] |} in
  match content with
  | None => this
  | Some content =>
      let ext := Path.toLowerCase (Path.extname filePath) in
      let this :=
        {| extractedTexts := extractedTexts this;
           processedFiles := S (processedFiles this);
           visited := visited this |} in
      if JsArray.includes sourceExtensions ext then
        fold_left
          (fun (this : t) (tc : jsstring * jsstring) =>
             addText this (fst tc) filePath (snd tc))
          (harvest ext content) this
      else this
  end.

(** The body of the loop of [scanDirectory] for one entry of [dir], and
    whether the method returns there: it does on a configuration file.
    [scanDirectory] itself is the loop over the entries. *)
Fixpoint scanEntry (dir : jsstring) (this : t) (entry : dirent)
    {struct entry} : t * bool :=
  match entry with
  | Directory name sub =>
      if JsArray.includes excludedDirectories name then (this, false)
      else (forEntries (scanEntry (Path.join dir name)) this sub, false)
  | File name content =>
      let ext := Path.toLowerCase (Path.extname name) in
      let filename := Path.toLowerCase name in
      if JsArray.includes skipFiles filename then (this, true)
      else if JsArray.includes sourceExtensions ext
      then (processFile this (Path.join dir name) content, false)
      else (this, false)
  | Other _ => (this, false)
  end.

Definition scanDirectory (this : t) (dir : jsstring)
    (entries : list dirent) : t :=
  forEntries (scanEntry dir) this entries.

End Walk.

(** [existing.files = [existing.file]; delete existing.file] when
    [files] is missing, then [existing.files.push(item.file)] when the
    file is not yet listed. *)
Definition addFile (existing item : Text.t) : Text.t :=
  let existing :=
    match Text.files existing with
    | Some _ => existing
    | None =>
        {| Text.text := Text.text existing;
           Text.file := None;
           Text.context := Text.context existing;
           Text.line := Text.line existing;
           Text.files := Some [Text.file existing] |}
    end in
  match Text.files existing with
  | Some fs =>
      if JsArray.includes fs (Text.file item) then existing
      else
        {| Text.text := Text.text existing;
           Text.file := Text.file existing;
           Text.context := Text.context existing;
           Text.line := Text.line existing;
           Text.files := Some (fs ++ [Text.file item]) |}
  | None => existing
  end.

(** The update of [unique.find(u => u.text === item.text &&
    u.context === item.context)], in place. *)
Fixpoint mergeInto (unique : list Text.t) (item : Text.t) : list Text.t :=
  match unique with
  | [] => []
  | u :: rest =>
      if bool_decide (Text.text u = Text.text item
                      /\ Text.context u = Text.context item)
      then addFile u item :: rest
      else u :: mergeInto rest item
  end.

(** The [for] loop of [removeDuplicates]: the keys seen and [unique]. *)
Definition dedupe (extractedTexts : list Text.t)
  : list jsstring * list Text.t :=
  fold_left
    (fun (acc : list jsstring * list Text.t) (item : Text.t) =>
       let (seen, unique) := acc in
       let key := Text.text item ++ js ":" ++ Text.context item in
       if JsArray.includes seen key then (seen, mergeInto unique item)
       else (seen ++ [key], unique ++ [item]))
    extractedTexts ([], []).

Section Sorted.

(** [a.localeCompare(b)]: the collation of the host. *)
Variable localeCompare : jsstring -> jsstring -> Z.

(** [removeDuplicates]. *)
Definition removeDuplicates (this : t) : list Text.t :=
  JsArray.sort
    (fun a b => localeCompare (Text.text a) (Text.text b))
    (snd (dedupe (extractedTexts this))).

Variable harvest : jsstring -> jsstring -> list (jsstring * jsstring).

(** [extractTexts] on a fresh extractor: [None] is the exception of a
    source directory that does not exist; [date] is what
    [new Date().toISOString()] gives when the file is written. *)
Definition extractTexts (sourceDir : jsstring)
    (tree : option (list dirent)) (date : jsstring)
  : option (list Text.t * ExtractionFile) :=
  match tree with
  | None => None
  | Some entries =>
      let this :=
        scanDirectory harvest
          {| extractedTexts := []; processedFiles := 0; visited := [] |}
          [] entries in
      let uniqueTexts := removeDuplicates this in
      Some (uniqueTexts,
            {| ef_metadata :=
                 {| em_sourceDir := sourceDir;
                    em_extractedAt := date;
                    em_filesProcessed := processedFiles this;
                    em_textsFound := length uniqueTexts |};
               ef_texts := uniqueTexts |})
  end.

End Sorted.

(** [this.excludePatterns], in the order of the source. *)
Definition excludePatterns : list Pattern.regex :=
  let ch c := Pattern.Chr (Pattern.OneOf [Pattern.one c]) in
  [ Pattern.RegEx "/^[a-zA-Z0-9_\-\.]+$/"
      [Pattern.whole
       (Pattern.Plus
          (Pattern.Chr
             (Pattern.OneOf [Pattern.a_z; Pattern.A_Z; Pattern.d0_9;
                             Pattern.one 95; Pattern.one 45; Pattern.one 46])))];
    Pattern.RegEx "/^https?:\/\//"
      [Pattern.opening
       (Pattern.Seq (Pattern.Lit (js "http"))
          (Pattern.Seq (Pattern.Opt (ch 115%N)) (Pattern.Lit (js "://"))))];
    Pattern.RegEx "/^\/[\/\w\-\.]*$/"
      [Pattern.whole
       (Pattern.Seq (ch 47%N)
          (Pattern.Star
             (Pattern.Chr
                (Pattern.OneOf [Pattern.one 47; Pattern.a_z; Pattern.A_Z;
                                Pattern.d0_9; Pattern.one 95; Pattern.one 45;
                                Pattern.one 46]))))];
    Pattern.RegEx "/^[A-Z_]+$/"
      [Pattern.whole
       (Pattern.Plus
          (Pattern.Chr (Pattern.OneOf [Pattern.A_Z; Pattern.one 95])))];
    Pattern.RegEx "/^\d+(\.\d+)*$/"
      [Pattern.whole
       (Pattern.Seq (Pattern.Plus Pattern.digit)
          (Pattern.Star
             (Pattern.Seq (ch 46%N) (Pattern.Plus Pattern.digit))))];
    Pattern.RegEx "/^[A-Za-z0-9+/=]+$/"
      [Pattern.whole
       (Pattern.Plus
          (Pattern.Chr
             (Pattern.OneOf [Pattern.A_Z; Pattern.a_z; Pattern.d0_9;
                             Pattern.one 43; Pattern.one 47; Pattern.one 61])))];
    Pattern.RegEx "/^#[0-9a-fA-F]{3,8}$/"
      [Pattern.whole
       (Pattern.Seq (ch 35%N)
          (Pattern.Between 3 8
             (Pattern.Chr
                (Pattern.OneOf [Pattern.d0_9; (97, 102)%N; (65, 70)%N]))))];
    Pattern.RegEx "/^rgb\(|rgba\(|hsl\(/"
      [Pattern.opening (Pattern.Lit (js "rgb("));
     Pattern.inside (Pattern.Lit (js "rgba("));
     Pattern.inside (Pattern.Lit (js "hsl("))];
    Pattern.RegEx "/^\$[a-zA-Z]/"
      [Pattern.opening (Pattern.Seq (ch 36%N) Pattern.letter)];
    Pattern.RegEx "/^var\(|calc\(|url\(/"
      [Pattern.opening (Pattern.Lit (js "var("));
     Pattern.inside (Pattern.Lit (js "calc("));
     Pattern.inside (Pattern.Lit (js "url("))];
    Pattern.RegEx "/console\.|error|warn|info|debug|log/i"
      [Pattern.inside (Pattern.LitI (js "console."));
     Pattern.inside (Pattern.LitI (js "error"));
     Pattern.inside (Pattern.LitI (js "warn"));
     Pattern.inside (Pattern.LitI (js "info"));
     Pattern.inside (Pattern.LitI (js "debug"));
     Pattern.inside (Pattern.LitI (js "log"))];
    Pattern.RegEx "/^[a-z]+:[a-z]+$/"
      [Pattern.whole
       (Pattern.Seq (Pattern.Plus Pattern.small)
          (Pattern.Seq (ch 58%N) (Pattern.Plus Pattern.small)))];
    Pattern.RegEx "/^[A-Z][a-zA-Z]*Error$/"
      [Pattern.whole
       (Pattern.Seq Pattern.capital
          (Pattern.Seq (Pattern.Star Pattern.letter)
             (Pattern.Lit (js "Error"))))] ].

(** [this.technicalTerms]. *)
Definition technicalTerms : list jsstring :=
  List.map js
    [ "API"; "HTTP"; "HTTPS"; "JSON"; "XML"; "HTML"; "CSS"; "JS"; "TS";
      "Vue"; "React"; "Node"; "npm"; "yarn"; "pnpm"; "webpack"; "vite";
      "GitHub"; "Git"; "OAuth"; "JWT"; "UUID"; "URL"; "URI"; "SQL";
      "CORS"; "REST"; "GraphQL"; "WebSocket"; "localStorage";
      "sessionStorage";
      "getElementById"; "querySelector"; "addEventListener"; "fetch";
      "async"; "await";
      "true"; "false"; "null"; "undefined"; "NaN"; "Infinity" ]%string.

(** The [codePatterns] of [isTranslatable]. *)
Definition codePatterns : list Pattern.regex :=
  let ch c := Pattern.Chr (Pattern.OneOf [Pattern.one c]) in
  [ Pattern.RegEx "/^\w+\(\)/"
      [Pattern.opening
       (Pattern.Seq (Pattern.Plus Pattern.word) (Pattern.Lit (js "()")))];
    Pattern.RegEx "/^\w+\.\w+/"
      [Pattern.opening
       (Pattern.Seq (Pattern.Plus Pattern.word)
          (Pattern.Seq (ch 46%N) (Pattern.Plus Pattern.word)))];
    Pattern.RegEx "/^[a-z]+([A-Z][a-z]*)+$/"
      [Pattern.whole
       (Pattern.Seq (Pattern.Plus Pattern.small)
          (Pattern.Plus
             (Pattern.Seq Pattern.capital (Pattern.Star Pattern.small))))];
    Pattern.RegEx "/^[A-Z][A-Z_]*$/"
      [Pattern.whole
       (Pattern.Seq Pattern.capital
          (Pattern.Star
             (Pattern.Chr (Pattern.OneOf [Pattern.A_Z; Pattern.one 95]))))];
    Pattern.RegEx "/\$\{.*\}/"
      [Pattern.inside
       (Pattern.Seq (Pattern.Lit (js "${"))
          (Pattern.Seq (Pattern.Star Pattern.dot) (ch 125%N)))];
    Pattern.RegEx "/{.*}/"
      [Pattern.inside
       (Pattern.Seq (ch 123%N)
          (Pattern.Seq (Pattern.Star Pattern.dot) (ch 125%N)))];
    Pattern.RegEx "/\[.*\]/"
      [Pattern.inside
       (Pattern.Seq (ch 91%N)
          (Pattern.Seq (Pattern.Star Pattern.dot) (ch 93%N)))] ].

(** [isTranslatable].  The quotient [alphaCount / text.length] is
    below [0.3] exactly when ten times the count is below three times
    the length. *)
Definition isTranslatable (text : jsstring) : bool :=
  if (length text <? 3) || (500 <? length text) then false
  else if existsb (fun pattern => Pattern.test pattern text) excludePatterns
  then false
  else if JsArray.includes technicalTerms (trim text) then false
  else if negb (Pattern.test Pattern.a_letter text) then false
  else
    let alphaCount :=
      length (List.filter
                (Pattern.in_ranges [Pattern.a_z; Pattern.A_Z]) text) in
    if 10 * alphaCount <? 3 * length text then false
    else if existsb (fun pattern => Pattern.test pattern (trim text))
              codePatterns
    then false
    else true.

End TextExtractor.

(* ================================================================== *)
(** * vue-sfc-extractor.js: class VueSFCExtractor *)
(* ================================================================== *)

Module VueSFCExtractor.

Record t := {
  extractedTexts : list Text.t;
  processedFiles : nat;
  (** the paths [processVueFile] and [processJSFile] were called with *)
  visited : list jsstring
}.

(** [addText]. *)
Definition addText (this : t) (text filePath context : jsstring) : t :=
  if truthy text then
    let text := trim text in
    if truthy text then
      {| extractedTexts :=
           extractedTexts this
           ++ [ {| Text.text := text;
                   Text.file := Some filePath;
                   Text.context := context;
                   Text.line := 1;
                   Text.files := None |} ];
         processedFiles := processedFiles this;
         visited := visited this |}
    else this
  else this.

Section Walk.

(** The calls of [addText] made for a file of the given extension and
    content, and whether the parse of the component came through (a
    script never fails: its parse error falls back to the scan by
    regular expression). *)
Variable harvest : jsstring -> jsstring -> list (jsstring * jsstring) * bool.

(** [processVueFile] and [processJSFile]. *)
Definition processSourceFile (this : t) (ext filePath : jsstring)
    (content : option jsstring) : t :=
  let this :=
    {| extractedTexts := extractedTexts this;
       processedFiles := processedFiles this;
       visited := visited this ++ [filePath] |} in
  match content with
  | None => this
  | Some content =>
      let (calls, completed) := harvest ext content in
      let this :=
        fold_left
          (fun (this : t) (tc : jsstring * jsstring) =>
             addText this (fst tc) filePath (snd tc))
          calls this in
      if completed then
        {| extractedTexts := extractedTexts this;
           processedFiles := S (processedFiles this);
           visited := visited this |}
      else this
  end.

(** The body of the loop of [scanDirectory] for one entry: on a
    configuration file the loop continues, and the method never returns
    from inside the loop. *)
Fixpoint scanEntry (dir : jsstring) (this : t) (entry : dirent)
    {struct entry} : t * bool :=
  match entry with
  | Directory name sub =>
      if JsArray.includes excludedDirectories name then (this, false)
      else (forEntries (scanEntry (Path.join dir name)) this sub, false)
  | File name content =>
      let ext := Path.toLowerCase (Path.extname name) in
      let filename := Path.toLowerCase name in
      if JsArray.includes skipFiles filename then (this, false)
      else if bool_decide (ext = js ".vue") then
        (processSourceFile this ext (Path.join dir name) content, false)
      else if JsArray.includes scriptExtensions ext then
        (processSourceFile this ext (Path.join dir name) content, false)
      else (this, false)
  | Other _ => (this, false)
  end.

Definition scanDirectory (this : t) (dir : jsstring)
    (entries : list dirent) : t :=
  forEntries (scanEntry dir) this entries.

End Walk.

(** The update of [seen.get(key)], the entry of [unique] with the text
    of the item, in place. *)
Fixpoint mergeInto (unique : list Text.t) (item : Text.t) : list Text.t :=
  match unique with
  | [] => []
  | u :: rest =>
      if bool_decide (Text.text u = Text.text item)
      then TextExtractor.addFile u item :: rest
      else u :: mergeInto rest item
  end.

(** The [for] loop of [removeDuplicates]: the keys of [seen] and
    [unique]. *)
Definition dedupe (extractedTexts : list Text.t)
  : list jsstring * list Text.t :=
  fold_left
    (fun (acc : list jsstring * list Text.t) (item : Text.t) =>
       let (seen, unique) := acc in
       let key := Text.text item in
       if JsArray.includes seen key then (seen, mergeInto unique item)
       else (seen ++ [key], unique ++ [item]))
    extractedTexts ([], []).

Section Sorted.

Variable localeCompare : jsstring -> jsstring -> Z.

(** [removeDuplicates]. *)
Definition removeDuplicates (this : t) : list Text.t :=
  JsArray.sort
    (fun a b => localeCompare (Text.text a) (Text.text b))
    (snd (dedupe (extractedTexts this))).

Variable harvest : jsstring -> jsstring -> list (jsstring * jsstring) * bool.

(** [extractTexts] on a fresh extractor. *)
Definition extractTexts (sourceDir : jsstring)
    (tree : option (list dirent)) (date : jsstring)
  : option (list Text.t * ExtractionFile) :=
  match tree with
  | None => None
  | Some entries =>
      let this :=
        scanDirectory harvest
          {| extractedTexts := []; processedFiles := 0; visited := [] |}
          [] entries in
      let uniqueTexts := removeDuplicates this in
      Some (uniqueTexts,
            {| ef_metadata :=
                 {| em_sourceDir := sourceDir;
                    em_extractedAt := date;
                    em_filesProcessed := processedFiles this;
                    em_textsFound := length uniqueTexts |};
               ef_texts := uniqueTexts |})
  end.

End Sorted.

(** [this.technicalTerms]. *)
Definition technicalTerms : list jsstring :=
  TextExtractor.technicalTerms
  ++ List.map js
       [ "floating-vue"; "vue-router"; "vue-virtual-scroller";
         "vue-multiselect"; "modrinth"; "tauri"; "pinia" ]%string.

(** [this.excludePatterns], in the order of the source. *)
Definition excludePatterns : list Pattern.regex :=
  let ch c := Pattern.Chr (Pattern.OneOf [Pattern.one c]) in
  [ Pattern.RegEx "/^https?:\/\//"
      [Pattern.opening
       (Pattern.Seq (Pattern.Lit (js "http"))
          (Pattern.Seq (Pattern.Opt (ch 115%N)) (Pattern.Lit (js "://"))))];
    Pattern.RegEx "/^\/[\/\w\-\.]*$/"
      [Pattern.whole
       (Pattern.Seq (ch 47%N)
          (Pattern.Star
             (Pattern.Chr
                (Pattern.OneOf [Pattern.one 47; Pattern.a_z; Pattern.A_Z;
                                Pattern.d0_9; Pattern.one 95; Pattern.one 45;
                                Pattern.one 46]))))];
    Pattern.RegEx "/^\.[\/\w\-]*$/"
      [Pattern.whole
       (Pattern.Seq (ch 46%N)
          (Pattern.Star
             (Pattern.Chr
                (Pattern.OneOf [Pattern.one 47; Pattern.a_z; Pattern.A_Z;
                                Pattern.d0_9; Pattern.one 95;
                                Pattern.one 45]))))];
    Pattern.RegEx "/^@[\/\w\-]*$/"
      [Pattern.whole
       (Pattern.Seq (ch 64%N)
          (Pattern.Star
             (Pattern.Chr
                (Pattern.OneOf [Pattern.one 47; Pattern.a_z; Pattern.A_Z;
                                Pattern.d0_9; Pattern.one 95;
                                Pattern.one 45]))))];
    Pattern.RegEx "/^[A-Z_]{2,}$/"
      [Pattern.whole
       (Pattern.AtLeast 2
          (Pattern.Chr (Pattern.OneOf [Pattern.A_Z; Pattern.one 95])))];
    Pattern.RegEx "/^\d+(\.\d+)*$/"
      [Pattern.whole
       (Pattern.Seq (Pattern.Plus Pattern.digit)
          (Pattern.Star
             (Pattern.Seq (ch 46%N) (Pattern.Plus Pattern.digit))))];
    Pattern.RegEx "/^[A-Za-z0-9+/=]+$/"
      [Pattern.whole
       (Pattern.Plus
          (Pattern.Chr
             (Pattern.OneOf [Pattern.A_Z; Pattern.a_z; Pattern.d0_9;
                             Pattern.one 43; Pattern.one 47; Pattern.one 61])))];
    Pattern.RegEx "/^#[0-9a-fA-F]{3,8}$/"
      [Pattern.whole
       (Pattern.Seq (ch 35%N)
          (Pattern.Between 3 8
             (Pattern.Chr
                (Pattern.OneOf [Pattern.d0_9; (97, 102)%N; (65, 70)%N]))))];
    Pattern.RegEx "/^rgb\(|rgba\(|hsl\(/"
      [Pattern.opening (Pattern.Lit (js "rgb("));
     Pattern.inside (Pattern.Lit (js "rgba("));
     Pattern.inside (Pattern.Lit (js "hsl("))];
    Pattern.RegEx "/^\$[a-zA-Z]/"
      [Pattern.opening (Pattern.Seq (ch 36%N) Pattern.letter)];
    Pattern.RegEx "/^var\(|calc\(|url\(/"
      [Pattern.opening (Pattern.Lit (js "var("));
     Pattern.inside (Pattern.Lit (js "calc("));
     Pattern.inside (Pattern.Lit (js "url("))];
    Pattern.RegEx "/console\.|error|warn|info|debug|log/i"
      [Pattern.inside (Pattern.LitI (js "console."));
     Pattern.inside (Pattern.LitI (js "error"));
     Pattern.inside (Pattern.LitI (js "warn"));
     Pattern.inside (Pattern.LitI (js "info"));
     Pattern.inside (Pattern.LitI (js "debug"));
     Pattern.inside (Pattern.LitI (js "log"))];
    Pattern.RegEx "/^[a-z]+:[a-z]+$/"
      [Pattern.whole
       (Pattern.Seq (Pattern.Plus Pattern.small)
          (Pattern.Seq (ch 58%N) (Pattern.Plus Pattern.small)))];
    Pattern.RegEx "/^[A-Z][a-zA-Z]*Error$/"
      [Pattern.whole
       (Pattern.Seq Pattern.capital
          (Pattern.Seq (Pattern.Star Pattern.letter)
             (Pattern.Lit (js "Error"))))];
    Pattern.RegEx "/^[a-z]+-[a-z-]+$/"
      [Pattern.whole
       (Pattern.Seq (Pattern.Plus Pattern.small)
          (Pattern.Seq (ch 45%N)
             (Pattern.Plus
                (Pattern.Chr
                   (Pattern.OneOf [Pattern.a_z; Pattern.one 45])))))];
    Pattern.RegEx "/^\?[a-zA-Z]/"
      [Pattern.opening (Pattern.Seq (ch 63%N) Pattern.letter)];
    Pattern.RegEx "/^\w+\(\)$/"
      [Pattern.whole
       (Pattern.Seq (Pattern.Plus Pattern.word) (Pattern.Lit (js "()")))];
    Pattern.RegEx "/^\w+\.\w+/"
      [Pattern.opening
       (Pattern.Seq (Pattern.Plus Pattern.word)
          (Pattern.Seq (ch 46%N) (Pattern.Plus Pattern.word)))];
    Pattern.RegEx "/^[a-zA-Z0-9_-]+\.(vue|js|ts|css|scss|png|jpg|svg)$/i"
      [Pattern.whole
       (Pattern.Seq
          (Pattern.Plus
             (Pattern.Chr
                (Pattern.OneOf [Pattern.a_z; Pattern.A_Z; Pattern.d0_9;
                                Pattern.one 95; Pattern.one 45])))
          (Pattern.Seq (ch 46%N)
             (Pattern.Alt (Pattern.LitI (js "vue"))
                (Pattern.Alt (Pattern.LitI (js "js"))
                   (Pattern.Alt (Pattern.LitI (js "ts"))
                      (Pattern.Alt (Pattern.LitI (js "css"))
                         (Pattern.Alt (Pattern.LitI (js "scss"))
                            (Pattern.Alt (Pattern.LitI (js "png"))
                               (Pattern.Alt (Pattern.LitI (js "jpg"))
                                  (Pattern.LitI (js "svg")))))))))))];
    Pattern.RegEx "/^\{\{.*\}\}$/"
      [Pattern.whole
       (Pattern.Seq (Pattern.Lit (js "{{"))
          (Pattern.Seq (Pattern.Star Pattern.dot) (Pattern.Lit (js "}}"))))];
    Pattern.RegEx "/^v-[a-z]/"
      [Pattern.opening (Pattern.Seq (Pattern.Lit (js "v-")) Pattern.small)];
    Pattern.RegEx "/^[a-z][a-zA-Z]*[A-Z]/"
      [Pattern.opening
       (Pattern.Seq Pattern.small
          (Pattern.Seq (Pattern.Star Pattern.letter) Pattern.capital))];
    Pattern.RegEx "/^[A-Z][a-z]*$/"
      [Pattern.whole (Pattern.Seq Pattern.capital (Pattern.Star Pattern.small))]
  ].

(** The three patterns of a single word: camelCase, PascalCase, and
    kebab-case or snake_case. *)
Definition camelCase : Pattern.regex :=
  Pattern.RegEx "/^[a-z]+([A-Z][a-z]*)+$/"
  [Pattern.whole
     (Pattern.Seq (Pattern.Plus Pattern.small)
        (Pattern.Plus
           (Pattern.Seq Pattern.capital (Pattern.Star Pattern.small))))].

Definition pascalCase : Pattern.regex :=
  Pattern.RegEx "/^[A-Z][a-z]*([A-Z][a-z]*)*$/"
  [Pattern.whole
     (Pattern.Seq Pattern.capital
        (Pattern.Seq (Pattern.Star Pattern.small)
           (Pattern.Star
              (Pattern.Seq Pattern.capital (Pattern.Star Pattern.small)))))].

Definition kebabCase : Pattern.regex :=
  Pattern.RegEx "/^[a-z]+[-_][a-z]+/"
  [Pattern.opening
     (Pattern.Seq (Pattern.Plus Pattern.small)
        (Pattern.Seq
           (Pattern.Chr (Pattern.OneOf [Pattern.one 45; Pattern.one 95]))
           (Pattern.Plus Pattern.small)))].

(** [isTranslatableText]. *)
Definition isTranslatableText (text : jsstring) : bool :=
  if negb (truthy text) then false
  else
    let text := trim text in
    if (length text <? 2)
       || negb (Pattern.test Pattern.a_letter text)
    then false
    else if existsb (fun pattern => Pattern.test pattern text) excludePatterns
    then false
    else if JsArray.includes technicalTerms (Path.toLowerCase text) then false
    else
      let alphaCount :=
        length (List.filter
                  (Pattern.in_ranges [Pattern.a_z; Pattern.A_Z]) text) in
      if 10 * alphaCount <? 3 * length text then false
      else if negb (includes (js " ") text) && (length text <? 15) then
        if Pattern.test camelCase text || Pattern.test pascalCase text
           || Pattern.test kebabCase text
        then false
        else true
      else true.

End VueSFCExtractor.

(* ================================================================== *)
(** * replace-text.js: class TextReplacer *)
(* ================================================================== *)

(** A value of the mapping document, as far as the loader looks at it:
    a string, or a value of another type with its truthiness. *)
Inductive value :=
  | Str (s : jsstring)
  | NotString (truthy : bool).

Module Change.
(** An element of [changes]; [contexts] keeps the index of each match
    (its text is [original]). *)
Record t := Build {
  original : jsstring;
  translated : jsstring;
  occurrences : nat;
  contexts : list nat
}.
End Change.

Module FileChange.
Record t := Build {
  file : jsstring;
  replacements : nat;
  changes : list Change.t
}.
End FileChange.

Module TextReplacer.

Record ReportData := {
  filesProcessed : nat;
  report_totalReplacements : nat;
  fileChanges : list FileChange.t
}.

Record t := {
  replacements : JsMap.t jsstring;
  totalReplacements : nat;
  reportData : ReportData
}.

(** The test of [loadTranslationMapping] on one entry. *)
Definition valid (original : jsstring) (translated : value) : bool :=
  match translated with
  | Str translated =>
      truthy original && truthy translated
      && (0 <? length (trim original)) && (0 <? length (trim translated))
      && negb (bool_decide (original = translated))
  | NotString _ => false
  end.

(** The [forEach] of [loadTranslationMapping]: the map and
    [validMappings]. *)
Definition loadEntries (replacements : JsMap.t jsstring)
    (mappingData : list (jsstring * value)) : JsMap.t jsstring * nat :=
  fold_left
    (fun (acc : JsMap.t jsstring * nat) (kv : jsstring * value) =>
       let (replacements, validMappings) := acc in
       let (original, translated) := kv in
       match translated with
       | Str s =>
           if valid original translated then
             (JsMap.set replacements (trim original) (trim s),
              S validMappings)
           else acc
       | NotString _ => acc
       end)
    mappingData (replacements, 0).

(** [loadTranslationMapping]: [None] is an exception (no mapping file,
    a file that does not parse to an object); otherwise the replacer
    and the count it logs. *)
Definition loadTranslationMapping (this : t)
    (mapping : file (list (jsstring * value))) : option (t * nat) :=
  match mapping with
  | Missing | Unparsable => None
  | Parsed mappingData =>
      let (replacements, validMappings) :=
        loadEntries (replacements this) mappingData in
      Some ({| replacements := replacements;
               totalReplacements := totalReplacements this;
               reportData := reportData this |},
            validMappings)
  end.

(** The first line of [createReplacementRegex]: a backslash goes
    before every syntax character. *)
Fixpoint escapeRegExp (text : jsstring) : jsstring :=
  match text with
  | [] => []
  | c :: rest =>
      if RegExp.is_syntax_character c then 92%N :: c :: escapeRegExp rest
      else c :: escapeRegExp rest
  end.

(** A regular expression with the flag [g], as [createReplacementRegex]
    returns it: the literal text it matches, or the expression of its
    [catch] branch, a negative lookahead that matches nowhere. *)
Inductive regex :=
  | Literal (k : jsstring)
  | Nothing.

(** [createReplacementRegex]. *)
Definition createReplacementRegex (text : jsstring) : regex :=
  match RegExp.literal (escapeRegExp text) with
  | Some k => Literal k
  | None => Nothing
  end.

(** The loop of [tempRegex.exec(modifiedContent)]: the indices of the
    matches of [k] from left to right, each search starting at
    [lastIndex], the end of the match before.  [skip] code units remain
    before [lastIndex]; [i] is the index of the head of [s]. *)
Fixpoint execAll (k : jsstring) (skip i : nat) (s : jsstring) : list nat :=
  match s with
  | [] => []
  | _ :: s' =>
      match skip with
      | S n => execAll k n (S i) s'
      | O =>
          if startsWith k s then i :: execAll k (length k - 1) (S i) s'
          else execAll k 0 (S i) s'
      end
  end.

(** [GetSubstitution] for a match without capture groups: in the
    replacement text a dollar pair gives a dollar, dollar-ampersand the
    match, dollar-backquote what precedes it and dollar-quote what
    follows it; any other dollar stands for itself. *)
Fixpoint getSubstitution (template matched before after : jsstring)
  : jsstring :=
  match template with
  | [] => []
  | c :: rest =>
      if N.eqb c 36 then
        match rest with
        | d :: rest' =>
            if N.eqb d 36 then
              36%N :: getSubstitution rest' matched before after
            else if N.eqb d 38 then
              matched ++ getSubstitution rest' matched before after
            else if N.eqb d 96 then
              before ++ getSubstitution rest' matched before after
            else if N.eqb d 39 then
              after ++ getSubstitution rest' matched before after
            else c :: getSubstitution rest matched before after
        | [] => [c]
        end
      else c :: getSubstitution rest matched before after
  end.

(** [content.replace(regex, translated)] for the literal [k]: every
    match found by the scan above gives way to its substitution;
    [before] is the part of the content already passed, reversed. *)
Fixpoint replaceAll (k template : jsstring) (skip : nat)
    (before s : jsstring) : jsstring :=
  match s with
  | [] => []
  | c :: s' =>
      match skip with
      | S n => replaceAll k template n (c :: before) s'
      | O =>
          if startsWith k s then
            getSubstitution template k (rev before) (skipn (length k) s)
            ++ replaceAll k template (length k - 1) (c :: before) s'
          else c :: replaceAll k template 0 (c :: before) s'
      end
  end.

Definition matches (r : regex) (content : jsstring) : list nat :=
  match r with
  | Literal k => execAll k 0 0 content
  | Nothing => []
  end.

Definition replace (r : regex) (translated content : jsstring) : jsstring :=
  match r with
  | Literal k => replaceAll k translated 0 [] content
  | Nothing => content
  end.

(** The body of the loop of [processFile] over [this.replacements]. *)
Definition replaceOne (acc : jsstring * nat * list Change.t)
    (kv : jsstring * jsstring) : jsstring * nat * list Change.t :=
  let '(modifiedContent, fileReplacements, changes) := acc in
  let (original, translated) := kv in
  if negb (truthy original) || negb (truthy translated)
     || bool_decide (original = translated)
  then acc
  else
    let regex := createReplacementRegex original in
    let found := matches regex modifiedContent in
    if 0 <? length found then
      (replace regex translated modifiedContent,
       fileReplacements + length found,
       changes ++ [ {| Change.original := original;
                       Change.translated := translated;
                       Change.occurrences := length found;
                       Change.contexts := found |} ])
    else acc.

(** [processFile] on a file that can be read: the replacer, and the
    content written back when there is one. *)
Definition processFile (this : t) (relativePath originalContent : jsstring)
  : t * option jsstring :=
  let '(modifiedContent, fileReplacements, changes) :=
    fold_left replaceOne (replacements this) (originalContent, 0, []) in
  let report := reportData this in
  let filesProcessed := S (filesProcessed report) in
  if 0 <? fileReplacements then
    ({| replacements := replacements this;
        totalReplacements := totalReplacements this + fileReplacements;
        reportData :=
          {| filesProcessed := filesProcessed;
             report_totalReplacements := report_totalReplacements report;
             fileChanges :=
               fileChanges report
               ++ [ {| FileChange.file := relativePath;
                       FileChange.replacements := fileReplacements;
                       FileChange.changes := changes |} ] |} |},
     Some modifiedContent)
  else
    ({| replacements := replacements this;
        totalReplacements := totalReplacements this;
        reportData :=
          {| filesProcessed := filesProcessed;
             report_totalReplacements := report_totalReplacements report;
             fileChanges := fileChanges report |} |},
     None).

(** The directories [copyDirectory] leaves out, the directories
    [processDirectory] passes by, and the extensions of the files it
    processes. *)
Definition backupExcluded : list jsstring :=
  [js "node_modules"; js ".git"; js "dist"; js "build"].

Definition processExcluded : list jsstring :=
  [js "node_modules"; js ".git"; js "dist"; js "build"; js ".nuxt";
   js ".next"].

Definition extensions : list jsstring :=
  [js ".vue"; js ".js"; js ".ts"; js ".jsx"; js ".tsx"].

(** The name of an entry of a listing. *)
Definition entryName (entry : dirent) : jsstring :=
  match entry with
  | File name _ | Directory name _ | Other name => name
  end.

(** Where [this.backupDir] lies, the path of the source directory
    followed by [-backup].  For a path that ends with the name of the
    source directory it is a sibling of that directory, outside of the
    source tree ([src-backup] for [src]): the place holds the backup
    directory when it exists.  For a path that ends with a slash or with
    a segment of one dot it is an entry of the source directory itself
    ([src/-backup] for [src/], [.-backup] for [.]): the place is the
    name of that entry and the index at which the listing of the source
    directory shows it once [mkdirSync] has made it.  (A backup
    directory that lies deeper in the source tree, as for a path that
    ends with a segment of two dots, is not covered.) *)
Inductive backupPlace :=
  | Outside (existing : option (list dirent))
  | Inside (name : jsstring) (listedAt : nat).

(** The source directory and the place of the backup directory. *)
Record Disk := {
  source : list dirent;
  backup : backupPlace
}.

Section Copy.

(** What [fs.copyFileSync] leaves at the destination for an entry that
    is neither a directory nor a regular file; [None] when it throws. *)
Variable copyOther : jsstring -> option dirent.

(** The body of the loop of [copyDirectory]: what is at the
    destination so far, [None] once a copy has thrown, and whether the
    loop is left. *)
Definition copyInto (copy : dirent -> option (list dirent))
    (dest : option (list dirent)) (entry : dirent)
  : option (list dirent) * bool :=
  match dest with
  | None => (None, true)
  | Some copied =>
      match copy entry with
      | Some made => (Some (copied ++ made), false)
      | None => (None, true)
      end
  end.

(** What the loop of [copyDirectory] makes of one entry at the
    destination: a directory that is left out makes nothing, a file that
    cannot be read makes [copyFileSync] throw. *)
Fixpoint copyEntry (entry : dirent) {struct entry}
  : option (list dirent) :=
  match entry with
  | Directory name sub =>
      if JsArray.includes backupExcluded name then Some []
      else
        match forEntries (copyInto copyEntry) (Some []) sub with
        | Some copied => Some [Directory name copied]
        | None => None
        end
  | File name (Some content) => Some [File name (Some content)]
  | File name None => None
  | Other name =>
      match copyOther name with
      | Some made => Some [made]
      | None => None
      end
  end.

(** [copyDirectory(src, dest)] for a destination that does not exist. *)
Definition copyDirectory (entries : list dirent) : option (list dirent) :=
  forEntries (copyInto copyEntry) (Some []) entries.

(** [fs.existsSync(this.backupDir)]. *)
Definition backupExists (disk : Disk) : bool :=
  match backup disk with
  | Outside (Some _) => true
  | Outside None => false
  | Inside name _ =>
      existsb (fun entry => bool_decide (entryName entry = name))
        (source disk)
  end.

(** [createBackup]; [None] is an exception of the copy.  The copy
    lists the source directory before it makes the destination, so a
    backup directory inside the source directory is not copied into
    itself; it is an entry of the source directory from then on. *)
Definition createBackup (disk : Disk) : option Disk :=
  if backupExists disk then Some disk
  else
    match copyDirectory (source disk) with
    | Some copied =>
        Some match backup disk with
             | Outside _ =>
                 {| source := source disk; backup := Outside (Some copied) |}
             | Inside name listedAt =>
                 {| source :=
                      firstn listedAt (source disk)
                      ++ Directory name copied
                         :: skipn listedAt (source disk);
                    backup := Inside name listedAt |}
             end
    | None => None
    end.

End Copy.

(** The body of the loop of [processDirectory]: the replacer and the
    entries of the directory as they are after the loop has passed. *)
Definition processInto (process : t -> dirent -> t * dirent)
    (acc : t * list dirent) (entry : dirent) : (t * list dirent) * bool :=
  let (this, entry) := process (fst acc) entry in
  ((this, snd acc ++ [entry]), false).

(** One entry of [processDirectory]: the replacer and the entry as it
    is afterwards.  A file that cannot be read makes [processFile] catch
    the exception before it counts the file. *)
Fixpoint processEntry (dir : jsstring) (this : t) (entry : dirent)
    {struct entry} : t * dirent :=
  match entry with
  | Directory name sub =>
      if JsArray.includes processExcluded name then (this, entry)
      else
        let (this, sub) :=
          forEntries (processInto (processEntry (Path.join dir name)))
            (this, []) sub in
        (this, Directory name sub)
  | File name content =>
      let ext := Path.toLowerCase (Path.extname name) in
      if JsArray.includes extensions ext then
        match content with
        | Some originalContent =>
            let (this, written) :=
              processFile this (Path.join dir name) originalContent in
            (this,
             File name
               (Some match written with
                     | Some modifiedContent => modifiedContent
                     | None => originalContent
                     end))
        | None => (this, entry)
        end
      else (this, entry)
  | Other _ => (this, entry)
  end.

(** [processDirectory]. *)
Definition processDirectory (this : t) (dir : jsstring)
    (entries : list dirent) : t * list dirent :=
  forEntries (processInto (processEntry dir)) (this, []) entries.

(** [generateReport]: the total goes into the report, which is
    written. *)
Definition generateReport (this : t) : t :=
  {| replacements := replacements this;
     totalReplacements := totalReplacements this;
     reportData :=
       {| filesProcessed := filesProcessed (reportData this);
          report_totalReplacements := totalReplacements this;
          fileChanges := fileChanges (reportData this) |} |}.

Section Run.

Variable copyOther : jsstring -> option dirent.

(** [replaceTexts]: [None] is an exception; otherwise the replacer, the
    disk as the walk leaves it, and the report when one is written (into
    the working directory, after the walk). *)
Definition replaceTexts (this : t)
    (mapping : file (list (jsstring * value))) (disk : Disk)
  : option (t * Disk * option ReportData) :=
  match loadTranslationMapping this mapping with
  | None => None
  | Some (this, _) =>
      if length (replacements this) =? 0 then Some (this, disk, None)
      else
        match createBackup copyOther disk with
        | None => None
        | Some disk =>
            let (this, entries) := processDirectory this [] (source disk) in
            let this := generateReport this in
            Some (this,
                  {| source := entries; backup := backup disk |},
                  Some (reportData this))
        end
  end.

End Run.

End TextReplacer.

(** The first variant of the replacer, before the validation of the
    mapping came in. *)
Module TextReplacer_1_0.

(** [loadTranslationMapping]: every entry of the document is set. *)
Definition loadTranslationMapping (replacements : JsMap.t value)
    (mapping : file (list (jsstring * value))) : option (JsMap.t value) :=
  match mapping with
  | Missing | Unparsable => None
  | Parsed mappingData =>
      Some (fold_left
              (fun (m : JsMap.t value) (kv : jsstring * value) =>
                 JsMap.set m (fst kv) (snd kv))
              mappingData replacements)
  end.

End TextReplacer_1_0.

(* ================================================================== *)
(** * Vocabulary of the specification *)
(* ================================================================== *)

(** The entry is stored in the cache file under the key. *)
Definition on_disk (disk : file AITranslator.CacheData) (key : jsstring)
    (entry : Entry.t) : Prop :=
  exists cacheData entries,
    disk = Parsed cacheData
    /\ AITranslator.cache_field cacheData = Some entries
    /\ In (key, entry) entries.

(** The entry was made under the model and the target language of this
    run. *)
Definition of_this_run (this : AITranslator.t) (entry : Entry.t) : Prop :=
  Entry.model entry = AITranslator.model this
  /\ Entry.targetLanguage entry = AITranslator.targetLanguage this.

(** Every entry of the in-memory cache is an entry of this run. *)
Definition cache_of_run (this : AITranslator.t) : Prop :=
  forall key entry,
    In (key, entry) (AITranslator.cache this) -> of_this_run this entry.

(** The lookup of [getCachedTranslation] finds a translation. *)
Definition is_hit (this : AITranslator.t) (item : Item.t) : bool :=
  match fst (AITranslator.getCachedTranslation this (Item.text item)
               (Item.context item)) with
  | Some _ => true
  | None => false
  end.

(** The later state of a translator of the same configuration: it has
    sent the prompts of the earlier one, and maybe more. *)
Definition extends (a b : AITranslator.t) : Prop :=
  AITranslator.model b = AITranslator.model a
  /\ AITranslator.targetLanguage b = AITranslator.targetLanguage a
  /\ exists more, AITranslator.sent b = AITranslator.sent a ++ more.

(** The entries a cache file stores; none when the file is missing,
    does not parse or has no [cache] field. *)
Definition stored (disk : file AITranslator.CacheData) : JsMap.t Entry.t :=
  match disk with
  | Parsed cacheData =>
      match AITranslator.cache_field cacheData with
      | Some entries => entries
      | None => []
      end
  | _ => []
  end.

(** The key [setCachedTranslation] files an entry under. *)
Definition entry_key (entry : Entry.t) : jsstring :=
  Entry.original entry ++ js "|" ++ Entry.model entry ++ js "|"
  ++ Entry.targetLanguage entry ++ js "|" ++ Entry.context entry.

(** The field does not contain the separator of the cache key. *)
Definition no_bar (s : jsstring) : Prop := ~ In 124%N s.

(** The loop of [saveCache]: the bindings of the map assigned to the
    object, in the order of the map. *)
Definition assignAll {V : Type} (mem o : list (jsstring * V))
  : list (jsstring * V) :=
  fold_left (fun o kv => JsMap.assign o (fst kv) (snd kv)) mem o.

(** No field that the key is built from, besides the text, contains the
    separator. *)
Definition plain (entry : Entry.t) : Prop :=
  no_bar (Entry.model entry) /\ no_bar (Entry.targetLanguage entry)
  /\ no_bar (Entry.context entry).

(** A file the walk of an extractor is to process: its name is not
    that of a configuration file and its extension is one of a component
    or a script. *)
Definition wanted (name : jsstring) : bool :=
  negb (JsArray.includes skipFiles (Path.toLowerCase name))
  && JsArray.includes sourceExtensions (Path.toLowerCase (Path.extname name)).

(** The files of a tree that are wanted and lie in no excluded
    directory, by their paths from the source directory, in the order
    of the listings. *)
Fixpoint eligible (dir : jsstring) (entry : dirent) : list jsstring :=
  match entry with
  | File name _ => if wanted name then [Path.join dir name] else []
  | Directory name sub =>
      if JsArray.includes excludedDirectories name then []
      else flat_map (eligible (Path.join dir name)) sub
  | Other _ => []
  end.

(** The text of an entry is trimmed and not empty. *)
Definition tidy (entry : Text.t) : Prop :=
  trim (Text.text entry) = Text.text entry /\ Text.text entry <> [].

(** The order of the output under a collation. *)
Definition by_text (localeCompare : jsstring -> jsstring -> Z)
    (a b : Text.t) : Prop :=
  (localeCompare (Text.text a) (Text.text b) <= 0)%Z.

(** A collation for the examples: code unit by code unit. *)
Fixpoint codeUnitCompare (a b : jsstring) : Z :=
  match a, b with
  | [], [] => 0
  | [], _ :: _ => -1
  | _ :: _, [] => 1
  | x :: a', y :: b' =>
      if N.eqb x y then codeUnitCompare a' b'
      else (Z.of_N x - Z.of_N y)%Z
  end.




(** The translation has no code unit in common with the key and no
    dollar sign. *)
Definition alien (v k : jsstring) : Prop :=
  (forall x, In x v -> ~ In x k) /\ ~ In 36%N v.

(** The three variables of the loop of [processFile]:
    [modifiedContent], [fileReplacements] and [changes]. *)
Definition content_of (acc : jsstring * nat * list Change.t) : jsstring :=
  fst (fst acc).
Definition count_of (acc : jsstring * nat * list Change.t) : nat :=
  snd (fst acc).
Definition changes_of (acc : jsstring * nat * list Change.t)
  : list Change.t := snd acc.


(** The labelled lines of a response, stripped, in their order. *)
Definition labelled (response : jsstring) : list jsstring :=
  AITranslator.labelled_lines
    (List.filter (fun line => truthy (trim line)) (split 10%N response)).

(** [translations[i] || originalText.text]. *)
Definition chosen (translations : list jsstring) (i : nat) (item : Item.t)
  : jsstring :=
  match nth_error translations i with
  | Some s => if truthy s then s else Item.text item
  | None => Item.text item
  end.

(** The texts a prompt asks the provider to translate. *)
Definition prompt_texts (p : AITranslator.prompt) : list jsstring :=
  match p with
  | AITranslator.BatchPrompt _ numbered => List.map snd numbered
  | AITranslator.SinglePrompt _ text => [text]
  end.

(** The key of the cache an item is looked up and filed under. *)
Definition key_of (this : AITranslator.t) (item : Item.t) : jsstring :=
  AITranslator.getCacheKey this (Item.text item) (Item.context item).

(** A later state of the translator that has asked the provider for
    texts of the given items only: the configuration is the same, the
    prompts sent before are kept, every prompt added asks for texts of
    the items, and [apiCalls] has grown by no more than the number of
    prompts added. *)
Definition asks_only (items : list Item.t) (a b : AITranslator.t) : Prop :=
  AITranslator.model b = AITranslator.model a
  /\ AITranslator.targetLanguage b = AITranslator.targetLanguage a
  /\ AITranslator.apiCalls a <= AITranslator.apiCalls b
  /\ exists more,
      AITranslator.sent b = AITranslator.sent a ++ more
      /\ AITranslator.apiCalls b <= AITranslator.apiCalls a + length more
      /\ forall p s, In p more -> In s (prompt_texts p) ->
                     In s (List.map Item.text items).

(** A later state of the translator whose cache differs from the
    earlier one under keys of the given items only, and has lost no
    key. *)
Definition touches (items : list Item.t) (a b : AITranslator.t) : Prop :=
  AITranslator.model b = AITranslator.model a
  /\ AITranslator.targetLanguage b = AITranslator.targetLanguage a
  /\ (forall key,
        In key (JsMap.keys (AITranslator.cache a)) ->
        In key (JsMap.keys (AITranslator.cache b)))
  /\ forall key,
      (forall item, In item items -> key_of a item <> key) ->
      JsMap.get (AITranslator.cache b) key
      = JsMap.get (AITranslator.cache a) key.

(** The result of the text is the fallback of a failed request: the
    original for translation, flagged as an error. *)
Definition fell_back (translations : JsMap.t Result.t) (text : jsstring)
  : Prop :=
  exists r,
    JsMap.get translations text = Some r
    /\ Result.original r = text /\ Result.translated r = text
    /\ Result.error r = true /\ Result.fromCache r = false.

(** Every result is filed under its original, and no original twice. *)
Definition filed (translations : JsMap.t Result.t) : Prop :=
  List.NoDup (JsMap.keys translations)
  /\ forall k r, In (k, r) translations -> Result.original r = k.

(** A line in the format the prompt of a batch asks for: a label, a
    dot, a blank, and the text between double quotes. *)
Definition quoted_line (label text : jsstring) : jsstring :=
  label ++ js ". " ++ [34%N] ++ text ++ [34%N].

(** [lines.join] with a line feed. *)
Fixpoint join_lines (lines : list jsstring) : jsstring :=
  match lines with
  | [] => []
  | [line] => line
  | line :: rest => line ++ 10%N :: join_lines rest
  end.

(** The decomposition of a line the pattern of a labelled line
    accepts: digits, a dot, white space, and a group without line
    terminator that begins where the white space ends, or is the last
    code unit of the line. *)
Definition labelled_as (line digits blanks group : jsstring) : Prop :=
  line = digits ++ [46%N] ++ blanks ++ group
  /\ digits <> []
  /\ Forall (fun d => is_digit d = true) digits
  /\ Forall (fun b => is_whitespace b = true) blanks
  /\ Forall (fun x => is_dot x = true) group
  /\ match group with
     | [] => False
     | [_] => True
     | c :: _ :: _ => is_whitespace c = false
     end.

(** The files [processDirectory] reads: the regular files that can be
    read, have the extension of a component or a script and lie in no
    directory the walk passes by, with their paths from the source
    directory and their contents, in the order of the walk. *)
Fixpoint replaceable (dir : jsstring) (entry : dirent)
  : list (jsstring * jsstring) :=
  match entry with
  | File name (Some content) =>
      if JsArray.includes TextReplacer.extensions
           (Path.toLowerCase (Path.extname name))
      then [(Path.join dir name, content)] else []
  | File _ None => []
  | Directory name sub =>
      if JsArray.includes TextReplacer.processExcluded name then []
      else flat_map (replaceable (Path.join dir name)) sub
  | Other _ => []
  end.

(** The regular files of a tree, with their paths and contents. *)
Fixpoint regular_files (dir : jsstring) (entry : dirent)
  : list (jsstring * option jsstring) :=
  match entry with
  | File name content => [(Path.join dir name, content)]
  | Directory name sub => flat_map (regular_files (Path.join dir name)) sub
  | Other _ => []
  end.

(** The tree in which every file [processDirectory] reads has the
    content [f] makes of its content, and nothing else has changed. *)
Fixpoint rewritten (f : jsstring -> jsstring) (entry : dirent) : dirent :=
  match entry with
  | File name (Some content) =>
      if JsArray.includes TextReplacer.extensions
           (Path.toLowerCase (Path.extname name))
      then File name (Some (f content)) else entry
  | File _ None => entry
  | Directory name sub =>
      if JsArray.includes TextReplacer.processExcluded name then entry
      else Directory name (List.map (rewritten f) sub)
  | Other _ => entry
  end.

(** The content the loop of [processFile] over the mapping ends
    with, and the number of replacements it counts. *)
Definition replaced (mapping : JsMap.t jsstring) (content : jsstring)
  : jsstring :=
  content_of (fold_left TextReplacer.replaceOne mapping (content, 0, [])).

Definition replaced_count (mapping : JsMap.t jsstring) (content : jsstring)
  : nat :=
  count_of (fold_left TextReplacer.replaceOne mapping (content, 0, [])).

(** The sum of a list of numbers. *)
Definition total_of (l : list nat) : nat := fold_right Nat.add 0 l.

(** The report of a replacer adds up: every change has one occurrence
    or more and as many as it lists indices of, the replacements of a
    file are those of its changes, and the total is that of the files. *)
Definition adds_up (this : TextReplacer.t) : Prop :=
  TextReplacer.totalReplacements this
  = total_of (List.map FileChange.replacements
           (TextReplacer.fileChanges (TextReplacer.reportData this)))
  /\ length (TextReplacer.fileChanges (TextReplacer.reportData this))
     <= TextReplacer.filesProcessed (TextReplacer.reportData this)
  /\ Forall
       (fun fc =>
          0 < FileChange.replacements fc
          /\ FileChange.replacements fc
             = total_of (List.map Change.occurrences (FileChange.changes fc))
          /\ Forall
               (fun ch =>
                  0 < Change.occurrences ch
                  /\ Change.occurrences ch = length (Change.contexts ch))
               (FileChange.changes fc))
       (TextReplacer.fileChanges (TextReplacer.reportData this)).




(** No configuration file lies where the walk of an extractor comes
    by. *)
Fixpoint config_free (entry : dirent) : bool :=
  match entry with
  | File name _ => negb (JsArray.includes skipFiles (Path.toLowerCase name))
  | Directory name sub =>
      JsArray.includes excludedDirectories name || forallb config_free sub
  | Other _ => true
  end.

(** The entry was added for one of the files. *)
Definition comes_from (paths : list jsstring) (entry : Text.t) : Prop :=
  exists p, Text.file entry = Some p /\ In p paths.

(** The files an entry of the output refers to. *)
Definition references (entry : Text.t) : list (option jsstring) :=
  match Text.files entry with
  | Some fs => fs
  | None => [Text.file entry]
  end.

(** What a stretch of the walk of [extract-text.js] has done: it has
    passed the files to [processFile], in order; the counter has grown by
    no more than their number; every text added comes from one of
    them. *)
Definition walked (seen : list jsstring) (a b : TextExtractor.t) : Prop :=
  TextExtractor.visited b = TextExtractor.visited a ++ seen
  /\ TextExtractor.processedFiles a <= TextExtractor.processedFiles b
     <= TextExtractor.processedFiles a + length seen
  /\ exists added,
      TextExtractor.extractedTexts b = TextExtractor.extractedTexts a ++ added
      /\ Forall (comes_from seen) added.

(** The same for the walk of the Vue SFC extractor. *)
Definition sfc_walked (seen : list jsstring) (a b : VueSFCExtractor.t)
  : Prop :=
  VueSFCExtractor.visited b = VueSFCExtractor.visited a ++ seen
  /\ VueSFCExtractor.processedFiles a <= VueSFCExtractor.processedFiles b
     <= VueSFCExtractor.processedFiles a + length seen
  /\ exists added,
      VueSFCExtractor.extractedTexts b
      = VueSFCExtractor.extractedTexts a ++ added
      /\ Forall (comes_from seen) added.

(** The strings a pattern matches. *)
Inductive lang : Pattern.t -> jsstring -> Prop :=
  | lang_eps : lang Pattern.Eps []
  | lang_chr k c : Pattern.member k c = true -> lang (Pattern.Chr k) [c]
  | lang_seq a b s1 s2 :
      lang a s1 -> lang b s2 -> lang (Pattern.Seq a b) (s1 ++ s2)
  | lang_alt_l a b s : lang a s -> lang (Pattern.Alt a b) s
  | lang_alt_r a b s : lang b s -> lang (Pattern.Alt a b) s
  | lang_star_nil a : lang (Pattern.Star a) []
  | lang_star_more a s1 s2 :
      lang a s1 -> lang (Pattern.Star a) s2 ->
      lang (Pattern.Star a) (s1 ++ s2).

(** No string the pattern matches has the code unit [x]. *)
Fixpoint never_has (x : char) (r : Pattern.t) : bool :=
  match r with
  | Pattern.Never | Pattern.Eps => true
  | Pattern.Chr k => negb (Pattern.member k x)
  | Pattern.Seq a b | Pattern.Alt a b => never_has x a && never_has x b
  | Pattern.Star a => never_has x a
  end.

(** The class has no code unit of the ranges. *)
Definition apart (k : Pattern.class) (ranges : list (N * N)) : bool :=
  match k with
  | Pattern.OneOf rs =>
      forallb
        (fun r =>
           forallb (fun q => (N.ltb (snd r) (fst q) || N.ltb (snd q) (fst r))%N)
             ranges)
        rs
  | Pattern.NoneOf rs =>
      forallb
        (fun q =>
           existsb (fun r => (N.leb (fst r) (fst q) && N.leb (snd q) (snd r))%N)
             rs)
        ranges
  end.

(** The pattern matches no string made of code units of the ranges. *)
Fixpoint empty_over (ranges : list (N * N)) (r : Pattern.t) : bool :=
  match r with
  | Pattern.Never => true
  | Pattern.Eps => false
  | Pattern.Chr k => apart k ranges
  | Pattern.Seq a b => empty_over ranges a || empty_over ranges b
  | Pattern.Alt a b => empty_over ranges a && empty_over ranges b
  | Pattern.Star _ => false
  end.

(** Every string the pattern matches begins with a code unit outside
    the ranges. *)
Fixpoint begins_outside (ranges : list (N * N)) (r : Pattern.t) : bool :=
  match r with
  | Pattern.Never => true
  | Pattern.Eps => false
  | Pattern.Chr k => apart k ranges
  | Pattern.Seq a _ => begins_outside ranges a
  | Pattern.Alt a b => begins_outside ranges a && begins_outside ranges b
  | Pattern.Star _ => false
  end.

(** The capitals of the ASCII alphabet made small. *)
Definition fold_case (c : char) : char :=
  if (N.leb 65 c && N.leb c 90)%N then (c + 32)%N else c.

(** The text has the word, whatever the case of its ASCII letters. *)
Definition mentions (word text : jsstring) : bool :=
  includes word (List.map fold_case text).

(** The words of the pattern of the console methods. *)
Definition console_words : list jsstring :=
  [js "console."; js "error"; js "warn"; js "info"; js "debug"; js "log"].

(** The letters of the ASCII alphabet and the blank. *)
Definition phrase : list (N * N) := [Pattern.a_z; Pattern.A_Z; Pattern.one 32].

(** The code units of a name: letters, digits, [_], [-] and [.]. *)
Definition name_units : list (N * N) :=
  [Pattern.a_z; Pattern.A_Z; Pattern.d0_9;
   Pattern.one 95; Pattern.one 45; Pattern.one 46].

(** An alternative that matches in no phrase of several words: it asks
    for the whole string and matches no blank, or it asks for a code
    unit that is neither a letter nor the blank; with [capital], it may
    also ask for a string that does not begin with a capital. *)
Definition quiet (capital : bool) (a : Pattern.alternative) : bool :=
  (Pattern.fromStart a && Pattern.toEnd a && never_has 32%N (Pattern.body a))
  || empty_over phrase (Pattern.body a)
  || (capital && Pattern.fromStart a
      && begins_outside [Pattern.A_Z] (Pattern.body a)).

(** The alternatives of the pattern of the console methods. *)
Definition console_pattern : list Pattern.alternative :=
  List.map (fun w => Pattern.inside (Pattern.LitI w)) console_words.

(** The number of letters of the ASCII alphabet in a text. *)
Definition letters (text : jsstring) : nat :=
  length (List.filter (Pattern.in_ranges [Pattern.a_z; Pattern.A_Z]) text).

(* ================================================================== *)
(** * Sample data, after the tests of the repository *)
(* ================================================================== *)

Module Sample.
Import AITranslator.

(** The default target language, in code units. *)
Definition zh : jsstring := [31616; 20307; 20013; 25991]%N.

Definition env (model : string) : ProcessEnv :=
  {| OPENAI_API_KEY := Some (js "test-key");
     OPENAI_MODEL := Some (js model);
     API_ENDPOINT := None;
     TARGET_LANGUAGE := None |}.

Definition entry (original context model : string) (translated : jsstring)
  : Entry.t :=
  {| Entry.original := js original;
     Entry.translated := translated;
     Entry.context := js context;
     Entry.model := js model;
     Entry.targetLanguage := zh;
     Entry.createdAt := js "2024-12-20T10:00:00.000Z" |}.

Definition cacheFile (entries : list Entry.t) : file CacheData :=
  Parsed {| version := Some (js "1.0");
            lastUpdated := Some (js "2024-12-20T10:00:00.000Z");
            cache_field :=
              Some (List.map (fun e => (entry_key e, e)) entries) |}.

(** A provider that is down, and a clock that moves with every look. *)
Definition world : World :=
  {| provider := fun _ _ => Throws;
     toISOString := fun n => js "2024-12-21T10:00:00.00" ++ [N.of_nat n + 48]%N |}.

(** [Hello World] as the model [gpt-4o-mini] translated it. *)
Definition hello : Entry.t :=
  entry "Hello World" "template" "gpt-4o-mini" [20320; 22909; 19990; 30028]%N.

(** An entry that carries no translation. *)
Definition hollow : Entry.t := entry "Hello World" "template" "gpt-4o-mini" [].

(** An entry of [gpt-4] whose context contains the separator of the
    key, and the text whose key under [gpt-4o-mini] is the same. *)
Definition foreign : Entry.t :=
  {| Entry.original := js "x";
     Entry.translated := js "y";
     Entry.context := js "gpt-4o-mini|" ++ zh ++ js "|c";
     Entry.model := js "gpt-4";
     Entry.targetLanguage := zh;
     Entry.createdAt := js "2024-12-20T10:00:00.000Z" |}.

Definition clashing_text : jsstring := js "x|gpt-4|" ++ zh.

(** A translator of [gpt-4o-mini] after it has translated the clashing
    text. *)
Definition clashing (disk : file CacheData) : option t :=
  option_map
    (fun this => setCachedTranslation world this clashing_text (js "z") (js "c"))
    (constructor (env "gpt-4o-mini") disk).

(** A project: a script, the manifest, a directory with a component. *)
Definition project : list dirent :=
  [ File (js "main.js") (Some (js "export default 'Hello World'"));
    File (js "package.json") (Some (js "{}"));
    Directory (js "src")
      [ File (js "App.vue")
          (Some (js "<template><div>Hello World</div></template>")) ] ].

(** A harvest that finds one padded text in every file. *)
Definition harvest (ext content : jsstring) : list (jsstring * jsstring) :=
  [(js "  Hello World ", js "string")].

Definition item (text : string) : Item.t :=
  {| Item.text := js text; Item.context := js "template";
     Item.file := Some (js "App.vue"); Item.files := None |}.

(** A response of two labelled lines. *)
Definition two_lines : jsstring := js "1. Hallo" ++ [10%N] ++ js "2. 'Welt'".

(** A provider that translates any batch of one text by the same
    labelled line, and one that refuses batches and answers a single
    text with two quotes and nothing between them. *)
Definition yuanxing : jsstring := [21407; 22411]%N.

Definition one_line_world : World :=
  {| provider := fun _ _ => Content (js "1. " ++ yuanxing);
     toISOString := fun n => js "2024-12-21T10:00:00.00" ++ [N.of_nat n + 48]%N |}.

Definition empty_answer_world : World :=
  {| provider :=
       fun _ p =>
         match p with
         | BatchPrompt _ _ => Throws
         | SinglePrompt _ _ => Content [34; 34]%N
         end;
     toISOString := fun n => js "2024-12-21T10:00:00.00" ++ [N.of_nat n + 48]%N |}.

Definition extracted (texts : list string) : file ExtractedData :=
  Parsed {| metadata := None; texts := Some (List.map item texts) |}.

(** What a run has written: each original with its translation and its
    flags [error] and [fromCache], the mapping, and the translation of
    each entry of the cache file. *)
Definition written_results (out : option Outcome)
  : option (list (jsstring * jsstring * bool * bool)) :=
  match out with
  | Some o =>
      option_map
        (fun td =>
           List.map
             (fun r => (Result.original r, Result.translated r,
                        Result.error r, Result.fromCache r))
             (td_translations td))
        (translationsFile o)
  | None => None
  end.

Definition written_mapping (out : option Outcome)
  : option (JsMap.t jsstring) :=
  match out with
  | Some o => mappingFile o
  | None => None
  end.

Definition cached_translations (out : option Outcome) : list jsstring :=
  match out with
  | Some o =>
      match AITranslator.cacheFile o with
      | Parsed cd =>
          match cache_field cd with
          | Some entries => List.map (fun kv => Entry.translated (snd kv)) entries
          | None => []
          end
      | _ => []
      end
  | None => []
  end.

(** The run of a fresh translator of [gpt-4o-mini] without cache
    file. *)
Definition run (w : World) (texts : list string) : option Outcome :=
  match constructor (env "gpt-4o-mini") Missing with
  | Some this => translateTexts w this (extracted texts) Missing
  | None => None
  end.

(** A fresh translator of [gpt-4o-mini] with the given cache. *)
Definition translator (cache : JsMap.t Entry.t) : t :=
  {| apiKey := js "test-key";
     model := js "gpt-4o-mini";
     apiEndpoint := js "https://api.openai.com/v1";
     targetLanguage := zh;
     translations := []; processedCount := 0; totalCount := 0;
     cacheHits := 0; apiCalls := 0; cache := cache;
     sent := []; clockReads := 0 |}.

(** A replacer that has loaded the given mapping. *)
Definition replacer (mapping : list (jsstring * jsstring)) : TextReplacer.t :=
  {| TextReplacer.replacements := mapping;
     TextReplacer.totalReplacements := 0;
     TextReplacer.reportData :=
       {| TextReplacer.filesProcessed := 0;
          TextReplacer.report_totalReplacements := 0;
          TextReplacer.fileChanges := [] |} |}.

(** [Hello World] in Chinese. *)
Definition nihao : jsstring := [20320; 22909; 19990; 30028]%N.


End Sample.

(* ================================================================== *)
(** * Facts about maps and objects *)
(* ================================================================== *)

Section JsMapFacts.
Context {V : Type}.
Implicit Types (m : list (jsstring * V)) (k : jsstring) (v : V).

Lemma get_set_eq m k v : JsMap.get (JsMap.set m k v) k = Some v.
Proof.
  induction m as [|[k' v'] m IH]; simpl.
  - destruct (decide (k = k)); congruence.
  - destruct (decide (k = k')) as [->|Hne]; simpl.
    + destruct (decide (k' = k')); congruence.
    + destruct (decide (k = k')); congruence.
Qed.

Lemma get_set_ne m k k' v :
  k <> k' -> JsMap.get (JsMap.set m k v) k' = JsMap.get m k'.
Proof.
  intros Hne. induction m as [|[k0 v0] m IH]; simpl.
  - destruct (decide (k' = k)); congruence.
  - destruct (decide (k = k0)) as [->|Hne0]; simpl.
    + destruct (decide (k' = k0)); congruence.
    + destruct (decide (k' = k0)); congruence.
Qed.

Lemma get_In m k v : JsMap.get m k = Some v -> In (k, v) m.
Proof.
  induction m as [|[k' v'] m IH]; simpl; [discriminate|].
  destruct (decide (k = k')) as [->|Hne]; intros H.
  - left. congruence.
  - right. auto.
Qed.

Lemma get_None_keys m k : JsMap.get m k = None <-> ~ In k (JsMap.keys m).
Proof.
  induction m as [|[k' v'] m IH]; simpl.
  - tauto.
  - destruct (decide (k = k')) as [->|Hne].
    + split; [discriminate|]. intros H. exfalso. apply H. now left.
    + rewrite IH. split; intros H; [intros [E|I]; [congruence|tauto]|tauto].
Qed.

Lemma In_get m k v :
  List.NoDup (JsMap.keys m) -> In (k, v) m -> JsMap.get m k = Some v.
Proof.
  induction m as [|[k' v'] m IH]; simpl; [tauto|].
  intros Hnd [E|I].
  - inversion E; subst. destruct (decide (k = k)); congruence.
  - inversion Hnd as [|? ? Hnot Hnd']; subst.
    destruct (decide (k = k')) as [->|Hne].
    + exfalso. apply Hnot. change k' with (fst (k', v)).
      now apply in_map.
    + auto.
Qed.

Lemma In_set m k v k' v' :
  In (k', v') (JsMap.set m k v) -> (k' = k /\ v' = v) \/ In (k', v') m.
Proof.
  induction m as [|[k0 v0] m IH]; simpl.
  - intros [E|[]]. left. now inversion E.
  - destruct (decide (k = k0)) as [->|Hne]; simpl.
    + intros [E|I]; [left; now inversion E|right; now right].
    + intros [E|I]; [right; now left|].
      destruct (IH I) as [?|?]; [now left|right; now right].
Qed.

Lemma keys_set m k v :
  JsMap.keys (JsMap.set m k v)
  = if JsMap.has m k then JsMap.keys m else JsMap.keys m ++ [k].
Proof.
  unfold JsMap.has. induction m as [|[k' v'] m IH]; simpl; [reflexivity|].
  destruct (decide (k = k')) as [->|Hne]; simpl; [reflexivity|].
  rewrite IH. now destruct (JsMap.get m k).
Qed.

Lemma NoDup_set m k v :
  List.NoDup (JsMap.keys m) -> List.NoDup (JsMap.keys (JsMap.set m k v)).
Proof.
  intros Hnd. rewrite keys_set. unfold JsMap.has.
  destruct (JsMap.get m k) eqn:E; [assumption|].
  apply get_None_keys in E.
  apply List.NoDup_app; [assumption|constructor; [simpl; tauto|constructor]|].
  intros x Hx [<-|[]]. contradiction.
Qed.

Lemma set_id m k v : JsMap.get m k = Some v -> JsMap.set m k v = m.
Proof.
  induction m as [|[k' v'] m IH]; simpl; [discriminate|].
  destruct (decide (k = k')) as [->|Hne]; intros H.
  - congruence.
  - now rewrite IH.
Qed.

Lemma has_true m k : JsMap.has m k = true <-> In k (JsMap.keys m).
Proof.
  unfold JsMap.has. destruct (JsMap.get m k) eqn:E.
  - split; [intros _|reflexivity].
    apply get_In in E. change k with (fst (k, v)). now apply in_map.
  - apply get_None_keys in E. split; [discriminate|tauto].
Qed.

End JsMapFacts.

(* ================================================================== *)
(** * The translation cache *)
(* ================================================================== *)

Section CacheFacts.
Import AITranslator.

Lemma loadCache_config this disk :
  model (loadCache this disk) = model this
  /\ targetLanguage (loadCache this disk) = targetLanguage this.
Proof.
  destruct disk as [| |cacheData]; simpl; try tauto.
  destruct (version cacheData) as [v|], (cache_field cacheData) as [es|];
    simpl; try tauto.
  destruct (truthy v); simpl; tauto.
Qed.

(** What the loop of [loadCache] lets into the map. *)
Lemma loadCache_loop_In (M L : jsstring) entries :
  forall (m0 : JsMap.t Entry.t) key entry,
    In (key, entry)
       (fold_left
          (fun (m : JsMap.t Entry.t) (kv : jsstring * Entry.t) =>
             let (key, entry) := kv in
             if decide (Entry.model entry = M) then
               if decide (Entry.targetLanguage entry = L)
               then JsMap.set m key entry
               else m
             else m)
          entries m0) ->
    In (key, entry) m0
    \/ (In (key, entry) entries
        /\ Entry.model entry = M /\ Entry.targetLanguage entry = L).
Proof.
  induction entries as [|[k e] entries IH]; simpl; intros m0 key entry H.
  - now left.
  - apply IH in H. destruct H as [H|[H ?]]; [|right; split; [now right|assumption]].
    destruct (decide (Entry.model e = M)) as [Hm|]; [|now left].
    destruct (decide (Entry.targetLanguage e = L)) as [Hl|]; [|now left].
    apply In_set in H. destruct H as [[-> ->]|H]; [|now left].
    right. split; [now left|now split].
Qed.

Lemma loadCache_In this disk key entry :
  In (key, entry) (cache (loadCache this disk)) ->
  In (key, entry) (cache this)
  \/ (on_disk disk key entry /\ of_this_run this entry).
Proof.
  destruct disk as [| |cacheData]; simpl; [now left|intros []|].
  destruct (version cacheData) as [v|] eqn:Ev,
           (cache_field cacheData) as [es|] eqn:Ec; simpl; try (now left).
  destruct (truthy v); simpl; [|now left].
  intros H. apply loadCache_loop_In in H. destruct H as [H|[H Hrun]]; [now left|].
  right. split; [|exact Hrun]. exists cacheData, es. repeat split; assumption.
Qed.

Lemma constructor_loads env disk this :
  constructor env disk = Some this ->
  exists fresh, cache fresh = [] /\ this = loadCache fresh disk.
Proof.
  unfold constructor. destruct (truthy _); [|discriminate].
  intros H. injection H as <-. eexists. split; [|reflexivity]. reflexivity.
Qed.

(** C1. Cache isolation.  After the constructor has loaded the cache
    file, every entry of the in-memory cache is an entry of the file
    whose model and target language are string-equal to those of the
    run; an entry stored under another model or another language is
    therefore never the entry a lookup finds, whatever the text and the
    context, and every hit [getCachedTranslation] returns is the
    translation of an entry of this run. *)
Theorem cache_isolation env disk this :
  constructor env disk = Some this ->
  (forall key entry,
      In (key, entry) (cache this) ->
      on_disk disk key entry /\ of_this_run this entry)
  /\ (forall entry,
        Entry.model entry <> model this
        \/ Entry.targetLanguage entry <> targetLanguage this ->
        forall text context,
          JsMap.get (cache this) (getCacheKey this text context)
          <> Some entry)
  /\ (forall text context hit this',
        getCachedTranslation this text context = (Some hit, this') ->
        exists entry,
          on_disk disk (getCacheKey this text context) entry
          /\ of_this_run this entry
          /\ Entry.translated entry = hit).
Proof.
  intros Hc. destruct (constructor_loads _ _ _ Hc) as (fresh & Hempty & ->).
  assert (Hin : forall key entry,
             In (key, entry) (cache (loadCache fresh disk)) ->
             on_disk disk key entry
             /\ of_this_run (loadCache fresh disk) entry).
  { intros key entry H. apply loadCache_In in H.
    rewrite Hempty in H. destruct H as [[]|[Hd [Hm Hl]]].
    split; [exact Hd|]. unfold of_this_run.
    destruct (loadCache_config fresh disk) as [-> ->]. now split. }
  split; [exact Hin|]. split.
  - intros entry Hdiff text context Hget.
    apply get_In, Hin in Hget. destruct Hget as [_ [Hm Hl]].
    destruct Hdiff; contradiction.
  - intros text context hit this' Hhit. unfold getCachedTranslation in Hhit.
    destruct (JsMap.get _ _) as [cached|] eqn:Hget; [|discriminate].
    destruct (truthy (Entry.translated cached)); [|discriminate].
    injection Hhit as <- _. exists cached.
    apply get_In, Hin in Hget. destruct Hget as [Hd Hrun].
    split; [exact Hd|split; [exact Hrun|reflexivity]].
Qed.

Lemma extends_refl a : extends a a.
Proof. repeat split. exists []. now rewrite app_nil_r. Qed.

Lemma extends_trans a b c : extends a b -> extends b c -> extends a c.
Proof.
  intros (Hm & Hl & m1 & H1) (Hm' & Hl' & m2 & H2). repeat split.
  - congruence.
  - congruence.
  - exists (m1 ++ m2). now rewrite H2, H1, app_assoc.
Qed.

Lemma getCachedTranslation_state this text context :
  snd (getCachedTranslation this text context) = this
  \/ snd (getCachedTranslation this text context)
     = with_cacheHits this (S (cacheHits this)).
Proof.
  unfold getCachedTranslation. destruct (JsMap.get _ _) as [c|]; [|now left].
  destruct (truthy _); [now right|now left].
Qed.

Lemma getCachedTranslation_extends this text context :
  extends this (snd (getCachedTranslation this text context)).
Proof.
  destruct (getCachedTranslation_state this text context) as [->| ->].
  - apply extends_refl.
  - repeat split. exists []. simpl. now rewrite app_nil_r.
Qed.

Lemma getCachedTranslation_cache this text context :
  cache (snd (getCachedTranslation this text context)) = cache this.
Proof.
  now destruct (getCachedTranslation_state this text context) as [->| ->].
Qed.

Lemma setCachedTranslation_extends w this text translated context :
  extends this (setCachedTranslation w this text translated context).
Proof. repeat split. exists []. simpl. now rewrite app_nil_r. Qed.

Lemma record_result_extends this r : extends this (record_result this r).
Proof. repeat split. exists []. simpl. now rewrite app_nil_r. Qed.

Lemma with_apiCalls_extends this n : extends this (with_apiCalls this n).
Proof. repeat split. exists []. simpl. now rewrite app_nil_r. Qed.

Lemma callOpenAI_extends w this p : extends this (snd (callOpenAI w this p)).
Proof. repeat split. now exists [p]. Qed.

Lemma translateSingle_extends w this text :
  extends this (snd (translateSingle w this text)).
Proof.
  unfold translateSingle.
  pose proof (callOpenAI_extends w this
                (SinglePrompt (targetLanguage this) text)) as H.
  destruct (callOpenAI _ _ _) as [r this']. now destruct r.
Qed.

Lemma translateBatchIndividually_extends w batch :
  forall this, extends this (translateBatchIndividually w this batch).
Proof.
  induction batch as [|text rest IH]; intros this; simpl.
  - apply extends_refl.
  - pose proof (getCachedTranslation_extends this (Item.text text)
                  (Item.context text)) as H1.
    destruct (getCachedTranslation _ _ _) as [cached this1]. simpl in H1.
    destruct cached as [translated|].
    + eapply extends_trans; [exact H1|].
      eapply extends_trans; [apply record_result_extends|apply IH].
    + pose proof (translateSingle_extends w this1 (Item.text text)) as H2.
      destruct (translateSingle _ _ _) as [answer this2]. simpl in H2.
      eapply extends_trans; [exact H1|].
      eapply extends_trans; [exact H2|].
      destruct answer as [translated|].
      * eapply extends_trans; [apply with_apiCalls_extends|].
        eapply extends_trans; [apply setCachedTranslation_extends|].
        eapply extends_trans; [apply record_result_extends|apply IH].
      * eapply extends_trans; [apply record_result_extends|apply IH].
Qed.

Lemma storeBatch_extends w translations batch :
  forall this i, extends this (storeBatch w this translations i batch).
Proof.
  induction batch as [|item rest IH]; intros this i; simpl.
  - apply extends_refl.
  - eapply extends_trans; [apply setCachedTranslation_extends|].
    eapply extends_trans; [apply record_result_extends|apply IH].
Qed.

(** A batch goes to the provider in one prompt that numbers its texts. *)
Lemma translateBatch_sends w this batch :
  extends this (translateBatch w this batch)
  /\ In (createBatchPrompt this batch) (sent (translateBatch w this batch)).
Proof.
  unfold translateBatch, callOpenAI.
  set (p := createBatchPrompt this batch).
  set (this1 := with_sent this (sent this ++ [p])).
  assert (H1 : extends this this1) by (repeat split; now exists [p]).
  assert (Hp : In p (sent this1)) by (simpl; apply in_or_app; right; now left).
  assert (Hkeep : forall t', extends this1 t' -> In p (sent t')).
  { intros t' (_ & _ & more & ->). apply in_or_app. now left. }
  destruct (provider w (length (sent this)) p) as [|response].
  - pose proof (translateBatchIndividually_extends w batch this1) as H2.
    split; [eapply extends_trans; eassumption|now apply Hkeep].
  - pose proof (storeBatch_extends w (parseBatchResponse response batch)
                  batch (with_apiCalls this1 (S (apiCalls this1))) 0) as H2.
    assert (H3 : extends this1 (storeBatch w
                   (with_apiCalls this1 (S (apiCalls this1)))
                   (parseBatchResponse response batch) 0 batch)).
    { eapply extends_trans; [apply with_apiCalls_extends|exact H2]. }
    split; [eapply extends_trans; eassumption|now apply Hkeep].
Qed.

Lemma translateBatches_send w batches :
  forall this,
    extends this (fold_left (translateBatch w) batches this)
    /\ forall batch,
        In batch batches ->
        In (createBatchPrompt this batch)
           (sent (fold_left (translateBatch w) batches this)).
Proof.
  induction batches as [|b rest IH]; intros this; simpl.
  - split; [apply extends_refl|intros ? []].
  - destruct (translateBatch_sends w this b) as [He Hs].
    destruct (IH (translateBatch w this b)) as [He' Hs'].
    split; [eapply extends_trans; eassumption|].
    intros batch [<-|Hin].
    + destruct He' as (_ & _ & more & ->). apply in_or_app. now left.
    + specialize (Hs' batch Hin). unfold createBatchPrompt in *.
      destruct He as (_ & Hl & _). rewrite Hl in Hs'. exact Hs'.
Qed.

Lemma is_hit_ext a b item :
  cache b = cache a -> model b = model a ->
  targetLanguage b = targetLanguage a ->
  is_hit b item = is_hit a item.
Proof.
  intros Hc Hm Hl. unfold is_hit, getCachedTranslation, getCacheKey.
  rewrite Hc, Hm, Hl. destruct (JsMap.get _ _) as [c|]; [|reflexivity].
  now destruct (truthy _).
Qed.

(** [separateCachedTexts] splits the texts by the lookup; the cache and
    the configuration stay as they are. *)
Lemma separateCachedTexts_loop texts :
  forall cachedTexts uncachedTexts this,
    let F :=
      fun (acc : list Item.t * list Item.t * t) (text : Item.t) =>
        let '(cachedTexts, uncachedTexts, this) := acc in
        let (cached, this) :=
          getCachedTranslation this (Item.text text) (Item.context text) in
        match cached with
        | Some _ => (cachedTexts ++ [text], uncachedTexts, this)
        | None => (cachedTexts, uncachedTexts ++ [text], this)
        end in
    exists this',
      fold_left F texts (cachedTexts, uncachedTexts, this)
      = (cachedTexts ++ List.filter (is_hit this) texts,
         uncachedTexts ++ List.filter (fun x => negb (is_hit this x)) texts,
         this')
      /\ cache this' = cache this /\ extends this this'.
Proof.
  induction texts as [|text rest IH]; intros c u this F; simpl.
  - exists this. rewrite !app_nil_r.
    split; [reflexivity|split; [reflexivity|apply extends_refl]].
  - subst F. simpl.
    pose proof (getCachedTranslation_extends this (Item.text text)
                  (Item.context text)) as He.
    pose proof (getCachedTranslation_cache this (Item.text text)
                  (Item.context text)) as Hc.
    assert (Hh : is_hit this text
                 = match fst (getCachedTranslation this (Item.text text)
                                (Item.context text)) with
                   | Some _ => true
                   | None => false
                   end) by reflexivity.
    destruct (getCachedTranslation this _ _) as [cached this1].
    simpl in He, Hc, Hh.
    assert (Hhit : forall x, is_hit this1 x = is_hit this x).
    { intros x. destruct He as (Hm & Hl & _). now apply is_hit_ext. }
    destruct cached as [tr|]; rewrite Hh; simpl.
    + destruct (IH (c ++ [text]) u this1) as (this' & -> & Hc' & He').
      exists this'. rewrite <- !app_assoc. simpl.
      rewrite (List.filter_ext _ _ Hhit).
      rewrite (List.filter_ext (fun x => negb (is_hit this1 x))
                 (fun x => negb (is_hit this x))).
      2:{ intros x. now rewrite Hhit. }
      split; [reflexivity|split; [congruence|eapply extends_trans; eassumption]].
    + destruct (IH c (u ++ [text]) this1) as (this' & -> & Hc' & He').
      exists this'. rewrite <- !app_assoc. simpl.
      rewrite (List.filter_ext _ _ Hhit).
      rewrite (List.filter_ext (fun x => negb (is_hit this1 x))
                 (fun x => negb (is_hit this x))).
      2:{ intros x. now rewrite Hhit. }
      split; [reflexivity|split; [congruence|eapply extends_trans; eassumption]].
Qed.

Lemma separateCachedTexts_spec this texts :
  exists this',
    separateCachedTexts this texts
    = (List.filter (is_hit this) texts,
       List.filter (fun x => negb (is_hit this x)) texts, this')
    /\ cache this' = cache this /\ extends this this'.
Proof. exact (separateCachedTexts_loop texts [] [] this). Qed.

(** The batches are the texts, cut into pieces. *)
Lemma createBatches_from_concat batchSize :
  0 < batchSize ->
  forall fuel texts,
    length texts <= fuel ->
    concat (createBatches_from fuel texts batchSize) = texts.
Proof.
  intros Hpos. induction fuel as [|fuel IH]; intros texts Hlen.
  - destruct texts; [reflexivity|simpl in Hlen; lia].
  - destruct texts as [|x rest]; [reflexivity|].
    cbn [createBatches_from concat].
    rewrite IH.
    + apply firstn_skipn.
    + rewrite length_skipn. simpl in *. lia.
Qed.

Lemma createBatches_concat texts batchSize :
  0 < batchSize -> concat (createBatches texts batchSize) = texts.
Proof.
  intros H. unfold createBatches. now apply createBatches_from_concat.
Qed.

(** An entry of this run that the file stores is loaded under its key:
    the keys of a JSON object are distinct. *)
Lemma loadCache_loop_other (M L : jsstring) entries :
  forall (m0 : JsMap.t Entry.t) key,
    ~ In key (JsMap.keys entries) ->
    JsMap.get
      (fold_left
         (fun (m : JsMap.t Entry.t) (kv : jsstring * Entry.t) =>
            let (key, entry) := kv in
            if decide (Entry.model entry = M) then
              if decide (Entry.targetLanguage entry = L)
              then JsMap.set m key entry
              else m
            else m)
         entries m0) key
    = JsMap.get m0 key.
Proof.
  induction entries as [|[k e] entries IH]; simpl; intros m0 key Hnot.
  - reflexivity.
  - rewrite IH by tauto.
    destruct (decide (Entry.model e = M)); [|reflexivity].
    destruct (decide (Entry.targetLanguage e = L)); [|reflexivity].
    apply get_set_ne. tauto.
Qed.

Lemma loadCache_loop_get (M L : jsstring) entries :
  forall (m0 : JsMap.t Entry.t) key entry,
    List.NoDup (JsMap.keys entries) ->
    In (key, entry) entries ->
    Entry.model entry = M -> Entry.targetLanguage entry = L ->
    JsMap.get
      (fold_left
         (fun (m : JsMap.t Entry.t) (kv : jsstring * Entry.t) =>
            let (key, entry) := kv in
            if decide (Entry.model entry = M) then
              if decide (Entry.targetLanguage entry = L)
              then JsMap.set m key entry
              else m
            else m)
         entries m0) key
    = Some entry.
Proof.
  induction entries as [|[k e] entries IH]; simpl;
    intros m0 key entry Hnd Hin Hm Hl; [contradiction|].
  inversion Hnd as [|? ? Hnot Hnd']; subst.
  destruct Hin as [E|Hin].
  - inversion E; subst. rewrite loadCache_loop_other by exact Hnot.
    destruct (decide (Entry.model entry = Entry.model entry)); [|congruence].
    destruct (decide (Entry.targetLanguage entry
                      = Entry.targetLanguage entry)); [|congruence].
    apply get_set_eq.
  - now apply IH.
Qed.

Lemma loadCache_get this cacheData v entries key entry :
  version cacheData = Some v -> truthy v = true ->
  cache_field cacheData = Some entries ->
  List.NoDup (JsMap.keys entries) ->
  In (key, entry) entries ->
  of_this_run this entry ->
  JsMap.get (cache (loadCache this (Parsed cacheData))) key = Some entry.
Proof.
  intros Hv Ht Hc Hnd Hin [Hm Hl]. simpl. rewrite Hv, Hc, Ht. simpl.
  now apply loadCache_loop_get.
Qed.

(** A lookup that finds an entry without translation is a miss. *)
Lemma getCachedTranslation_empty this text context cached :
  JsMap.get (cache this) (getCacheKey this text context) = Some cached ->
  Entry.translated cached = [] ->
  getCachedTranslation this text context = (None, this).
Proof.
  intros Hget Hempty. unfold getCachedTranslation. now rewrite Hget, Hempty.
Qed.

Lemma processCached_extends cachedTexts :
  forall this, extends this (processCached this cachedTexts).
Proof.
  unfold processCached.
  induction cachedTexts as [|text rest IH]; intros this; simpl.
  - apply extends_refl.
  - pose proof (getCachedTranslation_extends this (Item.text text)
                  (Item.context text)) as H1.
    destruct (getCachedTranslation _ _ _) as [cached this1]. simpl in H1.
    eapply extends_trans; [exact H1|].
    eapply extends_trans; [apply record_result_extends|apply IH].
Qed.

Lemma saveCache_extends w this disk : extends this (snd (saveCache w this disk)).
Proof. repeat split. exists []. simpl. now rewrite app_nil_r. Qed.

Lemma saveTranslations_extends w this data :
  extends this (snd (saveTranslations w this data)).
Proof. repeat split. exists []. simpl. now rewrite app_nil_r. Qed.

(** A run sends every text its lookup misses to the provider, in the
    prompt of a batch. *)
Lemma translateTexts_sends_misses w this extractedData texts disk out item :
  AITranslator.texts extractedData = Some texts ->
  translateTexts w this (Parsed extractedData) disk = Some out ->
  In item texts ->
  is_hit this item = false ->
  exists numbered,
    In (BatchPrompt (targetLanguage this) numbered) (sent (final out))
    /\ In (Item.text item) (List.map snd numbered).
Proof.
  intros Htexts Hrun Hin Hmiss. unfold translateTexts in Hrun.
  rewrite Htexts in Hrun. destruct texts as [|t0 rest]; [contradiction|].
  set (all := t0 :: rest) in *.
  set (this0 := with_totalCount this (length all)) in *.
  destruct (separateCachedTexts_spec this0 all) as (this1 & Hsep & Hc1 & He1).
  rewrite Hsep in Hrun.
  set (uncached := List.filter (fun x => negb (is_hit this0 x)) all) in *.
  set (this2 := processCached this1 _) in *.
  assert (He2 : extends this1 this2) by apply processCached_extends.
  destruct (translateBatches_send w (createBatches uncached 10) this2)
    as [He3 Hsend].
  set (this3 := fold_left (translateBatch w) _ this2) in *.
  pose proof (saveCache_extends w this3 disk) as He4.
  destruct (saveCache w this3 disk) as [disk' this4]. simpl in He4.
  pose proof (saveTranslations_extends w this4 extractedData) as He5.
  destruct (saveTranslations w this4 extractedData) as [[td md] this5].
  simpl in He5. injection Hrun as <-. simpl.
  assert (Hun : In item uncached).
  { apply filter_In. split; [exact Hin|].
    rewrite (is_hit_ext this this0) by reflexivity. now rewrite Hmiss. }
  rewrite <- (createBatches_concat uncached 10) in Hun by lia.
  apply in_concat in Hun. destruct Hun as (batch & Hb & Hib).
  specialize (Hsend batch Hb). unfold createBatchPrompt in Hsend.
  assert (Hl2 : targetLanguage this2 = targetLanguage this).
  { destruct He2 as (_ & -> & _). destruct He1 as (_ & -> & _). reflexivity. }
  rewrite Hl2 in Hsend.
  exists (combine (seq 1 (length batch)) (List.map Item.text batch)). split.
  - destruct (extends_trans _ _ _ He4 He5) as (_ & _ & more & ->).
    apply in_or_app. now left.
  - assert (Hlen : length (seq 1 (length batch))
                   = length (List.map Item.text batch)).
    { now rewrite length_seq, length_map. }
    clear - Hib Hlen. revert Hlen. generalize (seq 1 (length batch)).
    induction batch as [|b bs IH]; [contradiction|].
    intros [|n ns] Hlen; [discriminate|]. simpl in *.
    destruct Hib as [->|Hib]; [now left|right]. apply IH; [exact Hib|lia].
Qed.

(** C10. A persisted entry without translation is never served.  When
    the cache file stores, under the key of a text and context of this
    run, an entry of this run whose [translated] field is the empty
    string, [getCachedTranslation] returns [null] for that text and
    leaves the hit counter alone, and a run over texts that contain it
    sends it to the provider again in the prompt of a batch. *)
Theorem empty_translation_not_served
    env disk this cacheData v entries entry text context :
  constructor env disk = Some this ->
  disk = Parsed cacheData ->
  version cacheData = Some v -> truthy v = true ->
  cache_field cacheData = Some entries ->
  List.NoDup (JsMap.keys entries) ->
  In (getCacheKey this text context, entry) entries ->
  of_this_run this entry ->
  Entry.translated entry = [] ->
  getCachedTranslation this text context = (None, this)
  /\ forall w extractedData texts disk' out item,
      AITranslator.texts extractedData = Some texts ->
      In item texts ->
      Item.text item = text -> Item.context item = context ->
      translateTexts w this (Parsed extractedData) disk' = Some out ->
      exists numbered,
        In (BatchPrompt (targetLanguage this) numbered) (sent (final out))
        /\ In text (List.map snd numbered).
Proof.
  intros Hc -> Hv Ht Hf Hnd Hin Hrun Hempty.
  destruct (constructor_loads _ _ _ Hc) as (fresh & _ & Hthis).
  assert (Hget : JsMap.get (cache this) (getCacheKey this text context)
                 = Some entry).
  { rewrite Hthis at 1. eapply loadCache_get; try eassumption.
    destruct Hrun as [Hm Hl]. destruct (loadCache_config fresh (Parsed cacheData))
      as [Hm' Hl']. rewrite <- Hthis in Hm', Hl'. split; congruence. }
  pose proof (getCachedTranslation_empty _ _ _ _ Hget Hempty) as Hmiss.
  split; [exact Hmiss|].
  intros w extractedData texts disk' out item Htexts Hitem <- <- Hout.
  eapply translateTexts_sends_misses; try eassumption.
  unfold is_hit. now rewrite Hmiss.
Qed.

(** ** Saving the cache *)

Section Assign.
Context {V : Type}.
Implicit Types (o mem : list (jsstring * V)) (k : jsstring) (v : V).

Lemma get_assign_eq o k v :
  JsMap.get (JsMap.assign o k v) k
  = if JsMap.has o k || negb (bool_decide (k = JsMap.proto_key))
    then Some v else None.
Proof.
  unfold JsMap.assign, JsMap.has.
  destruct (JsMap.get o k) eqn:E; simpl; [apply get_set_eq|].
  destruct (decide (k = JsMap.proto_key)) as [Hp|Hp].
  - rewrite bool_decide_eq_true_2 by exact Hp. exact E.
  - rewrite bool_decide_eq_false_2 by exact Hp. apply get_set_eq.
Qed.

Lemma get_assign_ne o k k' v :
  k <> k' -> JsMap.get (JsMap.assign o k v) k' = JsMap.get o k'.
Proof.
  intros Hne. unfold JsMap.assign.
  destruct (JsMap.has o k); [now apply get_set_ne|].
  destruct (decide (k = JsMap.proto_key)); [reflexivity|now apply get_set_ne].
Qed.

Lemma has_assign_ne o k k' v :
  k <> k' -> JsMap.has (JsMap.assign o k v) k' = JsMap.has o k'.
Proof. intros Hne. unfold JsMap.has. now rewrite get_assign_ne. Qed.

(** Assigning a value the object already has, or assigning to
    [__proto__] on an object without that own property, changes
    nothing. *)
Lemma assign_id o k v :
  JsMap.get o k = Some v
  \/ (JsMap.get o k = None /\ k = JsMap.proto_key) ->
  JsMap.assign o k v = o.
Proof.
  unfold JsMap.assign, JsMap.has. intros [H|[H ->]]; rewrite H.
  - now apply set_id.
  - destruct (decide (JsMap.proto_key = JsMap.proto_key)); congruence.
Qed.

(** The own properties after the loop of [saveCache]: the in-memory
    binding wins, the other properties of the object stay. *)
Lemma get_assignAll mem :
  List.NoDup (JsMap.keys mem) ->
  forall o k,
    JsMap.get (assignAll mem o) k
    = match JsMap.get mem k with
      | Some v =>
          if JsMap.has o k || negb (bool_decide (k = JsMap.proto_key))
          then Some v else None
      | None => JsMap.get o k
      end.
Proof.
  unfold assignAll.
  induction mem as [|[k0 v0] mem IH]; simpl; intros Hnd o k; [reflexivity|].
  inversion Hnd as [|? ? Hnot Hnd']; subst. rewrite IH by exact Hnd'.
  destruct (decide (k = k0)) as [->|Hne].
  - apply get_None_keys in Hnot. rewrite Hnot. apply get_assign_eq.
  - destruct (JsMap.get mem k).
    + now rewrite has_assign_ne by congruence.
    + now apply get_assign_ne.
Qed.

Lemma fold_left_fixed {A B : Type} (f : A -> B -> A) (l : list B) (a : A) :
  (forall b, In b l -> f a b = a) -> fold_left f l a = a.
Proof.
  induction l as [|b l IH]; simpl; intros H; [reflexivity|].
  rewrite (H b) by now left. apply IH. intros b' Hb'. apply H. now right.
Qed.

(** Running the loop a second time changes nothing, not even the order
    of the properties. *)
Lemma assignAll_twice mem o :
  List.NoDup (JsMap.keys mem) ->
  assignAll mem (assignAll mem o) = assignAll mem o.
Proof.
  intros Hnd. unfold assignAll at 1. apply fold_left_fixed.
  intros [k v] Hin. simpl. apply assign_id.
  rewrite (get_assignAll mem Hnd o k), (In_get mem k v Hnd Hin).
  destruct (JsMap.has o k) eqn:Eh; simpl; [now left|].
  destruct (decide (k = JsMap.proto_key)) as [Hp|Hp].
  - rewrite bool_decide_eq_true_2 by exact Hp. right. now split.
  - rewrite bool_decide_eq_false_2 by exact Hp. now left.
Qed.

End Assign.

Lemma saveCache_stored w this disk :
  stored (fst (saveCache w this disk)) = assignAll (cache this) (stored disk).
Proof. reflexivity. Qed.

Lemma saveCache_file w this disk :
  fst (saveCache w this disk)
  = Parsed {| version := Some (js "1.0");
              lastUpdated := Some (toISOString w (clockReads this));
              cache_field := Some (assignAll (cache this) (stored disk)) |}.
Proof. reflexivity. Qed.

Lemma saveCache_state w this disk :
  snd (saveCache w this disk) = with_clockReads this (S (clockReads this)).
Proof. reflexivity. Qed.

(** The cache key determines its fields when the separator occurs in
    the text only. *)
Lemma app_sep_inj (c : char) (l1 : jsstring) :
  forall l2 r1 r2,
    ~ In c l1 -> ~ In c l2 ->
    l1 ++ c :: r1 = l2 ++ c :: r2 -> l1 = l2 /\ r1 = r2.
Proof.
  induction l1 as [|a l1 IH]; intros [|b l2] r1 r2 H1 H2 E; simpl in *.
  - injection E as ->. now split.
  - injection E as -> _. tauto.
  - injection E as -> _. tauto.
  - injection E as -> E. destruct (IH l2 r1 r2) as [-> ->]; tauto.
Qed.

Lemma app_sep_last_inj (c : char) (a a' b b' : jsstring) :
  ~ In c b -> ~ In c b' ->
  a ++ c :: b = a' ++ c :: b' -> a = a' /\ b = b'.
Proof.
  intros Hb Hb' E. apply (f_equal (@rev char)) in E.
  rewrite !rev_app_distr in E. simpl in E. rewrite <- !app_assoc in E.
  simpl in E. apply app_sep_inj in E.
  - destruct E as [E1 E2]. split.
    + rewrite <- (rev_involutive a), <- (rev_involutive a'). now f_equal.
    + rewrite <- (rev_involutive b), <- (rev_involutive b'). now f_equal.
  - now rewrite <- in_rev.
  - now rewrite <- in_rev.
Qed.

Lemma entry_key_inj e1 e2 :
  plain e1 -> plain e2 -> entry_key e1 = entry_key e2 ->
  Entry.original e1 = Entry.original e2
  /\ Entry.model e1 = Entry.model e2
  /\ Entry.targetLanguage e1 = Entry.targetLanguage e2
  /\ Entry.context e1 = Entry.context e2.
Proof.
  intros (Hm1 & Hl1 & Hc1) (Hm2 & Hl2 & Hc2). unfold entry_key.
  change (js "|") with [124%N]. simpl. intros E.
  assert (E3 : ((Entry.original e1 ++ 124%N :: Entry.model e1)
                ++ 124%N :: Entry.targetLanguage e1)
               ++ 124%N :: Entry.context e1
               = ((Entry.original e2 ++ 124%N :: Entry.model e2)
                  ++ 124%N :: Entry.targetLanguage e2)
                 ++ 124%N :: Entry.context e2).
  { repeat (rewrite <- app_assoc; simpl). exact E. }
  apply app_sep_last_inj in E3; [|assumption|assumption].
  destruct E3 as [E2 Ec].
  apply app_sep_last_inj in E2; [|assumption|assumption].
  destruct E2 as [E1 El].
  apply app_sep_last_inj in E1; [|assumption|assumption].
  destruct E1 as [Eo Em]. now repeat split.
Qed.

(** C5, as the code has it.  [saveCache] reads the cache file again
    and writes the entries it stores with the entries of [this.cache]
    assigned over them: under a key of [this.cache] the file gets the
    in-memory entry (a key [__proto__] that the file does not store is
    not written), and every other entry of the file stays, in
    particular every entry of another model or language whose key is
    its own, when no field but the text contains the separator of the
    key.  A second [saveCache] writes the same version and the same
    entries in the same order; [lastUpdated] is the time of the second
    call. *)
Theorem saveCache_merges w this disk :
  List.NoDup (JsMap.keys (cache this)) ->
  let disk1 := fst (saveCache w this disk) in
  let this1 := snd (saveCache w this disk) in
  (forall key,
      JsMap.get (stored disk1) key
      = match JsMap.get (cache this) key with
        | Some entry =>
            if JsMap.has (stored disk) key
               || negb (bool_decide (key = JsMap.proto_key))
            then Some entry else None
        | None => JsMap.get (stored disk) key
        end)
  /\ (forall key entry,
        JsMap.get (stored disk) key = Some entry ->
        ~ In key (JsMap.keys (cache this)) ->
        JsMap.get (stored disk1) key = Some entry)
  /\ ((forall k e,
         In (k, e) (cache this) ->
         k = entry_key e /\ of_this_run this e /\ plain e) ->
      forall entry,
        JsMap.get (stored disk) (entry_key entry) = Some entry ->
        plain entry -> ~ of_this_run this entry ->
        JsMap.get (stored disk1) (entry_key entry) = Some entry)
  /\ fst (saveCache w this1 disk1)
     = Parsed {| version := Some (js "1.0");
                 lastUpdated := Some (toISOString w (S (clockReads this)));
                 cache_field := Some (stored disk1) |}.
Proof.
  intros Hnd disk1 this1.
  assert (H1 : forall key,
             JsMap.get (stored disk1) key
             = match JsMap.get (cache this) key with
               | Some entry =>
                   if JsMap.has (stored disk) key
                      || negb (bool_decide (key = JsMap.proto_key))
                   then Some entry else None
               | None => JsMap.get (stored disk) key
               end).
  { intros key. subst disk1. rewrite saveCache_stored.
    now apply get_assignAll. }
  assert (H2 : forall key entry,
             JsMap.get (stored disk) key = Some entry ->
             ~ In key (JsMap.keys (cache this)) ->
             JsMap.get (stored disk1) key = Some entry).
  { intros key entry Hget Hnot. rewrite H1.
    apply get_None_keys in Hnot. now rewrite Hnot. }
  split; [exact H1|]. split; [exact H2|]. split.
  - intros Hinv entry Hget Hplain Hother. apply H2; [exact Hget|].
    intros Hin. apply in_map_iff in Hin. destruct Hin as ([k e] & Hk & Hin).
    simpl in Hk. subst k. destruct (Hinv _ _ Hin) as (Hkey & Hrun & Hpl).
    destruct (entry_key_inj e entry Hpl Hplain (eq_sym Hkey))
      as (_ & Hm & Hl & _).
    apply Hother. destruct Hrun as [Hrm Hrl]. split; congruence.
  - subst disk1 this1. rewrite (saveCache_file w _ _).
    rewrite saveCache_state, !saveCache_stored.
    cbn [cache clockReads with_clockReads].
    now rewrite (assignAll_twice (cache this) (stored disk) Hnd).
Qed.

(** ** The statements above at the sample data *)

Lemma cache_isolation_witness :
  exists this,
    constructor (Sample.env "gpt-4") (Sample.cacheFile [Sample.hello])
    = Some this
    /\ forall text context,
        JsMap.get (cache this) (getCacheKey this text context)
        <> Some Sample.hello.
Proof.
  eexists. split; [reflexivity|].
  refine (proj1 (proj2 (cache_isolation (Sample.env "gpt-4")
                          (Sample.cacheFile [Sample.hello]) _ eq_refl))
            Sample.hello _).
  left. vm_compute. discriminate.
Defined.

Lemma empty_translation_not_served_witness :
  exists this,
    constructor (Sample.env "gpt-4o-mini") (Sample.cacheFile [Sample.hollow])
    = Some this
    /\ getCachedTranslation this (js "Hello World") (js "template")
       = (None, this).
Proof.
  eexists. split; [reflexivity|].
  refine (proj1 (empty_translation_not_served
                   (Sample.env "gpt-4o-mini")
                   (Sample.cacheFile [Sample.hollow]) _ _ (js "1.0")
                   [(entry_key Sample.hollow, Sample.hollow)] Sample.hollow
                   (js "Hello World") (js "template")
                   eq_refl eq_refl eq_refl eq_refl eq_refl _ _ _ eq_refl)).
  - constructor; [simpl; tauto|constructor].
  - left. reflexivity.
  - split; reflexivity.
Defined.

Lemma saveCache_merges_witness :
  exists this,
    Sample.clashing (Sample.cacheFile [Sample.hello]) = Some this
    /\ List.NoDup (JsMap.keys (cache this))
    /\ fst (saveCache Sample.world
              (snd (saveCache Sample.world this
                      (Sample.cacheFile [Sample.hello])))
              (fst (saveCache Sample.world this
                      (Sample.cacheFile [Sample.hello]))))
       = Parsed
           {| version := Some (js "1.0");
              lastUpdated :=
                Some (toISOString Sample.world (S (clockReads this)));
              cache_field :=
                Some (stored (fst (saveCache Sample.world this
                                     (Sample.cacheFile [Sample.hello])))) |}.
Proof.
  eexists. split; [reflexivity|].
  assert (Hnd : List.NoDup
                  (JsMap.keys
                     (cache (setCachedTranslation Sample.world
                               (loadCache
                                  {| apiKey := js "test-key";
                                     model := js "gpt-4o-mini";
                                     apiEndpoint := js "https://api.openai.com/v1";
                                     targetLanguage := Sample.zh;
                                     translations := []; processedCount := 0;
                                     totalCount := 0; cacheHits := 0;
                                     apiCalls := 0; cache := [];
                                     sent := []; clockReads := 0 |}
                                  (Sample.cacheFile [Sample.hello]))
                               Sample.clashing_text (js "z") (js "c"))))).
  { vm_compute. constructor.
    - simpl. intros [H|[]]. discriminate H.
    - constructor; [simpl; tauto|constructor]. }
  split; [exact Hnd|].
  exact (proj2 (proj2 (proj2 (saveCache_merges Sample.world _
                                (Sample.cacheFile [Sample.hello]) Hnd)))).
Defined.

(** C5 as the claim states it does not hold.  First, the file stores
    an entry of [gpt-4] under a key that is also the key of a text of
    the run of [gpt-4o-mini]: after [saveCache] the file has the entry
    of the run in its place.  Second, the file after a second
    [saveCache] differs from the file after the first one, by
    [lastUpdated]. *)
Lemma saveCache_counterexample :
  exists this,
    Sample.clashing (Sample.cacheFile [Sample.foreign]) = Some this
    /\ on_disk (Sample.cacheFile [Sample.foreign])
         (entry_key Sample.foreign) Sample.foreign
    /\ ~ of_this_run this Sample.foreign
    /\ ~ In Sample.foreign
           (JsMap.values
              (stored (fst (saveCache Sample.world this
                              (Sample.cacheFile [Sample.foreign])))))
    /\ fst (saveCache Sample.world
              (snd (saveCache Sample.world this
                      (Sample.cacheFile [Sample.foreign])))
              (fst (saveCache Sample.world this
                      (Sample.cacheFile [Sample.foreign]))))
       <> fst (saveCache Sample.world this
                 (Sample.cacheFile [Sample.foreign])).
Proof.
  eexists. split; [reflexivity|]. split; [|split; [|split]].
  - eexists _, _. split; [reflexivity|]. split; [reflexivity|]. now left.
  - intros [Hm _]. vm_compute in Hm. discriminate Hm.
  - vm_compute. intros [H|[]]. discriminate H.
  - vm_compute. intros H. discriminate H.
Qed.

End CacheFacts.

(* ================================================================== *)
(** * The mapping the replacer loads *)
(* ================================================================== *)

Section MappingFacts.
Import TextReplacer.

Lemma truthy_true (s : jsstring) : truthy s = true <-> s <> [].
Proof. destruct s; simpl; split; congruence. Qed.

Lemma length_pos (s : jsstring) : (0 <? length s) = true <-> s <> [].
Proof.
  destruct s as [|c s]; split; intros H.
  - vm_compute in H. discriminate H.
  - now contradiction H.
  - discriminate.
  - reflexivity.
Qed.

(** The test of the loader, spelled out. *)
Lemma valid_spec original translated :
  valid original translated = true <->
  exists s,
    translated = Str s
    /\ original <> [] /\ s <> []
    /\ trim original <> [] /\ trim s <> []
    /\ original <> s.
Proof.
  unfold valid. destruct translated as [s|b].
  - rewrite !andb_true_iff, !truthy_true, !length_pos, negb_true_iff,
      bool_decide_eq_false.
    split.
    + intros ((((H1 & H2) & H3) & H4) & H5). exists s. tauto.
    + intros (s' & E & H). injection E as <-. tauto.
  - split; [discriminate|]. intros (s & E & _). discriminate.
Qed.

(** The loop of the loader, one entry at a time. *)
Lemma loadEntries_In mappingData :
  forall replacements0 count0 k v,
    In (k, v)
       (fst (fold_left
               (fun (acc : JsMap.t jsstring * nat) (kv : jsstring * value) =>
                  let (replacements, validMappings) := acc in
                  let (original, translated) := kv in
                  match translated with
                  | Str s =>
                      if valid original translated then
                        (JsMap.set replacements (trim original) (trim s),
                         S validMappings)
                      else acc
                  | NotString _ => acc
                  end)
               mappingData (replacements0, count0))) ->
    In (k, v) replacements0
    \/ exists original translated,
        In (original, Str translated) mappingData
        /\ valid original (Str translated) = true
        /\ k = trim original /\ v = trim translated.
Proof.
  induction mappingData as [|[o t] rest IH]; simpl; intros m0 n0 k v H.
  - now left.
  - destruct t as [s|b].
    + destruct (valid o (Str s)) eqn:Ev.
      * apply IH in H. destruct H as [H|(o' & t' & Hin & Hv & Hk & Ht)].
        -- apply In_set in H. destruct H as [[-> ->]|H]; [|now left].
           right. exists o, s. repeat split; [now left|exact Ev].
        -- right. exists o', t'. repeat split; [now right|assumption..].
      * apply IH in H. destruct H as [H|(o' & t' & Hin & Hv & Hk & Ht)].
        -- now left.
        -- right. exists o', t'. repeat split; [now right|assumption..].
    + apply IH in H. destruct H as [H|(o' & t' & Hin & Hv & Hk & Ht)].
      * now left.
      * right. exists o', t'. repeat split; [now right|assumption..].
Qed.

Lemma loadEntries_count mappingData :
  forall replacements0 count0,
    snd (fold_left
           (fun (acc : JsMap.t jsstring * nat) (kv : jsstring * value) =>
              let (replacements, validMappings) := acc in
              let (original, translated) := kv in
              match translated with
              | Str s =>
                  if valid original translated then
                    (JsMap.set replacements (trim original) (trim s),
                     S validMappings)
                  else acc
              | NotString _ => acc
              end)
           mappingData (replacements0, count0))
    = count0
      + length (List.filter (fun kv => valid (fst kv) (snd kv)) mappingData).
Proof.
  induction mappingData as [|[o t] rest IH]; simpl; intros m0 n0.
  - lia.
  - destruct t as [s|b].
    + destruct (valid o (Str s)) eqn:Ev; rewrite IH; simpl; lia.
    + rewrite IH. simpl. lia.
Qed.

Lemma loadEntries_keeps mappingData :
  forall replacements0 count0 k,
    In k (JsMap.keys replacements0) ->
    In k (JsMap.keys
            (fst (fold_left
                    (fun (acc : JsMap.t jsstring * nat)
                         (kv : jsstring * value) =>
                       let (replacements, validMappings) := acc in
                       let (original, translated) := kv in
                       match translated with
                       | Str s =>
                           if valid original translated then
                             (JsMap.set replacements (trim original) (trim s),
                              S validMappings)
                           else acc
                       | NotString _ => acc
                       end)
                    mappingData (replacements0, count0)))).
Proof.
  induction mappingData as [|[o t] rest IH]; simpl; intros m0 n0 k H.
  - exact H.
  - destruct t as [s|b]; [|now apply IH].
    destruct (valid o (Str s)); [|now apply IH].
    apply IH. rewrite keys_set. destruct (JsMap.has m0 (trim o)); [exact H|].
    apply in_or_app. now left.
Qed.

Lemma loadEntries_retains mappingData :
  forall replacements0 count0 original translated,
    In (original, translated) mappingData ->
    valid original translated = true ->
    In (trim original)
       (JsMap.keys
          (fst (fold_left
                  (fun (acc : JsMap.t jsstring * nat)
                       (kv : jsstring * value) =>
                     let (replacements, validMappings) := acc in
                     let (original, translated) := kv in
                     match translated with
                     | Str s =>
                         if valid original translated then
                           (JsMap.set replacements (trim original) (trim s),
                            S validMappings)
                         else acc
                     | NotString _ => acc
                     end)
                  mappingData (replacements0, count0)))).
Proof.
  induction mappingData as [|[o t] rest IH]; simpl;
    intros m0 n0 original translated Hin Hv; [contradiction|].
  destruct Hin as [E|Hin].
  - injection E as -> ->. rewrite Hv.
    destruct translated as [s|b]; [|discriminate].
    apply loadEntries_keeps. rewrite keys_set.
    destruct (JsMap.has m0 (trim original)) eqn:Eh.
    + now apply has_true.
    + apply in_or_app. right. now left.
  - destruct t as [s|b]; [|now apply IH with translated].
    destruct (valid o (Str s)); now apply IH with translated.
Qed.

(** C9. Mapping validation.  On every mapping document the loader
    comes back without an exception.  Every binding it adds to the map
    comes from an entry whose two sides are non-empty strings, also
    after trimming, and differ from each other; the binding is the
    trimmed pair.  An entry that fails the test adds nothing, an entry
    that passes it has its trimmed key in the map, and the count the
    loader logs is the number of entries that pass. *)
Theorem mapping_validation this mappingData :
  exists this' validMappings,
    loadTranslationMapping this (Parsed mappingData)
    = Some (this', validMappings)
    /\ validMappings
       = length (List.filter (fun kv => valid (fst kv) (snd kv)) mappingData)
    /\ (forall k v,
          In (k, v) (replacements this') ->
          In (k, v) (replacements this)
          \/ exists original translated,
              In (original, Str translated) mappingData
              /\ k = trim original /\ v = trim translated
              /\ original <> [] /\ translated <> []
              /\ trim original <> [] /\ trim translated <> []
              /\ original <> translated)
    /\ (forall original translated,
          In (original, translated) mappingData ->
          valid original translated = true ->
          In (trim original) (JsMap.keys (replacements this'))).
Proof.
  unfold loadTranslationMapping, loadEntries.
  pose proof (loadEntries_In mappingData (replacements this) 0) as HIn.
  pose proof (loadEntries_count mappingData (replacements this) 0) as Hcount.
  pose proof (loadEntries_retains mappingData (replacements this) 0) as Hret.
  destruct (fold_left _ mappingData (replacements this, 0)) as [m n].
  cbn [fst snd replacements] in *. eexists _, _. split; [reflexivity|]. split; [exact Hcount|].
  split; [|exact Hret].
  intros k v H. apply HIn in H.
  destruct H as [H|(o & t & Hin & Hv & Hk & Ht)]; [now left|right].
  apply valid_spec in Hv. destruct Hv as (s & E & H1 & H2 & H3 & H4 & H5).
  injection E as <-. exists o, t. tauto.
Qed.

(** The first variant of the loader has no test: the entry of the test
    script with two empty sides is set like any other. *)
Remark first_variant_keeps_everything :
  TextReplacer_1_0.loadTranslationMapping []
    (Parsed [(js "Settings", Str (js "Settings")); ([], Str [])])
  = Some [(js "Settings", Str (js "Settings")); ([], Str [])].
Proof. reflexivity. Qed.

End MappingFacts.

(* ================================================================== *)
(** * The walk of the extractors *)
(* ================================================================== *)

Section WalkFacts.

Lemma forEntries_app {S : Type} (body : S -> dirent -> S * bool) :
  (forall this entry, snd (body this entry) = false) ->
  forall entries this,
    forEntries body this entries
    = fold_left (fun this entry => fst (body this entry)) entries this.
Proof.
  intros Hnever. induction entries as [|entry rest IH]; intros this; simpl.
  - reflexivity.
  - specialize (Hnever this entry). destruct (body this entry) as [this' r].
    simpl in *. subst r. apply IH.
Qed.

Lemma sfc_addText_visited this text filePath context :
  VueSFCExtractor.visited (VueSFCExtractor.addText this text filePath context)
  = VueSFCExtractor.visited this.
Proof.
  unfold VueSFCExtractor.addText.
  destruct (truthy text); [|reflexivity]. now destruct (truthy (trim text)).
Qed.

Lemma sfc_processSourceFile_visited harvest this ext filePath content :
  VueSFCExtractor.visited
    (VueSFCExtractor.processSourceFile harvest this ext filePath content)
  = VueSFCExtractor.visited this ++ [filePath].
Proof.
  unfold VueSFCExtractor.processSourceFile.
  destruct content as [content|]; [|reflexivity].
  destruct (harvest ext content) as [calls completed].
  set (this0 := VueSFCExtractor.Build_t _ _ _).
  assert (H : forall calls this1,
             VueSFCExtractor.visited
               (fold_left
                  (fun (this : VueSFCExtractor.t) (tc : jsstring * jsstring) =>
                     VueSFCExtractor.addText this (fst tc) filePath (snd tc))
                  calls this1)
             = VueSFCExtractor.visited this1).
  { clear. induction calls as [|c calls IH]; intros this1; simpl.
    - reflexivity.
    - rewrite IH. apply sfc_addText_visited. }
  destruct completed; simpl; now rewrite H.
Qed.

Lemma sourceExtensions_cases ext :
  JsArray.includes sourceExtensions ext
  = bool_decide (ext = js ".vue") || JsArray.includes scriptExtensions ext.
Proof. reflexivity. Qed.

(** The walk of the Vue SFC extractor never returns from inside its
    loop, and it processes the eligible files of every entry. *)
Lemma sfc_scanEntry_visited harvest :
  forall entry dir this,
    snd (VueSFCExtractor.scanEntry harvest dir this entry) = false
    /\ VueSFCExtractor.visited
         (fst (VueSFCExtractor.scanEntry harvest dir this entry))
       = VueSFCExtractor.visited this ++ eligible dir entry.
Proof.
  fix IH 1. intros [name content|name sub|name] dir this.
  - cbn [VueSFCExtractor.scanEntry eligible]. unfold wanted.
    rewrite sourceExtensions_cases.
    set (a := JsArray.includes skipFiles (Path.toLowerCase name)).
    set (b := bool_decide (Path.toLowerCase (Path.extname name) = js ".vue")).
    set (c := JsArray.includes scriptExtensions
                (Path.toLowerCase (Path.extname name))).
    clearbody a b c.
    destruct a, b, c; cbn [negb andb orb fst snd]; split;
      try reflexivity; try (now rewrite app_nil_r);
      apply sfc_processSourceFile_visited.
  - cbn [VueSFCExtractor.scanEntry eligible].
    set (a := JsArray.includes excludedDirectories name). clearbody a.
    destruct a; cbn [fst snd].
    + split; [reflexivity|now rewrite app_nil_r].
    + split; [reflexivity|].
      generalize (Path.join dir name) as d. intros d. revert this.
      induction sub as [|entry rest IHsub]; intros this; simpl.
      * now rewrite app_nil_r.
      * destruct (IH entry d this) as [Hr Hv].
        destruct (VueSFCExtractor.scanEntry harvest d this entry)
          as [this' r]. simpl in Hr, Hv. subst r.
        rewrite IHsub, Hv. now rewrite app_assoc.
  - simpl. split; [reflexivity|now rewrite app_nil_r].
Qed.

(** Coverage by the Vue SFC extractor: its walk processes exactly the
    eligible files of the tree. *)
Lemma sfc_scanDirectory_covers harvest entries :
  forall dir this,
    VueSFCExtractor.visited
      (VueSFCExtractor.scanDirectory harvest this dir entries)
    = VueSFCExtractor.visited this ++ flat_map (eligible dir) entries.
Proof.
  unfold VueSFCExtractor.scanDirectory.
  induction entries as [|entry rest IH]; intros dir this; simpl.
  - now rewrite app_nil_r.
  - destruct (sfc_scanEntry_visited harvest entry dir this) as [Hr Hv].
    destruct (VueSFCExtractor.scanEntry harvest dir this entry) as [this' r].
    simpl in Hr, Hv. subst r. rewrite IH, Hv. now rewrite app_assoc.
Qed.

(** C7. Coverage of eligible files.  The walk of [extract-text.js]
    returns from [scanDirectory] when it meets a configuration file, so
    the entries listed after that file in the same directory are not
    visited: in the sample project it never reaches the component of
    the directory [src], which is eligible and which the walk of the
    Vue SFC extractor processes. *)
Theorem scanDirectory_returns_on_config_file :
  forall harvest sfc_harvest,
    flat_map (eligible []) Sample.project = [js "main.js"; js "src/App.vue"]
    /\ TextExtractor.visited
         (TextExtractor.scanDirectory harvest
            {| TextExtractor.extractedTexts := [];
               TextExtractor.processedFiles := 0;
               TextExtractor.visited := [] |}
            [] Sample.project)
       = [js "main.js"]
    /\ VueSFCExtractor.visited
         (VueSFCExtractor.scanDirectory sfc_harvest
            {| VueSFCExtractor.extractedTexts := [];
               VueSFCExtractor.processedFiles := 0;
               VueSFCExtractor.visited := [] |}
            [] Sample.project)
       = [js "main.js"; js "src/App.vue"].
Proof.
  intros harvest sfc_harvest. split; [reflexivity|]. split.
  - unfold TextExtractor.scanDirectory, Sample.project.
    cbn [forEntries TextExtractor.scanEntry].
    change (JsArray.includes skipFiles (Path.toLowerCase (js "main.js")))
      with false.
    change (JsArray.includes sourceExtensions
              (Path.toLowerCase (Path.extname (js "main.js")))) with true.
    cbv iota.
    change (JsArray.includes skipFiles (Path.toLowerCase (js "package.json")))
      with true.
    cbv iota.
    unfold TextExtractor.processFile.
    set (calls := harvest _ _).
    change (JsArray.includes sourceExtensions
              (Path.toLowerCase (Path.extname (Path.join [] (js "main.js")))))
      with true.
    cbv iota.
    assert (H : forall calls this1,
               TextExtractor.visited
                 (fold_left
                    (fun (this : TextExtractor.t) (tc : jsstring * jsstring) =>
                       TextExtractor.addText this (fst tc)
                         (Path.join [] (js "main.js")) (snd tc))
                    calls this1)
               = TextExtractor.visited this1).
    { clear. induction calls as [|c calls IH]; intros this1; simpl.
      - reflexivity.
      - rewrite IH. unfold TextExtractor.addText.
        destruct (truthy (fst c)); [|reflexivity].
        now destruct (truthy (trim (fst c))). }
    rewrite H. reflexivity.
  - rewrite sfc_scanDirectory_covers. reflexivity.
Qed.

End WalkFacts.

(* ================================================================== *)
(** * The output of the extractor *)
(* ================================================================== *)

Section TrimFacts.

Lemma dropWhile_suffix p (s : jsstring) :
  exists pre, s = pre ++ dropWhile p s.
Proof.
  induction s as [|c s IH]; simpl.
  - now exists [].
  - destruct (p c).
    + destruct IH as [pre IH]. exists (c :: pre). simpl. now f_equal.
    + now exists [].
Qed.

Lemma dropWhile_head p (s : jsstring) c r :
  dropWhile p s = c :: r -> p c = false.
Proof.
  induction s as [|a s IH]; simpl; [discriminate|].
  destruct (p a) eqn:E; [exact IH|]. intros H. injection H as <- _. exact E.
Qed.

Lemma dropWhile_fixed p (s : jsstring) :
  match s with [] => True | c :: _ => p c = false end ->
  dropWhile p s = s.
Proof. destruct s as [|c s]; simpl; [reflexivity|]. now intros ->. Qed.

(** [trim] is idempotent. *)
Lemma trim_idem (s : jsstring) : trim (trim s) = trim s.
Proof.
  unfold trim, trimEnd, trimStart.
  set (u := dropWhile is_whitespace s).
  set (d := dropWhile is_whitespace (rev u)).
  assert (Hstart : dropWhile is_whitespace (rev d) = rev d).
  { apply dropWhile_fixed.
    destruct (dropWhile_suffix is_whitespace (rev u)) as [pre Hpre].
    fold d in Hpre. apply (f_equal (@rev char)) in Hpre.
    rewrite rev_involutive, rev_app_distr in Hpre.
    destruct (rev d) as [|c r]; [exact I|].
    simpl in Hpre. unfold u in Hpre. now apply dropWhile_head in Hpre. }
  rewrite Hstart, rev_involutive. f_equal.
  apply dropWhile_fixed.
  destruct d as [|c r] eqn:E; [exact I|].
  unfold d in E. now apply dropWhile_head in E.
Qed.

End TrimFacts.

Section ExtractionFacts.
Import TextExtractor.

Lemma addText_tidy this text filePath context :
  Forall tidy (extractedTexts this) ->
  Forall tidy (extractedTexts (addText this text filePath context)).
Proof.
  intros H. unfold addText. destruct (truthy text); [|exact H].
  destruct (truthy (trim text)) eqn:E; [|exact H]. simpl.
  apply Forall_app. split; [exact H|]. constructor; [|constructor].
  split; simpl; [apply trim_idem|now apply truthy_true].
Qed.

Lemma processFile_tidy harvest this filePath content :
  Forall tidy (extractedTexts this) ->
  Forall tidy (extractedTexts (processFile harvest this filePath content)).
Proof.
  intros H. unfold processFile. destruct content as [content|]; [|exact H].
  set (b := JsArray.includes sourceExtensions _). clearbody b.
  destruct b; [|exact H].
  set (this0 := Build_t _ _ _).
  assert (H0 : Forall tidy (extractedTexts this0)) by exact H.
  clearbody this0. revert this0 H0.
  induction (harvest _ content) as [|c calls IH]; intros this0 H0; simpl.
  - exact H0.
  - apply IH. now apply addText_tidy.
Qed.

Lemma scanEntry_tidy harvest :
  forall entry dir this,
    Forall tidy (extractedTexts this) ->
    Forall tidy (extractedTexts (fst (scanEntry harvest dir this entry))).
Proof.
  fix IH 1. intros [name content|name sub|name] dir this H.
  - cbn [scanEntry].
    set (a := JsArray.includes skipFiles _).
    set (b := JsArray.includes sourceExtensions _). clearbody a b.
    destruct a, b; cbn [fst]; try exact H. now apply processFile_tidy.
  - cbn [scanEntry].
    set (a := JsArray.includes excludedDirectories name). clearbody a.
    destruct a; cbn [fst]; [exact H|].
    generalize (Path.join dir name) as d. intros d. revert this H.
    induction sub as [|entry rest IHsub]; intros this H; simpl.
    + exact H.
    + pose proof (IH entry d this H) as He.
      destruct (scanEntry harvest d this entry) as [this' r].
      destruct r; [exact He|now apply IHsub].
  - exact H.
Qed.

Lemma scanDirectory_tidy harvest entries :
  forall dir this,
    Forall tidy (extractedTexts this) ->
    Forall tidy (extractedTexts (scanDirectory harvest this dir entries)).
Proof.
  unfold scanDirectory.
  induction entries as [|entry rest IH]; intros dir this H; simpl.
  - exact H.
  - pose proof (scanEntry_tidy harvest entry dir this H) as He.
    destruct (scanEntry harvest dir this entry) as [this' r].
    destruct r; [exact He|now apply IH].
Qed.

Lemma addFile_text existing item :
  Text.text (addFile existing item) = Text.text existing.
Proof.
  unfold addFile. destruct (Text.files existing) as [fs|] eqn:E.
  - rewrite E. now destruct (JsArray.includes fs (Text.file item)).
  - cbn [Text.files].
    now destruct (JsArray.includes [Text.file existing] (Text.file item)).
Qed.

Lemma mergeInto_tidy unique item :
  Forall tidy unique -> Forall tidy (mergeInto unique item).
Proof.
  induction 1 as [|u rest Hu Hrest IH]; simpl; [constructor|].
  destruct (bool_decide _).
  - constructor; [|exact Hrest]. unfold tidy. now rewrite addFile_text.
  - now constructor.
Qed.

Lemma dedupe_tidy texts :
  Forall tidy texts -> Forall tidy (snd (dedupe texts)).
Proof.
  unfold dedupe. intros H.
  assert (G : forall seen unique,
             Forall tidy unique ->
             Forall tidy
               (snd (fold_left
                       (fun (acc : list jsstring * list Text.t)
                            (item : Text.t) =>
                          let (seen, unique) := acc in
                          let key :=
                            Text.text item ++ js ":" ++ Text.context item in
                          if JsArray.includes seen key
                          then (seen, mergeInto unique item)
                          else (seen ++ [key], unique ++ [item]))
                       texts (seen, unique)))).
  { induction H as [|item rest Hitem Hrest IH]; intros seen unique Hu; simpl.
    - exact Hu.
    - destruct (JsArray.includes seen _); apply IH.
      + now apply mergeInto_tidy.
      + apply Forall_app. split; [exact Hu|now constructor]. }
  now apply G.
Qed.

Section SortFacts.
Context {A : Type}.
Variable compareFn : A -> A -> Z.
Let le (a b : A) : Prop := (compareFn a b <= 0)%Z.

Lemma insert_Forall (P : A -> Prop) x l :
  P x -> Forall P l -> Forall P (JsArray.insert compareFn x l).
Proof.
  intros Hx. induction 1 as [|y l Hy Hl IH]; simpl.
  - now constructor.
  - destruct (compareFn x y <=? 0)%Z; now repeat constructor.
Qed.

Lemma sort_Forall (P : A -> Prop) l :
  Forall P l -> Forall P (JsArray.sort compareFn l).
Proof.
  induction 1 as [|x l Hx Hl IH]; simpl; [constructor|].
  now apply insert_Forall.
Qed.

Lemma insert_Permutation x l :
  Permutation (x :: l) (JsArray.insert compareFn x l).
Proof.
  induction l as [|y l IH]; simpl; [reflexivity|].
  destruct (compareFn x y <=? 0)%Z; [reflexivity|].
  etransitivity; [apply perm_swap|]. now constructor.
Qed.

Lemma sort_Permutation l : Permutation l (JsArray.sort compareFn l).
Proof.
  induction l as [|x l IH]; simpl; [reflexivity|].
  etransitivity; [|apply insert_Permutation]. now constructor.
Qed.

Hypothesis total : forall a b, le a b \/ le b a.

Lemma insert_Sorted x l :
  Sorted le l -> Sorted le (JsArray.insert compareFn x l).
Proof.
  induction 1 as [|y l Hs IH Hhd]; simpl.
  - repeat constructor.
  - destruct (compareFn x y <=? 0)%Z eqn:E.
    + apply Z.leb_le in E. repeat constructor; assumption.
    + apply Z.leb_gt in E. constructor; [exact IH|].
      assert (Hyx : le y x).
      { destruct (total x y) as [H|H]; [unfold le in H; lia|exact H]. }
      destruct l as [|z l]; simpl; [now constructor|].
      destruct (compareFn x z <=? 0)%Z; constructor; [exact Hyx|].
      now inversion Hhd.
Qed.

Lemma sort_Sorted l : Sorted le (JsArray.sort compareFn l).
Proof.
  induction l as [|x l IH]; simpl; [constructor|]. now apply insert_Sorted.
Qed.

End SortFacts.

End ExtractionFacts.

Section ExtractionOutput.
Import TextExtractor.

Lemma codeUnitCompare_total a :
  forall b, (codeUnitCompare a b <= 0 \/ codeUnitCompare b a <= 0)%Z.
Proof.
  induction a as [|x a IH]; intros [|y b]; simpl; try lia.
  destruct (N.eqb_spec x y) as [->|Hne].
  - rewrite N.eqb_refl. apply IH.
  - destruct (N.eqb_spec y x) as [->|_]; [congruence|]. lia.
Qed.

(** C8, as the code has it.  For a source tree and a collation that
    orders any two texts, the extractor writes one and the same list of
    entries and the same counts whenever it runs; the file differs from
    run to run by [extractedAt] alone, the time of the run.  Every text
    of the list is trimmed and not empty, and the list is in the order
    of the collation. *)
Theorem extraction_output localeCompare harvest sourceDir entries :
  (forall a b,
      (localeCompare a b <= 0)%Z \/ (localeCompare b a <= 0)%Z) ->
  exists texts filesProcessed,
    (forall date,
        extractTexts localeCompare harvest sourceDir (Some entries) date
        = Some (texts,
                {| ef_metadata :=
                     {| em_sourceDir := sourceDir;
                        em_extractedAt := date;
                        em_filesProcessed := filesProcessed;
                        em_textsFound := length texts |};
                   ef_texts := texts |}))
    /\ Forall tidy texts
    /\ Sorted (by_text localeCompare) texts.
Proof.
  intros Htotal. unfold extractTexts.
  set (this := scanDirectory harvest _ [] entries).
  exists (removeDuplicates localeCompare this), (processedFiles this).
  split; [reflexivity|]. unfold removeDuplicates. split.
  - apply sort_Forall, dedupe_tidy. subst this.
    apply scanDirectory_tidy. constructor.
  - apply (sort_Sorted
             (fun a b : Text.t => localeCompare (Text.text a) (Text.text b))).
    intros a b. apply Htotal.
Qed.

Lemma extraction_output_witness :
  exists texts filesProcessed,
    (forall date,
        extractTexts codeUnitCompare Sample.harvest (js "apps/app-frontend")
          (Some Sample.project) date
        = Some (texts,
                {| ef_metadata :=
                     {| em_sourceDir := js "apps/app-frontend";
                        em_extractedAt := date;
                        em_filesProcessed := filesProcessed;
                        em_textsFound := length texts |};
                   ef_texts := texts |}))
    /\ Forall tidy texts
    /\ Sorted (by_text codeUnitCompare) texts.
Proof.
  apply (extraction_output codeUnitCompare Sample.harvest
           (js "apps/app-frontend") Sample.project).
  intros a b. apply codeUnitCompare_total.
Defined.

(** C8 as the claim states it does not hold: two runs over the same
    tree at two moments write two different files. *)
Lemma extraction_counterexample :
  option_map snd
    (extractTexts codeUnitCompare Sample.harvest (js "apps/app-frontend")
       (Some Sample.project)
       (AITranslator.toISOString Sample.world 0))
  <> option_map snd
       (extractTexts codeUnitCompare Sample.harvest (js "apps/app-frontend")
          (Some Sample.project)
          (AITranslator.toISOString Sample.world 1)).
Proof. vm_compute. intros H. discriminate H. Qed.

End ExtractionOutput.

(* ================================================================== *)
(** * The substitution of the replacer *)
(* ================================================================== *)

Section ReplaceFacts.
Import TextReplacer.

Lemma syntax_backslash : RegExp.is_syntax_character 92%N = true.
Proof. reflexivity. Qed.

(** The escaped text is a pattern that matches the text and nothing
    else. *)
Lemma literal_escape text :
  RegExp.literal (escapeRegExp text) = Some text.
Proof.
  induction text as [|c rest IH]; simpl; [reflexivity|].
  destruct (RegExp.is_syntax_character c) eqn:E.
  - cbn [RegExp.literal]. rewrite N.eqb_refl, E, IH. reflexivity.
  - cbn [RegExp.literal]. destruct (N.eqb_spec c 92) as [->|_].
    + rewrite syntax_backslash in E. discriminate.
    + rewrite E, IH. reflexivity.
Qed.

Lemma createReplacementRegex_literal text :
  createReplacementRegex text = Literal text.
Proof. unfold createReplacementRegex. now rewrite literal_escape. Qed.

Lemma getSubstitution_plain template matched before after :
  ~ In 36%N template ->
  getSubstitution template matched before after = template.
Proof.
  induction template as [|c rest IH]; simpl; [reflexivity|]. intros H.
  destruct (N.eqb_spec c 36) as [->|_]; [tauto|].
  rewrite IH by tauto. reflexivity.
Qed.

Lemma startsWith_nil_r k : k <> [] -> startsWith k [] = false.
Proof. now destruct k. Qed.

(** ** Counting *)



(** ** What is left of a key *)

Lemma includes_nil k : k <> [] -> includes k [] = false.
Proof. now destruct k. Qed.

Lemma includes_cons k c s :
  includes k (c :: s) = startsWith k (c :: s) || includes k s.
Proof. reflexivity. Qed.

Lemma startsWith_head_alien k v r :
  k <> [] -> v <> [] -> (forall x, In x v -> ~ In x k) ->
  startsWith k (v ++ r) = false.
Proof.
  intros Hk Hv Hal. destruct k as [|a k]; [congruence|].
  destruct v as [|b v]; [congruence|]. simpl.
  destruct (N.eqb_spec a b) as [->|_]; [|reflexivity].
  exfalso. apply (Hal b); now left.
Qed.

Lemma kfree_app_alien k v r :
  k <> [] -> (forall x, In x v -> ~ In x k) ->
  includes k r = false -> includes k (v ++ r) = false.
Proof.
  intros Hk Hal Hr. induction v as [|b v IH]; [exact Hr|].
  change ((b :: v) ++ r) with (b :: (v ++ r)). rewrite includes_cons.
  rewrite IH by (intros x Hx; apply Hal; now right).
  rewrite orb_false_r.
  apply (startsWith_head_alien k (b :: v) r Hk); [discriminate|exact Hal].
Qed.

(** A text without code unit of the translation that begins the
    result of a substitution begins the content as well. *)
Lemma startsWith_replaceAll k v :
  v <> [] -> ~ In 36%N v ->
  forall s u before,
    (forall x, In x u -> ~ In x v) ->
    startsWith u (replaceAll k v 0 before s) = true ->
    startsWith u s = true.
Proof.
  intros Hv Hd. induction s as [|c s' IH]; intros u before Hu H.
  - exact H.
  - cbn [replaceAll] in H. destruct (startsWith k (c :: s')) eqn:E.
    + rewrite getSubstitution_plain in H by exact Hd.
      destruct u as [|a u]; [reflexivity|].
      destruct v as [|b v]; [congruence|]. simpl in H.
      destruct (N.eqb_spec a b) as [->|_]; [|discriminate].
      exfalso. apply (Hu b); now left.
    + destruct u as [|a u]; [reflexivity|]. simpl in H |- *.
      apply andb_true_iff in H. destruct H as [Ha H].
      rewrite Ha. simpl. apply (IH u (c :: before)); [|exact H].
      intros x Hx. apply Hu. now right.
Qed.

(** After the substitution of a key by a translation that is alien to
    it, the key does not occur. *)
Lemma replaceAll_own k v :
  k <> [] -> v <> [] -> alien v k ->
  forall s skip before, includes k (replaceAll k v skip before s) = false.
Proof.
  intros Hk Hv [Hal Hd]. induction s as [|c s' IH]; intros skip before.
  - now apply includes_nil.
  - cbn [replaceAll]. destruct skip as [|n]; [|apply IH].
    destruct (startsWith k (c :: s')) eqn:E.
    + rewrite getSubstitution_plain by exact Hd.
      apply kfree_app_alien; [exact Hk|exact Hal|apply IH].
    + rewrite includes_cons, IH, orb_false_r.
      destruct (startsWith k (c :: replaceAll k v 0 (c :: before) s')) eqn:F;
        [|reflexivity].
      assert (G : startsWith k (replaceAll k v 0 before (c :: s')) = true).
      { cbn [replaceAll]. now rewrite E. }
      apply startsWith_replaceAll in G; [congruence|exact Hv|exact Hd|].
      intros x Hx Hxv. now apply (Hal x).
Qed.

(** The substitution of another key by a translation that is alien to
    [k] brings no occurrence of [k] into a content that has none. *)
Lemma replaceAll_other k k' v' :
  k <> [] -> v' <> [] -> alien v' k ->
  forall s skip before,
    includes k s = false ->
    includes k (replaceAll k' v' skip before s) = false.
Proof.
  intros Hk Hv [Hal Hd]. induction s as [|c s' IH]; intros skip before Hs.
  - exact Hs.
  - rewrite includes_cons in Hs. apply orb_false_iff in Hs.
    destruct Hs as [Hhead Htail].
    cbn [replaceAll]. destruct skip as [|n]; [|now apply IH].
    destruct (startsWith k' (c :: s')) eqn:E.
    + rewrite getSubstitution_plain by exact Hd.
      apply kfree_app_alien; [exact Hk|exact Hal|now apply IH].
    + rewrite includes_cons, IH, orb_false_r by exact Htail.
      destruct (startsWith k (c :: replaceAll k' v' 0 (c :: before) s')) eqn:F;
        [|reflexivity].
      assert (G : startsWith k (replaceAll k' v' 0 before (c :: s')) = true).
      { cbn [replaceAll]. now rewrite E. }
      apply startsWith_replaceAll in G; [congruence|exact Hv|exact Hd|].
      intros x Hx Hxv. now apply (Hal x).
Qed.

Lemma execAll_none k :
  k <> [] ->
  forall s i, execAll k 0 i s = [] -> includes k s = false.
Proof.
  intros Hk. induction s as [|c s' IH]; intros i H.
  - now apply includes_nil.
  - cbn [execAll] in H. rewrite includes_cons.
    destruct (startsWith k (c :: s')); [discriminate|]. simpl.
    now apply IH with (S i).
Qed.

(** ** The loop over the mapping *)

Lemma replaceOne_grows acc kv :
  count_of acc <= count_of (replaceOne acc kv)
  /\ (count_of (replaceOne acc kv) = count_of acc ->
      content_of (replaceOne acc kv) = content_of acc)
  /\ exists more, changes_of (replaceOne acc kv) = changes_of acc ++ more.
Proof.
  destruct acc as [[content n] changes], kv as [k v]. unfold replaceOne.
  destruct (negb (truthy k) || negb (truthy v) || bool_decide (k = v)).
  - repeat split; [lia|]. exists []. now rewrite app_nil_r.
  - destruct (matches (createReplacementRegex k) content) as [|m ms] eqn:E.
    + repeat split; [simpl; lia|]. exists []. now rewrite app_nil_r.
    + cbn [length Nat.ltb Nat.leb count_of content_of changes_of fst snd].
      repeat split; [lia|lia|]. eexists. reflexivity.
Qed.

Lemma fold_replaceOne_grows l :
  forall acc,
    count_of acc <= count_of (fold_left replaceOne l acc)
    /\ (count_of (fold_left replaceOne l acc) = count_of acc ->
        content_of (fold_left replaceOne l acc) = content_of acc)
    /\ exists more,
        changes_of (fold_left replaceOne l acc) = changes_of acc ++ more.
Proof.
  induction l as [|kv l IH]; intros acc; simpl.
  - repeat split; [lia|]. exists []. now rewrite app_nil_r.
  - destruct (replaceOne_grows acc kv) as (H1 & H2 & m1 & H3).
    destruct (IH (replaceOne acc kv)) as (H4 & H5 & m2 & H6).
    repeat split.
    + lia.
    + intros E. rewrite H5 by lia. apply H2. lia.
    + exists (m1 ++ m2). now rewrite H6, H3, app_assoc.
Qed.

Lemma replaceOne_other k acc k' v' :
  k <> [] -> alien v' k ->
  includes k (content_of acc) = false ->
  includes k (content_of (replaceOne acc (k', v'))) = false.
Proof.
  intros Hk Hal H. destruct acc as [[content n] changes]. unfold replaceOne.
  destruct (truthy k') eqn:Ek; [|exact H].
  destruct (truthy v') eqn:Ev; [|exact H].
  destruct (bool_decide (k' = v')); [exact H|]. simpl.
  rewrite createReplacementRegex_literal.
  destruct (0 <? length (matches (Literal k') content)); [|exact H].
  simpl. apply replaceAll_other; [exact Hk| |exact Hal|exact H].
  now apply truthy_true.
Qed.

Lemma fold_replaceOne_other k l :
  k <> [] ->
  (forall k' v', In (k', v') l -> alien v' k) ->
  forall acc,
    includes k (content_of acc) = false ->
    includes k (content_of (fold_left replaceOne l acc)) = false.
Proof.
  intros Hk. induction l as [|[k' v'] l IH]; intros Hal acc H; simpl.
  - exact H.
  - apply IH; [intros a b Hab; apply (Hal a b); now right|].
    apply replaceOne_other; [exact Hk|apply (Hal k' v'); now left|exact H].
Qed.

Lemma replaceOne_own k v acc :
  k <> [] -> v <> [] -> alien v k ->
  includes k (content_of (replaceOne acc (k, v))) = false.
Proof.
  intros Hk Hv Hal. destruct acc as [[content n] changes]. unfold replaceOne.
  apply truthy_true in Hk as Tk. apply truthy_true in Hv as Tv.
  rewrite Tk, Tv. simpl.
  assert (Hne : k <> v).
  { intros ->. destruct v as [|b v]; [congruence|].
    apply (proj1 Hal b); now left. }
  rewrite bool_decide_eq_false_2 by exact Hne.
  rewrite createReplacementRegex_literal. simpl.
  destruct (execAll k 0 0 content) as [|m ms] eqn:E.
  - simpl. now apply execAll_none with 0.
  - simpl. now apply replaceAll_own.
Qed.

Lemma fold_replaceOne_own k v l :
  k <> [] -> v <> [] -> In (k, v) l ->
  (forall k' v', In (k', v') l -> alien v' k) ->
  forall acc, includes k (content_of (fold_left replaceOne l acc)) = false.
Proof.
  intros Hk Hv. induction l as [|[k' v'] l IH]; intros Hin Hal acc;
    [contradiction|]. simpl.
  destruct Hin as [E|Hin].
  - injection E as -> ->.
    apply fold_replaceOne_other;
      [exact Hk|intros a b Hab; apply (Hal a b); now right|].
    apply replaceOne_own; [exact Hk|exact Hv|apply (Hal k v); now left].
  - apply IH; [exact Hin|intros a b Hab; apply (Hal a b); now right].
Qed.

(** ** The report of a file *)

Lemma total_of_app l l' : total_of (l ++ l') = total_of l + total_of l'.
Proof.
  unfold total_of. induction l as [|x l IH]; simpl; [reflexivity|].
  rewrite IH. lia.
Qed.

Lemma replaceOne_report acc kv :
  count_of acc = total_of (List.map Change.occurrences (changes_of acc)) ->
  Forall (fun ch => 0 < Change.occurrences ch
                    /\ Change.occurrences ch = length (Change.contexts ch))
    (changes_of acc) ->
  count_of (replaceOne acc kv)
  = total_of (List.map Change.occurrences (changes_of (replaceOne acc kv)))
  /\ Forall (fun ch => 0 < Change.occurrences ch
                       /\ Change.occurrences ch = length (Change.contexts ch))
       (changes_of (replaceOne acc kv)).
Proof.
  destruct acc as [[content n] changes], kv as [k v]. unfold replaceOne.
  cbn [count_of changes_of fst snd]. intros Hn Hok.
  destruct (negb (truthy k) || negb (truthy v) || bool_decide (k = v));
    [now split|].
  destruct (matches (createReplacementRegex k) content) as [|m ms] eqn:E;
    [now split|].
  cbn [length Nat.ltb Nat.leb count_of changes_of fst snd]. split.
  - rewrite map_app, total_of_app, <- Hn. unfold total_of. simpl. lia.
  - apply Forall_app. split; [exact Hok|].
    constructor; [|constructor]. simpl. split; [lia|reflexivity].
Qed.

Lemma fold_replaceOne_report l :
  forall acc,
    count_of acc = total_of (List.map Change.occurrences (changes_of acc)) ->
    Forall (fun ch => 0 < Change.occurrences ch
                      /\ Change.occurrences ch = length (Change.contexts ch))
      (changes_of acc) ->
    count_of (fold_left replaceOne l acc)
    = total_of (List.map Change.occurrences
                  (changes_of (fold_left replaceOne l acc)))
    /\ Forall (fun ch => 0 < Change.occurrences ch
                         /\ Change.occurrences ch
                            = length (Change.contexts ch))
         (changes_of (fold_left replaceOne l acc)).
Proof.
  induction l as [|kv l IH]; intros acc Hn Hok; simpl; [now split|].
  destruct (replaceOne_report acc kv Hn Hok) as [Hn' Hok'].
  now apply IH.
Qed.

















End ReplaceFacts.

(* ================================================================== *)
(** * The response to a batch *)
(* ================================================================== *)

Section BatchFacts.
Import AITranslator.

Lemma skipn_nth_error {A : Type} (l : list A) :
  forall n x, nth_error l n = Some x -> skipn n l = x :: skipn (S n) l.
Proof.
  induction l as [|a l IH]; intros [|n] x H; simpl in *; try discriminate.
  - now injection H as ->.
  - now apply IH.
Qed.

Lemma skipn_beyond {A : Type} (l : list A) :
  forall n, length l <= n -> skipn n l = [].
Proof.
  induction l as [|a l IH]; intros [|n] H; simpl in *; try reflexivity;
    try lia.
  apply IH. lia.
Qed.

Lemma firstn_whole {A : Type} (l : list A) :
  forall n, length l <= n -> firstn n l = l.
Proof.
  induction l as [|a l IH]; intros [|n] H; simpl in *; try reflexivity;
    try lia.
  f_equal. apply IH. lia.
Qed.

(** The [while] loop: the originals of the positions that the labelled
    lines do not reach. *)
Lemma pad_spec batch :
  forall fuel translations,
    pad fuel translations batch
    = translations
      ++ List.map Item.text (firstn fuel (skipn (length translations) batch)).
Proof.
  induction fuel as [|fuel IH]; intros translations; cbn [pad firstn].
  - simpl. now rewrite app_nil_r.
  - destruct (Nat.ltb_spec (length translations) (length batch)) as [Hlt|Hge].
    + destruct (nth_error batch (length translations)) as [item|] eqn:E.
      * rewrite IH, length_app, <- app_assoc. cbn [length app].
        rewrite (skipn_nth_error batch _ _ E). cbn [firstn List.map].
        replace (length translations + 1) with (S (length translations))
          by lia.
        reflexivity.
      * apply nth_error_None in E. lia.
    + rewrite skipn_beyond by lia. simpl. now rewrite app_nil_r.
Qed.

Lemma parseBatchResponse_spec response batch :
  parseBatchResponse response batch
  = labelled response
    ++ List.map Item.text (skipn (length (labelled response)) batch).
Proof.
  unfold parseBatchResponse. rewrite pad_spec. fold (labelled response).
  rewrite firstn_whole; [reflexivity|]. rewrite length_skipn. lia.
Qed.

(** ** The pattern of a labelled line *)

Lemma greedy_run {R : Type} (p : char -> bool) run :
  forall rest acc (k : jsstring -> jsstring -> option R) r,
    Forall (fun c => p c = true) run ->
    match rest with [] => True | c :: _ => p c = false end ->
    k (acc ++ run) rest = Some r ->
    RegExp.greedy p (run ++ rest) acc k = Some r.
Proof.
  induction run as [|x run IH]; intros rest acc k r Hrun Hrest Hk.
  - rewrite app_nil_r in Hk. destruct rest as [|c rest]; simpl.
    + exact Hk.
    + now rewrite Hrest.
  - inversion Hrun as [|? ? Hx Hrun']; subst. simpl. rewrite Hx.
    rewrite (IH rest (acc ++ [x]) k r); [reflexivity|assumption..|].
    now rewrite <- app_assoc.
Qed.

(** A line made of digits, a dot, white space and a text that has no
    line terminator and does not begin with white space matches, and
    its group is the text. *)
Lemma numbered_line_exec digits blanks c text :
  digits <> [] ->
  Forall (fun d => is_digit d = true) digits ->
  Forall (fun b => is_whitespace b = true) blanks ->
  is_whitespace c = false ->
  Forall (fun x => is_dot x = true) (c :: text) ->
  RegExp.exec numbered_line (digits ++ [46%N] ++ blanks ++ c :: text) []
  = Some [c :: text].
Proof.
  intros Hne Hd Hb Hc Ht. destruct digits as [|d digits]; [congruence|].
  inversion Hd as [|? ? Hd0 Hd']; subst.
  inversion Ht as [|? ? Hc' Ht']; subst.
  unfold numbered_line. cbn [RegExp.exec RegExp.quant RegExp.class
                             RegExp.captured app].
  rewrite Hd0.
  apply greedy_run; [exact Hd'|reflexivity|].
  cbn [RegExp.exec RegExp.quant RegExp.class RegExp.captured app].
  rewrite N.eqb_refl.
  apply greedy_run; [exact Hb|exact Hc|].
  cbn [RegExp.exec RegExp.quant RegExp.class RegExp.captured app].
  rewrite Hc'.
  rewrite <- (app_nil_r text) at 1.
  apply greedy_run; [exact Ht'|exact I|]. reflexivity.
Qed.

(** ** The results of a batch *)

Lemma record_result_get this r k :
  JsMap.get (translations (record_result this r)) k
  = if decide (Result.original r = k) then Some r
    else JsMap.get (translations this) k.
Proof.
  unfold record_result. simpl.
  destruct (decide (Result.original r = k)) as [<-|Hne].
  - apply get_set_eq.
  - now apply get_set_ne.
Qed.

Lemma storeBatch_get_other w translations batch :
  forall this i k,
    ~ In k (List.map Item.text batch) ->
    JsMap.get (AITranslator.translations
                 (storeBatch w this translations i batch)) k
    = JsMap.get (AITranslator.translations this) k.
Proof.
  induction batch as [|item rest IH]; intros this i k Hnot; simpl.
  - reflexivity.
  - rewrite IH by (simpl in Hnot; tauto).
    rewrite record_result_get. simpl.
    destruct (decide (Item.text item = k)) as [E|_]; [|reflexivity].
    exfalso. apply Hnot. now left.
Qed.

Lemma storeBatch_results w translations batch :
  forall this i item,
    In item batch ->
    exists r j item',
      JsMap.get (AITranslator.translations
                   (storeBatch w this translations i batch))
        (Item.text item) = Some r
      /\ nth_error batch j = Some item'
      /\ Item.text item' = Item.text item
      /\ Result.original r = Item.text item
      /\ Result.translated r = chosen translations (i + j) item'
      /\ Result.fromCache r = false /\ Result.error r = false.
Proof.
  induction batch as [|head rest IH]; intros this i item Hin; [contradiction|].
  cbn [storeBatch].
  set (this1 := record_result _ _).
  destruct (in_dec (fun a b : jsstring => decide (a = b)) (Item.text item)
              (List.map Item.text rest)) as [Hlater|Hnot].
  - apply in_map_iff in Hlater. destruct Hlater as (item2 & Et & Hin2).
    destruct (IH this1 (S i) item2 Hin2)
      as (r & j & item' & Hget & Hnth & Htext & Ho & Htr & Hfc & Herr).
    exists r, (S j), item'. rewrite <- Et.
    replace (i + S j) with (S i + j) by lia.
    repeat split; try assumption.
  - destruct Hin as [->|Hin].
    + rewrite storeBatch_get_other by exact Hnot.
      subst this1. rewrite record_result_get. cbn [Result.original].
      destruct (decide (Item.text item = Item.text item)); [|congruence].
      eexists _, 0, item. rewrite Nat.add_0_r.
      repeat split; reflexivity.
    + exfalso. apply Hnot. now apply in_map.
Qed.

(** A batch the provider answers: every item has its result. *)
Lemma translateBatch_results w this batch response item :
  provider w (length (sent this)) (createBatchPrompt this batch)
  = Content response ->
  In item batch ->
  exists r j item',
    JsMap.get (translations (translateBatch w this batch))
      (Item.text item) = Some r
    /\ nth_error batch j = Some item'
    /\ Item.text item' = Item.text item
    /\ Result.original r = Item.text item
    /\ Result.translated r
       = chosen (parseBatchResponse response batch) j item'
    /\ Result.fromCache r = false /\ Result.error r = false.
Proof.
  intros Hreply Hin. unfold translateBatch, callOpenAI. rewrite Hreply.
  apply (storeBatch_results w (parseBatchResponse response batch) batch
           _ 0 item Hin).
Qed.

End BatchFacts.

(* ================================================================== *)
(** * The results of a run and the mapping *)
(* ================================================================== *)

Section ResultFacts.
Import AITranslator.

(** The own properties of [mappingData] after the loop of
    [saveTranslations]. *)
Lemma mappingData_loop translations :
  List.NoDup (JsMap.keys translations) ->
  forall (o : JsMap.t jsstring) k,
    (forall k', In k' (JsMap.keys translations) -> JsMap.get o k' = None) ->
    JsMap.get
      (fold_left
         (fun (mappingData : JsMap.t jsstring) (kv : jsstring * Result.t) =>
            let (key, value) := kv in
            if decide (Result.translated value = Result.original value)
            then mappingData
            else JsMap.assign mappingData key (Result.translated value))
         translations o) k
    = match JsMap.get translations k with
      | Some value =>
          if decide (Result.translated value = Result.original value)
          then None
          else if decide (k = JsMap.proto_key) then None
          else Some (Result.translated value)
      | None => JsMap.get o k
      end.
Proof.
  induction translations as [|[k0 v0] rest IH]; intros Hnd o k Hfree; simpl.
  - reflexivity.
  - inversion Hnd as [|? ? Hnot Hnd']; subst.
    set (o1 := if decide (Result.translated v0 = Result.original v0)
               then o else JsMap.assign o k0 (Result.translated v0)).
    assert (Hother : forall k', k0 <> k' -> JsMap.get o1 k' = JsMap.get o k').
    { intros k' Hne. subst o1. destruct (decide _); [reflexivity|].
      now apply get_assign_ne. }
    rewrite (IH Hnd' o1 k).
    2:{ intros k' Hk'. rewrite Hother.
        - apply Hfree. now right.
        - intros ->. contradiction. }
    destruct (decide (k = k0)) as [->|Hne].
    + apply get_None_keys in Hnot. rewrite Hnot.
      assert (Ho : JsMap.get o k0 = None) by (apply Hfree; now left).
      subst o1. destruct (decide _); [exact Ho|].
      rewrite get_assign_eq. unfold JsMap.has. rewrite Ho. simpl.
      destruct (decide (k0 = JsMap.proto_key)) as [Hp|Hp].
      * now rewrite bool_decide_eq_true_2.
      * now rewrite bool_decide_eq_false_2.
    + destruct (JsMap.get rest k); [reflexivity|]. apply Hother. congruence.
Qed.

(** The mapping law of the code: a key is in the mapping exactly when
    its translation differs from its original and the key is not
    [__proto__]; a result whose translation is its original is never in
    the mapping. *)
Lemma mapping_law translations k value :
  List.NoDup (JsMap.keys translations) ->
  JsMap.get translations k = Some value ->
  JsMap.get (mappingData_of translations) k
  = if decide (Result.translated value = Result.original value) then None
    else if decide (k = JsMap.proto_key) then None
    else Some (Result.translated value).
Proof.
  intros Hnd Hget. unfold mappingData_of.
  rewrite mappingData_loop; [now rewrite Hget|exact Hnd|reflexivity].
Qed.

Lemma mapping_exclusion translations k value :
  List.NoDup (JsMap.keys translations) ->
  JsMap.get translations k = Some value ->
  Result.translated value = Result.original value ->
  JsMap.get (mappingData_of translations) k = None.
Proof.
  intros Hnd Hget Heq. rewrite (mapping_law _ _ _ Hnd Hget).
  now destruct (decide _).
Qed.

(** C2. The mapping law.  [saveTranslations] builds the mapping by
    assignment to a plain object, and an assignment to the key
    [__proto__] adds no property: the run below translates the text
    [__proto__], its result has a translation that differs from the
    original, and the mapping it writes is empty. *)
Theorem mapping_misses_proto_key :
  Sample.written_results (Sample.run Sample.one_line_world ["__proto__"%string])
  = Some [(js "__proto__", Sample.yuanxing, false, false)]
  /\ Sample.yuanxing <> js "__proto__"
  /\ Sample.written_mapping (Sample.run Sample.one_line_world ["__proto__"%string])
     = Some []
  /\ Sample.written_mapping (Sample.run Sample.one_line_world ["Settings"%string])
     = Some [(js "Settings", Sample.yuanxing)].
Proof. vm_compute. repeat split. discriminate. Qed.

(** ** The translation of a result *)

Lemma chosen_nonempty translations i item :
  Item.text item <> [] -> chosen translations i item <> [].
Proof.
  intros H. unfold chosen. destruct (nth_error translations i) as [s|].
  - destruct (truthy s) eqn:E; [now apply truthy_true|exact H].
  - exact H.
Qed.

(** A batch the provider answers gives every text that is not empty a
    translation that is not empty. *)
Lemma translateBatch_nonempty w this batch response item :
  provider w (length (sent this)) (createBatchPrompt this batch)
  = Content response ->
  In item batch -> Item.text item <> [] ->
  exists r,
    JsMap.get (translations (translateBatch w this batch)) (Item.text item)
    = Some r
    /\ Result.translated r <> [] /\ Result.error r = false.
Proof.
  intros Hreply Hin Htext.
  destruct (translateBatch_results w this batch response item Hreply Hin)
    as (r & j & item' & Hget & _ & Et & _ & Htr & _ & Herr).
  exists r. split; [exact Hget|]. split; [|exact Herr].
  rewrite Htr. apply chosen_nonempty. congruence.
Qed.

(** A hit of the cache is never empty. *)
Lemma getCachedTranslation_nonempty this text context hit this' :
  getCachedTranslation this text context = (Some hit, this') -> hit <> [].
Proof.
  unfold getCachedTranslation. destruct (JsMap.get _ _) as [c|]; [|discriminate].
  destruct (truthy (Entry.translated c)) eqn:E; [|discriminate].
  intros H. injection H as <- _. now apply truthy_true.
Qed.

(** A text whose single request fails keeps its original, flagged, and
    the loop goes on. *)
Lemma failed_item_falls_back w this item rest :
  is_hit this item = false ->
  provider w (length (sent this))
    (SinglePrompt (targetLanguage this) (Item.text item)) = Throws ->
  translateBatchIndividually w this (item :: rest)
  = translateBatchIndividually w
      (record_result
         (with_sent this
            (sent this
             ++ [SinglePrompt (targetLanguage this) (Item.text item)]))
         {| Result.original := Item.text item;
            Result.translated := Item.text item;
            Result.context := Item.context item;
            Result.files := files_of item;
            Result.error := true;
            Result.fromCache := false |})
      rest.
Proof.
  intros Hmiss Hreply. cbn [translateBatchIndividually].
  unfold is_hit in Hmiss. unfold getCachedTranslation in *.
  destruct (JsMap.get (cache this) _) as [c|].
  - destruct (truthy (Entry.translated c)); [discriminate|].
    unfold translateSingle, callOpenAI. now rewrite Hreply.
  - unfold translateSingle, callOpenAI. now rewrite Hreply.
Qed.

(** C6. The translation of a result.  When the request of a batch
    fails and the provider answers the single request of a text with two
    quotes and nothing between them, [translateBatchIndividually] takes
    the empty string for the translation: the result it records has an
    empty [translated] and no [error], and the cache keeps the empty
    translation.  (The path of a batch falls back to the original there,
    and a lookup does not serve such an entry.)  When the single request
    fails, the result has the original for its translation and
    [error: true], and the run goes on to the next text. *)
Theorem individual_retry_keeps_empty_translation :
  Sample.written_results
    (Sample.run Sample.empty_answer_world ["Save"%string; "Cancel"%string])
  = Some [(js "Save", [], false, false); (js "Cancel", [], false, false)]
  /\ Sample.cached_translations
       (Sample.run Sample.empty_answer_world ["Save"%string; "Cancel"%string])
     = [[]; []]
  /\ Sample.written_results
       (Sample.run Sample.world ["Save"%string; "Cancel"%string])
     = Some [(js "Save", js "Save", true, false);
             (js "Cancel", js "Cancel", true, false)].
Proof. vm_compute. repeat split. Qed.

End ResultFacts.

(* ================================================================== *)
(** * The cache during a run *)
(* ================================================================== *)

Section CacheInvariant.
Import AITranslator.

Lemma constructor_cache_of_run env disk this :
  constructor env disk = Some this -> cache_of_run this.
Proof.
  intros Hc key entry Hin.
  destruct (constructor_loads _ _ _ Hc) as (fresh & Hempty & ->).
  apply loadCache_In in Hin. rewrite Hempty in Hin.
  destruct Hin as [[]|[_ [Hm Hl]]].
  destruct (loadCache_config fresh disk) as [Hm' Hl'].
  split; congruence.
Qed.

(** A cache file written under other models alone gives no hit. *)
Lemma no_hit_under_another_model env disk this :
  constructor env disk = Some this ->
  (forall key entry,
      on_disk disk key entry -> Entry.model entry <> model this) ->
  forall text context,
    getCachedTranslation this text context = (None, this).
Proof.
  intros Hc Hother text context. unfold getCachedTranslation.
  destruct (JsMap.get (cache this) (getCacheKey this text context))
    as [cached|] eqn:Hget; [|reflexivity].
  exfalso. apply get_In in Hget.
  destruct (constructor_loads _ _ _ Hc) as (fresh & Hempty & Hthis).
  pose proof (constructor_cache_of_run _ _ _ Hc _ _ Hget) as [Hm _].
  rewrite Hthis in Hget. apply loadCache_In in Hget. rewrite Hempty in Hget.
  destruct Hget as [[]|[Hd _]]. now apply (Hother _ _ Hd).
Qed.

Lemma setCachedTranslation_cache_of_run w this text translated context :
  cache_of_run this ->
  cache_of_run (setCachedTranslation w this text translated context).
Proof.
  intros H key entry Hin. unfold setCachedTranslation in Hin. simpl in Hin.
  apply In_set in Hin. destruct Hin as [[_ ->]|Hin].
  - split; reflexivity.
  - exact (H key entry Hin).
Qed.

Lemma storeBatch_cache_of_run w translations batch :
  forall this i,
    cache_of_run this ->
    cache_of_run (storeBatch w this translations i batch).
Proof.
  induction batch as [|item rest IH]; intros this i H; simpl.
  - exact H.
  - apply IH. intros key entry Hin. unfold record_result in Hin.
    simpl in Hin.
    exact (setCachedTranslation_cache_of_run w this _ _ _ H key entry Hin).
Qed.

Lemma translateBatchIndividually_cache_of_run w batch :
  forall this,
    cache_of_run this ->
    cache_of_run (translateBatchIndividually w this batch).
Proof.
  induction batch as [|text rest IH]; intros this H; simpl.
  - exact H.
  - unfold getCachedTranslation.
    destruct (JsMap.get (cache this) _) as [c|].
    + destruct (truthy (Entry.translated c)).
      * apply IH. exact H.
      * unfold translateSingle, callOpenAI.
        destruct (provider w _ _) as [|response]; apply IH.
        -- exact H.
        -- intros key entry Hin. unfold record_result in Hin. simpl in Hin.
           apply In_set in Hin. destruct Hin as [[_ ->]|Hin].
           ++ split; reflexivity.
           ++ exact (H key entry Hin).
    + unfold translateSingle, callOpenAI.
      destruct (provider w _ _) as [|response]; apply IH.
      * exact H.
      * intros key entry Hin. unfold record_result in Hin. simpl in Hin.
        apply In_set in Hin. destruct Hin as [[_ ->]|Hin].
        -- split; reflexivity.
        -- exact (H key entry Hin).
Qed.

(** The translation of a batch keeps the cache within the run:
    whatever the provider answers, an entry of another model or language
    never enters it. *)
Lemma translateBatch_cache_of_run w this batch :
  cache_of_run this -> cache_of_run (translateBatch w this batch).
Proof.
  intros H. unfold translateBatch, callOpenAI.
  destruct (provider w _ _) as [|response].
  - apply translateBatchIndividually_cache_of_run. exact H.
  - apply storeBatch_cache_of_run. exact H.
Qed.

End CacheInvariant.

(* ================================================================== *)
(** * The output of the Vue SFC extractor *)
(* ================================================================== *)

Section SfcExtractionFacts.
Import VueSFCExtractor.

Lemma sfc_addText_tidy this text filePath context :
  Forall tidy (extractedTexts this) ->
  Forall tidy (extractedTexts (addText this text filePath context)).
Proof.
  intros H. unfold addText. destruct (truthy text); [|exact H].
  destruct (truthy (trim text)) eqn:E; [|exact H]. simpl.
  apply Forall_app. split; [exact H|]. constructor; [|constructor].
  split; simpl; [apply trim_idem|now apply truthy_true].
Qed.

Lemma sfc_processSourceFile_tidy harvest this ext filePath content :
  Forall tidy (extractedTexts this) ->
  Forall tidy
    (extractedTexts (processSourceFile harvest this ext filePath content)).
Proof.
  intros H. unfold processSourceFile.
  destruct content as [content|]; [|exact H].
  destruct (harvest ext content) as [calls completed].
  assert (G : forall calls this0,
             Forall tidy (extractedTexts this0) ->
             Forall tidy
               (extractedTexts
                  (fold_left
                     (fun (this : t) (tc : jsstring * jsstring) =>
                        addText this (fst tc) filePath (snd tc))
                     calls this0))).
  { clear. induction calls as [|c calls IH]; intros this0 H0; simpl.
    - exact H0.
    - apply IH. now apply sfc_addText_tidy. }
  destruct completed; cbn [extractedTexts]; apply G; exact H.
Qed.

Lemma sfc_scanEntry_tidy harvest :
  forall entry dir this,
    Forall tidy (extractedTexts this) ->
    Forall tidy (extractedTexts (fst (scanEntry harvest dir this entry))).
Proof.
  fix IH 1. intros [name content|name sub|name] dir this H.
  - cbn [scanEntry].
    set (a := JsArray.includes skipFiles _).
    set (b := bool_decide _).
    set (c := JsArray.includes scriptExtensions _). clearbody a b c.
    destruct a, b, c; cbn [fst]; try exact H;
      now apply sfc_processSourceFile_tidy.
  - cbn [scanEntry].
    set (a := JsArray.includes excludedDirectories name). clearbody a.
    destruct a; cbn [fst]; [exact H|].
    generalize (Path.join dir name) as d. intros d. revert this H.
    induction sub as [|entry rest IHsub]; intros this H; simpl.
    + exact H.
    + pose proof (IH entry d this H) as He.
      destruct (scanEntry harvest d this entry) as [this' r].
      destruct r; [exact He|now apply IHsub].
  - exact H.
Qed.

Lemma sfc_scanDirectory_tidy harvest entries :
  forall dir this,
    Forall tidy (extractedTexts this) ->
    Forall tidy (extractedTexts (scanDirectory harvest this dir entries)).
Proof.
  unfold scanDirectory.
  induction entries as [|entry rest IH]; intros dir this H; simpl.
  - exact H.
  - pose proof (sfc_scanEntry_tidy harvest entry dir this H) as He.
    destruct (scanEntry harvest dir this entry) as [this' r].
    destruct r; [exact He|now apply IH].
Qed.

Lemma sfc_mergeInto_tidy unique item :
  Forall tidy unique -> Forall tidy (mergeInto unique item).
Proof.
  induction 1 as [|u rest Hu Hrest IH]; simpl; [constructor|].
  destruct (bool_decide _).
  - constructor; [|exact Hrest]. unfold tidy. now rewrite addFile_text.
  - now constructor.
Qed.

Lemma sfc_dedupe_tidy texts :
  Forall tidy texts -> Forall tidy (snd (dedupe texts)).
Proof.
  unfold dedupe. intros H.
  assert (G : forall seen unique,
             Forall tidy unique ->
             Forall tidy
               (snd (fold_left
                       (fun (acc : list jsstring * list Text.t)
                            (item : Text.t) =>
                          let (seen, unique) := acc in
                          let key := Text.text item in
                          if JsArray.includes seen key
                          then (seen, mergeInto unique item)
                          else (seen ++ [key], unique ++ [item]))
                       texts (seen, unique)))).
  { induction H as [|item rest Hitem Hrest IH]; intros seen unique Hu; simpl.
    - exact Hu.
    - destruct (JsArray.includes seen _); apply IH.
      + now apply sfc_mergeInto_tidy.
      + apply Forall_app. split; [exact Hu|now constructor]. }
  now apply G.
Qed.

(** The extractor the workflow runs has the same output law: one list
    of entries per tree, trimmed, not empty and in the order of the
    collation, under the time of the run. *)
Lemma sfc_extraction_output localeCompare harvest sourceDir entries :
  (forall a b,
      (localeCompare a b <= 0)%Z \/ (localeCompare b a <= 0)%Z) ->
  exists texts filesProcessed,
    (forall date,
        extractTexts localeCompare harvest sourceDir (Some entries) date
        = Some (texts,
                {| ef_metadata :=
                     {| em_sourceDir := sourceDir;
                        em_extractedAt := date;
                        em_filesProcessed := filesProcessed;
                        em_textsFound := length texts |};
                   ef_texts := texts |}))
    /\ Forall tidy texts
    /\ Sorted (by_text localeCompare) texts.
Proof.
  intros Htotal. unfold extractTexts.
  set (this := scanDirectory harvest _ [] entries).
  exists (removeDuplicates localeCompare this), (processedFiles this).
  split; [reflexivity|]. unfold removeDuplicates. split.
  - apply sort_Forall, sfc_dedupe_tidy. subst this.
    apply sfc_scanDirectory_tidy. constructor.
  - apply (sort_Sorted
             (fun a b : Text.t => localeCompare (Text.text a) (Text.text b))).
    intros a b. apply Htotal.
Qed.

End SfcExtractionFacts.

(* ================================================================== *)
(** * Further properties of the translator *)
(* ================================================================== *)

Section BatchingFacts.
Import AITranslator.

Lemma skipn_add {A : Type} (l : list A) :
  forall a b, skipn a (skipn b l) = skipn (b + a) l.
Proof.
  induction l as [|x l IH]; intros a [|b]; simpl.
  - now destruct a.
  - now destruct a.
  - reflexivity.
  - apply IH.
Qed.

Lemma createBatches_from_nth batchSize :
  0 < batchSize ->
  forall fuel texts i,
    length texts <= fuel ->
    nth_error (createBatches_from fuel texts batchSize) i
    = if i * batchSize <? length texts
      then Some (firstn batchSize (skipn (i * batchSize) texts))
      else None.
Proof.
  intros Hpos. induction fuel as [|fuel IH]; intros texts i Hlen.
  - destruct texts; [|simpl in Hlen; lia]. simpl.
    destruct (Nat.ltb_spec (i * batchSize) 0); [lia|]. now destruct i.
  - destruct texts as [|x rest].
    + simpl. destruct (Nat.ltb_spec (i * batchSize) 0); [lia|]. now destruct i.
    + cbn [createBatches_from]. destruct i as [|i].
      * cbn [nth_error Nat.mul skipn]. simpl length.
        destruct (Nat.ltb_spec 0 (S (length rest))); [reflexivity|lia].
      * cbn [nth_error]. rewrite IH.
        2:{ rewrite length_skipn. simpl in *. lia. }
        rewrite length_skipn, skipn_add.
        replace (batchSize + i * batchSize) with (S i * batchSize) by lia.
        destruct (Nat.ltb_spec (i * batchSize)
                    (length (x :: rest) - batchSize)),
                 (Nat.ltb_spec (S i * batchSize) (length (x :: rest)));
          try reflexivity; lia.
Qed.

(** X1. [createBatches] cuts the texts into the slices
    [texts.slice(i * batchSize, i * batchSize + batchSize)]: batch [i]
    exists exactly when [i * batchSize] is below the number of texts,
    no batch is empty or longer than [batchSize], and the batches put
    end to end are the texts. *)
Theorem createBatches_slices texts batchSize :
  0 < batchSize ->
  (forall i,
      nth_error (createBatches texts batchSize) i
      = if i * batchSize <? length texts
        then Some (firstn batchSize (skipn (i * batchSize) texts))
        else None)
  /\ (forall batch,
        In batch (createBatches texts batchSize) ->
        0 < length batch <= batchSize)
  /\ concat (createBatches texts batchSize) = texts.
Proof.
  intros Hpos.
  assert (Hnth : forall i,
             nth_error (createBatches texts batchSize) i
             = if i * batchSize <? length texts
               then Some (firstn batchSize (skipn (i * batchSize) texts))
               else None).
  { intros i. unfold createBatches. now apply createBatches_from_nth. }
  split; [exact Hnth|]. split; [|now apply createBatches_concat].
  intros batch Hin. apply In_nth_error in Hin. destruct Hin as [i Hi].
  rewrite Hnth in Hi.
  destruct (Nat.ltb_spec (i * batchSize) (length texts)) as [Hlt|];
    [|discriminate].
  injection Hi as <-. rewrite length_firstn, length_skipn. lia.
Qed.

Lemma createBatches_slices_witness :
  concat (createBatches
            [Sample.item "Save"; Sample.item "Cancel"; Sample.item "Open"] 2)
  = [Sample.item "Save"; Sample.item "Cancel"; Sample.item "Open"].
Proof.
  apply (createBatches_slices
           [Sample.item "Save"; Sample.item "Cancel"; Sample.item "Open"] 2).
  lia.
Defined.

End BatchingFacts.

Section LookupFacts.
Import AITranslator.

Lemma with_cacheHits_same this : with_cacheHits this (cacheHits this) = this.
Proof. now destruct this. Qed.

Lemma is_hit_with_cacheHits this n item :
  is_hit (with_cacheHits this n) item = is_hit this item.
Proof. now apply is_hit_ext. Qed.

Lemma getCachedTranslation_cases this item :
  getCachedTranslation this (Item.text item) (Item.context item)
  = if is_hit this item
    then (fst (getCachedTranslation this (Item.text item) (Item.context item)),
          with_cacheHits this (S (cacheHits this)))
    else (None, this).
Proof.
  unfold is_hit, getCachedTranslation.
  destruct (JsMap.get (cache this) _) as [c|]; [|reflexivity].
  now destruct (truthy (Entry.translated c)).
Qed.

Lemma separateCachedTexts_counts texts :
  forall cachedTexts uncachedTexts this,
    fold_left
      (fun (acc : list Item.t * list Item.t * t) (text : Item.t) =>
         let '(cachedTexts, uncachedTexts, this) := acc in
         let (cached, this) :=
           getCachedTranslation this (Item.text text) (Item.context text) in
         match cached with
         | Some _ => (cachedTexts ++ [text], uncachedTexts, this)
         | None => (cachedTexts, uncachedTexts ++ [text], this)
         end)
      texts (cachedTexts, uncachedTexts, this)
    = (cachedTexts ++ List.filter (is_hit this) texts,
       uncachedTexts ++ List.filter (fun x => negb (is_hit this x)) texts,
       with_cacheHits this
         (cacheHits this + length (List.filter (is_hit this) texts))).
Proof.
  induction texts as [|text rest IH]; intros c u this.
  - simpl. now rewrite !app_nil_r, Nat.add_0_r, with_cacheHits_same.
  - cbn [fold_left List.filter]. rewrite getCachedTranslation_cases.
    destruct (is_hit this text) eqn:Eh.
    + destruct (fst (getCachedTranslation this (Item.text text)
                       (Item.context text))) as [tr|] eqn:Ef.
      * rewrite IH. cbn [negb length].
        rewrite (List.filter_ext _ _ (is_hit_with_cacheHits this _)).
        rewrite (List.filter_ext
                   (fun x => negb (is_hit (with_cacheHits this
                                             (S (cacheHits this))) x))
                   (fun x => negb (is_hit this x)))
          by (intros x; now rewrite is_hit_with_cacheHits).
        rewrite <- !app_assoc. cbn [app].
        replace (with_cacheHits (with_cacheHits this (S (cacheHits this)))
                   (cacheHits (with_cacheHits this (S (cacheHits this)))
                    + length (List.filter (is_hit this) rest)))
          with (with_cacheHits this
                  (cacheHits this
                   + S (length (List.filter (is_hit this) rest)))).
        -- reflexivity.
        -- unfold with_cacheHits. cbn. f_equal. lia.
      * unfold is_hit in Eh. rewrite Ef in Eh. discriminate.
    + rewrite IH. cbn [negb]. now rewrite <- !app_assoc.
Qed.

(** X2. [separateCachedTexts] splits the texts, in their order, into
    those whose lookup finds a translation and the others; it leaves the
    cache and the results alone and counts one hit for every text of
    the first part. *)
Theorem separateCachedTexts_partition this texts :
  separateCachedTexts this texts
  = (List.filter (is_hit this) texts,
     List.filter (fun x => negb (is_hit this x)) texts,
     with_cacheHits this
       (cacheHits this + length (List.filter (is_hit this) texts))).
Proof. exact (separateCachedTexts_counts texts [] [] this). Qed.

(** X3. Set, then get.  After [setCachedTranslation] the lookup of the
    same text and context returns the translation, unless it is empty,
    in which case the lookup misses; the lookup of a text and context
    with another key is as before. *)
Theorem set_then_get w this text translated context :
  fst (getCachedTranslation
         (setCachedTranslation w this text translated context) text context)
  = (if truthy translated then Some translated else None)
  /\ forall text' context',
      getCacheKey this text' context' <> getCacheKey this text context ->
      fst (getCachedTranslation
             (setCachedTranslation w this text translated context)
             text' context')
      = fst (getCachedTranslation this text' context').
Proof.
  set (this1 := setCachedTranslation w this text translated context).
  assert (Hkey : forall t c, getCacheKey this1 t c = getCacheKey this t c)
    by reflexivity.
  assert (Hcache : cache this1
                   = JsMap.set (cache this) (getCacheKey this text context)
                       {| Entry.original := text;
                          Entry.translated := translated;
                          Entry.context := context;
                          Entry.model := model this;
                          Entry.targetLanguage := targetLanguage this;
                          Entry.createdAt := toISOString w (clockReads this) |})
    by reflexivity.
  split.
  - unfold getCachedTranslation. rewrite Hkey, Hcache, get_set_eq.
    cbn [Entry.translated]. now destruct (truthy translated).
  - intros text' context' Hne. unfold getCachedTranslation.
    rewrite Hkey, Hcache, get_set_ne by congruence.
    destruct (JsMap.get (cache this) _) as [c|]; [|reflexivity].
    now destruct (truthy (Entry.translated c)).
Qed.

(** X4. The key of the cache tells the text and the context apart when
    the model, the language and the contexts do not contain the
    separator. *)
Theorem getCacheKey_injective this text1 context1 text2 context2 :
  no_bar (model this) -> no_bar (targetLanguage this) ->
  no_bar context1 -> no_bar context2 ->
  getCacheKey this text1 context1 = getCacheKey this text2 context2 ->
  text1 = text2 /\ context1 = context2.
Proof.
  intros Hm Hl H1 H2 E.
  pose (e1 := Entry.Build text1 [] context1 (model this)
                (targetLanguage this) []).
  pose (e2 := Entry.Build text2 [] context2 (model this)
                (targetLanguage this) []).
  destruct (entry_key_inj e1 e2) as (Ht & _ & _ & Hc).
  - repeat split; assumption.
  - repeat split; assumption.
  - exact E.
  - now split.
Qed.

Lemma getCacheKey_injective_witness :
  js "Save" = js "Save" /\ js "template" = js "template".
Proof.
  apply (getCacheKey_injective (Sample.translator [])
           (js "Save") (js "template") (js "Save") (js "template")).
  - vm_compute. intros H. repeat (destruct H as [H|H]; [discriminate H|]).
    exact H.
  - vm_compute. intros H. repeat (destruct H as [H|H]; [discriminate H|]).
    exact H.
  - vm_compute. intros H. repeat (destruct H as [H|H]; [discriminate H|]).
    exact H.
  - vm_compute. intros H. repeat (destruct H as [H|H]; [discriminate H|]).
    exact H.
  - reflexivity.
Defined.

End LookupFacts.

Section RoundTripFacts.
Import AITranslator.

Lemma NoDup_assign {V : Type} (o : list (jsstring * V)) k v :
  List.NoDup (JsMap.keys o) -> List.NoDup (JsMap.keys (JsMap.assign o k v)).
Proof.
  intros H. unfold JsMap.assign. destruct (JsMap.has o k).
  - now apply NoDup_set.
  - destruct (decide (k = JsMap.proto_key)); [exact H|now apply NoDup_set].
Qed.

Lemma NoDup_assignAll {V : Type} (mem : list (jsstring * V)) :
  forall o,
    List.NoDup (JsMap.keys o) -> List.NoDup (JsMap.keys (assignAll mem o)).
Proof.
  unfold assignAll. induction mem as [|[k v] mem IH]; intros o H; simpl.
  - exact H.
  - apply IH. now apply NoDup_assign.
Qed.

Lemma getCacheKey_not_proto this text context :
  getCacheKey this text context <> JsMap.proto_key.
Proof.
  intros E. assert (H : In 124%N (getCacheKey this text context)).
  { unfold getCacheKey. apply in_or_app. right. now left. }
  rewrite E in H. vm_compute in H.
  repeat (destruct H as [H|H]; [discriminate H|]). exact H.
Qed.

(** A hit of the cache survives the file. *)
Lemma saved_hit_is_loaded w this disk fresh text context hit :
  List.NoDup (JsMap.keys (cache this)) ->
  List.NoDup (JsMap.keys (stored disk)) ->
  cache_of_run this ->
  model fresh = model this ->
  targetLanguage fresh = targetLanguage this ->
  cache fresh = [] ->
  fst (getCachedTranslation this text context) = Some hit ->
  fst (getCachedTranslation (loadCache fresh (fst (saveCache w this disk)))
         text context)
  = Some hit.
Proof.
  intros Hnd Hndd Hrun Hm Hl Hempty Hhit.
  unfold getCachedTranslation in Hhit.
  destruct (JsMap.get (cache this) (getCacheKey this text context))
    as [entry|] eqn:Hget; [|discriminate].
  destruct (truthy (Entry.translated entry)) eqn:Ht; [|discriminate].
  simpl in Hhit. injection Hhit as <-.
  set (merged := assignAll (cache this) (stored disk)).
  assert (Hmerged : JsMap.get merged (getCacheKey this text context)
                    = Some entry).
  { unfold merged. rewrite get_assignAll by exact Hnd. rewrite Hget.
    rewrite (bool_decide_eq_false_2 _ (getCacheKey_not_proto this text context)).
    now rewrite orb_true_r. }
  assert (Hload : JsMap.get (cache (loadCache fresh (fst (saveCache w this disk))))
                    (getCacheKey this text context) = Some entry).
  { rewrite saveCache_file.
    apply (loadCache_get fresh _ (js "1.0") merged); try reflexivity.
    - now apply NoDup_assignAll.
    - now apply get_In.
    - apply get_In in Hget. destruct (Hrun _ _ Hget) as [Em El].
      split; congruence. }
  destruct (loadCache_config fresh (fst (saveCache w this disk))) as [Hm' Hl'].
  unfold getCachedTranslation.
  replace (getCacheKey (loadCache fresh (fst (saveCache w this disk)))
             text context)
    with (getCacheKey this text context)
    by (unfold getCacheKey; congruence).
  rewrite Hload, Ht. reflexivity.
Qed.


(** X5. Save, then load.  A translation that the lookup finds in the
    cache of a run is found again, for the same text and context, by a
    translator of the same model and language that loads the file
    [saveCache] has written. *)
Theorem save_then_load w this disk fresh text context hit :
  List.NoDup (JsMap.keys (cache this)) ->
  List.NoDup (JsMap.keys (stored disk)) ->
  cache_of_run this ->
  model fresh = model this ->
  targetLanguage fresh = targetLanguage this ->
  cache fresh = [] ->
  fst (getCachedTranslation this text context) = Some hit ->
  fst (getCachedTranslation (loadCache fresh (fst (saveCache w this disk)))
         text context)
  = Some hit.
Proof. apply saved_hit_is_loaded. Qed.

Lemma save_then_load_witness :
  fst (getCachedTranslation
         (loadCache (Sample.translator [])
            (fst (saveCache Sample.world
                    (Sample.translator
                       [(entry_key Sample.hello, Sample.hello)])
                    Missing)))
         (js "Hello World") (js "template"))
  = Some Sample.nihao.
Proof.
  apply (save_then_load Sample.world
           (Sample.translator [(entry_key Sample.hello, Sample.hello)])
           Missing (Sample.translator [])).
  - constructor; [simpl; tauto|constructor].
  - constructor.
  - intros key entry [E|[]]. injection E as _ <-. split; reflexivity.
  - reflexivity.
  - reflexivity.
  - reflexivity.
  - reflexivity.
Defined.

End RoundTripFacts.

Section RunFacts.
Import AITranslator.

Lemma getCachedTranslation_processed this text context :
  processedCount (snd (getCachedTranslation this text context))
  = processedCount this.
Proof.
  now destruct (getCachedTranslation_state this text context) as [->| ->].
Qed.

Lemma translateBatchIndividually_processed w batch :
  forall this,
    processedCount (translateBatchIndividually w this batch)
    = processedCount this + length batch.
Proof.
  induction batch as [|text rest IH]; intros this; simpl; [lia|].
  pose proof (getCachedTranslation_processed this (Item.text text)
                (Item.context text)) as Hp.
  destruct (getCachedTranslation this _ _) as [cached this1]. simpl in Hp.
  destruct cached as [translated|].
  - rewrite IH. simpl. lia.
  - unfold translateSingle, callOpenAI.
    destruct (provider w _ _); rewrite IH; simpl; lia.
Qed.

Lemma storeBatch_processed w translations batch :
  forall this i,
    processedCount (storeBatch w this translations i batch)
    = processedCount this + length batch.
Proof.
  induction batch as [|item rest IH]; intros this i; simpl; [lia|].
  rewrite IH. simpl. lia.
Qed.

Lemma translateBatch_processed w this batch :
  processedCount (translateBatch w this batch)
  = processedCount this + length batch.
Proof.
  unfold translateBatch, callOpenAI. destruct (provider w _ _).
  - now rewrite translateBatchIndividually_processed.
  - now rewrite storeBatch_processed.
Qed.

Lemma translateBatches_processed w batches :
  forall this,
    processedCount (fold_left (translateBatch w) batches this)
    = processedCount this + length (concat batches).
Proof.
  induction batches as [|b rest IH]; intros this; simpl; [lia|].
  rewrite IH, translateBatch_processed, length_app. lia.
Qed.

Lemma processCached_processed cachedTexts :
  forall this,
    processedCount (processCached this cachedTexts)
    = processedCount this + length cachedTexts.
Proof.
  unfold processCached.
  induction cachedTexts as [|text rest IH]; intros this; simpl; [lia|].
  pose proof (getCachedTranslation_processed this (Item.text text)
                (Item.context text)) as Hp.
  destruct (getCachedTranslation this _ _) as [cached this1]. simpl in Hp.
  rewrite IH. simpl. lia.
Qed.

Lemma filter_partition_length {A : Type} (f : A -> bool) (l : list A) :
  length (List.filter f l) + length (List.filter (fun x => negb (f x)) l)
  = length l.
Proof.
  induction l as [|x l IH]; simpl; [reflexivity|].
  destruct (f x); simpl; lia.
Qed.

Lemma getCachedTranslation_total this text context :
  totalCount (snd (getCachedTranslation this text context)) = totalCount this.
Proof.
  now destruct (getCachedTranslation_state this text context) as [->| ->].
Qed.

Lemma translateBatchIndividually_total w batch :
  forall this,
    totalCount (translateBatchIndividually w this batch) = totalCount this.
Proof.
  induction batch as [|text rest IH]; intros this; simpl; [reflexivity|].
  pose proof (getCachedTranslation_total this (Item.text text)
                (Item.context text)) as Hp.
  destruct (getCachedTranslation this _ _) as [cached this1]. simpl in Hp.
  destruct cached as [translated|].
  - now rewrite IH.
  - unfold translateSingle, callOpenAI.
    destruct (provider w _ _); now rewrite IH.
Qed.

Lemma storeBatch_total w translations batch :
  forall this i,
    totalCount (storeBatch w this translations i batch) = totalCount this.
Proof.
  induction batch as [|item rest IH]; intros this i; simpl; [reflexivity|].
  now rewrite IH.
Qed.

Lemma translateBatch_total w this batch :
  totalCount (translateBatch w this batch) = totalCount this.
Proof.
  unfold translateBatch, callOpenAI. destruct (provider w _ _).
  - now rewrite translateBatchIndividually_total.
  - now rewrite storeBatch_total.
Qed.

Lemma translateBatches_total w batches :
  forall this,
    totalCount (fold_left (translateBatch w) batches this) = totalCount this.
Proof.
  induction batches as [|b rest IH]; intros this; simpl; [reflexivity|].
  now rewrite IH, translateBatch_total.
Qed.

Lemma processCached_total cachedTexts :
  forall this, totalCount (processCached this cachedTexts) = totalCount this.
Proof.
  unfold processCached.
  induction cachedTexts as [|text rest IH]; intros this; simpl; [reflexivity|].
  pose proof (getCachedTranslation_total this (Item.text text)
                (Item.context text)) as Hp.
  destruct (getCachedTranslation this _ _) as [cached this1]. simpl in Hp.
  now rewrite IH.
Qed.

(** X6. Every text is accounted for.  A run over a list of texts that
    is not empty comes to its end whatever the provider does, and it
    has then processed every text once: [processedCount] has grown by
    the number of texts, so a fresh translator writes
    [successfulTranslations] = [totalTexts] and [failedTranslations]
    = 0 even when requests have failed. *)
Theorem run_accounts_for_every_text w this data texts disk :
  AITranslator.texts data = Some texts ->
  texts <> [] ->
  exists out translationData,
    translateTexts w this (Parsed data) disk = Some out
    /\ processedCount (final out) = processedCount this + length texts
    /\ translationsFile out = Some translationData
    /\ totalTexts (td_metadata translationData) = length texts
    /\ successfulTranslations (td_metadata translationData)
       = processedCount this + length texts
    /\ failedTranslations (td_metadata translationData)
       = (- Z.of_nat (processedCount this))%Z.
Proof.
  intros Htexts Hne. unfold translateTexts. rewrite Htexts.
  destruct texts as [|t0 rest]; [congruence|].
  remember (t0 :: rest) as all eqn:Hall.
  unfold separateCachedTexts. rewrite separateCachedTexts_counts. cbn [app].
  remember (with_totalCount this (length all)) as this0 eqn:H0.
  remember (List.filter (is_hit this0) all) as hits eqn:Hhits.
  remember (List.filter (fun x => negb (is_hit this0 x)) all) as misses
    eqn:Hmisses.
  remember (with_cacheHits this0 (cacheHits this0 + length hits)) as this1
    eqn:H1.
  remember (fold_left (translateBatch w) (createBatches misses 10)
              (processCached this1 hits)) as this3 eqn:H3.
  assert (P3 : processedCount this3 = processedCount this + length all).
  { rewrite H3, translateBatches_processed, createBatches_concat by lia.
    rewrite processCached_processed, H1, Hhits, Hmisses.
    pose proof (filter_partition_length (is_hit this0) all) as Hp.
    rewrite H0 in *. simpl in *. lia. }
  assert (T3 : totalCount this3 = length all).
  { rewrite H3, translateBatches_total, processCached_total, H1, H0.
    reflexivity. }
  clear Hhits Hmisses H0 H1 H3.
  destruct all as [|a l]; [discriminate Hall|].
  eexists _, _. split; [reflexivity|]. cbn.
  split; [exact P3|]. split; [reflexivity|]. cbn.
  split; [exact T3|]. split; [exact P3|]. rewrite P3, T3. lia.
Qed.

Lemma run_accounts_for_every_text_witness :
  exists out translationData,
    translateTexts Sample.world (Sample.translator [])
      (Sample.extracted ["Save"%string; "Cancel"%string]) Missing
    = Some out
    /\ processedCount (final out) = 0 + 2
    /\ translationsFile out = Some translationData
    /\ totalTexts (td_metadata translationData) = 2
    /\ successfulTranslations (td_metadata translationData) = 0 + 2
    /\ failedTranslations (td_metadata translationData) = (- 0)%Z.
Proof.
  apply (run_accounts_for_every_text Sample.world (Sample.translator [])
           {| metadata := None;
              texts := Some [Sample.item "Save"; Sample.item "Cancel"] |}
           [Sample.item "Save"; Sample.item "Cancel"] Missing).
  - reflexivity.
  - discriminate.
Defined.

End RunFacts.

(* ================================================================== *)
(** * What a run sends and what it touches *)
(* ================================================================== *)

Section RequestFacts.
Import AITranslator.

Lemma asks_only_refl items a : asks_only items a a.
Proof.
  split; [reflexivity|]. split; [reflexivity|]. split; [lia|].
  exists []. split; [now rewrite app_nil_r|]. split; [lia|intros ? ? []].
Qed.

Lemma asks_only_trans items a b c :
  asks_only items a b -> asks_only items b c -> asks_only items a c.
Proof.
  intros (Hm & Hl & Ha & m1 & Hs & Hc & H1) (Hm' & Hl' & Ha' & m2 & Hs' & Hc' & H2).
  split; [congruence|]. split; [congruence|]. split; [lia|].
  exists (m1 ++ m2). split; [now rewrite Hs', Hs, app_assoc|].
  split; [rewrite length_app; lia|].
  intros p s Hp. apply in_app_or in Hp. destruct Hp; eauto.
Qed.

Lemma asks_only_silent items a b :
  model b = model a -> targetLanguage b = targetLanguage a ->
  apiCalls b = apiCalls a -> sent b = sent a -> asks_only items a b.
Proof.
  intros Hm Hl Ha Hs. split; [exact Hm|]. split; [exact Hl|]. split; [lia|].
  exists []. split; [now rewrite app_nil_r|]. split; [lia|intros ? ? []].
Qed.

Lemma asks_only_one items a b p :
  model b = model a -> targetLanguage b = targetLanguage a ->
  apiCalls a <= apiCalls b <= S (apiCalls a) ->
  sent b = sent a ++ [p] ->
  (forall s, In s (prompt_texts p) -> In s (List.map Item.text items)) ->
  asks_only items a b.
Proof.
  intros Hm Hl Ha Hs Hp. split; [exact Hm|]. split; [exact Hl|].
  split; [lia|]. exists [p]. split; [exact Hs|]. split; [simpl; lia|].
  intros q s [<-|[]]. apply Hp.
Qed.

Lemma getCachedTranslation_silent items this text context :
  asks_only items this (snd (getCachedTranslation this text context)).
Proof.
  destruct (getCachedTranslation_state this text context) as [->| ->];
    now apply asks_only_silent.
Qed.

Lemma translateBatchIndividually_asks w batch :
  forall items this,
    incl batch items ->
    asks_only items this (translateBatchIndividually w this batch).
Proof.
  induction batch as [|text rest IH]; intros items this Hi; simpl.
  - apply asks_only_refl.
  - assert (Hrest : incl rest items) by (intros x Hx; apply Hi; now right).
    assert (Htext : In (Item.text text) (List.map Item.text items))
      by (apply in_map, Hi; now left).
    pose proof (getCachedTranslation_silent items this (Item.text text)
                  (Item.context text)) as H1.
    destruct (getCachedTranslation this _ _) as [cached this1]. simpl in H1.
    destruct cached as [translated|].
    + eapply asks_only_trans; [exact H1|].
      eapply asks_only_trans; [|apply IH; exact Hrest].
      now apply asks_only_silent.
    + eapply asks_only_trans; [exact H1|].
      unfold translateSingle, callOpenAI.
      destruct (provider w _ _);
        (eapply asks_only_trans; [|apply IH; exact Hrest]);
        (eapply asks_only_one;
         [reflexivity|reflexivity|simpl; lia|reflexivity|]);
        intros s [<-|[]]; exact Htext.
Qed.

Lemma storeBatch_silent w translations batch :
  forall items this i,
    asks_only items this (storeBatch w this translations i batch).
Proof.
  induction batch as [|item rest IH]; intros items this i; simpl.
  - apply asks_only_refl.
  - eapply asks_only_trans; [|apply IH]. now apply asks_only_silent.
Qed.

Lemma combine_snd_In {A B : Type} (l : list A) (l' : list B) x :
  In x (List.map snd (combine l l')) -> In x l'.
Proof.
  revert l'. induction l as [|a l IH]; intros [|b l']; simpl; try tauto.
  intros [<-|H]; [now left|right; now apply IH].
Qed.

Lemma translateBatch_asks w this batch items :
  incl batch items -> asks_only items this (translateBatch w this batch).
Proof.
  intros Hi. unfold translateBatch, callOpenAI.
  set (p := createBatchPrompt this batch).
  assert (Hp : forall s, In s (prompt_texts p)
                         -> In s (List.map Item.text items)).
  { intros s Hs. unfold p, createBatchPrompt in Hs. simpl in Hs.
    apply combine_snd_In in Hs. apply in_map_iff in Hs.
    destruct Hs as (x & <- & Hx). apply in_map. now apply Hi. }
  destruct (provider w _ _).
  - eapply asks_only_trans;
      [|apply translateBatchIndividually_asks; exact Hi].
    eapply asks_only_one;
      [reflexivity|reflexivity|simpl; lia|reflexivity|exact Hp].
  - eapply asks_only_trans; [|apply storeBatch_silent].
    eapply asks_only_one;
      [reflexivity|reflexivity|simpl; lia|reflexivity|exact Hp].
Qed.

Lemma translateBatches_ask w batches :
  forall items this,
    incl (concat batches) items ->
    asks_only items this (fold_left (translateBatch w) batches this).
Proof.
  induction batches as [|b rest IH]; intros items this Hi; simpl.
  - apply asks_only_refl.
  - simpl in Hi. apply (asks_only_trans _ _ (translateBatch w this b)).
    + apply translateBatch_asks. intros x Hx. apply Hi, in_or_app. now left.
    + apply IH. intros x Hx. apply Hi, in_or_app. now right.
Qed.

Lemma processCached_silent cachedTexts :
  forall items this, asks_only items this (processCached this cachedTexts).
Proof.
  unfold processCached.
  induction cachedTexts as [|text rest IH]; intros items this; simpl.
  - apply asks_only_refl.
  - pose proof (getCachedTranslation_silent items this (Item.text text)
                  (Item.context text)) as H1.
    destruct (getCachedTranslation this _ _) as [cached this1]. simpl in H1.
    eapply asks_only_trans; [exact H1|].
    eapply asks_only_trans; [|apply IH]. now apply asks_only_silent.
Qed.

Lemma filter_negb_nil {A : Type} (f : A -> bool) (l : list A) :
  (forall x, In x l -> f x = true) ->
  List.filter (fun x => negb (f x)) l = [].
Proof.
  induction l as [|x l IH]; intros H; [reflexivity|]. simpl.
  rewrite (H x (or_introl eq_refl)). simpl. apply IH.
  intros y Hy. apply H. now right.
Qed.

Lemma processCached_sent cachedTexts :
  forall this, sent (processCached this cachedTexts) = sent this.
Proof.
  unfold processCached.
  induction cachedTexts as [|text rest IH]; intros this; simpl; [reflexivity|].
  unfold getCachedTranslation.
  destruct (JsMap.get (cache this) _) as [c|];
    [destruct (truthy (Entry.translated c))|]; now rewrite IH.
Qed.

(** The states of a run, one after the other. *)
Lemma translateTexts_steps w this data t0 rest disk :
  AITranslator.texts data = Some (t0 :: rest) ->
  let all := t0 :: rest in
  let this0 := with_totalCount this (length all) in
  let hits := List.filter (is_hit this) all in
  let misses := List.filter (fun x => negb (is_hit this x)) all in
  let this1 := with_cacheHits this0 (cacheHits this0 + length hits) in
  let this2 := processCached this1 hits in
  let this3 := fold_left (translateBatch w) (createBatches misses 10) this2 in
  translateTexts w this (Parsed data) disk
  = Some {| final := snd (saveTranslations w (snd (saveCache w this3 disk))
                            data);
            cacheFile := fst (saveCache w this3 disk);
            translationsFile :=
              Some (fst (fst (saveTranslations w
                                (snd (saveCache w this3 disk)) data)));
            mappingFile :=
              Some (snd (fst (saveTranslations w
                                (snd (saveCache w this3 disk)) data))) |}.
Proof.
  intros Htexts all this0 hits misses this1 this2 this3.
  unfold translateTexts. rewrite Htexts.
  unfold separateCachedTexts. rewrite separateCachedTexts_counts. cbn [app].
  fold all. fold this0.
  rewrite (List.filter_ext (is_hit this0) (is_hit this))
    by (intros x; now apply is_hit_ext).
  rewrite (List.filter_ext (fun x => negb (is_hit this0 x))
             (fun x => negb (is_hit this x)))
    by (intros x; f_equal; now apply is_hit_ext).
  fold hits. fold misses. fold this1. fold this2. fold this3.
  reflexivity.
Qed.

(** X7. A run asks the provider for nothing but what the cache has
    missed.  The run keeps the prompts sent before and adds prompts whose
    texts are all texts of items the lookup has missed at the start;
    [apiCalls] grows by no more than the number of prompts added.  So a
    run whose texts all hit sends nothing and counts no call. *)
Theorem run_asks_for_misses_only w this data texts disk out :
  AITranslator.texts data = Some texts ->
  translateTexts w this (Parsed data) disk = Some out ->
  exists more,
    sent (final out) = sent this ++ more
    /\ (forall p s, In p more -> In s (prompt_texts p) ->
          exists item,
            In item texts /\ is_hit this item = false
            /\ Item.text item = s)
    /\ apiCalls this <= apiCalls (final out) <= apiCalls this + length more
    /\ ((forall item, In item texts -> is_hit this item = true) ->
        more = []).
Proof.
  intros Htexts Hrun. destruct texts as [|t0 rest].
  - unfold translateTexts in Hrun. rewrite Htexts in Hrun.
    injection Hrun as <-. exists []. simpl. rewrite app_nil_r.
    split; [reflexivity|]. split; [intros ? ? []|]. split; [lia|reflexivity].
  - rewrite (translateTexts_steps w this data t0 rest disk Htexts) in Hrun.
    injection Hrun as <-.
    set (all := t0 :: rest).
    set (misses := List.filter (fun x => negb (is_hit this x)) all).
    set (this1 := with_cacheHits _ _).
    set (this2 := processCached this1 _).
    set (this3 := fold_left _ _ this2).
    cbn [final].
    assert (H : asks_only misses this this3).
    { eapply asks_only_trans; [|eapply asks_only_trans].
      - apply (asks_only_silent misses this this1); reflexivity.
      - apply processCached_silent.
      - apply translateBatches_ask. rewrite createBatches_concat by lia.
        apply incl_refl. }
    destruct H as (_ & _ & Ha & more & Hs & Hc & Hp).
    exists more. cbn [saveCache saveTranslations now snd fst].
    split; [exact Hs|]. split; [|split; [simpl; lia|]].
    + intros p s Hin Hps. specialize (Hp p s Hin Hps).
      apply in_map_iff in Hp. destruct Hp as (item & <- & Hitem).
      apply filter_In in Hitem. destruct Hitem as [Hitem Hmiss].
      exists item. split; [exact Hitem|]. split; [|reflexivity].
      now destruct (is_hit this item).
    + intros Hall.
      assert (Hm : misses = []) by (apply filter_negb_nil; exact Hall).
      assert (E3 : this3 = this2).
      { unfold this3. change (createBatches _ 10) with (createBatches misses 10).
        now rewrite Hm. }
      rewrite E3 in Hs. unfold this2 in Hs.
      rewrite processCached_sent in Hs. change (sent this1) with (sent this) in Hs.
      rewrite <- (app_nil_r (sent this)) in Hs at 1.
      apply app_inv_head in Hs. now symmetry.
Qed.

Lemma run_asks_for_misses_only_witness :
  exists out,
    translateTexts Sample.world (Sample.translator [])
      (Sample.extracted ["Save"%string; "Cancel"%string]) Missing = Some out
    /\ exists more,
        sent (final out) = sent (Sample.translator []) ++ more
        /\ (forall p s, In p more -> In s (prompt_texts p) ->
              exists item,
                In item [Sample.item "Save"; Sample.item "Cancel"]
                /\ is_hit (Sample.translator []) item = false
                /\ Item.text item = s)
        /\ apiCalls (Sample.translator []) <= apiCalls (final out)
           <= apiCalls (Sample.translator []) + length more
        /\ ((forall item,
                In item [Sample.item "Save"; Sample.item "Cancel"] ->
                is_hit (Sample.translator []) item = true) ->
            more = []).
Proof.
  eexists. split; [vm_compute; reflexivity|].
  apply (run_asks_for_misses_only Sample.world (Sample.translator [])
           {| metadata := None;
              texts := Some [Sample.item "Save"; Sample.item "Cancel"] |}
           [Sample.item "Save"; Sample.item "Cancel"] Missing).
  - reflexivity.
  - vm_compute. reflexivity.
Defined.

(** ** The keys of the cache a run touches *)

Lemma key_of_ext a b item :
  model b = model a -> targetLanguage b = targetLanguage a ->
  key_of b item = key_of a item.
Proof. intros Hm Hl. unfold key_of, getCacheKey. now rewrite Hm, Hl. Qed.

Lemma touches_refl items a : touches items a a.
Proof. repeat split; auto. Qed.

Lemma touches_trans items a b c :
  touches items a b -> touches items b c -> touches items a c.
Proof.
  intros (Hm & Hl & Hk & Hg) (Hm' & Hl' & Hk' & Hg').
  split; [congruence|]. split; [congruence|]. split; [auto|].
  intros key Hkey. rewrite Hg', Hg; [reflexivity|exact Hkey|].
  intros item Hin. rewrite (key_of_ext a b) by assumption. now apply Hkey.
Qed.

Lemma touches_incl items items' a b :
  incl items items' -> touches items a b -> touches items' a b.
Proof.
  intros Hi (Hm & Hl & Hk & Hg). split; [exact Hm|]. split; [exact Hl|].
  split; [exact Hk|]. intros key Hkey. apply Hg. intros item Hin.
  apply Hkey. now apply Hi.
Qed.

Lemma touches_same items a b :
  model b = model a -> targetLanguage b = targetLanguage a ->
  cache b = cache a -> touches items a b.
Proof.
  intros Hm Hl Hc. split; [exact Hm|]. split; [exact Hl|].
  rewrite Hc. split; auto.
Qed.

Lemma touches_set w items this item translated :
  In item items ->
  touches items this
    (setCachedTranslation w this (Item.text item) translated
       (Item.context item)).
Proof.
  intros Hin. split; [reflexivity|]. split; [reflexivity|].
  unfold setCachedTranslation. cbn [now cache with_cache with_clockReads].
  split.
  - intros key Hkey. rewrite keys_set.
    destruct (JsMap.has _ _); [exact Hkey|apply in_or_app; now left].
  - intros key Hkey. apply get_set_ne. exact (Hkey item Hin).
Qed.

Lemma getCachedTranslation_touches items this text context :
  touches items this (snd (getCachedTranslation this text context)).
Proof.
  destruct (getCachedTranslation_state this text context) as [->| ->];
    now apply touches_same.
Qed.

Lemma translateBatchIndividually_touches w batch :
  forall items this,
    incl batch items ->
    touches items this (translateBatchIndividually w this batch).
Proof.
  induction batch as [|text rest IH]; intros items this Hi; simpl.
  - apply touches_refl.
  - assert (Hrest : incl rest items) by (intros x Hx; apply Hi; now right).
    assert (Htext : In text items) by (apply Hi; now left).
    pose proof (getCachedTranslation_touches items this (Item.text text)
                  (Item.context text)) as H1.
    destruct (getCachedTranslation this _ _) as [cached this1]. simpl in H1.
    eapply touches_trans; [exact H1|].
    destruct cached as [translated|].
    + eapply touches_trans; [|apply IH; exact Hrest].
      now apply touches_same.
    + unfold translateSingle, callOpenAI.
      destruct (provider w _ _) as [|response];
        (eapply touches_trans; [|apply IH; exact Hrest]).
      * now apply touches_same.
      * set (this2 := with_apiCalls _ _).
        apply (touches_trans _ _ this2); [now apply touches_same|].
        apply (touches_trans _ _
                 (setCachedTranslation w this2 (Item.text text)
                    (stripQuotes (trim response)) (Item.context text)));
          [now apply touches_set|now apply touches_same].
Qed.

Lemma storeBatch_touches w translations batch :
  forall items this i,
    incl batch items ->
    touches items this (storeBatch w this translations i batch).
Proof.
  induction batch as [|item rest IH]; intros items this i Hi; simpl.
  - apply touches_refl.
  - assert (Hrest : incl rest items) by (intros x Hx; apply Hi; now right).
    assert (Hitem : In item items) by (apply Hi; now left).
    eapply touches_trans; [|apply IH; exact Hrest].
    eapply touches_trans; [apply touches_set; exact Hitem|].
    now apply touches_same.
Qed.

Lemma translateBatch_touches w this batch items :
  incl batch items -> touches items this (translateBatch w this batch).
Proof.
  intros Hi. unfold translateBatch, callOpenAI.
  destruct (provider w _ _).
  - eapply touches_trans;
      [|apply translateBatchIndividually_touches; exact Hi].
    now apply touches_same.
  - eapply touches_trans; [|apply storeBatch_touches; exact Hi].
    now apply touches_same.
Qed.

Lemma translateBatches_touch w batches :
  forall items this,
    incl (concat batches) items ->
    touches items this (fold_left (translateBatch w) batches this).
Proof.
  induction batches as [|b rest IH]; intros items this Hi; simpl.
  - apply touches_refl.
  - simpl in Hi. apply (touches_trans _ _ (translateBatch w this b)).
    + apply translateBatch_touches. intros x Hx. apply Hi, in_or_app. now left.
    + apply IH. intros x Hx. apply Hi, in_or_app. now right.
Qed.

Lemma processCached_touches cachedTexts :
  forall items this, touches items this (processCached this cachedTexts).
Proof.
  unfold processCached.
  induction cachedTexts as [|text rest IH]; intros items this; simpl.
  - apply touches_refl.
  - pose proof (getCachedTranslation_touches items this (Item.text text)
                  (Item.context text)) as H1.
    destruct (getCachedTranslation this _ _) as [cached this1]. simpl in H1.
    eapply touches_trans; [exact H1|].
    eapply touches_trans; [|apply IH]. now apply touches_same.
Qed.

Lemma translateBatches_cache_of_run w batches :
  forall this,
    cache_of_run this ->
    cache_of_run (fold_left (translateBatch w) batches this).
Proof.
  induction batches as [|b rest IH]; intros this H; simpl; [exact H|].
  apply IH. now apply translateBatch_cache_of_run.
Qed.

Lemma processCached_cache cachedTexts :
  forall this,
    cache (processCached this cachedTexts) = cache this
    /\ model (processCached this cachedTexts) = model this
    /\ targetLanguage (processCached this cachedTexts) = targetLanguage this.
Proof.
  unfold processCached.
  induction cachedTexts as [|text rest IH]; intros this; [auto|].
  cbn [fold_left].
  destruct (getCachedTranslation_state this (Item.text text)
              (Item.context text)) as [E|E];
    destruct (getCachedTranslation this _ _) as [cached this1];
    simpl in E; subst this1;
    match goal with
    | |- context [fold_left _ rest ?t] =>
        destruct (IH t) as (E1 & E2 & E3); rewrite E1, E2, E3
    end; auto.
Qed.

(** X8. A run touches the cache under the keys of its misses only.
    The cache at the end of a run has every key it had, and the entry
    under a key is the one of the start unless the key is that of a text
    and context the lookup has missed at the start.  So a translation
    the cache serves at the start is served at the end; and a cache
    that holds entries of the model and language of the run only is
    still such a cache. *)
Theorem run_touches_missed_keys_only w this data texts disk out :
  AITranslator.texts data = Some texts ->
  translateTexts w this (Parsed data) disk = Some out ->
  (forall key,
      In key (JsMap.keys (cache this)) ->
      In key (JsMap.keys (cache (final out))))
  /\ (forall key,
        (forall item,
            In item texts -> is_hit this item = false ->
            key_of this item <> key) ->
        JsMap.get (cache (final out)) key = JsMap.get (cache this) key)
  /\ (forall text context hit,
        fst (getCachedTranslation this text context) = Some hit ->
        fst (getCachedTranslation (final out) text context) = Some hit)
  /\ (cache_of_run this -> cache_of_run (final out)).
Proof.
  intros Htexts Hrun.
  assert (H : touches (List.filter (fun x => negb (is_hit this x)) texts)
                this (final out)
              /\ (cache_of_run this -> cache_of_run (final out))).
  { destruct texts as [|t0 rest].
    - unfold translateTexts in Hrun. rewrite Htexts in Hrun.
      injection Hrun as <-. split; [apply touches_refl|auto].
    - rewrite (translateTexts_steps w this data t0 rest disk Htexts) in Hrun.
      injection Hrun as <-.
      set (all := t0 :: rest).
      set (misses := List.filter (fun x => negb (is_hit this x)) all).
      set (this1 := with_cacheHits _ _).
      set (this2 := processCached this1 _).
      set (this3 := fold_left _ _ this2).
      cbn [final saveCache saveTranslations now snd fst].
      assert (H3 : touches misses this this3).
      { apply (touches_trans _ _ this1); [now apply touches_same|].
        apply (touches_trans _ _ this2); [apply processCached_touches|].
        apply translateBatches_touch. rewrite createBatches_concat by lia.
        apply incl_refl. }
      split.
      + apply (touches_trans _ _ this3); [exact H3|now apply touches_same].
      + intros Hrun0.
        assert (C3 : cache_of_run this3).
        { apply translateBatches_cache_of_run.
          intros key entry Hin.
          destruct (processCached_cache
                      (List.filter (is_hit this) all) this1) as (Ec & Em & El).
          change (processCached this1 _) with this2 in Ec, Em, El.
          rewrite Ec in Hin. specialize (Hrun0 key entry Hin).
          unfold of_this_run in *. rewrite Em, El. exact Hrun0. }
        exact C3. }
  destruct H as [(Hm & Hl & Hk & Hg) Hc].
  split; [exact Hk|]. split; [|split; [|exact Hc]].
  - intros key Hkey. apply Hg. intros item Hin.
    apply filter_In in Hin. destruct Hin as [Hin Hmiss].
    apply Hkey; [exact Hin|]. now destruct (is_hit this item).
  - intros text context hit Hhit.
    assert (Hkey : JsMap.get (cache (final out)) (getCacheKey this text context)
                   = JsMap.get (cache this) (getCacheKey this text context)).
    { apply Hg. intros item Hin Heq.
      apply filter_In in Hin. destruct Hin as [_ Hmiss].
      unfold is_hit, getCachedTranslation in Hmiss.
      unfold key_of in Heq. rewrite Heq in Hmiss.
      unfold getCachedTranslation in Hhit.
      destruct (JsMap.get (cache this) _) as [c|]; [|discriminate].
      destruct (truthy (Entry.translated c)); discriminate. }
    unfold getCachedTranslation in *.
    assert (Ek : getCacheKey (final out) text context
                 = getCacheKey this text context)
      by (unfold getCacheKey; now rewrite Hm, Hl).
    rewrite Ek, Hkey.
    destruct (JsMap.get (cache this) _) as [c|]; [|discriminate].
    destruct (truthy (Entry.translated c)); [exact Hhit|discriminate].
Qed.

Lemma run_touches_missed_keys_only_witness :
  exists out,
    translateTexts Sample.one_line_world
      (Sample.translator [(entry_key Sample.hello, Sample.hello)])
      (Sample.extracted ["Save"%string]) Missing = Some out
    /\ fst (getCachedTranslation (final out) (js "Hello World") (js "template"))
       = Some Sample.nihao.
Proof.
  eexists. split; [vm_compute; reflexivity|].
  refine (proj1 (proj2 (proj2
            (run_touches_missed_keys_only Sample.one_line_world
               (Sample.translator [(entry_key Sample.hello, Sample.hello)])
               {| metadata := None; texts := Some [Sample.item "Save"] |}
               [Sample.item "Save"] Missing _ _ _)))
            (js "Hello World") (js "template") Sample.nihao _).
  - reflexivity.
  - vm_compute. reflexivity.
  - vm_compute. reflexivity.
Defined.

End RequestFacts.

(* ================================================================== *)
(** * The results of a run *)
(* ================================================================== *)

Section OutcomeFacts.
Import AITranslator.

Lemma record_result_filed this r :
  filed (translations this) -> filed (translations (record_result this r)).
Proof.
  intros [Hnd Hk]. unfold record_result. cbn [translations with_translations
    with_processedCount].
  split; [now apply NoDup_set|].
  intros k r' Hin. apply In_set in Hin. destruct Hin as [[-> ->]|Hin]; auto.
Qed.

Lemma record_result_has this r k :
  In k (JsMap.keys (translations this)) ->
  In k (JsMap.keys (translations (record_result this r))).
Proof.
  intros H. unfold record_result. cbn [translations with_translations
    with_processedCount]. rewrite keys_set.
  destruct (JsMap.has _ _); [exact H|apply in_or_app; now left].
Qed.

Lemma record_result_new this r :
  In (Result.original r) (JsMap.keys (translations (record_result this r))).
Proof.
  apply has_true. unfold JsMap.has, record_result.
  cbn [translations with_translations with_processedCount].
  now rewrite get_set_eq.
Qed.

(** A later state in which every text of the items has a result, and
    the results are filed as they should. *)
Lemma translateBatchIndividually_records w batch :
  forall this,
    filed (translations this) ->
    let this' := translateBatchIndividually w this batch in
    filed (translations this')
    /\ (forall k, In k (JsMap.keys (translations this)) ->
                  In k (JsMap.keys (translations this')))
    /\ forall item, In item batch ->
                    In (Item.text item) (JsMap.keys (translations this')).
Proof.
  induction batch as [|text rest IH]; intros this Hf; cbn zeta.
  - split; [exact Hf|]. split; [auto|intros ? []].
  - cbn [translateBatchIndividually].
    destruct (getCachedTranslation_state this (Item.text text)
                (Item.context text)) as [E|E];
      destruct (getCachedTranslation this _ _) as [cached this1];
      simpl in E; subst this1;
      (destruct cached as [translated|];
       [|unfold translateSingle, callOpenAI;
         destruct (provider w _ _) as [|response]]);
      match goal with
      | |- context [translateBatchIndividually w (record_result ?t ?r) rest] =>
          destruct (IH (record_result t r)) as (F & K & R);
          [apply record_result_filed; exact Hf|];
          (split; [exact F|]);
          (split;
           [intros k Hk; apply K, (record_result_has t r); exact Hk|]);
          intros item [<-|Hin];
          [apply K; exact (record_result_new t r)|now apply R]
      end.
Qed.

Lemma storeBatch_records w translations batch :
  forall this i,
    filed (AITranslator.translations this) ->
    let this' := storeBatch w this translations i batch in
    filed (AITranslator.translations this')
    /\ (forall k, In k (JsMap.keys (AITranslator.translations this)) ->
                  In k (JsMap.keys (AITranslator.translations this')))
    /\ forall item, In item batch ->
                    In (Item.text item)
                       (JsMap.keys (AITranslator.translations this')).
Proof.
  induction batch as [|item rest IH]; intros this i Hf; cbn zeta.
  - split; [exact Hf|]. split; [auto|intros ? []].
  - cbn [storeBatch].
    match goal with
    | |- context [storeBatch w (record_result ?t ?r) translations (S i) rest] =>
        destruct (IH (record_result t r) (S i)) as (F & K & R);
        [apply record_result_filed; exact Hf|];
        (split; [exact F|]);
        (split;
         [intros k Hk; apply K, (record_result_has t r); exact Hk|]);
        intros item' [<-|Hin];
        [apply K; exact (record_result_new t r)|now apply R]
    end.
Qed.

Lemma translateBatch_records w this batch :
  filed (translations this) ->
  filed (translations (translateBatch w this batch))
  /\ (forall k, In k (JsMap.keys (translations this)) ->
                In k (JsMap.keys (translations (translateBatch w this batch))))
  /\ forall item, In item batch ->
                  In (Item.text item)
                     (JsMap.keys (translations (translateBatch w this batch))).
Proof.
  intros Hf. unfold translateBatch, callOpenAI.
  destruct (provider w _ _).
  - now apply (translateBatchIndividually_records w batch
                 (with_sent this (sent this ++ [createBatchPrompt this batch]))).
  - now apply (storeBatch_records w _ batch
                 (with_apiCalls
                    (with_sent this (sent this ++ [createBatchPrompt this batch]))
                    _) 0).
Qed.

Lemma translateBatches_record w batches :
  forall this,
    filed (translations this) ->
    let this' := fold_left (translateBatch w) batches this in
    filed (translations this')
    /\ (forall k, In k (JsMap.keys (translations this)) ->
                  In k (JsMap.keys (translations this')))
    /\ forall item, In item (concat batches) ->
                    In (Item.text item) (JsMap.keys (translations this')).
Proof.
  induction batches as [|b rest IH]; intros this Hf; cbn zeta.
  - split; [exact Hf|]. split; [auto|intros ? []].
  - cbn [fold_left concat].
    destruct (translateBatch_records w this b Hf) as (F1 & K1 & R1).
    destruct (IH (translateBatch w this b) F1) as (F & K & R).
    split; [exact F|]. split; [auto|].
    intros item Hin. apply in_app_or in Hin. destruct Hin; auto.
Qed.

Lemma processCached_records cachedTexts :
  forall this,
    filed (translations this) ->
    let this' := processCached this cachedTexts in
    filed (translations this')
    /\ (forall k, In k (JsMap.keys (translations this)) ->
                  In k (JsMap.keys (translations this')))
    /\ forall item, In item cachedTexts ->
                    In (Item.text item) (JsMap.keys (translations this')).
Proof.
  unfold processCached.
  induction cachedTexts as [|text rest IH]; intros this Hf; cbn zeta.
  - split; [exact Hf|]. split; [auto|intros ? []].
  - cbn [fold_left].
    destruct (getCachedTranslation_state this (Item.text text)
                (Item.context text)) as [E|E];
      destruct (getCachedTranslation this _ _) as [cached this1];
      simpl in E; subst this1;
      match goal with
      | |- context [fold_left _ rest (record_result ?t ?r)] =>
          destruct (IH (record_result t r)) as (F & K & R);
          [apply record_result_filed; exact Hf|];
          (split; [exact F|]);
          (split;
           [intros k Hk; apply K, (record_result_has t r); exact Hk|]);
          intros item [<-|Hin];
          [apply K; exact (record_result_new t r)|now apply R]
      end.
Qed.

(** The end of a run over texts, by its steps. *)
Lemma translateTexts_run w this data texts disk out :
  AITranslator.texts data = Some texts ->
  texts <> [] ->
  translateTexts w this (Parsed data) disk = Some out ->
  let hits := List.filter (is_hit this) texts in
  let misses := List.filter (fun x => negb (is_hit this x)) texts in
  let this1 :=
    with_cacheHits (with_totalCount this (length texts))
      (cacheHits this + length hits) in
  let this3 :=
    fold_left (translateBatch w) (createBatches misses 10)
      (processCached this1 hits) in
  final out = snd (saveTranslations w (snd (saveCache w this3 disk)) data)
  /\ cacheFile out = fst (saveCache w this3 disk)
  /\ translationsFile out
     = Some (fst (fst (saveTranslations w (snd (saveCache w this3 disk))
                         data)))
  /\ mappingFile out
     = Some (snd (fst (saveTranslations w (snd (saveCache w this3 disk))
                         data))).
Proof.
  intros Htexts Hne Hrun. destruct texts as [|t0 rest]; [congruence|].
  rewrite (translateTexts_steps w this data t0 rest disk Htexts) in Hrun.
  injection Hrun as <-. repeat split.
Qed.

Lemma filter_split_In {A : Type} (f : A -> bool) (l : list A) x :
  In x l -> In x (List.filter f l) \/ In x (List.filter (fun y => negb (f y)) l).
Proof.
  intros H. destruct (f x) eqn:E; [left|right]; apply filter_In;
    (split; [exact H|]); now rewrite E.
Qed.

(** X9. Every text of a run has its result, and the mapping holds the
    translations that differ.  A run of a fresh translator files one
    result under every original, every text of the input has one, the
    translations file lists them, and a key has the value [v] in the
    mapping exactly when the result of the key has the translation [v],
    which is not its original, and the key is not [__proto__]. *)
Theorem run_results_and_mapping w this data texts disk out :
  translations this = [] ->
  AITranslator.texts data = Some texts ->
  texts <> [] ->
  translateTexts w this (Parsed data) disk = Some out ->
  filed (translations (final out))
  /\ (forall item, In item texts ->
        exists r,
          JsMap.get (translations (final out)) (Item.text item) = Some r
          /\ Result.original r = Item.text item)
  /\ exists td m,
      translationsFile out = Some td /\ mappingFile out = Some m
      /\ td_translations td = JsMap.values (translations (final out))
      /\ forall k v,
          JsMap.get m k = Some v
          <-> exists r,
                JsMap.get (translations (final out)) k = Some r
                /\ Result.translated r = v
                /\ v <> Result.original r /\ k <> JsMap.proto_key.
Proof.
  intros Hfresh Htexts Hne Hrun.
  destruct (translateTexts_run w this data texts disk out Htexts Hne Hrun)
    as (Ef & _ & Et & Em).
  set (all := texts) in *.
  set (hits := List.filter (is_hit this) all) in *.
  set (misses := List.filter (fun x => negb (is_hit this x)) all) in *.
  set (this1 := with_cacheHits _ _) in *.
  set (this2 := processCached this1 hits) in *.
  set (this3 := fold_left _ _ this2) in *.
  rewrite Ef, Et, Em.
  cbn [saveCache saveTranslations now
       snd fst translations with_clockReads td_translations].
  assert (F1 : filed (translations this1)).
  { change (translations this1) with (translations this). rewrite Hfresh.
    split; [constructor|intros ? ? []]. }
  destruct (processCached_records hits this1 F1) as (F2 & K2 & R2).
  fold this2 in F2, K2, R2.
  destruct (translateBatches_record w (createBatches misses 10) this2 F2)
    as (F3 & K3 & R3).
  fold this3 in F3, K3, R3. rewrite createBatches_concat in R3 by lia.
  split; [exact F3|]. split.
  - intros item Hin.
    assert (Hk : In (Item.text item) (JsMap.keys (translations this3))).
    { destruct (filter_split_In (is_hit this) all item Hin) as [H|H].
      - apply K3, R2. exact H.
      - apply R3. exact H. }
    apply has_true in Hk. unfold JsMap.has in Hk.
    destruct (JsMap.get (translations this3) (Item.text item)) as [r|] eqn:E;
      [|discriminate].
    exists r. split; [reflexivity|].
    destruct F3 as [_ F3]. apply F3. now apply get_In.
  - eexists _, _. split; [reflexivity|]. split; [reflexivity|].
    split; [reflexivity|]. intros k v. destruct F3 as [Hnd Hk]. split.
    + intros Hget.
      destruct (JsMap.get (translations this3) k) as [r|] eqn:E.
      * rewrite (mapping_law _ _ _ Hnd E) in Hget.
        destruct (decide (Result.translated r = Result.original r));
          [discriminate|].
        destruct (decide (k = JsMap.proto_key)); [discriminate|].
        injection Hget as <-. exists r. auto.
      * exfalso. unfold mappingData_of in Hget.
        rewrite mappingData_loop in Hget; [|exact Hnd|reflexivity].
        rewrite E in Hget. discriminate.
    + intros (r & E & <- & Hd & Hp). rewrite (mapping_law _ _ _ Hnd E).
      destruct (decide (Result.translated r = Result.original r));
        [contradiction|].
      destruct (decide (k = JsMap.proto_key)); [contradiction|reflexivity].
Qed.

Lemma run_results_and_mapping_witness :
  exists out,
    translateTexts Sample.one_line_world (Sample.translator [])
      (Sample.extracted ["Settings"%string]) Missing = Some out
    /\ exists r,
        JsMap.get (translations (final out)) (js "Settings") = Some r
        /\ Result.original r = js "Settings".
Proof.
  eexists. split; [vm_compute; reflexivity|].
  refine (proj1 (proj2
            (run_results_and_mapping Sample.one_line_world
               (Sample.translator [])
               {| metadata := None; texts := Some [Sample.item "Settings"] |}
               [Sample.item "Settings"] Missing _ _ _ _ _))
            (Sample.item "Settings") _).
  - reflexivity.
  - reflexivity.
  - discriminate.
  - vm_compute. reflexivity.
  - now left.
Defined.

End OutcomeFacts.

(* ================================================================== *)
(** * A run without provider *)
(* ================================================================== *)

Section ProviderDown.
Import AITranslator.

Variable w : World.
Hypothesis down : forall n p, provider w n p = Throws.

Lemma record_fallback this item :
  let this' :=
    record_result this
      {| Result.original := Item.text item;
         Result.translated := Item.text item;
         Result.context := Item.context item;
         Result.files := files_of item;
         Result.error := true;
         Result.fromCache := false |} in
  fell_back (translations this') (Item.text item)
  /\ forall k, fell_back (translations this) k
               -> fell_back (translations this') k.
Proof.
  cbn zeta. unfold record_result.
  cbn [translations with_translations with_processedCount Result.original].
  split.
  - eexists. rewrite get_set_eq. repeat split.
  - intros k Hk. destruct (decide (Item.text item = k)) as [<-|Hne].
    + eexists. rewrite get_set_eq. repeat split.
    + destruct Hk as (r & Hget & Hr). exists r.
      rewrite get_set_ne by exact Hne. now split.
Qed.

Lemma down_individually batch :
  forall this,
    (forall item, In item batch -> is_hit this item = false) ->
    let this' := translateBatchIndividually w this batch in
    cache this' = cache this
    /\ model this' = model this
    /\ targetLanguage this' = targetLanguage this
    /\ apiCalls this' = apiCalls this
    /\ length (sent this') = length (sent this) + length batch
    /\ (forall k, fell_back (translations this) k
                  -> fell_back (translations this') k)
    /\ forall item, In item batch
                    -> fell_back (translations this') (Item.text item).
Proof.
  induction batch as [|text rest IH]; intros this Hmiss; cbn zeta.
  - simpl. do 4 (split; [reflexivity|]). split; [lia|].
    split; [auto|intros ? []].
  - cbn [translateBatchIndividually].
    rewrite getCachedTranslation_cases, (Hmiss text (or_introl eq_refl)).
    unfold translateSingle, callOpenAI. rewrite down.
    set (this1 := with_sent this _).
    destruct (record_fallback this1 text) as [Hnew Hkeep].
    set (this2 := record_result this1 _) in *.
    destruct (IH this2) as (Ec & Em & El & Ea & Es & Hk & Hr).
    { intros item Hin.
      rewrite (is_hit_ext this this2) by reflexivity.
      apply Hmiss. now right. }
    rewrite Ec, Em, El, Ea, Es. do 4 (split; [reflexivity|]).
    split; [|split].
    + unfold this2, this1. simpl. rewrite length_app. simpl. lia.
    + intros k Hfb. apply Hk, Hkeep. exact Hfb.
    + intros item [<-|Hin]; [apply Hk; exact Hnew|now apply Hr].
Qed.

Lemma down_batch this batch :
  (forall item, In item batch -> is_hit this item = false) ->
  let this' := translateBatch w this batch in
  cache this' = cache this
  /\ model this' = model this
  /\ targetLanguage this' = targetLanguage this
  /\ apiCalls this' = apiCalls this
  /\ length (sent this') = length (sent this) + 1 + length batch
  /\ (forall k, fell_back (translations this) k
                -> fell_back (translations this') k)
  /\ forall item, In item batch
                  -> fell_back (translations this') (Item.text item).
Proof.
  intros Hmiss. cbn zeta. unfold translateBatch, callOpenAI. rewrite down.
  set (this1 := with_sent this _).
  destruct (down_individually batch this1) as (Ec & Em & El & Ea & Es & Hk & Hr).
  { intros item Hin. rewrite (is_hit_ext this this1) by reflexivity.
    now apply Hmiss. }
  rewrite Ec, Em, El, Ea, Es. do 4 (split; [reflexivity|]).
  split; [|split; [exact Hk|exact Hr]].
  unfold this1. simpl. rewrite length_app. simpl. lia.
Qed.

Lemma down_batches batches :
  forall this,
    (forall item, In item (concat batches) -> is_hit this item = false) ->
    let this' := fold_left (translateBatch w) batches this in
    cache this' = cache this
    /\ model this' = model this
    /\ targetLanguage this' = targetLanguage this
    /\ apiCalls this' = apiCalls this
    /\ length (sent this')
       = length (sent this) + length batches + length (concat batches)
    /\ (forall k, fell_back (translations this) k
                  -> fell_back (translations this') k)
    /\ forall item, In item (concat batches)
                    -> fell_back (translations this') (Item.text item).
Proof.
  induction batches as [|b rest IH]; intros this Hmiss; cbn zeta.
  - simpl. do 4 (split; [reflexivity|]). split; [lia|].
    split; [auto|intros ? []].
  - cbn [fold_left concat] in *.
    destruct (down_batch this b) as (Ec & Em & El & Ea & Es & Hk & Hr).
    { intros item Hin. apply Hmiss, in_or_app. now left. }
    destruct (IH (translateBatch w this b))
      as (Ec' & Em' & El' & Ea' & Es' & Hk' & Hr').
    { intros item Hin.
      rewrite (is_hit_ext this (translateBatch w this b)) by assumption.
      apply Hmiss, in_or_app. now right. }
    rewrite Ec', Em', El', Ea', Es', Ec, Em, El, Ea, Es.
    do 4 (split; [reflexivity|]). split; [|split].
    + rewrite length_app. simpl. lia.
    + auto.
    + intros item Hin. apply in_app_or in Hin. destruct Hin; auto.
Qed.

Lemma processCached_apiCalls cachedTexts :
  forall this, apiCalls (processCached this cachedTexts) = apiCalls this.
Proof.
  unfold processCached.
  induction cachedTexts as [|text rest IH]; intros this; simpl; [reflexivity|].
  unfold getCachedTranslation.
  destruct (JsMap.get (cache this) _) as [c|];
    [destruct (truthy (Entry.translated c))|]; now rewrite IH.
Qed.

(** X10. A run without provider.  When every request fails, the run
    still comes to its end: it sends one request for every batch of ten
    misses and one for every miss, counts no call and leaves the cache as
    it was; every text the lookup has missed gets its original for
    translation, flagged as an error, and has no entry in the mapping. *)
Theorem run_without_provider this data texts disk out :
  translations this = [] ->
  AITranslator.texts data = Some texts ->
  texts <> [] ->
  translateTexts w this (Parsed data) disk = Some out ->
  let misses := List.filter (fun x => negb (is_hit this x)) texts in
  cache (final out) = cache this
  /\ apiCalls (final out) = apiCalls this
  /\ length (sent (final out))
     = length (sent this) + length (createBatches misses 10) + length misses
  /\ forall item,
      In item texts -> is_hit this item = false ->
      fell_back (translations (final out)) (Item.text item)
      /\ exists m,
          mappingFile out = Some m /\ JsMap.get m (Item.text item) = None.
Proof.
  intros Hfresh Htexts Hne Hrun misses.
  destruct (translateTexts_run w this data texts disk out Htexts Hne Hrun)
    as (Ef & _ & _ & Em).
  fold misses in Ef, Em.
  set (hits := List.filter (is_hit this) texts) in *.
  set (this1 := with_cacheHits _ _) in *.
  set (this2 := processCached this1 hits) in *.
  set (this3 := fold_left _ _ this2) in *.
  rewrite Ef, Em.
  cbn [saveCache saveTranslations now snd fst cache apiCalls sent
       translations with_clockReads].
  destruct (processCached_cache hits this1) as (Ec2 & Em2 & El2).
  fold this2 in Ec2, Em2, El2.
  assert (Hm2 : forall item, In item (concat (createBatches misses 10))
                             -> is_hit this2 item = false).
  { intros item Hin. rewrite createBatches_concat in Hin by lia.
    apply filter_In in Hin. destruct Hin as [_ Hin].
    rewrite (is_hit_ext this1 this2) by assumption.
    rewrite (is_hit_ext this this1) by reflexivity.
    now destruct (is_hit this item). }
  destruct (down_batches (createBatches misses 10) this2 Hm2)
    as (Ec & _ & _ & Ea & Es & _ & Hr).
  fold this3 in Ec, Ea, Es, Hr.
  rewrite createBatches_concat in Es, Hr by lia.
  split; [now rewrite Ec, Ec2|].
  split; [rewrite Ea; unfold this2; now rewrite processCached_apiCalls|].
  split; [rewrite Es; unfold this2; now rewrite processCached_sent|].
  intros item Hin Hmiss.
  assert (Hfb : fell_back (translations this3) (Item.text item)).
  { apply Hr, filter_In. split; [exact Hin|now rewrite Hmiss]. }
  split; [exact Hfb|]. eexists. split; [reflexivity|].
  destruct Hfb as (r & Hget & Ho & Ht & _).
  assert (F1 : filed (translations this1)).
  { change (translations this1) with (translations this). rewrite Hfresh.
    split; [constructor|intros ? ? []]. }
  destruct (processCached_records hits this1 F1) as (F2 & _ & _).
  destruct (translateBatches_record w (createBatches misses 10) _ F2)
    as ([Hnd _] & _ & _).
  apply (mapping_exclusion _ _ r Hnd Hget). congruence.
Qed.

End ProviderDown.

Section ProviderDownExample.
Import AITranslator.

Lemma run_without_provider_witness :
  exists out,
    translateTexts Sample.world (Sample.translator [])
      (Sample.extracted ["Save"%string; "Cancel"%string]) Missing = Some out
    /\ cache (final out) = []
    /\ apiCalls (final out) = 0
    /\ length (sent (final out)) = 3.
Proof.
  eexists. split; [vm_compute; reflexivity|].
  pose proof (run_without_provider Sample.world (fun _ _ => eq_refl)
                (Sample.translator [])
                {| metadata := None;
                   texts := Some [Sample.item "Save"; Sample.item "Cancel"] |}
                [Sample.item "Save"; Sample.item "Cancel"] Missing _
                eq_refl eq_refl ltac:(discriminate) eq_refl)
    as (Hc & Ha & Hs & _).
  split; [exact Hc|]. split; [exact Ha|exact Hs].
Defined.

End ProviderDownExample.

(* ================================================================== *)
(** * The lines of a response *)
(* ================================================================== *)

Section ResponseFacts.
Import AITranslator.

Lemma greedy_inv {R : Type} (p : char -> bool) s :
  forall acc (k : jsstring -> jsstring -> option R) r,
    RegExp.greedy p s acc k = Some r ->
    exists run rest,
      s = run ++ rest /\ Forall (fun c => p c = true) run
      /\ k (acc ++ run) rest = Some r.
Proof.
  induction s as [|c s IH]; intros acc k r H; simpl in H.
  - exists [], []. rewrite (app_nil_r acc).
    split; [reflexivity|]. split; [exact (List.Forall_nil _)|exact H].
  - assert (Hstop : exists run rest,
               c :: s = run ++ rest /\ Forall (fun c => p c = true) run
               /\ k (acc ++ run) rest = Some r
             \/ RegExp.greedy p s (acc ++ [c]) k = Some r /\ p c = true).
    { destruct (p c) eqn:Hc.
      - destruct (RegExp.greedy p s (acc ++ [c]) k) as [r'|] eqn:E.
        + exists [], []. right. split; [congruence|reflexivity].
        + exists [], (c :: s). left. rewrite (app_nil_r acc).
          split; [reflexivity|]. split; [exact (List.Forall_nil _)|exact H].
      - exists [], (c :: s). left. rewrite (app_nil_r acc).
        split; [reflexivity|]. split; [exact (List.Forall_nil _)|exact H]. }
    destruct Hstop as (run & rest & [Hdone|[E Hc]]).
    + exists run, rest. exact Hdone.
    + destruct (IH _ _ _ E) as (run' & rest' & -> & Hrun & Hk).
      exists (c :: run'), rest'. rewrite <- app_assoc in Hk.
      split; [reflexivity|]. split; [now constructor|exact Hk].
Qed.

Lemma greedy_last {R : Type} (p : char -> bool) c run :
  forall acc (k : jsstring -> jsstring -> option R) r,
    Forall (fun x => p x = true) run ->
    k (acc ++ run ++ [c]) [] = None ->
    k (acc ++ run) [c] = Some r ->
    RegExp.greedy p (run ++ [c]) acc k = Some r.
Proof.
  induction run as [|x run IH]; intros acc k r Hrun Hnone Hk.
  - rewrite app_nil_r in Hk. simpl in *. destruct (p c); [|exact Hk].
    now rewrite Hnone.
  - inversion Hrun as [|? ? Hx Hrun']; subst. simpl. rewrite Hx.
    rewrite (IH (acc ++ [x]) k r); [reflexivity|exact Hrun'|..];
      now rewrite <- app_assoc.
Qed.

Lemma digit_not_dot d : is_digit d = true -> N.eqb d 46 = false.
Proof.
  unfold is_digit. intros H. apply andb_prop in H. destruct H as [H _].
  apply N.leb_le in H. apply N.eqb_neq. lia.
Qed.

(** The decomposition is accepted, and its group is the capture. *)
Lemma labelled_as_exec line digits blanks group :
  labelled_as line digits blanks group ->
  RegExp.exec numbered_line line [] = Some [group].
Proof.
  intros (-> & Hne & Hd & Hb & Hg & Hmax).
  destruct group as [|c text]; [contradiction|].
  destruct (is_whitespace c) eqn:Hc.
  - destruct text as [|c' text']; [|congruence].
    destruct digits as [|d digits]; [congruence|].
    inversion Hd as [|? ? Hd0 Hd']; subst.
    inversion Hg as [|? ? Hc' _]; subst.
    unfold numbered_line. cbn [RegExp.exec RegExp.quant RegExp.class
                               RegExp.captured app].
    rewrite Hd0.
    apply greedy_run; [exact Hd'|reflexivity|].
    cbn [RegExp.exec RegExp.quant RegExp.class RegExp.captured app].
    rewrite N.eqb_refl.
    apply greedy_last; [exact Hb|reflexivity|].
    cbn [RegExp.exec RegExp.quant RegExp.class RegExp.captured app].
    rewrite Hc'. reflexivity.
  - now apply numbered_line_exec.
Qed.

(** White space at the head of a group moves to the blanks as long as
    something is left. *)
Lemma labelled_as_shift line digits :
  forall group blanks,
    line = digits ++ [46%N] ++ blanks ++ group ->
    Forall (fun b => is_whitespace b = true) blanks ->
    Forall (fun x => is_dot x = true) group ->
    group <> [] ->
    exists blanks' group',
      line = digits ++ [46%N] ++ blanks' ++ group'
      /\ Forall (fun b => is_whitespace b = true) blanks'
      /\ Forall (fun x => is_dot x = true) group'
      /\ match group' with
         | [] => False
         | [_] => True
         | c :: _ :: _ => is_whitespace c = false
         end.
Proof.
  induction group as [|c text IH]; intros blanks Hl Hb Hg Hne; [congruence|].
  destruct text as [|c' text'].
  - exists blanks, [c]. now repeat split.
  - destruct (is_whitespace c) eqn:Hc.
    + inversion Hg as [|? ? _ Hg']; subst.
      apply (IH (blanks ++ [c])).
      * now rewrite <- !app_assoc.
      * apply Forall_app. split; [exact Hb|now constructor].
      * exact Hg'.
      * discriminate.
    + exists blanks, (c :: c' :: text'). now repeat split.
Qed.

(** X11. The pattern of a labelled line.  A line matches
    [/^\d+\.\s*(.+)$/] exactly when it is made of one digit or more, a
    dot, white space and a group of one code unit or more without line
    terminator; the capture is the group that begins where the white
    space ends, or the last code unit of the line when all that follows
    the dot is white space. *)
Theorem numbered_line_matches line caps :
  RegExp.exec numbered_line line [] = Some caps
  <-> exists digits blanks group,
        caps = [group] /\ labelled_as line digits blanks group.
Proof.
  split.
  - intros H. pose proof H as H0. unfold numbered_line in H.
    cbn [RegExp.exec RegExp.quant RegExp.class RegExp.captured] in H.
    destruct line as [|d line]; [discriminate|].
    destruct (is_digit d) eqn:Hd; [|discriminate].
    apply greedy_inv in H. destruct H as (digits & rest & -> & Hds & H).
    cbn [RegExp.exec RegExp.quant RegExp.class RegExp.captured] in H.
    destruct rest as [|dot rest]; [discriminate|].
    destruct (N.eqb 46 dot) eqn:Hdot; [|discriminate].
    apply N.eqb_eq in Hdot. subst dot.
    apply greedy_inv in H. destruct H as (blanks & rest' & -> & Hbs & H).
    cbn [RegExp.exec RegExp.quant RegExp.class RegExp.captured] in H.
    destruct rest' as [|c text]; [discriminate|].
    destruct (is_dot c) eqn:Hc; [|discriminate].
    apply greedy_inv in H. destruct H as (run & rest'' & -> & Hrun & H).
    cbn [RegExp.exec] in H. destruct rest'' as [|? ?]; [|discriminate].
    rewrite app_nil_r in *. clear H.
    destruct (labelled_as_shift (d :: digits ++ 46%N :: blanks ++ c :: run)
                (d :: digits) (c :: run) blanks)
      as (blanks' & group' & Hl & Hb' & Hg' & Hmax).
    + reflexivity.
    + exact Hbs.
    + now constructor.
    + discriminate.
    + assert (Has : labelled_as (d :: digits ++ 46%N :: blanks ++ c :: run)
                      (d :: digits) blanks' group').
      { split; [exact Hl|]. split; [discriminate|].
        split; [now constructor|]. now repeat split. }
      exists (d :: digits), blanks', group'. split; [|exact Has].
      pose proof (eq_trans (eq_sym H0) (labelled_as_exec _ _ _ _ Has)) as E.
      now injection E.
  - intros (digits & blanks & group & -> & Has).
    now apply (labelled_as_exec line digits blanks group).
Qed.

Lemma numbered_line_matches_witness :
  exists digits blanks group,
    [js "Hallo"] = [group]
    /\ labelled_as (js "1. Hallo") digits blanks group.
Proof.
  apply (proj1 (numbered_line_matches (js "1. Hallo") [js "Hallo"])).
  vm_compute. reflexivity.
Defined.

(** ** A response in the format of the prompt *)

Lemma trim_clean c m d :
  is_whitespace c = false -> is_whitespace d = false ->
  trim (c :: m ++ [d]) = c :: m ++ [d].
Proof.
  intros Hc Hd. unfold trim, trimStart, trimEnd. cbn [dropWhile].
  rewrite Hc.
  assert (E : rev (c :: m ++ [d]) = d :: rev m ++ [c])
    by (cbn [rev]; now rewrite rev_app_distr).
  rewrite E. cbn [dropWhile]. rewrite Hd, <- E. apply rev_involutive.
Qed.

Lemma stripQuotes_quoted text : stripQuotes (34%N :: text ++ [34%N]) = text.
Proof.
  unfold stripQuotes. change (is_quote 34%N) with true. cbv iota.
  rewrite rev_app_distr. cbn [rev app].
  change (is_quote 34%N) with true. cbv iota. apply rev_involutive.
Qed.

Lemma split_join lines :
  lines <> [] ->
  Forall (fun line => ~ In 10%N line) lines ->
  split 10%N (join_lines lines) = lines.
Proof.
  induction lines as [|line rest IH]; intros Hne Hfree; [congruence|].
  inversion Hfree as [|? ? Hline Hrest]; subst.
  destruct rest as [|line' rest'].
  - clear IH Hne Hfree Hrest. cbn [join_lines].
    induction line as [|c line IH]; [reflexivity|]. cbn [split].
    destruct (N.eqb_spec c 10%N) as [->|Hc]; [exfalso; apply Hline; now left|].
    rewrite IH; [reflexivity|]. intros H. apply Hline. now right.
  - specialize (IH ltac:(discriminate) Hrest).
    change (join_lines (line :: line' :: rest'))
      with (line ++ 10%N :: join_lines (line' :: rest')).
    clear Hne Hfree Hrest.
    induction line as [|c line IHl].
    + cbn [app split]. change (N.eqb 10%N 10%N) with true. cbv iota.
      now rewrite IH.
    + cbn [app split].
      destruct (N.eqb_spec c 10%N) as [->|Hc]; [exfalso; apply Hline; now left|].
      rewrite IHl; [reflexivity|]. intros H. apply Hline. now right.
Qed.

Lemma labelled_lines_app lines :
  forall acc,
    fold_left
      (fun (translations : list jsstring) (line : jsstring) =>
         match RegExp.exec numbered_line line [] with
         | Some [group1] => translations ++ [stripQuotes (trim group1)]
         | _ => translations
         end)
      lines acc
    = acc ++ labelled_lines lines.
Proof.
  unfold labelled_lines.
  induction lines as [|line rest IH]; intros acc; cbn [fold_left].
  - now rewrite app_nil_r.
  - rewrite IH. rewrite (IH (match RegExp.exec numbered_line line [] with
                             | Some [group1] => [] ++ _
                             | _ => []
                             end)).
    destruct (RegExp.exec numbered_line line []) as [[|g [|? ?]]|];
      rewrite ?app_nil_r, <- ?app_assoc; reflexivity.
Qed.

Lemma is_dot_not_feed text :
  Forall (fun x => is_dot x = true) text -> ~ In 10%N text.
Proof.
  intros H Hin. rewrite List.Forall_forall in H. specialize (H _ Hin).
  discriminate.
Qed.

Lemma digit_not_feed label :
  Forall (fun d => is_digit d = true) label -> ~ In 10%N label.
Proof.
  intros H Hin. rewrite List.Forall_forall in H. specialize (H _ Hin).
  discriminate.
Qed.

Lemma digit_not_whitespace d : is_digit d = true -> is_whitespace d = false.
Proof.
  unfold is_digit. intros H. apply andb_prop in H. destruct H as [H1 H2].
  apply N.leb_le in H1, H2. unfold is_whitespace, is_line_terminator.
  repeat match goal with
         | |- context [N.eqb d ?n] =>
             destruct (N.eqb_spec d n); [lia|]
         | |- context [N.leb ?n d] =>
             destruct (N.leb_spec n d); [lia|]
         end.
  reflexivity.
Qed.

(** The labelled lines of a response in the format of the prompt are
    its texts. *)
Lemma labelled_quoted_lines labels texts :
  length labels = length texts ->
  Forall (fun label => label <> []
                       /\ Forall (fun d => is_digit d = true) label) labels ->
  Forall (fun text => Forall (fun x => is_dot x = true) text) texts ->
  labelled
    (join_lines
       (List.map (fun lt => quoted_line (fst lt) (snd lt))
          (combine labels texts)))
  = texts.
Proof.
  intros Hlen Hlabels Htexts.
  set (response :=
         join_lines
           (List.map (fun lt => quoted_line (fst lt) (snd lt))
              (combine labels texts))).
  unfold labelled, response.
  destruct texts as [|t0 texts'].
  - destruct labels; [|discriminate]. reflexivity.
  - destruct labels as [|l0 labels']; [discriminate|].
    rewrite split_join.
    + clear response. revert Hlen Hlabels Htexts.
      generalize (l0 :: labels'). generalize (t0 :: texts').
      clear. intros texts.
      induction texts as [|t texts IH]; intros labels Hlen Hlabels Htexts.
      * destruct labels; [reflexivity|discriminate].
      * destruct labels as [|l labels]; [discriminate|].
        inversion Hlabels as [|? ? [Hne Hd] Hlabels']; subst.
        inversion Htexts as [|? ? Ht Htexts']; subst.
        cbn [combine List.map fst snd List.filter].
        assert (Hline : exists d ds,
                   l = d :: ds /\ is_digit d = true).
        { destruct l as [|d ds]; [congruence|]. exists d, ds.
          split; [reflexivity|]. now inversion Hd. }
        destruct Hline as (d & ds & -> & Hd0).
        assert (Etrim : trim (quoted_line (d :: ds) t)
                        = quoted_line (d :: ds) t).
        { unfold quoted_line.
          replace ((d :: ds) ++ js ". " ++ [34%N] ++ t ++ [34%N])
            with (d :: (ds ++ js ". " ++ [34%N] ++ t) ++ [34%N])
            by (simpl; now rewrite <- !app_assoc).
          apply trim_clean; [now apply digit_not_whitespace|reflexivity]. }
        rewrite Etrim. cbn [truthy quoted_line app].
        unfold labelled_lines. cbn [fold_left].
        assert (Eexec : RegExp.exec numbered_line
                          (quoted_line (d :: ds) t) []
                        = Some [34%N :: t ++ [34%N]]).
        { unfold quoted_line.
          apply (numbered_line_exec (d :: ds) [32%N] 34%N (t ++ [34%N]));
            [discriminate|exact Hd|repeat constructor|reflexivity|].
          constructor; [reflexivity|]. apply Forall_app. split; [exact Ht|].
          now repeat constructor. }
        unfold quoted_line in Eexec. cbn [app] in Eexec. rewrite Eexec.
        rewrite labelled_lines_app. cbn [app].
        f_equal.
        -- transitivity (stripQuotes (34%N :: t ++ [34%N]));
             [f_equal; apply trim_clean; reflexivity
             |apply stripQuotes_quoted].
        -- apply IH; [now injection Hlen|exact Hlabels'|exact Htexts'].
    + discriminate.
    + clear response. revert Hlen Hlabels Htexts.
      generalize (l0 :: labels'). generalize (t0 :: texts').
      clear. intros texts.
      induction texts as [|t texts IH]; intros labels Hlen Hlabels Htexts.
      * destruct labels; constructor.
      * destruct labels as [|l labels]; [discriminate|].
        inversion Hlabels as [|? ? [Hne Hd] Hlabels']; subst.
        inversion Htexts as [|? ? Ht Htexts']; subst.
        cbn [combine List.map fst snd]. constructor.
        -- unfold quoted_line. intros Hin.
           apply in_app_or in Hin. destruct Hin as [Hin|Hin];
             [now apply (digit_not_feed l)|].
           apply in_app_or in Hin. destruct Hin as [Hin|Hin].
           ++ simpl in Hin. destruct Hin as [E|[E|[]]]; discriminate.
           ++ apply in_app_or in Hin. destruct Hin as [Hin|Hin].
              ** simpl in Hin. destruct Hin as [E|[]]. discriminate.
              ** apply in_app_or in Hin. destruct Hin as [Hin|Hin];
                   [now apply (is_dot_not_feed t)|].
                 simpl in Hin. destruct Hin as [E|[]]. discriminate.
        -- apply IH; [now injection Hlen|exact Hlabels'|exact Htexts'].
Qed.

(** X12. The round trip of a batch.  A response that gives, line by
    line, a label of digits, a dot, a blank and a text between double
    quotes, as the prompt lists the texts, is parsed into these texts,
    in their order, whatever the labels are, as long as no text has a
    line terminator; [parseBatchResponse] pads them with the originals of
    the batch they do not reach. *)
Theorem quoted_lines_round_trip labels texts batch :
  length labels = length texts ->
  Forall (fun label => label <> []
                       /\ Forall (fun d => is_digit d = true) label) labels ->
  Forall (fun text => Forall (fun x => is_dot x = true) text) texts ->
  let response :=
    join_lines
      (List.map (fun lt => quoted_line (fst lt) (snd lt))
         (combine labels texts)) in
  labelled response = texts
  /\ parseBatchResponse response batch
     = texts ++ List.map Item.text (skipn (length texts) batch).
Proof.
  intros Hlen Hlabels Htexts response. subst response.
  pose proof (labelled_quoted_lines labels texts Hlen Hlabels Htexts) as Hl.
  split; [exact Hl|]. now rewrite parseBatchResponse_spec, Hl.
Qed.

Lemma quoted_lines_round_trip_witness :
  parseBatchResponse
    (join_lines [quoted_line (js "1") (js "Hallo");
                 quoted_line (js "2") (js "Welt")])
    [Sample.item "Hello"; Sample.item "World"; Sample.item "Settings"]
  = [js "Hallo"; js "Welt"; js "Settings"].
Proof.
  refine (proj2 (quoted_lines_round_trip [js "1"; js "2"]
                   [js "Hallo"; js "Welt"]
                   [Sample.item "Hello"; Sample.item "World";
                    Sample.item "Settings"] eq_refl _ _)).
  - repeat constructor; discriminate.
  - repeat constructor.
Defined.

(** C4.  [parseBatchResponse] does not keep to the size of the batch:
    its last loop, which is to ensure as many translations as original
    texts, only adds to the list.  A response that lists more lines in
    the format of the prompt than the batch has items comes back with
    all its texts, more translations than the batch has items. *)
Theorem parseBatchResponse_exceeds_batch labels texts batch :
  length labels = length texts ->
  Forall (fun label => label <> []
                       /\ Forall (fun d => is_digit d = true) label) labels ->
  Forall (fun text => Forall (fun x => is_dot x = true) text) texts ->
  length batch < length texts ->
  parseBatchResponse
    (join_lines
       (List.map (fun lt => quoted_line (fst lt) (snd lt))
          (combine labels texts)))
    batch
  = texts
  /\ length batch
     < length
         (parseBatchResponse
            (join_lines
               (List.map (fun lt => quoted_line (fst lt) (snd lt))
                  (combine labels texts)))
            batch).
Proof.
  intros Hlen Hlabels Htexts Hmore.
  assert (E : parseBatchResponse
                (join_lines
                   (List.map (fun lt => quoted_line (fst lt) (snd lt))
                      (combine labels texts)))
                batch
              = texts).
  { rewrite parseBatchResponse_spec, labelled_quoted_lines by assumption.
    rewrite skipn_beyond by (apply Nat.lt_le_incl; exact Hmore).
    apply app_nil_r. }
  split; [exact E|]. rewrite E. exact Hmore.
Qed.

Lemma parseBatchResponse_exceeds_batch_witness :
  parseBatchResponse
    (join_lines [quoted_line (js "1") (js "Hallo");
                 quoted_line (js "2") (js "Welt")])
    [Sample.item "Hello"]
  = [js "Hallo"; js "Welt"]
  /\ length [Sample.item "Hello"]
     < length
         (parseBatchResponse
            (join_lines [quoted_line (js "1") (js "Hallo");
                         quoted_line (js "2") (js "Welt")])
            [Sample.item "Hello"]).
Proof.
  refine (parseBatchResponse_exceeds_batch [js "1"; js "2"]
            [js "Hallo"; js "Welt"] [Sample.item "Hello"] eq_refl _ _ _).
  - repeat constructor; discriminate.
  - repeat constructor.
  - cbn. lia.
Defined.

End ResponseFacts.

(* ================================================================== *)
(** * The walk of the replacer, its report and its backup *)
(* ================================================================== *)

Section ReplacerWalk.
Import TextReplacer.

(** What [processFile] does to the file and to the report. *)
Lemma processFile_report this relativePath content :
  let r := processFile this relativePath content in
  replacements (fst r) = replacements this
  /\ filesProcessed (reportData (fst r)) = S (filesProcessed (reportData this))
  /\ match snd r with
     | Some modifiedContent => modifiedContent
     | None => content
     end = replaced (replacements this) content
  /\ (adds_up this -> adds_up (fst r))
  /\ List.map FileChange.file (fileChanges (reportData (fst r)))
     = List.map FileChange.file (fileChanges (reportData this))
       ++ (if 0 <? replaced_count (replacements this) content
           then [relativePath] else []).
Proof.
  cbn zeta. unfold processFile, replaced, replaced_count.
  destruct (fold_replaceOne_grows (replacements this) (content, 0, []))
    as (_ & Hsame & _).
  destruct (fold_replaceOne_report (replacements this) (content, 0, []))
    as (Hn & Hok); [reflexivity|constructor|].
  destruct (fold_left replaceOne (replacements this) (content, 0, []))
    as [[m n] chs].
  cbn [count_of content_of changes_of fst snd] in *.
  destruct (Nat.ltb_spec 0 n) as [Hpos|Hzero]; cbn [fst snd replacements
    reportData filesProcessed fileChanges totalReplacements].
  - split; [reflexivity|]. split; [reflexivity|]. split; [reflexivity|].
    split; [|now rewrite map_app].
    intros (Ht & Hl & Hf). unfold adds_up.
    cbn [fst snd replacements reportData filesProcessed fileChanges
         totalReplacements].
    split; [|split].
    + rewrite map_app, total_of_app, <- Ht. unfold total_of. simpl. lia.
    + rewrite length_app. simpl. lia.
    + apply Forall_app. split; [exact Hf|].
      constructor; [|constructor]. simpl. now repeat split.
  - split; [reflexivity|]. split; [reflexivity|].
    split; [symmetry; apply Hsame; lia|].
    split; [|now rewrite app_nil_r].
    intros (Ht & Hl & Hf). unfold adds_up.
    cbn [fst snd replacements reportData filesProcessed fileChanges
         totalReplacements].
    split; [exact Ht|]. split; [lia|exact Hf].
Qed.

Ltac passed_by :=
  cbn [fst snd length List.filter List.map];
  split; [reflexivity|]; split; [reflexivity|]; split; [lia|];
  split; [auto|]; now rewrite app_nil_r.

(** One entry of the walk: the tree, the counters and the report. *)
Lemma processEntry_spec :
  forall entry dir this,
    let r := processEntry dir this entry in
    snd r = rewritten (replaced (replacements this)) entry
    /\ replacements (fst r) = replacements this
    /\ filesProcessed (reportData (fst r))
       = filesProcessed (reportData this) + length (replaceable dir entry)
    /\ (adds_up this -> adds_up (fst r))
    /\ List.map FileChange.file (fileChanges (reportData (fst r)))
       = List.map FileChange.file (fileChanges (reportData this))
         ++ List.map fst
              (List.filter
                 (fun pc => 0 <? replaced_count (replacements this) (snd pc))
                 (replaceable dir entry)).
Proof.
  fix IH 1. intros [name content|name sub|name] dir this; cbn zeta.
  - cbn [processEntry rewritten replaceable].
    set (a := JsArray.includes extensions
                (Path.toLowerCase (Path.extname name))).
    clearbody a. destruct a, content as [content|]; try passed_by.
    destruct (processFile_report this (Path.join dir name) content)
      as (Hr & Hp & Hc & Ha & Hf).
    destruct (processFile this (Path.join dir name) content)
      as [this' written].
    cbn [fst snd length List.filter List.map] in *. rewrite Hc.
    split; [reflexivity|]. split; [exact Hr|]. split; [lia|].
    split; [exact Ha|]. rewrite Hf.
    now destruct (0 <? replaced_count (replacements this) content).
  - cbn [processEntry rewritten replaceable].
    set (a := JsArray.includes processExcluded name). clearbody a.
    destruct a; [passed_by|].
    generalize (Path.join dir name) as d. intros d.
    assert (Hloop : forall this0 done,
               let r := forEntries (processInto (processEntry d))
                          (this0, done) sub in
               snd r = done
                       ++ List.map (rewritten (replaced (replacements this0)))
                            sub
               /\ replacements (fst r) = replacements this0
               /\ filesProcessed (reportData (fst r))
                  = filesProcessed (reportData this0)
                    + length (flat_map (replaceable d) sub)
               /\ (adds_up this0 -> adds_up (fst r))
               /\ List.map FileChange.file (fileChanges (reportData (fst r)))
                  = List.map FileChange.file (fileChanges (reportData this0))
                    ++ List.map fst
                         (List.filter
                            (fun pc =>
                               0 <? replaced_count (replacements this0)
                                      (snd pc))
                            (flat_map (replaceable d) sub))).
    { induction sub as [|entry rest IHsub]; intros this0 done; cbn zeta.
      - cbn [forEntries flat_map List.map]. rewrite app_nil_r. passed_by.
      - assert (Estep :
                  forEntries (processInto (processEntry d)) (this0, done)
                    (entry :: rest)
                  = forEntries (processInto (processEntry d))
                      (fst (processEntry d this0 entry),
                       done ++ [snd (processEntry d this0 entry)]) rest).
        { cbn [forEntries]. unfold processInto at 1. cbn [fst snd].
          now destruct (processEntry d this0 entry). }
        rewrite Estep. clear Estep. cbn [flat_map List.map].
        destruct (IH entry d this0) as (He & Hr & Hp & Ha & Hf).
        destruct (processEntry d this0 entry) as [this1 entry'].
        cbn [fst snd] in *. subst entry'.
        destruct (IHsub this1
                    (done ++ [rewritten (replaced (replacements this0)) entry]))
          as (He' & Hr' & Hp' & Ha' & Hf').
        rewrite He', Hr', Hp', Hf', Hr, Hp, Hf.
        split; [now rewrite <- app_assoc|]. split; [reflexivity|].
        split; [rewrite length_app; lia|]. split; [auto|].
        now rewrite List.filter_app, map_app, app_assoc. }
    destruct (Hloop this []) as (He & Hr & Hp & Ha & Hf).
    destruct (forEntries (processInto (processEntry d)) (this, []) sub)
      as [this' sub'].
    cbn [fst snd] in *. subst sub'.
    split; [reflexivity|]. split; [exact Hr|]. split; [exact Hp|].
    split; [exact Ha|exact Hf].
  - cbn [processEntry rewritten replaceable]. passed_by.
Qed.

Lemma processEntries_spec dir entries :
  forall this done,
    let r := forEntries (processInto (processEntry dir)) (this, done) entries in
    snd r = done ++ List.map (rewritten (replaced (replacements this))) entries
    /\ replacements (fst r) = replacements this
    /\ filesProcessed (reportData (fst r))
       = filesProcessed (reportData this)
         + length (flat_map (replaceable dir) entries)
    /\ (adds_up this -> adds_up (fst r))
    /\ List.map FileChange.file (fileChanges (reportData (fst r)))
       = List.map FileChange.file (fileChanges (reportData this))
         ++ List.map fst
              (List.filter
                 (fun pc => 0 <? replaced_count (replacements this) (snd pc))
                 (flat_map (replaceable dir) entries)).
Proof.
  induction entries as [|entry rest IHsub]; intros this done; cbn zeta.
  - cbn [forEntries flat_map List.map]. rewrite app_nil_r. passed_by.
  - assert (Estep :
              forEntries (processInto (processEntry dir)) (this, done)
                (entry :: rest)
              = forEntries (processInto (processEntry dir))
                  (fst (processEntry dir this entry),
                   done ++ [snd (processEntry dir this entry)]) rest).
    { cbn [forEntries]. unfold processInto at 1. cbn [fst snd].
      now destruct (processEntry dir this entry). }
    rewrite Estep. clear Estep. cbn [flat_map List.map].
    destruct (processEntry_spec entry dir this) as (He & Hr & Hp & Ha & Hf).
    destruct (processEntry dir this entry) as [this1 entry'].
    cbn [fst snd] in *. subst entry'.
    destruct (IHsub this1
                (done ++ [rewritten (replaced (replacements this)) entry]))
      as (He' & Hr' & Hp' & Ha' & Hf').
    rewrite He', Hr', Hp', Hf', Hr, Hp, Hf.
    split; [now rewrite <- app_assoc|]. split; [reflexivity|].
    split; [rewrite length_app; lia|]. split; [auto|].
    now rewrite List.filter_app, map_app, app_assoc.
Qed.

(** X13. The walk of the replacer.  [processDirectory] leaves the tree
    as it is but for the contents of the files it reads (the readable
    regular files with the extension of a component or a script, in no
    directory it passes by), and the content of each of them becomes what
    the loop over the mapping makes of its own content, whatever the walk
    has met before; the mapping stays as it is, [filesProcessed] grows by
    the number of these files, and the report lists, in the order of the
    walk, those that end with one replacement or more. *)
Theorem processDirectory_rewrites this dir entries :
  let r := processDirectory this dir entries in
  snd r = List.map (rewritten (replaced (replacements this))) entries
  /\ replacements (fst r) = replacements this
  /\ filesProcessed (reportData (fst r))
     = filesProcessed (reportData this)
       + length (flat_map (replaceable dir) entries)
  /\ List.map FileChange.file (fileChanges (reportData (fst r)))
     = List.map FileChange.file (fileChanges (reportData this))
       ++ List.map fst
            (List.filter
               (fun pc => 0 <? replaced_count (replacements this) (snd pc))
               (flat_map (replaceable dir) entries)).
Proof.
  cbn zeta. unfold processDirectory.
  destruct (processEntries_spec dir entries this [])
    as (He & Hr & Hp & _ & Hf).
  now repeat split.
Qed.

(** X14. The report adds up.  When the report of the replacer adds up
    before the walk, as that of a fresh replacer does, it adds up after
    it: every change has one occurrence or more, as many as it lists,
    the replacements of a file are the sum of those of its changes and
    not zero, the total is the sum over the files, which [generateReport]
    writes into the report, and no more files are listed than were
    processed. *)
Theorem report_adds_up this dir entries :
  adds_up this ->
  let this' := generateReport (fst (processDirectory this dir entries)) in
  adds_up this'
  /\ report_totalReplacements (reportData this')
     = total_of (List.map FileChange.replacements
                   (fileChanges (reportData this')))
  /\ Forall (fun fc => 0 < FileChange.replacements fc)
       (fileChanges (reportData this')).
Proof.
  intros Hup. cbn zeta. unfold processDirectory.
  destruct (processEntries_spec dir entries this []) as (_ & _ & _ & Ha & _).
  specialize (Ha Hup).
  destruct (forEntries (processInto (processEntry dir)) (this, []) entries)
    as [this1 entries1].
  cbn [fst] in *. destruct Ha as (Ht & Hl & Hf).
  unfold adds_up, generateReport.
  cbn [totalReplacements reportData fileChanges filesProcessed
       report_totalReplacements].
  split; [now repeat split|]. split; [exact Ht|].
  revert Hf. apply List.Forall_impl. intros fc (H & _). exact H.
Qed.

End ReplacerWalk.

Section ReplacerExamples.
Import TextReplacer.

Lemma report_adds_up_witness :
  report_totalReplacements
    (reportData
       (generateReport
          (fst (processDirectory
                  (Sample.replacer [(js "Save", js "Sichern")]) []
                  [File (js "App.vue") (Some (js "Save or Save"))]))))
  = 2.
Proof.
  pose proof (report_adds_up (Sample.replacer [(js "Save", js "Sichern")]) []
                [File (js "App.vue") (Some (js "Save or Save"))]) as H.
  cbn zeta in H. refine (eq_trans (proj1 (proj2 (H _))) _).
  - split; [reflexivity|]. split; [apply le_n|apply List.Forall_nil].
  - vm_compute. reflexivity.
Defined.

End ReplacerExamples.

(* ================================================================== *)
(** * The run of the replacer *)
(* ================================================================== *)

Section ReplacerRun.
Import TextReplacer.

Variable copyOther : jsstring -> option dirent.

Lemma backupExcluded_processExcluded name :
  JsArray.includes backupExcluded name = true ->
  JsArray.includes processExcluded name = true.
Proof.
  unfold JsArray.includes.
  change processExcluded with (backupExcluded ++ [js ".nuxt"; js ".next"]).
  rewrite existsb_app. intros ->. reflexivity.
Qed.

(** The loop of a copy that does not throw keeps what was copied and
    adds what each entry makes. *)
Lemma copyInto_loop (copy : dirent -> option (list dirent)) entries :
  forall copied result,
    forEntries (copyInto copy) (Some copied) entries = Some result ->
    exists made,
      result = copied ++ concat made
      /\ Forall2 (fun entry m => copy entry = Some m) entries made.
Proof.
  induction entries as [|entry rest IH]; intros copied result H.
  - cbn [forEntries] in H. injection H as <-. exists [].
    split; [now rewrite app_nil_r|constructor].
  - cbn [forEntries] in H. unfold copyInto at 1 in H.
    destruct (copy entry) as [m|] eqn:E.
    + destruct (IH _ _ H) as (made & -> & Hall).
      exists (m :: made). split; [now rewrite <- app_assoc|].
      now constructor.
    + discriminate.
Qed.

(** A copy that does not throw holds every file the walk reads, with
    its content. *)
Lemma copyEntry_keeps :
  forall entry dir made,
    copyEntry copyOther entry = Some made ->
    forall p c,
      In (p, c) (replaceable dir entry) ->
      In (p, Some c) (flat_map (regular_files dir) made).
Proof.
  fix IH 1. intros [name content|name sub|name] dir made Hcopy p c Hin.
  - cbn [copyEntry replaceable] in *. destruct content as [content|];
      [|discriminate].
    injection Hcopy as <-.
    destruct (JsArray.includes extensions _); [|contradiction].
    destruct Hin as [E|[]]. injection E as <- <-. now left.
  - cbn [copyEntry replaceable] in *.
    destruct (JsArray.includes backupExcluded name) eqn:Eb.
    + rewrite (backupExcluded_processExcluded name Eb) in Hin. contradiction.
    + destruct (JsArray.includes processExcluded name); [contradiction|].
      destruct (forEntries (copyInto (copyEntry copyOther)) (Some []) sub)
        as [copied|] eqn:Eloop; [|discriminate].
      injection Hcopy as <-. cbn [flat_map regular_files].
      rewrite app_nil_r.
      generalize dependent (Path.join dir name). intros d Hin.
      assert (Hloop : forall done result,
                 forEntries (copyInto (copyEntry copyOther)) (Some done) sub
                 = Some result ->
                 In (p, Some c) (flat_map (regular_files d) done)
                 \/ In (p, c) (flat_map (replaceable d) sub) ->
                 In (p, Some c) (flat_map (regular_files d) result)).
      { clear Eloop Hin copied.
        induction sub as [|entry rest IHsub]; intros done result Hrun Hor.
        - cbn [forEntries] in Hrun. injection Hrun as <-.
          destruct Hor as [H|[]]. exact H.
        - cbn [forEntries] in Hrun. unfold copyInto at 1 in Hrun.
          destruct (copyEntry copyOther entry) as [m|] eqn:E;
            [|discriminate].
          apply (IHsub _ _ Hrun). rewrite flat_map_app.
          cbn [flat_map] in Hor.
          destruct Hor as [H|H]; [left; apply in_or_app; now left|].
          apply in_app_or in H. destruct H as [H|H]; [left|now right].
          apply in_or_app. right. exact (IH entry d m E p c H). }
      apply (Hloop [] copied Eloop). now right.
  - cbn [replaceable] in Hin. contradiction.
Qed.

Lemma copyDirectory_keeps entries copied :
  copyDirectory copyOther entries = Some copied ->
  forall dir p c,
    In (p, c) (flat_map (replaceable dir) entries) ->
    In (p, Some c) (flat_map (regular_files dir) copied).
Proof.
  unfold copyDirectory. intros Hloop dir p c Hin.
  destruct (copyInto_loop _ _ _ _ Hloop) as (made & -> & Hall).
  cbn [app]. clear Hloop.
  induction Hall as [|entry m rest made Hm Hall IHall].
  - contradiction.
  - cbn [flat_map concat] in *. rewrite flat_map_app.
    apply in_app_or in Hin. apply in_or_app.
    destruct Hin as [Hin|Hin]; [left|right].
    + exact (copyEntry_keeps entry dir m Hm p c Hin).
    + now apply IHall.
Qed.

(** A copy that does not throw holds every file the walk reads as a
    file the walk reads. *)
Lemma copyEntry_replaceable :
  forall entry dir made,
    copyEntry copyOther entry = Some made ->
    forall p c,
      In (p, c) (replaceable dir entry) ->
      In (p, c) (flat_map (replaceable dir) made).
Proof.
  fix IH 1. intros [name content|name sub|name] dir made Hcopy p c Hin.
  - cbn [copyEntry] in Hcopy. destruct content as [content|];
      [|discriminate].
    injection Hcopy as <-. cbn [flat_map]. now rewrite app_nil_r.
  - cbn [copyEntry replaceable] in *.
    destruct (JsArray.includes backupExcluded name) eqn:Eb.
    + rewrite (backupExcluded_processExcluded name Eb) in Hin. contradiction.
    + destruct (JsArray.includes processExcluded name) eqn:Ep;
        [contradiction|].
      destruct (forEntries (copyInto (copyEntry copyOther)) (Some []) sub)
        as [copied|] eqn:Eloop; [|discriminate].
      injection Hcopy as <-. cbn [flat_map replaceable]. rewrite Ep.
      rewrite app_nil_r.
      generalize dependent (Path.join dir name). intros d Hin.
      assert (Hloop : forall done result,
                 forEntries (copyInto (copyEntry copyOther)) (Some done) sub
                 = Some result ->
                 In (p, c) (flat_map (replaceable d) done)
                 \/ In (p, c) (flat_map (replaceable d) sub) ->
                 In (p, c) (flat_map (replaceable d) result)).
      { clear Eloop Hin copied.
        induction sub as [|entry rest IHsub]; intros done result Hrun Hor.
        - cbn [forEntries] in Hrun. injection Hrun as <-.
          destruct Hor as [H|[]]. exact H.
        - cbn [forEntries] in Hrun. unfold copyInto at 1 in Hrun.
          destruct (copyEntry copyOther entry) as [m|] eqn:E;
            [|discriminate].
          apply (IHsub _ _ Hrun). rewrite flat_map_app.
          cbn [flat_map] in Hor.
          destruct Hor as [H|H]; [left; apply in_or_app; now left|].
          apply in_app_or in H. destruct H as [H|H]; [left|now right].
          apply in_or_app. right. exact (IH entry d m E p c H). }
      apply (Hloop [] copied Eloop). now right.
  - cbn [replaceable] in Hin. contradiction.
Qed.

Lemma copyDirectory_replaceable entries copied :
  copyDirectory copyOther entries = Some copied ->
  forall dir p c,
    In (p, c) (flat_map (replaceable dir) entries) ->
    In (p, c) (flat_map (replaceable dir) copied).
Proof.
  unfold copyDirectory. intros Hloop dir p c Hin.
  destruct (copyInto_loop _ _ _ _ Hloop) as (made & -> & Hall).
  cbn [app]. clear Hloop.
  induction Hall as [|entry m rest made Hm Hall IHall].
  - contradiction.
  - cbn [flat_map concat] in *. rewrite flat_map_app.
    apply in_app_or in Hin. apply in_or_app.
    destruct Hin as [Hin|Hin]; [left|right].
    + exact (copyEntry_replaceable entry dir m Hm p c Hin).
    + now apply IHall.
Qed.

(** A file the walk reads is, in the tree the walk leaves, a file with
    the content the walk makes of it. *)
Lemma rewritten_regular f :
  forall entry dir p c,
    In (p, c) (replaceable dir entry) ->
    In (p, Some (f c)) (regular_files dir (rewritten f entry)).
Proof.
  fix IH 1. intros [name content|name sub|name] dir p c Hin.
  - cbn [replaceable rewritten] in *. destruct content as [content|];
      [|contradiction].
    destruct (JsArray.includes extensions _); [|contradiction].
    destruct Hin as [E|[]]. injection E as <- <-. now left.
  - cbn [replaceable rewritten] in *.
    destruct (JsArray.includes processExcluded name); [contradiction|].
    cbn [regular_files].
    generalize dependent (Path.join dir name). intros d Hin.
    induction sub as [|entry rest IHsub]; [contradiction|].
    cbn [flat_map List.map] in *. apply in_app_or in Hin. apply in_or_app.
    destruct Hin as [Hin|Hin]; [left; exact (IH entry d p c Hin)|right].
    now apply IHsub.
  - cbn [replaceable] in Hin. contradiction.
Qed.

(** What a run that writes a report has done before the walk and what
    the walk has made of the source directory. *)
Lemma replaceTexts_run this mapping disk this' disk' report :
  replaceTexts copyOther this mapping disk = Some (this', disk', Some report) ->
  exists backed,
    createBackup copyOther disk = Some backed
    /\ backup disk' = backup backed
    /\ source disk'
       = List.map (rewritten (replaced (replacements this'))) (source backed)
    /\ report = reportData this'.
Proof.
  unfold replaceTexts. intros H.
  destruct (loadTranslationMapping this mapping) as [[this1 n]|];
    [|discriminate].
  destruct (length (replacements this1) =? 0); [discriminate|].
  destruct (createBackup copyOther disk) as [backed|]; [|discriminate].
  pose proof (processEntries_spec [] (source backed) this1 [])
    as (He & Hr & _ & _ & _).
  cbn zeta in He, Hr. fold (processDirectory this1 [] (source backed)) in He, Hr.
  cbn [app] in He.
  destruct (processDirectory this1 [] (source backed)) as [this2 entries].
  cbn [fst snd] in *. injection H as <- <- <-.
  cbn [backup source generateReport replacements reportData].
  exists backed. split; [reflexivity|]. split; [reflexivity|].
  split; [now rewrite Hr|reflexivity].
Qed.

(** X15. The backup.  When the backup directory lies outside of the
    source tree, a run of the replacer that writes a report has left a
    backup that exists before as it was; when there was none, it has
    made one before it touches a file, and the backup holds every file
    the walk reads, under its path and with the content it had.  The
    source directory is, as the walk leaves it, the tree the walk has
    rewritten. *)
Theorem replaceTexts_backs_up this mapping disk this' disk' report existing :
  replaceTexts copyOther this mapping disk = Some (this', disk', Some report) ->
  backup disk = Outside existing ->
  (forall kept, existing = Some kept -> backup disk' = Outside (Some kept))
  /\ (existing = None ->
      exists copied,
        backup disk' = Outside (Some copied)
        /\ forall p c,
            In (p, c) (flat_map (replaceable []) (source disk)) ->
            In (p, Some c) (flat_map (regular_files []) copied))
  /\ source disk'
     = List.map (rewritten (replaced (replacements this'))) (source disk)
  /\ report = reportData this'.
Proof.
  intros H Hplace.
  destruct (replaceTexts_run _ _ _ _ _ _ H) as (backed & Hb & Hb' & Hs & Hr).
  unfold createBackup, backupExists in Hb. rewrite Hplace in Hb.
  destruct existing as [kept|].
  - injection Hb as <-. rewrite Hb', Hplace.
    split; [intros ? E; now rewrite E|]. split; [discriminate|].
    split; [exact Hs|exact Hr].
  - destruct (copyDirectory copyOther (source disk)) as [copied|] eqn:Ec;
      [|discriminate].
    injection Hb as <-. cbn [backup source] in Hb', Hs.
    split; [discriminate|]. split; [|split; [exact Hs|exact Hr]].
    intros _. exists copied. split; [exact Hb'|].
    intros p c Hin. exact (copyDirectory_keeps _ _ Ec [] p c Hin).
Qed.

(** X26. A backup inside the source directory.  When the backup
    directory is an entry of the source directory itself (the source
    directory is given as [.] or with a slash at its end), no entry has
    its name yet and the walk does not pass it by, a run of the replacer
    that writes a report has copied the source directory into that
    entry and then walked into it: the source directory is the
    rewritten tree with the rewritten copy in it, and for every file the
    walk reads in the source directory the backup ends with the content
    the replacements have made of it, not with the content it had. *)
Theorem replaceTexts_rewrites_inner_backup
    this mapping disk this' disk' report name listedAt :
  replaceTexts copyOther this mapping disk = Some (this', disk', Some report) ->
  backup disk = Inside name listedAt ->
  Forall (fun entry => entryName entry <> name) (source disk) ->
  JsArray.includes processExcluded name = false ->
  exists copied,
    copyDirectory copyOther (source disk) = Some copied
    /\ source disk'
       = List.map (rewritten (replaced (replacements this')))
           (firstn listedAt (source disk))
         ++ Directory name
              (List.map (rewritten (replaced (replacements this'))) copied)
            :: List.map (rewritten (replaced (replacements this')))
                 (skipn listedAt (source disk))
    /\ forall dir p c,
        In (p, c) (flat_map (replaceable dir) (source disk)) ->
        In (p, Some (replaced (replacements this') c))
          (flat_map (regular_files dir)
             (List.map (rewritten (replaced (replacements this'))) copied)).
Proof.
  intros H Hplace Hfree Hwalked.
  destruct (replaceTexts_run _ _ _ _ _ _ H) as (backed & Hb & _ & Hs & _).
  unfold createBackup, backupExists in Hb. rewrite Hplace in Hb.
  assert (Hnone : existsb (fun entry => bool_decide (entryName entry = name))
                    (source disk) = false).
  { clear -Hfree. induction Hfree as [|entry rest Hne _ IH]; [reflexivity|].
    cbn [existsb]. rewrite IH. now rewrite bool_decide_eq_false_2. }
  rewrite Hnone in Hb.
  destruct (copyDirectory copyOther (source disk)) as [copied|] eqn:Ec;
    [|discriminate].
  injection Hb as <-. cbn [source] in Hs.
  exists copied. split; [reflexivity|]. split.
  - rewrite Hs, List.map_app. cbn [List.map rewritten]. now rewrite Hwalked.
  - intros dir p c Hin.
    pose proof (copyDirectory_replaceable _ _ Ec dir p c Hin) as Hcopied.
    clear -Hcopied. induction copied as [|entry rest IH]; [contradiction|].
    cbn [flat_map List.map] in *. apply in_app_or in Hcopied.
    apply in_or_app. destruct Hcopied as [Hc|Hc]; [left|right; now apply IH].
    now apply rewritten_regular.
Qed.

(** X16. Nothing to replace.  When the mapping document holds no entry
    that passes the test of the loader, a fresh replacer comes back
    from [replaceTexts] without an exception and has done nothing: no
    backup is made, no file is read or written and no report is
    written. *)
Theorem replaceTexts_without_valid_entry this mappingData disk :
  replacements this = [] ->
  (forall original translated,
      In (original, translated) mappingData ->
      valid original translated = false) ->
  exists this',
    replaceTexts copyOther this (Parsed mappingData) disk
    = Some (this', disk, None)
    /\ replacements this' = []
    /\ reportData this' = reportData this.
Proof.
  intros Hfresh Hnone. unfold replaceTexts, loadTranslationMapping, loadEntries.
  pose proof (loadEntries_In mappingData (replacements this) 0) as HIn.
  destruct (fold_left _ mappingData (replacements this, 0)) as [m n].
  cbn [fst snd replacements] in *.
  assert (Hm : m = []).
  { destruct m as [|[k v] m']; [reflexivity|]. exfalso.
    destruct (HIn k v (or_introl eq_refl))
      as [H|(o & t & Hin & Hv & _)].
    - rewrite Hfresh in H. contradiction.
    - rewrite (Hnone _ _ Hin) in Hv. discriminate. }
  subst m. cbn [length Nat.eqb]. eexists. split; [reflexivity|].
  split; reflexivity.
Qed.

End ReplacerRun.

Section ReplacerRunExamples.
Import TextReplacer.

Lemma replaceTexts_backs_up_witness :
  exists this' disk' report,
    replaceTexts (fun _ => None)
      (Sample.replacer [])
      (Parsed [(js "Save", Str (js "Sichern"))])
      {| source := [File (js "App.vue") (Some (js "Save or Save"))];
         backup := Outside None |}
    = Some (this', disk', Some report)
    /\ source disk'
       = [File (js "App.vue") (Some (js "Sichern or Sichern"))]
    /\ backup disk'
       = Outside (Some [File (js "App.vue") (Some (js "Save or Save"))]).
Proof.
  eexists _, _, _. split; [vm_compute; reflexivity|].
  pose proof (replaceTexts_backs_up (fun _ => None) (Sample.replacer [])
                (Parsed [(js "Save", Str (js "Sichern"))])
                {| source := [File (js "App.vue") (Some (js "Save or Save"))];
                   backup := Outside None |}
                _ _ _ None ltac:(vm_compute; reflexivity) eq_refl)
    as (_ & _ & Hs & _).
  split; [rewrite Hs|]; vm_compute; reflexivity.
Defined.

Lemma replaceTexts_rewrites_inner_backup_witness :
  exists this' disk' report,
    replaceTexts (fun _ => None)
      (Sample.replacer [])
      (Parsed [(js "Save", Str (js "Sichern"))])
      {| source := [File (js "App.vue") (Some (js "Save or Save"))];
         backup := Inside (js ".-backup") 0 |}
    = Some (this', disk', Some report)
    /\ source disk'
       = [Directory (js ".-backup")
            [File (js "App.vue") (Some (js "Sichern or Sichern"))];
          File (js "App.vue") (Some (js "Sichern or Sichern"))].
Proof.
  eexists _, _, _. split; [vm_compute; reflexivity|].
  destruct (replaceTexts_rewrites_inner_backup (fun _ => None)
              (Sample.replacer [])
              (Parsed [(js "Save", Str (js "Sichern"))])
              {| source := [File (js "App.vue") (Some (js "Save or Save"))];
                 backup := Inside (js ".-backup") 0 |}
              _ _ _ (js ".-backup") 0
              ltac:(vm_compute; reflexivity) eq_refl
              ltac:(repeat constructor; discriminate)
              ltac:(vm_compute; reflexivity))
    as (copied & Hc & Hs & _).
  vm_compute in Hc. injection Hc as <-. rewrite Hs. vm_compute. reflexivity.
Defined.

Lemma replaceTexts_without_valid_entry_witness :
  exists this',
    replaceTexts (fun _ => None) (Sample.replacer [])
      (Parsed [(js "Save", Str (js "Save")); (js "Cancel", NotString true)])
      {| source := [File (js "App.vue") (Some (js "Save or Save"))];
         backup := Outside None |}
    = Some (this',
            {| source := [File (js "App.vue") (Some (js "Save or Save"))];
               backup := Outside None |},
            None)
    /\ replacements this' = []
    /\ reportData this' = reportData (Sample.replacer []).
Proof.
  apply (replaceTexts_without_valid_entry (fun _ => None) (Sample.replacer [])
           [(js "Save", Str (js "Save")); (js "Cancel", NotString true)]).
  - reflexivity.
  - intros original translated [E|[E|[]]]; injection E as <- <-; reflexivity.
Defined.

End ReplacerRunExamples.

(* ================================================================== *)
(** * The walks of the extractors *)
(* ================================================================== *)

Section ExtractorWalks.

Lemma comes_from_app_l paths more entry :
  comes_from paths entry -> comes_from (paths ++ more) entry.
Proof. intros (p & E & H). exists p. split; [exact E|]. apply in_or_app. now left. Qed.

Lemma comes_from_app_r paths more entry :
  comes_from more entry -> comes_from (paths ++ more) entry.
Proof. intros (p & E & H). exists p. split; [exact E|]. apply in_or_app. now right. Qed.

(** What a step of a walk has done: the files it has passed to the
    processing, the bounds of the counter, and the texts it has added,
    each for one of these files. *)
Lemma te_addText_adds this text filePath context :
  TextExtractor.visited (TextExtractor.addText this text filePath context)
  = TextExtractor.visited this
  /\ TextExtractor.processedFiles
       (TextExtractor.addText this text filePath context)
     = TextExtractor.processedFiles this
  /\ exists added,
      TextExtractor.extractedTexts
        (TextExtractor.addText this text filePath context)
      = TextExtractor.extractedTexts this ++ added
      /\ Forall (comes_from [filePath]) added.
Proof.
  unfold TextExtractor.addText.
  destruct (truthy text);
    [destruct (truthy (trim text))|]; cbn;
    (split; [reflexivity|]); (split; [reflexivity|]).
  - eexists. split; [reflexivity|]. constructor; [|constructor].
    exists filePath. split; [reflexivity|now left].
  - exists []. split; [now rewrite app_nil_r|constructor].
  - exists []. split; [now rewrite app_nil_r|constructor].
Qed.

Lemma te_processFile_adds harvest this filePath content :
  let this' := TextExtractor.processFile harvest this filePath content in
  TextExtractor.visited this' = TextExtractor.visited this ++ [filePath]
  /\ TextExtractor.processedFiles this <= TextExtractor.processedFiles this'
     <= S (TextExtractor.processedFiles this)
  /\ (content <> None ->
      TextExtractor.processedFiles this'
      = S (TextExtractor.processedFiles this))
  /\ exists added,
      TextExtractor.extractedTexts this'
      = TextExtractor.extractedTexts this ++ added
      /\ Forall (comes_from [filePath]) added.
Proof.
  cbn zeta. unfold TextExtractor.processFile.
  destruct content as [content|]; cbn [TextExtractor.visited
    TextExtractor.processedFiles TextExtractor.extractedTexts].
  2:{ split; [reflexivity|]. split; [lia|]. split; [congruence|].
      exists []. split; [now rewrite app_nil_r|constructor]. }
  set (b := JsArray.includes sourceExtensions _). clearbody b.
  set (this0 := TextExtractor.Build_t _ _ _).
  assert (H0 : TextExtractor.visited this0
               = TextExtractor.visited this ++ [filePath]
               /\ TextExtractor.processedFiles this0
                  = S (TextExtractor.processedFiles this)
               /\ exists added,
                   TextExtractor.extractedTexts this0
                   = TextExtractor.extractedTexts this ++ added
                   /\ Forall (comes_from [filePath]) added).
  { split; [reflexivity|]. split; [reflexivity|].
    exists []. split; [now rewrite app_nil_r|constructor]. }
  assert (G : forall calls this1,
             (TextExtractor.visited this1
              = TextExtractor.visited this ++ [filePath]
              /\ TextExtractor.processedFiles this1
                 = S (TextExtractor.processedFiles this)
              /\ exists added,
                  TextExtractor.extractedTexts this1
                  = TextExtractor.extractedTexts this ++ added
                  /\ Forall (comes_from [filePath]) added) ->
             let this2 :=
               fold_left
                 (fun (this : TextExtractor.t) (tc : jsstring * jsstring) =>
                    TextExtractor.addText this (fst tc) filePath (snd tc))
                 calls this1 in
             TextExtractor.visited this2
             = TextExtractor.visited this ++ [filePath]
             /\ TextExtractor.processedFiles this2
                = S (TextExtractor.processedFiles this)
             /\ exists added,
                 TextExtractor.extractedTexts this2
                 = TextExtractor.extractedTexts this ++ added
                 /\ Forall (comes_from [filePath]) added).
  { clear. induction calls as [|c calls IH]; intros this1 H1; cbn zeta.
    - exact H1.
    - cbn [fold_left]. apply IH.
      destruct H1 as (Hv & Hp & added & He & Hf).
      destruct (te_addText_adds this1 (fst c) filePath (snd c))
        as (Hv' & Hp' & added' & He' & Hf').
      rewrite Hv', Hp', He', He. split; [exact Hv|]. split; [exact Hp|].
      exists (added ++ added'). split; [now rewrite app_assoc|].
      apply Forall_app. now split. }
  assert (Hend : forall this2,
             (TextExtractor.visited this2
              = TextExtractor.visited this ++ [filePath]
              /\ TextExtractor.processedFiles this2
                 = S (TextExtractor.processedFiles this)
              /\ exists added,
                  TextExtractor.extractedTexts this2
                  = TextExtractor.extractedTexts this ++ added
                  /\ Forall (comes_from [filePath]) added) ->
             TextExtractor.visited this2
             = TextExtractor.visited this ++ [filePath]
             /\ TextExtractor.processedFiles this
                <= TextExtractor.processedFiles this2
                <= S (TextExtractor.processedFiles this)
             /\ (Some content <> None ->
                 TextExtractor.processedFiles this2
                 = S (TextExtractor.processedFiles this))
             /\ exists added,
                 TextExtractor.extractedTexts this2
                 = TextExtractor.extractedTexts this ++ added
                 /\ Forall (comes_from [filePath]) added).
  { intros this2 (Hv & Hp & Ha). split; [exact Hv|]. split; [lia|].
    split; [intros _; exact Hp|exact Ha]. }
  destruct b; apply Hend; [apply G|]; exact H0.
Qed.

Lemma walked_nil this : walked [] this this.
Proof.
  split; [now rewrite app_nil_r|]. split; [simpl; lia|].
  exists []. split; [now rewrite app_nil_r|constructor].
Qed.

Lemma walked_app s1 s2 a b c :
  walked s1 a b -> walked s2 b c -> walked (s1 ++ s2) a c.
Proof.
  intros (Hv & Hp & m1 & He & Hf) (Hv' & Hp' & m2 & He' & Hf').
  split; [now rewrite Hv', Hv, app_assoc|].
  split; [rewrite length_app; lia|].
  exists (m1 ++ m2). split; [now rewrite He', He, app_assoc|].
  apply Forall_app. split.
  - revert Hf. apply List.Forall_impl. intros t. apply comes_from_app_l.
  - revert Hf'. apply List.Forall_impl. intros t. apply comes_from_app_r.
Qed.

Lemma te_processFile_walked harvest this filePath content :
  walked [filePath] this (TextExtractor.processFile harvest this filePath content).
Proof.
  destruct (te_processFile_adds harvest this filePath content)
    as (Hv & Hp & _ & Ha).
  split; [exact Hv|]. split; [simpl; lia|exact Ha].
Qed.

Lemma te_scanEntry_walked harvest :
  forall entry dir this,
    exists seen,
      walked seen this (fst (TextExtractor.scanEntry harvest dir this entry))
      /\ sublist seen (eligible dir entry)
      /\ (config_free entry = true ->
          seen = eligible dir entry
          /\ snd (TextExtractor.scanEntry harvest dir this entry) = false).
Proof.
  fix IH 1. intros [name content|name sub|name] dir this.
  - cbn [TextExtractor.scanEntry eligible config_free]. unfold wanted.
    set (a := JsArray.includes skipFiles (Path.toLowerCase name)).
    set (b := JsArray.includes sourceExtensions
                (Path.toLowerCase (Path.extname name))).
    clearbody a b. destruct a, b; cbn [negb andb fst snd].
    + exists []. split; [apply walked_nil|]. split; [constructor|discriminate].
    + exists []. split; [apply walked_nil|]. split; [constructor|discriminate].
    + exists [Path.join dir name].
      split; [apply te_processFile_walked|]. split; [reflexivity|now split].
    + exists []. split; [apply walked_nil|]. split; [constructor|now split].
  - cbn [TextExtractor.scanEntry eligible config_free].
    set (a := JsArray.includes excludedDirectories name). clearbody a.
    destruct a; cbn [fst snd orb].
    + exists []. split; [apply walked_nil|]. split; [constructor|now split].
    + generalize (Path.join dir name) as d. intros d.
      assert (Hloop : forall this0,
                 exists seen,
                   walked seen this0
                     (forEntries (TextExtractor.scanEntry harvest d) this0 sub)
                   /\ sublist seen (flat_map (eligible d) sub)
                   /\ (forallb config_free sub = true ->
                       seen = flat_map (eligible d) sub)).
      { induction sub as [|entry rest IHsub]; intros this0.
        - exists []. split; [apply walked_nil|]. split; [constructor|auto].
        - cbn [forEntries flat_map forallb].
          destruct (IH entry d this0) as (s1 & Hw1 & Hs1 & Hc1).
          destruct (TextExtractor.scanEntry harvest d this0 entry)
            as [this1 returned].
          cbn [fst snd] in *. destruct returned.
          + exists s1. split; [|split].
            * rewrite <- (app_nil_r s1). eapply walked_app; [exact Hw1|].
              apply walked_nil.
            * now apply sublist_inserts_r.
            * intros Hall. apply andb_prop in Hall. destruct Hall as [H1 _].
              destruct (Hc1 H1) as [_ Hfalse]. discriminate.
          + destruct (IHsub this1) as (s2 & Hw2 & Hs2 & Hc2).
            exists (s1 ++ s2). split; [|split].
            * eapply walked_app; eassumption.
            * now apply sublist_app.
            * intros Hall. apply andb_prop in Hall. destruct Hall as [H1 H2].
              destruct (Hc1 H1) as [-> _]. now rewrite (Hc2 H2). }
      destruct (Hloop this) as (seen & Hw & Hs & Hc).
      exists seen. split; [exact Hw|]. split; [exact Hs|].
      intros Hall. split; [now apply Hc|reflexivity].
  - exists []. split; [apply walked_nil|]. split; [constructor|now split].
Qed.

(** X17. The walk of [extract-text.js].  The files [scanDirectory]
    passes to [processFile] are a sublist of the eligible files of the
    tree, in the order of the listings; every text it adds records one of
    the files it has passed, and [processedFiles] grows by no more than
    their number.  When no configuration file lies where the walk comes by, it
    passes every eligible file. *)
Theorem scanDirectory_visits_eligible harvest entries dir this :
  exists seen,
    walked seen this (TextExtractor.scanDirectory harvest this dir entries)
    /\ sublist seen (flat_map (eligible dir) entries)
    /\ (forallb config_free entries = true ->
        seen = flat_map (eligible dir) entries).
Proof.
  unfold TextExtractor.scanDirectory. revert this.
  induction entries as [|entry rest IHsub]; intros this.
  - exists []. split; [apply walked_nil|]. split; [constructor|auto].
  - cbn [forEntries flat_map forallb].
    destruct (te_scanEntry_walked harvest entry dir this)
      as (s1 & Hw1 & Hs1 & Hc1).
    destruct (TextExtractor.scanEntry harvest dir this entry)
      as [this1 returned].
    cbn [fst snd] in *. destruct returned.
    + exists s1. split; [|split].
      * rewrite <- (app_nil_r s1). eapply walked_app; [exact Hw1|].
        apply walked_nil.
      * now apply sublist_inserts_r.
      * intros Hall. apply andb_prop in Hall. destruct Hall as [H1 _].
        destruct (Hc1 H1) as [_ Hfalse]. discriminate.
    + destruct (IHsub this1) as (s2 & Hw2 & Hs2 & Hc2).
      exists (s1 ++ s2). split; [|split].
      * eapply walked_app; eassumption.
      * now apply sublist_app.
      * intros Hall. apply andb_prop in Hall. destruct Hall as [H1 H2].
        destruct (Hc1 H1) as [-> _]. now rewrite (Hc2 H2).
Qed.

Lemma sfc_walked_nil this : sfc_walked [] this this.
Proof.
  split; [now rewrite app_nil_r|]. split; [simpl; lia|].
  exists []. split; [now rewrite app_nil_r|constructor].
Qed.

Lemma sfc_walked_app s1 s2 a b c :
  sfc_walked s1 a b -> sfc_walked s2 b c -> sfc_walked (s1 ++ s2) a c.
Proof.
  intros (Hv & Hp & m1 & He & Hf) (Hv' & Hp' & m2 & He' & Hf').
  split; [now rewrite Hv', Hv, app_assoc|].
  split; [rewrite length_app; lia|].
  exists (m1 ++ m2). split; [now rewrite He', He, app_assoc|].
  apply Forall_app. split.
  - revert Hf. apply List.Forall_impl. intros t. apply comes_from_app_l.
  - revert Hf'. apply List.Forall_impl. intros t. apply comes_from_app_r.
Qed.

Lemma sfc_addText_adds this text filePath context :
  VueSFCExtractor.visited (VueSFCExtractor.addText this text filePath context)
  = VueSFCExtractor.visited this
  /\ VueSFCExtractor.processedFiles
       (VueSFCExtractor.addText this text filePath context)
     = VueSFCExtractor.processedFiles this
  /\ exists added,
      VueSFCExtractor.extractedTexts
        (VueSFCExtractor.addText this text filePath context)
      = VueSFCExtractor.extractedTexts this ++ added
      /\ Forall (comes_from [filePath]) added.
Proof.
  unfold VueSFCExtractor.addText.
  destruct (truthy text);
    [destruct (truthy (trim text))|]; cbn;
    (split; [reflexivity|]); (split; [reflexivity|]).
  - eexists. split; [reflexivity|]. constructor; [|constructor].
    exists filePath. split; [reflexivity|now left].
  - exists []. split; [now rewrite app_nil_r|constructor].
  - exists []. split; [now rewrite app_nil_r|constructor].
Qed.

Lemma sfc_processSourceFile_walked harvest this ext filePath content :
  sfc_walked [filePath] this
    (VueSFCExtractor.processSourceFile harvest this ext filePath content).
Proof.
  unfold VueSFCExtractor.processSourceFile.
  destruct content as [content|].
  2:{ split; [reflexivity|]. split; [simpl; lia|].
      exists []. split; [now rewrite app_nil_r|constructor]. }
  destruct (harvest ext content) as [calls completed].
  assert (G : forall calls this1,
             (VueSFCExtractor.visited this1
              = VueSFCExtractor.visited this ++ [filePath]
              /\ VueSFCExtractor.processedFiles this1
                 = VueSFCExtractor.processedFiles this
              /\ exists added,
                  VueSFCExtractor.extractedTexts this1
                  = VueSFCExtractor.extractedTexts this ++ added
                  /\ Forall (comes_from [filePath]) added) ->
             let this2 :=
               fold_left
                 (fun (this : VueSFCExtractor.t) (tc : jsstring * jsstring) =>
                    VueSFCExtractor.addText this (fst tc) filePath (snd tc))
                 calls this1 in
             VueSFCExtractor.visited this2
             = VueSFCExtractor.visited this ++ [filePath]
             /\ VueSFCExtractor.processedFiles this2
                = VueSFCExtractor.processedFiles this
             /\ exists added,
                 VueSFCExtractor.extractedTexts this2
                 = VueSFCExtractor.extractedTexts this ++ added
                 /\ Forall (comes_from [filePath]) added).
  { clear. induction calls as [|c calls IH]; intros this1 H1; cbn zeta.
    - exact H1.
    - cbn [fold_left]. apply IH.
      destruct H1 as (Hv & Hp & added & He & Hf).
      destruct (sfc_addText_adds this1 (fst c) filePath (snd c))
        as (Hv' & Hp' & added' & He' & Hf').
      rewrite Hv', Hp', He', He. split; [exact Hv|]. split; [exact Hp|].
      exists (added ++ added'). split; [now rewrite app_assoc|].
      apply Forall_app. now split. }
  destruct (G calls
              (VueSFCExtractor.Build_t (VueSFCExtractor.extractedTexts this)
                 (VueSFCExtractor.processedFiles this)
                 (VueSFCExtractor.visited this ++ [filePath])))
    as (Hv & Hp & Ha).
  { split; [reflexivity|]. split; [reflexivity|].
    exists []. split; [now rewrite app_nil_r|constructor]. }
  destruct completed;
    (split; [exact Hv|]); (split; [cbn; lia|exact Ha]).
Qed.

Lemma sfc_scanEntry_walked harvest :
  forall entry dir this,
    sfc_walked (eligible dir entry) this
      (fst (VueSFCExtractor.scanEntry harvest dir this entry))
    /\ snd (VueSFCExtractor.scanEntry harvest dir this entry) = false.
Proof.
  fix IH 1. intros [name content|name sub|name] dir this.
  - cbn [VueSFCExtractor.scanEntry eligible]. unfold wanted.
    rewrite sourceExtensions_cases.
    set (a := JsArray.includes skipFiles (Path.toLowerCase name)).
    set (b := bool_decide (Path.toLowerCase (Path.extname name) = js ".vue")).
    set (c := JsArray.includes scriptExtensions
                (Path.toLowerCase (Path.extname name))).
    clearbody a b c.
    destruct a, b, c; cbn [negb andb orb fst snd];
      (split; [|reflexivity]);
      try apply sfc_walked_nil; apply sfc_processSourceFile_walked.
  - cbn [VueSFCExtractor.scanEntry eligible].
    set (a := JsArray.includes excludedDirectories name). clearbody a.
    destruct a; cbn [fst snd]; (split; [|reflexivity]);
      [apply sfc_walked_nil|].
    generalize (Path.join dir name) as d. intros d. revert this.
    induction sub as [|entry rest IHsub]; intros this.
    + apply sfc_walked_nil.
    + cbn [forEntries flat_map].
      destruct (IH entry d this) as [Hw Hr].
      destruct (VueSFCExtractor.scanEntry harvest d this entry)
        as [this1 returned].
      cbn [fst snd] in *. subst returned.
      eapply sfc_walked_app; [exact Hw|apply IHsub].
  - cbn [VueSFCExtractor.scanEntry eligible fst snd].
    split; [apply sfc_walked_nil|reflexivity].
Qed.

(** X18. The walk of the Vue SFC extractor.  [scanDirectory] passes
    every eligible file of the tree to the processing, in the order of
    the listings, and no other file; every text it adds records one of
    these files, and [processedFiles] grows by no more than their
    number. *)
Theorem sfc_scanDirectory_visits_eligible harvest entries dir this :
  sfc_walked (flat_map (eligible dir) entries) this
    (VueSFCExtractor.scanDirectory harvest this dir entries).
Proof.
  unfold VueSFCExtractor.scanDirectory. revert this.
  induction entries as [|entry rest IHsub]; intros this.
  - apply sfc_walked_nil.
  - cbn [forEntries flat_map].
    destruct (sfc_scanEntry_walked harvest entry dir this) as [Hw Hr].
    destruct (VueSFCExtractor.scanEntry harvest dir this entry)
      as [this1 returned].
    cbn [fst snd] in *. subst returned.
    eapply sfc_walked_app; [exact Hw|apply IHsub].
Qed.

End ExtractorWalks.

(* ================================================================== *)
(** * The merge of duplicates *)
(* ================================================================== *)

Section DedupeFacts.

Lemma array_includes_In {A : Type} `{EqDecision A} (a : list A) (x : A) :
  JsArray.includes a x = true <-> In x a.
Proof.
  unfold JsArray.includes. rewrite existsb_exists. split.
  - intros (y & Hy & E). apply bool_decide_eq_true in E. now subst.
  - intros H. exists x. split; [exact H|]. now apply bool_decide_eq_true.
Qed.

Lemma references_addFile u item :
  references (TextExtractor.addFile u item)
  = if JsArray.includes (references u) (Text.file item) then references u
    else references u ++ [Text.file item].
Proof.
  unfold TextExtractor.addFile, references.
  destruct (Text.files u) as [fs|] eqn:E.
  - rewrite E. destruct (JsArray.includes fs (Text.file item)); cbn;
      [now rewrite E|reflexivity].
  - cbn [Text.files].
    destruct (JsArray.includes [Text.file u] (Text.file item)); reflexivity.
Qed.

Lemma references_addFile_In u item r :
  In r (references (TextExtractor.addFile u item))
  <-> In r (references u) \/ r = Text.file item.
Proof.
  rewrite references_addFile.
  destruct (JsArray.includes (references u) (Text.file item)) eqn:E.
  - apply array_includes_In in E. split; [now left|].
    intros [H| ->]; assumption.
  - rewrite in_app_iff. simpl. split.
    + intros [H|[<-|[]]]; [now left|now right].
    + intros [H| ->]; [now left|right; now left].
Qed.

(** The update finds the first entry with the text of the item and adds
    the file of the item to it. *)
Lemma sfc_mergeInto_spec unique item :
  In (Text.text item) (List.map Text.text unique) ->
  exists pre u post,
    unique = pre ++ u :: post
    /\ Text.text u = Text.text item
    /\ VueSFCExtractor.mergeInto unique item
       = pre ++ TextExtractor.addFile u item :: post.
Proof.
  induction unique as [|x rest IH]; intros Hin; [contradiction|].
  cbn [VueSFCExtractor.mergeInto].
  destruct (bool_decide (Text.text x = Text.text item)) eqn:E.
  - apply bool_decide_eq_true in E. exists [], x, rest. now repeat split.
  - apply bool_decide_eq_false in E. destruct Hin as [H|H]; [contradiction|].
    destruct (IH H) as (pre & u & post & -> & Hu & Hm).
    exists (x :: pre), u, post. rewrite Hm. now repeat split.
Qed.

Section Loop.

(** The key of an item, the update of the entry of its key, and what
    the items are assumed to satisfy. *)
Variable key : Text.t -> jsstring.
Variable merge : list Text.t -> Text.t -> list Text.t.
Variable good : Text.t -> Prop.

Hypothesis key_addFile :
  forall u item, key (TextExtractor.addFile u item) = key u.
Hypothesis good_addFile :
  forall u item, good u -> good (TextExtractor.addFile u item).
Hypothesis merge_spec :
  forall unique item,
    Forall good unique -> good item ->
    In (key item) (List.map key unique) ->
    exists pre u post,
      unique = pre ++ u :: post
      /\ key u = key item
      /\ merge unique item = pre ++ TextExtractor.addFile u item :: post.

(** The state of the loop of [removeDuplicates]: the keys seen are the
    keys of the entries, each once; every item passed has an entry with
    its key that refers to its file; every reference of an entry is the
    file of an item passed with the key of the entry. *)
Lemma dedupe_loop items :
  forall processed seen unique,
    Forall (fun t => Text.files t = None) items ->
    Forall good items -> Forall good unique ->
    seen = List.map key unique ->
    List.NoDup seen ->
    (forall item, In item processed ->
       exists u, In u unique /\ key u = key item
                 /\ In (Text.file item) (references u)) ->
    (forall u r, In u unique -> In r (references u) ->
       exists item, In item processed /\ key item = key u
                    /\ Text.file item = r) ->
    length unique <= length processed ->
    let out :=
      snd (fold_left
             (fun (acc : list jsstring * list Text.t) (item : Text.t) =>
                let (seen, unique) := acc in
                if JsArray.includes seen (key item)
                then (seen, merge unique item)
                else (seen ++ [key item], unique ++ [item]))
             items (seen, unique)) in
    List.NoDup (List.map key out)
    /\ Forall good out
    /\ (forall item, In item (processed ++ items) ->
          exists u, In u out /\ key u = key item
                    /\ In (Text.file item) (references u))
    /\ (forall u r, In u out -> In r (references u) ->
          exists item, In item (processed ++ items)
                       /\ key item = key u
                       /\ Text.file item = r)
    /\ length out <= length (processed ++ items).
Proof.
  induction items as [|item rest IH];
    intros processed seen unique Hnone Hgood Hgu Hseen Hnd Hcov Hsound Hlen;
    cbn zeta.
  - cbn [fold_left snd]. rewrite app_nil_r. subst seen. now repeat split.
  - cbn [fold_left]. inversion Hnone as [|? ? Hitem Hrest]; subst.
    inversion Hgood as [|? ? Hgi Hgrest]; subst.
    replace (processed ++ item :: rest) with ((processed ++ [item]) ++ rest)
      by now rewrite <- app_assoc.
    destruct (JsArray.includes (List.map key unique) (key item)) eqn:E.
    + apply array_includes_In in E.
      destruct (merge_spec unique item Hgu Hgi E)
        as (pre & u & post & -> & Hu & Hm).
      rewrite Hm. apply IH; try assumption.
      * apply Forall_app in Hgu. destruct Hgu as [Hpre Hpost].
        inversion Hpost as [|? ? Hgu0 Hpost']; subst.
        apply Forall_app. split; [exact Hpre|].
        constructor; [now apply good_addFile|exact Hpost'].
      * rewrite !map_app. cbn [List.map].
        now rewrite key_addFile.
      * intros it Hit. apply in_app_or in Hit. destruct Hit as [Hit|[<-|[]]].
        -- destruct (Hcov it Hit) as (u' & Hu' & Et & Er).
           apply in_app_or in Hu'. destruct Hu' as [Hu'|[<-|Hu']].
           ++ exists u'. split; [apply in_or_app; now left|now split].
           ++ exists (TextExtractor.addFile u item).
              split; [apply in_or_app; right; now left|].
              rewrite key_addFile. split; [exact Et|].
              apply references_addFile_In. now left.
           ++ exists u'. split; [apply in_or_app; right; now right|now split].
        -- exists (TextExtractor.addFile u item).
           split; [apply in_or_app; right; now left|].
           rewrite key_addFile. split; [exact Hu|].
           apply references_addFile_In. now right.
      * intros u' r Hu' Hr. apply in_app_or in Hu'.
        destruct Hu' as [Hu'|[<-|Hu']].
        -- destruct (Hsound u' r) as (it & Hit & Et & Ef);
             [apply in_or_app; now left|exact Hr|].
           exists it. split; [apply in_or_app; now left|now split].
        -- rewrite key_addFile.
           apply references_addFile_In in Hr. destruct Hr as [Hr| ->].
           ++ destruct (Hsound u r) as (it & Hit & Et & Ef);
                [apply in_or_app; right; now left|exact Hr|].
              exists it. split; [apply in_or_app; now left|now split].
           ++ exists item. split; [apply in_or_app; right; now left|].
              now split.
        -- destruct (Hsound u' r) as (it & Hit & Et & Ef);
             [apply in_or_app; right; now right|exact Hr|].
           exists it. split; [apply in_or_app; now left|now split].
      * rewrite !length_app in *. cbn [length] in *. lia.
    + assert (Hnew : ~ In (key item) (List.map key unique)).
      { intros H. apply array_includes_In in H. congruence. }
      apply IH; try assumption.
      * apply Forall_app. split; [exact Hgu|now constructor].
      * now rewrite map_app.
      * apply List.NoDup_app; [exact Hnd|repeat constructor; simpl; tauto|].
        intros x Hx [<-|[]]. contradiction.
      * intros it Hit. apply in_app_or in Hit. destruct Hit as [Hit|[<-|[]]].
        -- destruct (Hcov it Hit) as (u' & Hu' & Et & Er).
           exists u'. split; [apply in_or_app; now left|now split].
        -- exists item. split; [apply in_or_app; right; now left|].
           split; [reflexivity|]. unfold references. rewrite Hitem. now left.
      * intros u' r Hu' Hr. apply in_app_or in Hu'.
        destruct Hu' as [Hu'|[<-|[]]].
        -- destruct (Hsound u' r Hu' Hr) as (it & Hit & Et & Ef).
           exists it. split; [apply in_or_app; now left|now split].
        -- unfold references in Hr. rewrite Hitem in Hr.
           destruct Hr as [<-|[]].
           exists item. split; [apply in_or_app; right; now left|now split].
      * rewrite !length_app. cbn [length]. lia.
Qed.

End Loop.

Lemma addFile_context existing item :
  Text.context (TextExtractor.addFile existing item) = Text.context existing.
Proof.
  unfold TextExtractor.addFile. destruct (Text.files existing) as [fs|] eqn:E.
  - rewrite E. now destruct (JsArray.includes fs (Text.file item)).
  - cbn [Text.files].
    now destruct (JsArray.includes [Text.file existing] (Text.file item)).
Qed.

Lemma text_context_key_inj a b :
  ~ In 58%N (Text.context a) -> ~ In 58%N (Text.context b) ->
  Text.text a ++ js ":" ++ Text.context a
  = Text.text b ++ js ":" ++ Text.context b ->
  Text.text a = Text.text b /\ Text.context a = Text.context b.
Proof. intros Ha Hb E. exact (app_sep_last_inj 58%N _ _ _ _ Ha Hb E). Qed.

Lemma mergeInto_spec unique item :
  Forall (fun t => ~ In 58%N (Text.context t)) unique ->
  ~ In 58%N (Text.context item) ->
  In (Text.text item ++ js ":" ++ Text.context item)
     (List.map (fun t => Text.text t ++ js ":" ++ Text.context t) unique) ->
  exists pre u post,
    unique = pre ++ u :: post
    /\ Text.text u ++ js ":" ++ Text.context u
       = Text.text item ++ js ":" ++ Text.context item
    /\ TextExtractor.mergeInto unique item
       = pre ++ TextExtractor.addFile u item :: post.
Proof.
  intros Hgood Hitem.
  induction unique as [|x rest IH]; intros Hin; [contradiction|].
  inversion Hgood as [|? ? Hx Hrest]; subst.
  cbn [TextExtractor.mergeInto].
  destruct (bool_decide (Text.text x = Text.text item
                         /\ Text.context x = Text.context item)) eqn:E.
  - apply bool_decide_eq_true in E. destruct E as [E1 E2].
    exists [], x, rest. rewrite E1, E2. now repeat split.
  - apply bool_decide_eq_false in E. destruct Hin as [H|H].
    + exfalso. apply E. now apply text_context_key_inj.
    + destruct (IH Hrest H) as (pre & u & post & -> & Hu & Hm).
      exists (x :: pre), u, post. rewrite Hm. now repeat split.
Qed.

(** X19. The merge of duplicates by the Vue SFC extractor.  Of texts
    that carry one file each, as [addText] makes them, [removeDuplicates]
    returns one entry for every text: no two entries have the same text,
    every text extracted has its entry, which refers to the file of each
    of its occurrences, and an entry refers to no other file. *)
Theorem sfc_removeDuplicates_merges localeCompare this :
  Forall (fun t => Text.files t = None) (VueSFCExtractor.extractedTexts this) ->
  let out := VueSFCExtractor.removeDuplicates localeCompare this in
  List.NoDup (List.map Text.text out)
  /\ (forall item,
        In item (VueSFCExtractor.extractedTexts this) ->
        exists u,
          In u out /\ Text.text u = Text.text item
          /\ In (Text.file item) (references u))
  /\ (forall u r,
        In u out -> In r (references u) ->
        exists item,
          In item (VueSFCExtractor.extractedTexts this)
          /\ Text.text item = Text.text u /\ Text.file item = r)
  /\ length out <= length (VueSFCExtractor.extractedTexts this).
Proof.
  intros Hnone. cbn zeta. unfold VueSFCExtractor.removeDuplicates.
  set (f := fun a b : Text.t => localeCompare (Text.text a) (Text.text b)).
  pose proof (sort_Permutation f
                (snd (VueSFCExtractor.dedupe
                        (VueSFCExtractor.extractedTexts this)))) as Hperm.
  destruct (dedupe_loop Text.text VueSFCExtractor.mergeInto (fun _ => True)
              addFile_text (fun _ _ _ => I)
              (fun unique item _ _ => sfc_mergeInto_spec unique item)
              (VueSFCExtractor.extractedTexts this) [] [] [])
    as (Hnd & _ & Hcov & Hsound & Hlen);
    [exact Hnone
    |apply Forall_forall; auto
    |constructor
    |reflexivity
    |constructor
    |intros ? []
    |intros ? ? []
    |simpl; lia|].
  change (snd (fold_left _ (VueSFCExtractor.extractedTexts this) ([], [])))
    with (snd (VueSFCExtractor.dedupe (VueSFCExtractor.extractedTexts this)))
    in Hnd, Hcov, Hsound, Hlen.
  cbn [app] in *.
  set (unique := snd (VueSFCExtractor.dedupe _)) in *.
  split; [|split; [|split]].
  - eapply Permutation_NoDup; [apply Permutation_map; exact Hperm|exact Hnd].
  - intros item Hin. destruct (Hcov item Hin) as (u & Hu & Et & Er).
    exists u. split; [eapply Permutation_in; eassumption|now split].
  - intros u r Hu Hr. apply (Hsound u r); [|exact Hr].
    eapply Permutation_in; [symmetry; exact Hperm|exact Hu].
  - rewrite <- (Permutation_length Hperm). exact Hlen.
Qed.

(** X20. The merge of duplicates by [extract-text.js].  Of texts that
    carry one file each and whose contexts have no colon, as the
    contexts the extractor gives have none, [removeDuplicates] returns
    one entry for every pair of text and context: no two entries have the
    same pair, every text extracted has the entry of its text and
    context, which refers to the file of each of its occurrences, and an
    entry refers to no other file. *)
Theorem removeDuplicates_merges localeCompare this :
  Forall (fun t => Text.files t = None) (TextExtractor.extractedTexts this) ->
  Forall (fun t => ~ In 58%N (Text.context t))
    (TextExtractor.extractedTexts this) ->
  let out := TextExtractor.removeDuplicates localeCompare this in
  List.NoDup (List.map (fun t => (Text.text t, Text.context t)) out)
  /\ (forall item,
        In item (TextExtractor.extractedTexts this) ->
        exists u,
          In u out /\ Text.text u = Text.text item
          /\ Text.context u = Text.context item
          /\ In (Text.file item) (references u))
  /\ (forall u r,
        In u out -> In r (references u) ->
        exists item,
          In item (TextExtractor.extractedTexts this)
          /\ Text.text item = Text.text u
          /\ Text.context item = Text.context u /\ Text.file item = r)
  /\ length out <= length (TextExtractor.extractedTexts this).
Proof.
  intros Hnone Hgood. cbn zeta. unfold TextExtractor.removeDuplicates.
  set (f := fun a b : Text.t => localeCompare (Text.text a) (Text.text b)).
  pose proof (sort_Permutation f
                (snd (TextExtractor.dedupe
                        (TextExtractor.extractedTexts this)))) as Hperm.
  set (key := fun t : Text.t => Text.text t ++ js ":" ++ Text.context t).
  destruct (dedupe_loop key TextExtractor.mergeInto
              (fun t => ~ In 58%N (Text.context t)))
    with (items := TextExtractor.extractedTexts this)
         (processed := @nil Text.t) (seen := @nil jsstring)
         (unique := @nil Text.t)
    as (Hnd & Hg & Hcov & Hsound & Hlen).
  - intros u item. unfold key. now rewrite addFile_text, addFile_context.
  - intros u item. now rewrite addFile_context.
  - intros unique item Hu Hi Hin. now apply mergeInto_spec.
  - exact Hnone.
  - exact Hgood.
  - constructor.
  - reflexivity.
  - constructor.
  - intros ? [].
  - intros ? ? [].
  - simpl. lia.
  - change (snd (fold_left _ (TextExtractor.extractedTexts this) ([], [])))
      with (snd (TextExtractor.dedupe (TextExtractor.extractedTexts this)))
      in Hnd, Hg, Hcov, Hsound, Hlen.
    cbn [app] in *.
    set (unique := snd (TextExtractor.dedupe _)) in *.
    assert (Hin_good : forall t, In t (TextExtractor.extractedTexts this)
                                 -> ~ In 58%N (Text.context t)).
    { apply List.Forall_forall. exact Hgood. }
    assert (Hu_good : forall t, In t unique -> ~ In 58%N (Text.context t)).
    { apply List.Forall_forall. exact Hg. }
    split; [|split; [|split]].
    + eapply Permutation_NoDup; [apply Permutation_map; exact Hperm|].
      clear - Hnd Hu_good. induction unique as [|x rest IH]; [constructor|].
      cbn [List.map] in *. inversion Hnd as [|? ? Hnot Hnd']; subst.
      constructor.
      * intros Hin. apply Hnot. apply in_map_iff in Hin.
        destruct Hin as (y & E & Hy). injection E as E1 E2.
        apply in_map_iff. exists y. split; [|exact Hy].
        unfold key. now rewrite E1, E2.
      * apply IH; [exact Hnd'|]. intros t Ht. apply Hu_good. now right.
    + intros item Hin. destruct (Hcov item Hin) as (u & Hu & Ek & Er).
      destruct (text_context_key_inj u item (Hu_good u Hu) (Hin_good item Hin) Ek)
        as [Et Ec].
      exists u. split; [eapply Permutation_in; eassumption|now repeat split].
    + intros u r Hu Hr.
      assert (Hu' : In u unique)
        by (eapply Permutation_in; [symmetry; exact Hperm|exact Hu]).
      destruct (Hsound u r Hu' Hr) as (item & Hin & Ek & Ef).
      destruct (text_context_key_inj item u (Hin_good item Hin) (Hu_good u Hu') Ek)
        as [Et Ec].
      exists item. now repeat split.
    + rewrite <- (Permutation_length Hperm). exact Hlen.
Qed.

End DedupeFacts.

Section DedupeExamples.

Lemma sfc_removeDuplicates_merges_witness :
  exists u,
    In u (VueSFCExtractor.removeDuplicates codeUnitCompare
            {| VueSFCExtractor.extractedTexts :=
                 [Text.Build (js "Save") (Some (js "A.vue")) (js "template")
                    1 None;
                  Text.Build (js "Save") (Some (js "B.vue")) (js "template")
                    1 None];
               VueSFCExtractor.processedFiles := 2;
               VueSFCExtractor.visited := [] |})
    /\ Text.text u = js "Save"
    /\ In (Some (js "B.vue")) (references u).
Proof.
  refine (proj1 (proj2
            (sfc_removeDuplicates_merges codeUnitCompare
               {| VueSFCExtractor.extractedTexts :=
                    [Text.Build (js "Save") (Some (js "A.vue")) (js "template")
                       1 None;
                     Text.Build (js "Save") (Some (js "B.vue")) (js "template")
                       1 None];
                  VueSFCExtractor.processedFiles := 2;
                  VueSFCExtractor.visited := [] |} _))
            (Text.Build (js "Save") (Some (js "B.vue")) (js "template") 1 None)
            _).
  - repeat constructor.
  - right. now left.
Defined.

Lemma removeDuplicates_merges_witness :
  exists u,
    In u (TextExtractor.removeDuplicates codeUnitCompare
            {| TextExtractor.extractedTexts :=
                 [Text.Build (js "Save") (Some (js "A.vue")) (js "template")
                    1 None;
                  Text.Build (js "Save") (Some (js "B.vue")) (js "template")
                    1 None];
               TextExtractor.processedFiles := 2;
               TextExtractor.visited := [] |})
    /\ Text.text u = js "Save"
    /\ Text.context u = js "template"
    /\ In (Some (js "B.vue")) (references u).
Proof.
  refine (proj1 (proj2
            (removeDuplicates_merges codeUnitCompare
               {| TextExtractor.extractedTexts :=
                    [Text.Build (js "Save") (Some (js "A.vue")) (js "template")
                       1 None;
                     Text.Build (js "Save") (Some (js "B.vue")) (js "template")
                       1 None];
                  TextExtractor.processedFiles := 2;
                  TextExtractor.visited := [] |} _ _))
            (Text.Build (js "Save") (Some (js "B.vue")) (js "template") 1 None)
            _).
  - repeat constructor.
  - repeat constructor; vm_compute; intuition discriminate.
  - right. now left.
Defined.

End DedupeExamples.

(* ================================================================== *)
(** * A second run *)
(* ================================================================== *)

Section SecondRun.
Import AITranslator.

Lemma loadCache_NoDup this disk :
  List.NoDup (JsMap.keys (cache this)) ->
  List.NoDup (JsMap.keys (cache (loadCache this disk))).
Proof.
  intros H. destruct disk as [| |cacheData]; simpl; [exact H|constructor|].
  destruct (version cacheData) as [v|], (cache_field cacheData) as [es|];
    simpl; try exact H.
  destruct (truthy v); simpl; [|exact H].
  revert H. generalize (cache this).
  induction es as [|[k e] es IH]; intros m H; simpl; [exact H|].
  apply IH. destruct (decide _); [|exact H].
  destruct (decide _); [now apply NoDup_set|exact H].
Qed.

Lemma storeBatch_NoDup w translations batch :
  forall this i,
    List.NoDup (JsMap.keys (cache this)) ->
    List.NoDup (JsMap.keys (cache (storeBatch w this translations i batch))).
Proof.
  induction batch as [|item rest IH]; intros this i H; simpl; [exact H|].
  apply IH. unfold record_result, setCachedTranslation. simpl.
  now apply NoDup_set.
Qed.

Lemma translateBatchIndividually_NoDup w batch :
  forall this,
    List.NoDup (JsMap.keys (cache this)) ->
    List.NoDup (JsMap.keys (cache (translateBatchIndividually w this batch))).
Proof.
  induction batch as [|text rest IH]; intros this H; simpl; [exact H|].
  unfold getCachedTranslation.
  destruct (JsMap.get (cache this) _) as [c|];
    [destruct (truthy (Entry.translated c))|];
    unfold translateSingle, callOpenAI;
    try destruct (provider w _ _);
    apply IH; simpl; try exact H; now apply NoDup_set.
Qed.

Lemma translateBatch_NoDup w this batch :
  List.NoDup (JsMap.keys (cache this)) ->
  List.NoDup (JsMap.keys (cache (translateBatch w this batch))).
Proof.
  intros H. unfold translateBatch, callOpenAI. destruct (provider w _ _).
  - now apply translateBatchIndividually_NoDup.
  - now apply storeBatch_NoDup.
Qed.

Lemma translateBatches_NoDup w batches :
  forall this,
    List.NoDup (JsMap.keys (cache this)) ->
    List.NoDup (JsMap.keys (cache (fold_left (translateBatch w) batches this))).
Proof.
  induction batches as [|b rest IH]; intros this H; simpl; [exact H|].
  apply IH. now apply translateBatch_NoDup.
Qed.

Lemma constructor_fresh env disk this :
  constructor env disk = Some this ->
  exists fresh,
    cache fresh = [] /\ this = loadCache fresh disk
    /\ sent this = [] /\ apiCalls this = 0
    /\ forall disk' this',
        constructor env disk' = Some this' ->
        exists fresh',
          cache fresh' = [] /\ this' = loadCache fresh' disk'
          /\ model fresh' = model fresh
          /\ targetLanguage fresh' = targetLanguage fresh.
Proof.
  unfold constructor. destruct (truthy _); [|discriminate].
  intros H. injection H as <-. eexists.
  split; [|split; [reflexivity|]]; [reflexivity|].
  assert (Hs : forall t d, sent (loadCache t d) = sent t
                           /\ apiCalls (loadCache t d) = apiCalls t).
  { intros t [| |cacheData]; simpl; try tauto.
    destruct (version cacheData) as [v|], (cache_field cacheData) as [es|];
      simpl; try tauto.
    destruct (truthy v); simpl; tauto. }
  split; [apply Hs|]. split; [apply Hs|].
  intros disk' this' H. injection H as <-. eexists.
  split; [|split; [reflexivity|]]; [reflexivity|]. split; reflexivity.
Qed.

(** A run whose texts all hit asks nothing. *)
Lemma all_hits_silent w this data texts disk out :
  AITranslator.texts data = Some texts ->
  (forall item, In item texts -> is_hit this item = true) ->
  translateTexts w this (Parsed data) disk = Some out ->
  sent (final out) = sent this /\ apiCalls (final out) = apiCalls this.
Proof.
  intros Htexts Hall Hrun. destruct texts as [|t0 rest].
  - unfold translateTexts in Hrun. rewrite Htexts in Hrun.
    injection Hrun as <-. now split.
  - destruct (translateTexts_run w this data (t0 :: rest) disk out Htexts
                ltac:(discriminate) Hrun) as (Ef & _).
    rewrite (filter_negb_nil (is_hit this) (t0 :: rest) Hall) in Ef.
    rewrite Ef. cbn [createBatches createBatches_from length fold_left
                     saveCache saveTranslations now snd fst sent apiCalls
                     with_clockReads].
    now rewrite processCached_sent, processCached_apiCalls.
Qed.

(** X21. A second run.  When a run has come to its end and written the
    cache file, a translator constructed in the same environment over
    that file serves every translation the first one served at its end;
    and a run of it over texts that all hit at the end of the first run
    sends no request and counts no call. *)
Theorem second_run_is_served w w' env disk data texts this out this2 :
  constructor env disk = Some this ->
  List.NoDup (JsMap.keys (stored disk)) ->
  AITranslator.texts data = Some texts ->
  texts <> [] ->
  translateTexts w this (Parsed data) disk = Some out ->
  constructor env (cacheFile out) = Some this2 ->
  (forall text context hit,
      fst (getCachedTranslation (final out) text context) = Some hit ->
      fst (getCachedTranslation this2 text context) = Some hit)
  /\ forall out2,
      (forall item, In item texts -> is_hit (final out) item = true) ->
      translateTexts w' this2 (Parsed data) (cacheFile out) = Some out2 ->
      sent (final out2) = [] /\ apiCalls (final out2) = 0.
Proof.
  intros Hc Hndd Htexts Hne Hrun Hc2.
  destruct (constructor_fresh _ _ _ Hc) as (fresh & Hempty & Hthis & _ & _ & Hsame).
  destruct (Hsame _ _ Hc2) as (fresh2 & Hempty2 & Hthis2 & Hm2 & Hl2).
  destruct (constructor_fresh _ _ _ Hc2) as (_ & _ & _ & Hs2 & Ha2 & _).
  pose proof (constructor_cache_of_run _ _ _ Hc) as Hrun0.
  assert (Hnd0 : List.NoDup (JsMap.keys (cache this))).
  { rewrite Hthis. apply loadCache_NoDup. rewrite Hempty. constructor. }
  destruct (loadCache_config fresh disk) as [Hm Hl].
  rewrite <- Hthis in Hm, Hl.
  destruct (translateTexts_run w this data texts disk out Htexts Hne Hrun)
    as (Ef & Ecf & _ & _).
  set (hits := List.filter (is_hit this) texts) in *.
  set (misses := List.filter (fun x => negb (is_hit this x)) texts) in *.
  set (this1 := with_cacheHits _ _) in *.
  set (this2' := processCached this1 hits) in *.
  set (this3 := fold_left _ _ this2') in *.
  destruct (processCached_cache hits this1) as (Ec2 & Em2 & El2).
  fold this2' in Ec2, Em2, El2.
  assert (C3 : cache_of_run this3).
  { apply translateBatches_cache_of_run. intros key entry Hin.
    rewrite Ec2 in Hin. specialize (Hrun0 key entry Hin).
    unfold of_this_run in *. rewrite Em2, El2. exact Hrun0. }
  assert (N3 : List.NoDup (JsMap.keys (cache this3))).
  { apply translateBatches_NoDup. rewrite Ec2. exact Hnd0. }
  destruct (translateBatches_touch w (createBatches misses 10) misses this2')
    as (Em3 & El3 & _ & _).
  { rewrite createBatches_concat by lia. apply incl_refl. }
  fold this3 in Em3, El3.
  assert (Hfinal : forall text context,
             fst (getCachedTranslation (final out) text context)
             = fst (getCachedTranslation this3 text context)).
  { intros text context. rewrite Ef. unfold getCachedTranslation.
    cbn [saveCache saveTranslations now snd fst cache with_clockReads].
    change (getCacheKey (with_clockReads (with_clockReads this3 _) _)
              text context) with (getCacheKey this3 text context).
    destruct (JsMap.get (cache this3) _) as [c|]; [|reflexivity].
    now destruct (truthy (Entry.translated c)). }
  assert (Hserved : forall text context hit,
             fst (getCachedTranslation (final out) text context) = Some hit ->
             fst (getCachedTranslation this2 text context) = Some hit).
  { intros text context hit Hhit. rewrite Hfinal in Hhit.
    rewrite Hthis2, Ecf.
    apply (saved_hit_is_loaded w this3 disk fresh2); try assumption.
    - rewrite Hm2, Em3, Em2. exact (eq_sym Hm).
    - rewrite Hl2, El3, El2. exact (eq_sym Hl). }
  split; [exact Hserved|].
  intros out2 Hall Hrun2.
  destruct (all_hits_silent w' this2 data texts (cacheFile out) out2 Htexts)
    as [Hs Ha]; [|exact Hrun2|now rewrite Hs, Ha].
  intros item Hin. specialize (Hall item Hin). unfold is_hit in *.
  destruct (fst (getCachedTranslation (final out) (Item.text item)
                   (Item.context item))) as [hit|] eqn:E; [|discriminate].
  now rewrite (Hserved _ _ _ E).
Qed.

Lemma second_run_is_served_witness :
  exists out this2 out2,
    translateTexts Sample.one_line_world
      (Sample.translator []) (Sample.extracted ["Settings"%string]) Missing
    = Some out
    /\ constructor (Sample.env "gpt-4o-mini") (cacheFile out) = Some this2
    /\ translateTexts Sample.world this2
         (Sample.extracted ["Settings"%string]) (cacheFile out) = Some out2
    /\ sent (final out2) = [] /\ apiCalls (final out2) = 0.
Proof.
  eexists _, _, _. split; [vm_compute; reflexivity|].
  split; [vm_compute; reflexivity|]. split; [vm_compute; reflexivity|].
  refine (proj2 (second_run_is_served Sample.one_line_world Sample.world
                   (Sample.env "gpt-4o-mini") Missing
                   {| metadata := None; texts := Some [Sample.item "Settings"] |}
                   [Sample.item "Settings"] (Sample.translator []) _ _
                   _ _ _ _ _ _) _ _ _).
  - vm_compute. reflexivity.
  - constructor.
  - reflexivity.
  - discriminate.
  - vm_compute. reflexivity.
  - vm_compute. reflexivity.
  - intros item [<-|[]]. vm_compute. reflexivity.
  - vm_compute. reflexivity.
Defined.

End SecondRun.

(* ================================================================== *)
(** * What the matcher decides *)
(* ================================================================== *)

Section PatternFacts.
Import Pattern.

Lemma lang_seq_inv a b s :
  lang (Seq a b) s ->
  exists s1 s2, s = s1 ++ s2 /\ lang a s1 /\ lang b s2.
Proof.
  intros H. inversion H; subst. eexists _, _. now repeat split.
Qed.

Lemma nullable_lang r : nullable r = true <-> lang r [].
Proof.
  induction r as [| |k|a IHa b IHb|a IHa b IHb|a IHa]; simpl.
  - split; [discriminate|]. intros H. inversion H.
  - split; [constructor|reflexivity].
  - split; [discriminate|]. intros H. inversion H.
  - rewrite andb_true_iff, IHa, IHb. split.
    + intros [Ha Hb]. exact (lang_seq a b [] [] Ha Hb).
    + intros H. apply lang_seq_inv in H. destruct H as (s1 & s2 & E & Ha & Hb).
      symmetry in E. apply app_eq_nil in E. destruct E as [-> ->]. now split.
  - rewrite orb_true_iff, IHa, IHb. split.
    + intros [H|H]; [now apply lang_alt_l|now apply lang_alt_r].
    + intros H. inversion H; subst; [now left|now right].
  - split; [constructor|reflexivity].
Qed.

Lemma lang_star_cons_inv a w :
  lang (Star a) w ->
  forall c s, w = c :: s ->
    exists s1 s2, s = s1 ++ s2 /\ lang a (c :: s1) /\ lang (Star a) s2.
Proof.
  remember (Star a) as r eqn:Er. intros H. revert Er.
  induction H as [| | | | | |a' s1 s2 H1 _ H2 IH2]; intros Er; try discriminate.
  injection Er as ->. intros c s E. destruct s1 as [|x s1'].
  - simpl in E. exact (IH2 eq_refl c s E).
  - simpl in E. injection E as -> <-. exists s1', s2. now repeat split.
Qed.

Lemma deriv_lang c r : forall s, lang (deriv c r) s <-> lang r (c :: s).
Proof.
  induction r as [| |k|a IHa b IHb|a IHa b IHb|a IHa]; intros s; simpl.
  - split; intros H; inversion H.
  - split; intros H; inversion H.
  - destruct (member k c) eqn:E; split; intros H.
    + inversion H; subst. now constructor.
    + inversion H; subst. constructor.
    + inversion H.
    + inversion H; subst. congruence.
  - assert (Hseq : lang (Seq (deriv c a) b) s -> lang (Seq a b) (c :: s)).
    { intros H. apply lang_seq_inv in H.
      destruct H as (s1 & s2 & -> & Ha & Hb).
      apply IHa in Ha. exact (lang_seq a b (c :: s1) s2 Ha Hb). }
    assert (Hinv : lang (Seq a b) (c :: s) ->
                   lang (Seq (deriv c a) b) s
                   \/ (lang a [] /\ lang b (c :: s))).
    { intros H. apply lang_seq_inv in H.
      destruct H as (s1 & s2 & E & Ha & Hb).
      destruct s1 as [|x s1'].
      - simpl in E. subst s2. now right.
      - simpl in E. injection E as <- ->. left.
        apply (lang_seq (deriv c a) b s1' s2); [now apply IHa|exact Hb]. }
    destruct (nullable a) eqn:En.
    + split.
      * intros H. inversion H; subst; [now apply Hseq|].
        apply nullable_lang in En.
        apply (lang_seq a b [] (c :: s) En). now apply IHb.
      * intros H. destruct (Hinv H) as [H'|[_ Hb]];
          [now apply lang_alt_l|apply lang_alt_r; now apply IHb].
    + split; [exact Hseq|].
      intros H. destruct (Hinv H) as [H'|[Ha _]]; [exact H'|].
      apply nullable_lang in Ha. congruence.
  - split; intros H; inversion H; subst.
    + apply lang_alt_l. now apply IHa.
    + apply lang_alt_r. now apply IHb.
    + apply lang_alt_l. now apply IHa.
    + apply lang_alt_r. now apply IHb.
  - split.
    + intros H. apply lang_seq_inv in H.
      destruct H as (s1 & s2 & -> & Ha & Hb).
      apply IHa in Ha. exact (lang_star_more a (c :: s1) s2 Ha Hb).
    + intros H.
      destruct (lang_star_cons_inv a _ H c s eq_refl)
        as (s1 & s2 & -> & Ha & Hs).
      apply (lang_seq (deriv c a) (Star a) s1 s2); [now apply IHa|exact Hs].
Qed.

(** The matcher decides the strings of the pattern. *)
Lemma matches_lang s : forall r, matches r s = true <-> lang r s.
Proof.
  unfold matches. induction s as [|c s IH]; intros r; simpl.
  - apply nullable_lang.
  - rewrite IH. apply deriv_lang.
Qed.

Lemma lang_anything s : lang anything s.
Proof.
  unfold anything. induction s as [|c s IH]; [constructor|].
  apply (lang_star_more _ [c] s); [|exact IH]. now constructor.
Qed.

(** An alternative matches in a string when a part of the string is a
    string of its body, at the start after [^] and at the end before
    [$]. *)
Lemma frame_lang a s :
  lang (frame a) s
  <-> exists pre w post,
        s = pre ++ w ++ post /\ lang (body a) w
        /\ (fromStart a = true -> pre = [])
        /\ (toEnd a = true -> post = []).
Proof.
  unfold frame. split.
  - intros H. apply lang_seq_inv in H.
    destruct H as (pre & rest & -> & Hpre & Hrest).
    apply lang_seq_inv in Hrest. destruct Hrest as (w & post & -> & Hw & Hpost).
    exists pre, w, post. split; [reflexivity|]. split; [exact Hw|]. split.
    + intros E. rewrite E in Hpre. now inversion Hpre.
    + intros E. rewrite E in Hpost. now inversion Hpost.
  - intros (pre & w & post & -> & Hw & Hs & He).
    apply lang_seq; [|apply lang_seq; [exact Hw|]].
    + destruct (fromStart a); [rewrite Hs by reflexivity; constructor
                              |apply lang_anything].
    + destruct (toEnd a); [rewrite He by reflexivity; constructor
                          |apply lang_anything].
Qed.

Lemma test_lang pattern s :
  test pattern s = true
  <-> exists a, In a (alternatives pattern) /\ lang (frame a) s.
Proof.
  unfold test. rewrite existsb_exists. split.
  - intros (a & Hin & H). exists a. split; [exact Hin|]. now apply matches_lang.
  - intros (a & Hin & H). exists a. split; [exact Hin|]. now apply matches_lang.
Qed.

Lemma never_has_sound x r s :
  lang r s -> never_has x r = true -> ~ In x s.
Proof.
  induction 1 as [|k c Hk|a b s1 s2 _ IH1 _ IH2|a b s _ IH|a b s _ IH
                 |a|a s1 s2 _ IH1 _ IH2]; simpl; intros Hn.
  - tauto.
  - intros [<-|[]]. rewrite Hk in Hn. discriminate.
  - apply andb_prop in Hn. destruct Hn as [Ha Hb]. rewrite in_app_iff.
    intros [H|H]; [now apply IH1|now apply IH2].
  - apply andb_prop in Hn. now apply IH.
  - apply andb_prop in Hn. now apply IH.
  - tauto.
  - rewrite in_app_iff. intros [H|H]; [now apply IH1|now apply IH2].
Qed.

Lemma apart_sound k ranges c :
  apart k ranges = true -> member k c = true -> in_ranges ranges c = false.
Proof.
  intros Ha Hm. destruct (in_ranges ranges c) eqn:E; [|reflexivity].
  exfalso. unfold in_ranges in E. apply existsb_exists in E.
  destruct E as (q & Hq & Hc). apply andb_prop in Hc. destruct Hc as [H1 H2].
  apply N.leb_le in H1, H2. destruct k as [rs|rs]; simpl in *.
  - unfold in_ranges in Hm. apply existsb_exists in Hm.
    destruct Hm as (r & Hr & Hrc). apply andb_prop in Hrc.
    destruct Hrc as [H3 H4]. apply N.leb_le in H3, H4.
    rewrite forallb_forall in Ha. specialize (Ha r Hr).
    rewrite forallb_forall in Ha. specialize (Ha q Hq).
    apply orb_prop in Ha. destruct Ha as [Ha|Ha]; apply N.ltb_lt in Ha; lia.
  - rewrite forallb_forall in Ha. specialize (Ha q Hq).
    apply existsb_exists in Ha. destruct Ha as (r & Hr & Hrq).
    apply andb_prop in Hrq. destruct Hrq as [H3 H4]. apply N.leb_le in H3, H4.
    apply negb_true_iff in Hm. unfold in_ranges in Hm.
    assert (Hin : existsb (fun r => (N.leb (fst r) c && N.leb c (snd r))%N) rs
                  = true).
    { apply existsb_exists. exists r. split; [exact Hr|].
      apply andb_true_intro. split; apply N.leb_le; lia. }
    congruence.
Qed.

Lemma empty_over_sound ranges r s :
  lang r s -> empty_over ranges r = true ->
  ~ Forall (fun c => in_ranges ranges c = true) s.
Proof.
  induction 1 as [|k c Hk|a b s1 s2 _ IH1 _ IH2|a b s _ IH|a b s _ IH
                 |a|a s1 s2 _ IH1 _ IH2]; simpl; intros He Hall;
    try discriminate.
  - inversion Hall as [|? ? Hc _]; subst.
    rewrite (apart_sound k ranges c He Hk) in Hc. discriminate.
  - apply Forall_app in Hall. destruct Hall as [H1 H2].
    apply orb_prop in He. destruct He as [He|He];
      [now apply IH1|now apply IH2].
  - apply andb_prop in He. now apply IH.
  - apply andb_prop in He. now apply IH.
Qed.

Lemma begins_outside_sound ranges r s :
  lang r s -> begins_outside ranges r = true ->
  exists c s', s = c :: s' /\ in_ranges ranges c = false.
Proof.
  induction 1 as [|k c Hk|a b s1 s2 _ IH1 _ IH2|a b s _ IH|a b s _ IH
                 |a|a s1 s2 _ IH1 _ IH2]; simpl; intros Hb;
    try discriminate.
  - exists c, []. split; [reflexivity|]. now apply (apart_sound k).
  - destruct (IH1 Hb) as (c & s' & -> & Hc). exists c, (s' ++ s2).
    now split.
  - apply andb_prop in Hb. now apply IH.
  - apply andb_prop in Hb. now apply IH.
Qed.

End PatternFacts.

(* ================================================================== *)
(** * The filters of the extractors *)
(* ================================================================== *)

Section FilterFacts.
Import Pattern.

Lemma startsWith_spec k : forall s,
  startsWith k s = true <-> exists post, s = k ++ post.
Proof.
  induction k as [|a k IH]; intros s; simpl.
  - split; [intros _; now exists s|reflexivity].
  - destruct s as [|b s].
    + split; [discriminate|]. intros [post H]. discriminate.
    + rewrite andb_true_iff, N.eqb_eq, IH. split.
      * intros [-> [post ->]]. now exists post.
      * intros [post H]. injection H as -> ->. split; [reflexivity|].
        now exists post.
Qed.

Lemma includes_spec k : forall s,
  includes k s = true <-> exists pre post, s = pre ++ k ++ post.
Proof.
  induction s as [|c s IH].
  - simpl. rewrite orb_false_r, startsWith_spec. split.
    + intros [post H]. now exists [], post.
    + intros (pre & post & H). destruct pre; [now exists post|discriminate].
  - change (includes k (c :: s))
      with (startsWith k (c :: s) || includes k s).
    rewrite orb_true_iff, startsWith_spec, IH. split.
    + intros [[post H]|(pre & post & H)].
      * now exists [], post.
      * exists (c :: pre), post. simpl. now rewrite H.
    + intros (pre & post & H). destruct pre as [|x pre].
      * left. now exists post.
      * right. injection H as _ ->. now exists pre, post.
Qed.

Lemma includes_blank s : includes (js " ") s = true <-> In 32%N s.
Proof.
  rewrite includes_spec. split.
  - intros (pre & post & ->). rewrite in_app_iff. right. now left.
  - intros H. apply in_split in H. destruct H as (pre & post & ->).
    now exists pre, post.
Qed.

(** What [trim] leaves is a part of the string. *)
Lemma trim_part s : exists pre post, s = pre ++ trim s ++ post.
Proof.
  unfold trim, trimEnd, trimStart.
  destruct (dropWhile_suffix is_whitespace s) as [pre Hpre].
  set (u := dropWhile is_whitespace s) in *.
  destruct (dropWhile_suffix is_whitespace (rev u)) as [post Hpost].
  exists pre, (rev post). rewrite <- rev_app_distr, <- Hpost, rev_involutive.
  exact Hpre.
Qed.

Lemma trim_In x s : In x (trim s) -> In x s.
Proof.
  destruct (trim_part s) as (pre & post & E). intros H. rewrite E.
  rewrite !in_app_iff. tauto.
Qed.

Lemma trim_Forall (P : char -> Prop) s : Forall P s -> Forall P (trim s).
Proof.
  destruct (trim_part s) as (pre & post & E). intros H. rewrite E in H.
  apply Forall_app in H. destruct H as [_ H].
  apply Forall_app in H. tauto.
Qed.

Lemma lang_star_class k s :
  Forall (fun c => member k c = true) s -> lang (Star (Chr k)) s.
Proof.
  induction 1 as [|c s Hc _ IH]; [constructor|].
  apply (lang_star_more _ [c] s); [now constructor|exact IH].
Qed.

Lemma lang_plus_class k s :
  s <> [] -> Forall (fun c => member k c = true) s -> lang (Plus (Chr k)) s.
Proof.
  intros Hs Hall. destruct s as [|c s]; [congruence|].
  inversion Hall as [|? ? Hc Hrest]; subst.
  apply (lang_seq _ _ [c] s); [now constructor|now apply lang_star_class].
Qed.

Lemma fold_case_member x c :
  fold_case x = x ->
  member (OneOf (both_cases x)) c = true <-> fold_case c = x.
Proof.
  unfold fold_case, both_cases, member, in_ranges, one. intros Hx.
  destruct (N.leb_spec 65 x), (N.leb_spec x 90), (N.leb_spec 97 x),
    (N.leb_spec x 122), (N.leb_spec 65 c), (N.leb_spec c 90);
    simpl in *; try lia;
    rewrite ?orb_false_r, ?orb_true_iff, ?andb_true_iff, ?N.leb_le; lia.
Qed.

Lemma lang_LitI w :
  Forall (fun x => fold_case x = x) w ->
  forall v, lang (LitI w) v <-> List.map fold_case v = w.
Proof.
  induction 1 as [|x w Hx _ IH]; intros v; simpl.
  - split.
    + intros H. now inversion H.
    + intros H. apply map_eq_nil in H. subst. constructor.
  - split.
    + intros H. apply lang_seq_inv in H.
      destruct H as (s1 & s2 & -> & H1 & H2).
      inversion H1 as [|k c Hc| | | | |]; subst. simpl.
      apply (fold_case_member x c Hx) in Hc. apply IH in H2. congruence.
    + intros H. destruct v as [|c v]; [discriminate|].
      simpl in H. injection H as Hc Hv.
      apply (lang_seq _ _ [c] v); [|now apply IH].
      constructor. now apply fold_case_member.
Qed.

(** The pattern of a word under the flag [i] matches in the strings
    that mention the word. *)
Lemma mentions_lang w s :
  Forall (fun x => fold_case x = x) w ->
  mentions w s = true <-> lang (frame (inside (LitI w))) s.
Proof.
  intros Hw. unfold mentions. rewrite includes_spec, frame_lang. simpl. split.
  - intros (pre' & post' & E).
    apply map_eq_app in E. destruct E as (pre & rest & -> & _ & E).
    apply map_eq_app in E. destruct E as (v & post & -> & Hv & _).
    exists pre, v, post. split; [reflexivity|].
    split; [now apply lang_LitI|]. split; discriminate.
  - intros (pre & v & post & -> & Hv & _).
    apply (lang_LitI w Hw) in Hv.
    exists (List.map fold_case pre), (List.map fold_case post).
    now rewrite !List.map_app, Hv.
Qed.

Lemma console_words_folded w :
  In w console_words -> Forall (fun x => fold_case x = x) w.
Proof.
  intros H. unfold console_words in H.
  repeat (destruct H as [<-|H]; [vm_compute; repeat constructor|]).
  destruct H.
Qed.

(** The pattern of the console methods matches in the strings that
    mention one of its words. *)
Lemma console_pattern_lang source s :
  test (RegEx source console_pattern) s = false
  <-> forall w, In w console_words -> mentions w s = false.
Proof.
  split.
  - intros H w Hw. destruct (mentions w s) eqn:E; [|reflexivity].
    apply (mentions_lang w s (console_words_folded w Hw)) in E.
    assert (Ht : test (RegEx source console_pattern) s = true).
    { apply test_lang. exists (inside (LitI w)). split; [|exact E].
      change (In (inside (LitI w)) console_pattern).
      unfold console_pattern. apply in_map_iff. now exists w. }
    congruence.
  - intros H. destruct (test (RegEx source console_pattern) s) eqn:E;
      [|reflexivity].
    apply test_lang in E. destruct E as (a & Ha & Hl).
    change (In a console_pattern) in Ha.
    unfold console_pattern in Ha. apply in_map_iff in Ha.
    destruct Ha as (w & <- & Hw).
    apply (mentions_lang w s (console_words_folded w Hw)) in Hl.
    rewrite (H w Hw) in Hl. discriminate.
Qed.

(** A quiet alternative matches in no phrase of several words. *)
Lemma quiet_silent capital a s :
  quiet capital a = true ->
  Forall (fun c => in_ranges phrase c = true) s ->
  In 32%N s ->
  (capital = true ->
   exists c rest, s = c :: rest /\ in_ranges [A_Z] c = true) ->
  ~ lang (frame a) s.
Proof.
  intros Hq Hall Hblank Hcap Hl. apply frame_lang in Hl.
  destruct Hl as (pre & w & post & -> & Hw & Hpre & Hpost).
  unfold quiet in Hq. apply orb_prop in Hq. destruct Hq as [Hq|Hq];
    [apply orb_prop in Hq; destruct Hq as [Hq|Hq]|].
  - apply andb_prop in Hq. destruct Hq as [Hq Hn].
    apply andb_prop in Hq. destruct Hq as [Hs He].
    rewrite (Hpre Hs), (Hpost He), app_nil_r in Hblank. simpl in Hblank.
    exact (never_has_sound 32%N _ _ Hw Hn Hblank).
  - apply Forall_app in Hall. destruct Hall as [_ Hall].
    apply Forall_app in Hall. destruct Hall as [Hall _].
    exact (empty_over_sound phrase _ _ Hw Hq Hall).
  - apply andb_prop in Hq. destruct Hq as [Hq Hb].
    apply andb_prop in Hq. destruct Hq as [Hc Hs].
    destruct (begins_outside_sound [A_Z] _ _ Hw Hb) as (c & w' & -> & Hout).
    destruct (Hcap Hc) as (c' & rest & E & Hin).
    rewrite (Hpre Hs) in E. simpl in E. injection E as <- _. congruence.
Qed.

Lemma quiet_patterns capital patterns s :
  (forall p, In p patterns ->
     alternatives p = console_pattern
     \/ forallb (quiet capital) (alternatives p) = true) ->
  Forall (fun c => in_ranges phrase c = true) s ->
  In 32%N s ->
  (capital = true ->
   exists c rest, s = c :: rest /\ in_ranges [A_Z] c = true) ->
  (forall w, In w console_words -> mentions w s = false) ->
  existsb (fun pattern => test pattern s) patterns = false.
Proof.
  intros Hq Hall Hblank Hcap Hcon.
  destruct (existsb (fun pattern => test pattern s) patterns) eqn:E;
    [|reflexivity].
  exfalso. apply existsb_exists in E. destruct E as (p & Hp & Ht).
  destruct (Hq p Hp) as [Hc|Hc].
  - assert (Hf : test (RegEx (source p) console_pattern) s = false)
      by now apply console_pattern_lang.
    unfold test in Hf, Ht.
    change (alternatives (RegEx (source p) console_pattern))
      with console_pattern in Hf.
    rewrite Hc in Ht. congruence.
  - apply test_lang in Ht. destruct Ht as (a & Ha & Hl).
    rewrite forallb_forall in Hc.
    exact (quiet_silent capital a s (Hc a Ha) Hall Hblank Hcap Hl).
Qed.

Lemma existsb_none {A : Type} (f : A -> bool) l x :
  existsb f l = false -> In x l -> f x = false.
Proof.
  intros H Hx. destruct (f x) eqn:E; [|reflexivity].
  assert (existsb f l = true) by (apply existsb_exists; now exists x).
  congruence.
Qed.

Lemma letters_test s : 0 < letters s -> test a_letter s = true.
Proof.
  unfold letters. intros H.
  destruct (List.filter (in_ranges [a_z; A_Z]) s) as [|c l] eqn:E;
    [simpl in H; lia|].
  assert (Hc : In c (List.filter (in_ranges [a_z; A_Z]) s))
    by (rewrite E; now left).
  apply filter_In in Hc. destruct Hc as [Hin Hc].
  apply in_split in Hin. destruct Hin as (pre & post & ->).
  apply test_lang. exists (inside letter). split; [now left|].
  apply frame_lang. exists pre, [c], post. split; [reflexivity|].
  split; [now constructor|]. split; discriminate.
Qed.

Lemma terms_without_blank (terms : list jsstring) (s : jsstring) :
  forallb (fun t => negb (existsb (N.eqb 32) t)) terms = true ->
  In 32%N s -> ~ In s terms.
Proof.
  intros Hterms Hs E. rewrite forallb_forall in Hterms.
  specialize (Hterms s E). apply negb_true_iff in Hterms.
  assert (existsb (N.eqb 32) s = true)
    by (apply existsb_exists; exists 32%N; split;
        [exact Hs|apply N.eqb_refl]).
  congruence.
Qed.

End FilterFacts.

Section ExtractorFilter.
Import Pattern TextExtractor.

Lemma excludePatterns_quiet p :
  In p excludePatterns ->
  alternatives p = console_pattern
  \/ forallb (quiet false) (alternatives p) = true.
Proof.
  intros Hp. unfold excludePatterns in Hp.
  repeat (destruct Hp as [<-|Hp];
          [first [right; vm_compute; reflexivity|left; reflexivity]|]).
  destruct Hp.
Qed.

Lemma codePatterns_quiet p :
  In p codePatterns -> forallb (quiet false) (alternatives p) = true.
Proof.
  intros Hp. unfold codePatterns in Hp.
  repeat (destruct Hp as [<-|Hp]; [vm_compute; reflexivity|]).
  destruct Hp.
Qed.

(** X22. What [isTranslatable] of [extract-text.js] demands.  A text
    the filter lets
    through has three to five hundred code units, one of them is no
    letter, digit, underscore, hyphen or dot (so no text of one word is
    let through), it mentions none of the console words in whatever
    case, and three in ten of its code units at least are letters of
    the ASCII alphabet. *)
Theorem isTranslatable_needs text :
  isTranslatable text = true ->
  3 <= length text <= 500
  /\ ~ Forall (fun c => in_ranges name_units c = true) text
  /\ (forall w, In w console_words -> mentions w text = false)
  /\ 3 * length text <= 10 * letters text.
Proof.
  unfold isTranslatable. intros H.
  destruct ((length text <? 3) || (500 <? length text)) eqn:Hlen;
    [discriminate|].
  destruct (existsb (fun pattern => test pattern text) excludePatterns)
    eqn:Hex; [discriminate|].
  destruct (JsArray.includes technicalTerms (trim text)); [discriminate|].
  destruct (negb (test a_letter text)); [discriminate|].
  fold (letters text) in H.
  destruct (10 * letters text <? 3 * length text) eqn:Hratio; [discriminate|].
  apply orb_false_elim in Hlen. destruct Hlen as [Hlo Hhi].
  apply Nat.ltb_ge in Hlo, Hhi, Hratio.
  split; [lia|]. split; [|split; [|exact Hratio]].
  - intros Hall.
    assert (Ht : test (RegEx "/^[a-zA-Z0-9_\-\.]+$/"
                         [whole (Plus (Chr (OneOf name_units)))]) text
                 = false).
    { apply (existsb_none _ _ _ Hex). now left. }
    assert (Hl : test (RegEx "/^[a-zA-Z0-9_\-\.]+$/"
                         [whole (Plus (Chr (OneOf name_units)))]) text
                 = true).
    { apply test_lang. eexists. split; [now left|].
      apply frame_lang. exists [], text, []. rewrite app_nil_r.
      split; [reflexivity|]. split; [|now split].
      apply lang_plus_class; [|exact Hall].
      intros ->. simpl in Hlo. lia. }
    congruence.
  - apply (console_pattern_lang "/console\.|error|warn|info|debug|log/i").
    apply (existsb_none _ _ _ Hex). do 10 right. now left.
Qed.

(** X23. What [isTranslatable] of [extract-text.js] lets through.  A
    text of three to five
    hundred letters of the ASCII alphabet and blanks, with a blank
    between its first and its last word, that mentions no console word
    and has three letters in ten code units at least, is let through. *)
Theorem isTranslatable_accepts text :
  3 <= length text <= 500 ->
  Forall (fun c => in_ranges phrase c = true) text ->
  In 32%N (trim text) ->
  (forall w, In w console_words -> mentions w text = false) ->
  3 * length text <= 10 * letters text ->
  isTranslatable text = true.
Proof.
  intros Hlen Hall Hblank Hcon Hratio. unfold isTranslatable.
  replace ((length text <? 3) || (500 <? length text)) with false
    by (symmetry; apply orb_false_intro; apply Nat.ltb_ge; lia).
  rewrite (quiet_patterns false excludePatterns text
             excludePatterns_quiet Hall (trim_In _ _ Hblank)
             ltac:(discriminate) Hcon).
  destruct (JsArray.includes technicalTerms (trim text)) eqn:Eterm.
  { exfalso. apply array_includes_In in Eterm.
    exact (terms_without_blank technicalTerms (trim text)
             ltac:(vm_compute; reflexivity) Hblank Eterm). }
  rewrite (letters_test text) by lia. simpl negb. cbv iota.
  fold (letters text).
  replace (10 * letters text <? 3 * length text) with false
    by (symmetry; apply Nat.ltb_ge; lia).
  replace (existsb (fun pattern => test pattern (trim text)) codePatterns)
    with false; [reflexivity|].
  symmetry.
  destruct (existsb (fun pattern => test pattern (trim text)) codePatterns)
    eqn:E; [|reflexivity].
  exfalso. apply existsb_exists in E. destruct E as (p & Hp & Ht).
  apply test_lang in Ht. destruct Ht as (a & Ha & Hl).
  pose proof (codePatterns_quiet p Hp) as Hq.
  rewrite forallb_forall in Hq.
  refine (quiet_silent false a (trim text) (Hq a Ha) _ Hblank _ Hl);
    [now apply trim_Forall|discriminate].
Qed.

End ExtractorFilter.

Section ExtractorFilterExample.
Import Pattern TextExtractor.

Lemma isTranslatable_needs_witness :
  isTranslatable (js "Save changes") = true
  /\ 3 <= length (js "Save changes") <= 500
  /\ ~ Forall (fun c => in_ranges name_units c = true) (js "Save changes")
  /\ (forall w, In w console_words -> mentions w (js "Save changes") = false)
  /\ 3 * length (js "Save changes") <= 10 * letters (js "Save changes").
Proof.
  split; [vm_compute; reflexivity|].
  apply (isTranslatable_needs (js "Save changes")). vm_compute. reflexivity.
Defined.

Lemma isTranslatable_accepts_witness :
  isTranslatable (js "Save changes") = true.
Proof.
  apply (isTranslatable_accepts (js "Save changes")).
  - vm_compute. lia.
  - vm_compute. repeat constructor.
  - vm_compute. do 4 right. now left.
  - intros w Hw. unfold console_words in Hw.
    repeat (destruct Hw as [<-|Hw]; [vm_compute; reflexivity|]).
    destruct Hw.
  - vm_compute. lia.
Defined.

End ExtractorFilterExample.

Section SfcFilter.
Import Pattern VueSFCExtractor.

Lemma sfc_excludePatterns_quiet p :
  In p excludePatterns ->
  alternatives p = console_pattern
  \/ forallb (quiet true) (alternatives p) = true.
Proof.
  intros Hp. unfold excludePatterns in Hp.
  repeat (destruct Hp as [<-|Hp];
          [first [right; vm_compute; reflexivity|left; reflexivity]|]).
  destruct Hp.
Qed.

(** X24. What [isTranslatableText] of the Vue SFC extractor demands.
    A text the filter
    lets through has, once trimmed, two code units at least, mentions
    none of the console words in whatever case, is not a single
    capitalised word (a capital followed by small letters only), and
    three in ten of its code units at least are letters of the ASCII
    alphabet. *)
Theorem isTranslatableText_needs text :
  isTranslatableText text = true ->
  2 <= length (trim text)
  /\ (forall w, In w console_words -> mentions w (trim text) = false)
  /\ ~ (exists c rest,
          trim text = c :: rest /\ in_ranges [A_Z] c = true
          /\ Forall (fun x => in_ranges [a_z] x = true) rest)
  /\ 3 * length (trim text) <= 10 * letters (trim text).
Proof.
  unfold isTranslatableText. intros H.
  destruct (negb (truthy text)); [discriminate|].
  remember (trim text) as t eqn:Et.
  destruct ((length t <? 2) || negb (test a_letter t)) eqn:Hlen;
    [discriminate|].
  destruct (existsb (fun pattern => test pattern t) excludePatterns)
    eqn:Hex; [discriminate|].
  destruct (JsArray.includes technicalTerms (Path.toLowerCase t));
    [discriminate|].
  fold (letters t) in H.
  destruct (10 * letters t <? 3 * length t) eqn:Hratio; [discriminate|].
  apply orb_false_elim in Hlen. destruct Hlen as [Hlo _].
  apply Nat.ltb_ge in Hlo, Hratio.
  split; [exact Hlo|]. split; [|split; [|exact Hratio]].
  - apply (console_pattern_lang "/console\.|error|warn|info|debug|log/i").
    apply (existsb_none _ _ _ Hex). do 11 right. now left.
  - intros (c & rest & -> & Hc & Hrest).
    assert (Ht : test (RegEx "/^[A-Z][a-z]*$/"
                         [whole (Seq capital (Star small))]) (c :: rest)
                 = false).
    { apply (existsb_none _ _ _ Hex). do 22 right. now left. }
    assert (Hl : test (RegEx "/^[A-Z][a-z]*$/"
                         [whole (Seq capital (Star small))]) (c :: rest)
                 = true).
    { apply test_lang. eexists. split; [now left|].
      apply frame_lang. exists [], (c :: rest), []. rewrite app_nil_r.
      split; [reflexivity|]. split; [|now split].
      apply (lang_seq capital (Star small) [c] rest);
        [now constructor|now apply lang_star_class]. }
    congruence.
Qed.

(** X25. What [isTranslatableText] of the Vue SFC extractor lets
    through.  A text that, once
    trimmed, begins with a capital, goes on with letters of the ASCII
    alphabet and blanks, one blank at least, mentions no console word
    and has three letters in ten code units at least, is let
    through. *)
Theorem isTranslatableText_accepts text c rest :
  trim text = c :: rest ->
  in_ranges [A_Z] c = true ->
  Forall (fun x => in_ranges phrase x = true) rest ->
  In 32%N rest ->
  (forall w, In w console_words -> mentions w (trim text) = false) ->
  3 * length (trim text) <= 10 * letters (trim text) ->
  isTranslatableText text = true.
Proof.
  intros Ht Hc Hrest Hblank Hcon Hratio. unfold isTranslatableText.
  assert (Htruthy : truthy text = true).
  { destruct text; [discriminate Ht|reflexivity]. }
  rewrite Htruthy. simpl negb. cbv iota.
  remember (trim text) as t eqn:Et.
  assert (Hall : Forall (fun x => in_ranges phrase x = true) t).
  { rewrite Ht. constructor; [|exact Hrest].
    unfold phrase, in_ranges in *. simpl in *.
    rewrite orb_false_r in Hc. rewrite Hc. now rewrite orb_true_r. }
  assert (Hin : In 32%N t) by (rewrite Ht; now right).
  assert (Hlen : 2 <= length t).
  { rewrite Ht. destruct rest; [destruct Hblank|simpl; lia]. }
  replace (length t <? 2) with false by (symmetry; apply Nat.ltb_ge; lia).
  rewrite (letters_test t) by lia. simpl orb. cbv iota.
  rewrite (quiet_patterns true excludePatterns t
             sfc_excludePatterns_quiet Hall Hin
             (fun _ => ex_intro _ c (ex_intro _ rest (conj Ht Hc))) Hcon).
  destruct (JsArray.includes technicalTerms (Path.toLowerCase t)) eqn:Eterm.
  { exfalso. apply array_includes_In in Eterm.
    refine (terms_without_blank technicalTerms (Path.toLowerCase t)
              ltac:(vm_compute; reflexivity) _ Eterm).
    unfold Path.toLowerCase.
    exact (in_map Path.lower t 32%N Hin). }
  fold (letters t).
  replace (10 * letters t <? 3 * length t) with false
    by (symmetry; apply Nat.ltb_ge; lia).
  rewrite (proj2 (includes_blank t) Hin). reflexivity.
Qed.

End SfcFilter.

Section SfcFilterExample.
Import Pattern VueSFCExtractor.

Lemma isTranslatableText_needs_witness :
  isTranslatableText (js "  Save changes ") = true
  /\ 2 <= length (trim (js "  Save changes "))
  /\ (forall w, In w console_words ->
        mentions w (trim (js "  Save changes ")) = false)
  /\ ~ (exists c rest,
          trim (js "  Save changes ") = c :: rest
          /\ in_ranges [A_Z] c = true
          /\ Forall (fun x => in_ranges [a_z] x = true) rest)
  /\ 3 * length (trim (js "  Save changes "))
     <= 10 * letters (trim (js "  Save changes ")).
Proof.
  split; [vm_compute; reflexivity|].
  apply (isTranslatableText_needs (js "  Save changes ")).
  vm_compute. reflexivity.
Defined.

Lemma isTranslatableText_accepts_witness :
  isTranslatableText (js "  Save changes ") = true.
Proof.
  apply (isTranslatableText_accepts (js "  Save changes ")
           83%N (js "ave changes")).
  - vm_compute. reflexivity.
  - vm_compute. reflexivity.
  - vm_compute. repeat constructor.
  - vm_compute. do 3 right. now left.
  - intros w Hw. unfold console_words in Hw.
    repeat (destruct Hw as [<-|Hw]; [vm_compute; reflexivity|]).
    destruct Hw.
  - vm_compute. lia.
Defined.

End SfcFilterExample.
